(** * chel-serdes: the serializer / deserializer pair of [src/index.ts]

    A shallow embedding of the codec that augments [structuredClone] with
    support for [undefined], [Map], [Set], custom classes, errors and
    functions.  The two entry points of the source, [serializer] and
    [deserializer], are both written as

      JSON.parse(JSON.stringify(data, replacer), reviver)

    so the embedding has three layers:

    - the JavaScript values the codec looks at, with the host objects that
      have an identity and can be mutated (errors, ports, buffers) kept in an
      explicit heap;
    - the two host primitives [JSON.stringify] and [JSON.parse], modelled as
      the tree walks of ECMA-262 (SerializeJSONProperty and
      InternalizeJSONProperty) over a [json] tree that stands for the text;
    - the four callbacks of the source and the registry. *)

From Stdlib Require Import ZArith String List Bool Lia.
From Stdlib Require Import Floats.SpecFloat.
From stdpp Require Import base option list strings gmap.

(** ** Values *)

(** Heap locations name the host objects that are shared by reference. *)
Abbreviation loc := nat (only parsing).

(** A JavaScript value as the codec can tell it apart.  Numbers are IEEE-754
    doubles ([spec_float] of the Standard Library).  An array slot is [None]
    when the index is a hole (the property is absent).  [VRaw] is an array that
    is a member of the current call's [rawResultSet]: the set is created empty
    by every call and only receives arrays the callbacks build, so membership
    is a property of the array that is fixed when it is built.  [VInstance c
    props] is an object whose prototype's [constructor] is the user function
    [c]; [props] are the members [JSON.stringify] can see: the own enumerable
    properties and, under the key ["toJSON"], the method of that name when the
    object has or inherits one.  [VProxy mp] is the closure the decoder builds
    around the endpoint [mp]. *)
Unset Elimination Schemes.
Inductive value : Type :=
| VUndefined
| VNull
| VBool (b : bool)
| VNumber (n : spec_float)
| VBigInt (z : Z)
| VString (s : string)
| VArray (elems : list (option value))
| VRaw (elems : list value)
| VObject (props : list (string * value))
| VInstance (ctor : nat) (props : list (string * value))
| VMap (entries : list (value * value))
| VSet (elems : list value)
| VRef (l : loc)
| VFunction (f : nat)
| VProxy (mp : value).
Set Elimination Schemes.

(** Host objects with identity.  [HError] carries the three fields the codec
    reads or writes; a port knows its peer and the function its [onmessage]
    handler bridges to. *)
Inductive hobj : Type :=
| HBlob
| HFile
| HError (name : string) (message : string) (cause : value)
| HMessagePort (peer : loc) (onmessage : option value)
| HReadableStream
| HWritableStream
| HArrayBuffer
| HArrayBufferView (buffer : loc).

Abbreviation heap := (list hobj).

(** ** Outcomes *)

Inductive exn : Type :=
| TypeError (msg : string)
| SyntaxError (msg : string)
| PlainError (msg : string).

(** A computation returns, throws, exhausts the recursion budget of the
    embedding, or leaves the fragment of JavaScript that is modelled. *)
Inductive outcome (A : Type) : Type :=
| Ok (a : A)
| Throw (e : exn)
| OutOfFuel
| Unmodelled.
Arguments Ok {A} a.
Arguments Throw {A} e.
Arguments OutOfFuel {A}.
Arguments Unmodelled {A}.

#[global] Instance outcome_ret : MRet outcome := @Ok.
#[global] Instance outcome_bind : MBind outcome := λ A B f m,
  match m with
  | Ok a => f a
  | Throw e => Throw e
  | OutOfFuel => OutOfFuel
  | Unmodelled => Unmodelled
  end.

(** ** Primitive operations on values *)

Abbreviation sentinel := (VString "_").

(** ToBoolean. *)
Definition truthy (v : value) : bool :=
  match v with
  | VUndefined | VNull => false
  | VBool b => b
  | VNumber (S754_zero _) | VNumber S754_nan => false
  | VNumber _ => true
  | VBigInt z => negb (Z.eqb z 0)
  | VString s => negb (String.eqb s "")
  | _ => true
  end.

(** The number of an array position, and the position a number names when it
    is used as an index. *)
Definition number_of_nat (n : nat) : spec_float :=
  match n with
  | O => S754_zero false
  | S _ => S754_finite false (Pos.of_nat n) 0
  end.

Definition index_of_number (n : spec_float) : option nat :=
  match n with
  | S754_zero _ => Some O
  | S754_finite false m e =>
      if (0 <=? e)%Z then Some (Pos.to_nat m * 2 ^ Z.to_nat e)
      else if (Z.pos m mod 2 ^ (- e) =? 0)%Z
           then Some (Z.to_nat (Z.pos m / 2 ^ (- e)))
           else None
  | _ => None
  end.

(** Array.isArray, returning the slots. *)
Definition as_array (v : value) : option (list (option value)) :=
  match v with
  | VArray elems => Some elems
  | VRaw elems => Some (Some <$> elems)
  | _ => None
  end.

(** [a[i]] for an integer index: a hole or an index out of range reads as
    [undefined]. *)
Definition array_get (elems : list (option value)) (i : nat) : value :=
  default VUndefined (mjoin (elems !! i)).

(** [[...a]]: the iterator reads every index, holes included. *)
Definition spread (elems : list (option value)) : list value :=
  default VUndefined <$> elems.

(** [x === "s"] for a string literal. *)
Definition is_string (s : string) (v : value) : bool :=
  match v with
  | VString s' => String.eqb s' s
  | _ => false
  end.

(** [typeof v === 'function'] *)
Definition is_function (v : value) : bool :=
  match v with
  | VFunction _ | VProxy _ => true
  | _ => false
  end.

(** Own property lookup on a plain object. *)
Fixpoint get_prop (props : list (string * value)) (k : string) : value :=
  match props with
  | [] => VUndefined
  | (k', v) :: rest => if String.eqb k' k then v else get_prop rest k
  end.

(** [GetV(value, "toJSON")], which [JSON.stringify] reads before it calls the
    replacer.  Arrays, [Map]s, [Set]s, functions and the host objects of the
    heap have no such member. *)
Definition toJSON_of (v : value) : value :=
  match v with
  | VObject props | VInstance _ props => get_prop props "toJSON"
  | _ => VUndefined
  end.

(** ** JSON trees *)

(** The text between [JSON.stringify] and [JSON.parse].  Printing and reading
    JSON text are inverse to each other on these trees, so the tree stands for
    the text. *)
Unset Elimination Schemes.
Inductive json : Type :=
| JNull
| JBool (b : bool)
| JNumber (n : spec_float)
| JString (s : string)
| JArray (items : list json)
| JObject (members : list (string * json)).
Set Elimination Schemes.

(** A number as JSON text: non-finite numbers print as [null], and [-0] prints
    as [0]. *)
Definition json_of_number (n : spec_float) : json :=
  match n with
  | S754_nan | S754_infinity _ => JNull
  | S754_zero _ => JNumber (S754_zero false)
  | S754_finite _ _ _ => JNumber n
  end.

(** A reviver that returns [undefined] deletes the property: an array keeps a
    hole at that index. *)
Definition slot_of (v : value) : option value :=
  match v with
  | VUndefined => None
  | _ => Some v
  end.

Section JSON.
Context {St : Type}.

(** *** JSON.stringify(data, replacer)

    SerializeJSONProperty with a replacer function.  Neither callback of the
    source looks at its [_key] argument or at [this], so the replacer is a
    function of the value and of the state it closes over.  An object with a
    callable [toJSON] member is replaced by what [value.toJSON(key)] returns
    before the replacer sees it: that call of user code with the key is not
    modelled, and the walk of such an object is [Unmodelled].  [None] is the
    [undefined] result that makes an object omit the member and an array
    print [null].  What the replacer returns is walked in turn, so the depth
    of the walk is bounded by [fuel]. *)
Section stringify.
Variable replacer : St → value → outcome (St * value).

(** SerializeJSONArray: a member that serializes to [undefined] prints as
    [null]. *)
Fixpoint serialize_elements
    (ser : St → value → outcome (St * option json))
    (st : St) (l : list value) : outcome (St * list json) :=
  match l with
  | [] => Ok (st, [])
  | v :: rest =>
      '(st1, j) ← ser st v;
      '(st2, js) ← serialize_elements ser st1 rest;
      Ok (st2, default JNull j :: js)
  end.

(** SerializeJSONObject: a member that serializes to [undefined] is left
    out. *)
Fixpoint serialize_members
    (ser : St → value → outcome (St * option json))
    (st : St) (l : list (string * value))
    : outcome (St * list (string * json)) :=
  match l with
  | [] => Ok (st, [])
  | (k, v) :: rest =>
      '(st1, j) ← ser st v;
      '(st2, ms) ← serialize_members ser st1 rest;
      Ok (st2, match j with Some j => (k, j) :: ms | None => ms end)
  end.

(** What SerializeJSONProperty does with the value the replacer returned. *)
Definition serialize_value
    (ser : St → value → outcome (St * option json))
    (st : St) (v : value) : outcome (St * option json) :=
  match v with
  | VNull => Ok (st, Some JNull)
  | VBool b => Ok (st, Some (JBool b))
  | VString s => Ok (st, Some (JString s))
  | VNumber n => Ok (st, Some (json_of_number n))
  | VBigInt _ => Throw (TypeError "Do not know how to serialize a BigInt")
  | VUndefined | VFunction _ | VProxy _ => Ok (st, None)
  | VArray elems =>
      '(st1, js) ← serialize_elements ser st (spread elems);
      Ok (st1, Some (JArray js))
  | VRaw elems =>
      '(st1, js) ← serialize_elements ser st elems;
      Ok (st1, Some (JArray js))
  | VObject props | VInstance _ props =>
      '(st1, ms) ← serialize_members ser st props;
      Ok (st1, Some (JObject ms))
  | VMap _ | VSet _ => Ok (st, Some (JObject []))
  | VRef _ => Unmodelled
  end.

Fixpoint SerializeJSONProperty (fuel : nat) (st : St) (v : value)
    : outcome (St * option json) :=
  match fuel with
  | O => OutOfFuel
  | S fuel' =>
      if is_function (toJSON_of v) then Unmodelled else
      '(st1, v1) ← replacer st v;
      serialize_value (SerializeJSONProperty fuel') st1 v1
  end.

Definition JSON_stringify (fuel : nat) (st : St) (data : value)
    : outcome (St * option json) :=
  SerializeJSONProperty fuel st data.
End stringify.

(** *** JSON.parse(text, reviver)

    InternalizeJSONProperty: children first, then the reviver on the rebuilt
    value.  A revived child is stored, not walked again; a child revived to
    [undefined] is deleted. *)
Section internalize_children.
Variable internalize : St → json → outcome (St * value).

Fixpoint internalize_elements (st : St) (items : list json)
    : outcome (St * list (option value)) :=
  match items with
  | [] => Ok (st, [])
  | j :: rest =>
      '(st1, v) ← internalize st j;
      '(st2, vs) ← internalize_elements st1 rest;
      Ok (st2, slot_of v :: vs)
  end.

Fixpoint internalize_members (st : St) (members : list (string * json))
    : outcome (St * list (string * value)) :=
  match members with
  | [] => Ok (st, [])
  | (k, j) :: rest =>
      '(st1, v) ← internalize st j;
      '(st2, ps) ← internalize_members st1 rest;
      Ok (st2, match v with VUndefined => ps | _ => (k, v) :: ps end)
  end.
End internalize_children.

Section parse.
Variable reviver : St → value → outcome (St * value).

Fixpoint InternalizeJSONProperty (st : St) (j : json) : outcome (St * value) :=
  match j with
  | JNull => reviver st VNull
  | JBool b => reviver st (VBool b)
  | JNumber n => reviver st (VNumber n)
  | JString s => reviver st (VString s)
  | JArray items =>
      '(st1, elems) ← internalize_elements InternalizeJSONProperty st items;
      reviver st1 (VArray elems)
  | JObject members =>
      '(st1, props) ← internalize_members InternalizeJSONProperty st members;
      reviver st1 (VObject props)
  end.

(** [JSON.parse(undefined)] reads the text ["undefined"], which is not
    JSON. *)
Definition JSON_parse (st : St) (text : option json) : outcome (St * value) :=
  match text with
  | None => Throw (SyntaxError "Unexpected token u in JSON")
  | Some j => InternalizeJSONProperty st j
  end.
End parse.
End JSON.

(** ** User functions *)

(** What the codec can observe of a user function [f]: what a call does, and
    the three symbol-keyed static members [f[serdesTagSymbol]],
    [f[serdesSerializeSymbol]] and [f[serdesDeserializeSymbol]] ([undefined]
    when absent).  A call is given its [this] and its one argument; it does not
    touch the heap. *)
Record fn_info : Type := {
  fn_call : value → value → outcome value;
  fn_tag : value;
  fn_serialize : value;
  fn_deserialize : value
}.

(** SameValueZero, the equality of [Map] keys and [Set] members.  Objects are
    compared by identity: two heap references are the same when their
    locations are.  Arrays, plain objects, [Map]s, [Set]s and instances are
    values of the model and have no identity of their own: any two of them
    are taken for two objects, as are those the decoder has just built, so a
    collection that is given the same such object twice is outside the
    model. *)
Definition same_value_zero (a b : value) : bool :=
  match a, b with
  | VUndefined, VUndefined | VNull, VNull => true
  | VBool x, VBool y => Bool.eqb x y
  | VNumber S754_nan, VNumber S754_nan => true
  | VNumber x, VNumber y => SFeqb x y
  | VBigInt x, VBigInt y => Z.eqb x y
  | VString x, VString y => String.eqb x y
  | VRef x, VRef y => Nat.eqb x y
  | _, _ => false
  end.

(** [-0] is stored as [+0]. *)
Definition normalize_key (k : value) : value :=
  match k with
  | VNumber (S754_zero true) => VNumber (S754_zero false)
  | _ => k
  end.

(** [m.set(k, v)] and [s.add(x)] on insertion-ordered collections. *)
Fixpoint map_set (entries : list (value * value)) (k v : value)
    : list (value * value) :=
  match entries with
  | [] => [(k, v)]
  | (k', v') :: rest =>
      if same_value_zero k' k then (k', v) :: rest
      else (k', v') :: map_set rest k v
  end.

Fixpoint set_add (elems : list value) (x : value) : list value :=
  match elems with
  | [] => [x]
  | y :: rest => if same_value_zero y x then elems else y :: set_add rest x
  end.

(** The items an iterable yields to the [Map] and [Set] constructors. *)
Definition iterate (v : value) : outcome (list value) :=
  match v with
  | VArray elems => Ok (spread elems)
  | VRaw elems => Ok elems
  | VMap entries => Ok ((λ '(k, x), VArray [Some k; Some x]) <$> entries)
  | VSet elems => Ok elems
  | VString _ | VRef _ => Unmodelled
  | _ => Throw (TypeError "object is not iterable")
  end.

(** An item of the iterable read as a [[key, value]] entry. *)
Definition entry_of (e : value) : outcome (value * value) :=
  match e with
  | VArray kv => Ok (array_get kv 0, array_get kv 1)
  | VRaw kv => Ok (array_get (Some <$> kv) 0, array_get (Some <$> kv) 1)
  | VObject props | VInstance _ props => Ok (get_prop props "0", get_prop props "1")
  | VMap _ | VSet _ | VFunction _ | VProxy _ => Ok (VUndefined, VUndefined)
  | VRef _ => Unmodelled
  | _ => Throw (TypeError "Iterator value is not an entry object")
  end.

Fixpoint entries_of (items : list value) : outcome (list (value * value)) :=
  match items with
  | [] => Ok []
  | e :: rest =>
      kv ← entry_of e;
      kvs ← entries_of rest;
      Ok (kv :: kvs)
  end.

(** [new Map(v)] and [new Set(v)]. *)
Definition Map_from (v : value) : outcome value :=
  match v with
  | VUndefined | VNull => Ok (VMap [])
  | _ =>
      items ← iterate v;
      kvs ← entries_of items;
      Ok (VMap (fold_left (λ m kv, map_set m (normalize_key kv.1) kv.2) kvs []))
  end.

Definition Set_from (v : value) : outcome value :=
  match v with
  | VUndefined | VNull => Ok (VSet [])
  | _ =>
      items ← iterate v;
      Ok (VSet (fold_left (λ s x, set_add s (normalize_key x)) items []))
  end.

(** [verbatim[k]]: a number that is an array index selects the slot, any other
    number names a property no array has. *)
Definition verbatim_get (verbatim : list value) (k : value) : outcome value :=
  match k with
  | VNumber n =>
      Ok (match index_of_number n with
          | Some i => default VUndefined (verbatim !! i)
          | None => VUndefined
          end)
  | _ => Unmodelled
  end.

(** [['_', '_ref', pos]], marked by [rawResult]. *)
Definition ref_to (pos : nat) : value :=
  VRaw [sentinel; VString "_ref"; VNumber (number_of_nat pos)].

(** [Set.prototype.add] on a set of host objects, in insertion order. *)
Definition add_object (l : loc) (s : list loc) : list loc :=
  if bool_decide (l ∈ s) then s else s ++ [l].

(** ** The serializer *)

(** The mutable state one [serializer] call closes over, and the heap. *)
Record enc_state : Type := {
  st_heap : heap;
  st_verbatim : list value;
  st_transferables : list loc;
  st_revokables : list loc
}.

(** The object [serializer] returns.  The members of the two arrays are host
    objects, named by their locations. *)
Record enc_result : Type := {
  data : value;
  transferables : list loc;
  revokables : list loc
}.

Definition with_heap (st : enc_state) (h : heap) : enc_state :=
  {| st_heap := h; st_verbatim := st_verbatim st;
     st_transferables := st_transferables st; st_revokables := st_revokables st |}.

(** [verbatim[verbatim.length] = value] *)
Definition push_verbatim (st : enc_state) (v : value) : enc_state :=
  {| st_heap := st_heap st; st_verbatim := st_verbatim st ++ [v];
     st_transferables := st_transferables st; st_revokables := st_revokables st |}.

Definition add_transferable (st : enc_state) (l : loc) : enc_state :=
  {| st_heap := st_heap st; st_verbatim := st_verbatim st;
     st_transferables := add_object l (st_transferables st);
     st_revokables := st_revokables st |}.

(** The registry [deserializerTable]: an object without prototype used as a
    map from tags to bound reconstruct hooks. *)
Abbreviation registry := (gmap string (value → outcome value)).

Section codec.
Variable functions : nat → fn_info.

(** [callee.call(this, arg)].  What a proxy does when called is a remote
    call and is not part of an encoding or decoding pass. *)
Definition call (callee this arg : value) : outcome value :=
  match callee with
  | VFunction f => fn_call (functions f) this arg
  | VProxy _ => Unmodelled
  | _ => Throw (TypeError "not a function")
  end.

Section serializer_replacer.
(** The recursive use of [serializer] on [Error.cause]. *)
Variable serializer_rec : heap → value → outcome (heap * enc_result).

(** [value instanceof Error]: the branch of lines 76-84. *)
Definition replace_error (st : enc_state) (v : value) (l : loc)
    (cause : value) : outcome (enc_state * value) :=
  let pos := length (st_verbatim st) in
  let st1 := push_verbatim st v in
  st2 ← (if truthy cause then
           '(h', r) ← serializer_rec (st_heap st1) cause;
           match h' !! l with
           | Some (HError n m _) =>
               Ok (with_heap st1 (<[l := HError n m (data r)]> h'))
           | _ => Unmodelled
           end
         else Ok st1);
  match st_heap st2 !! l with
  | Some (HError n _ _) =>
      Ok (st2, VRaw [sentinel; VString "_err"; ref_to pos; VString n])
  | _ => Unmodelled
  end.

(** [typeof value === 'function']: a fresh [MessageChannel], whose
    [port1] keeps the handler that calls [value]. *)
Definition replace_function (st : enc_state) (v : value)
    : outcome (enc_state * value) :=
  let port1 := length (st_heap st) in
  let port2 := S (length (st_heap st)) in
  let h := st_heap st ++ [HMessagePort port2 (Some v); HMessagePort port1 None] in
  Ok ({| st_heap := h; st_verbatim := st_verbatim st;
         st_transferables := add_object port2 (st_transferables st);
         st_revokables := add_object port1 (st_revokables st) |},
      VRaw [sentinel; VString "_fn"; VRef port2]).

(** The replacer of lines 46-126. *)
Definition serializer_replacer (st : enc_state) (v : value)
    : outcome (enc_state * value) :=
  match v with
  | VRaw _ => Ok (st, v)
  | VUndefined => Ok (st, VRaw [sentinel; sentinel])
  | _ =>
    if negb (truthy v) then Ok (st, v) else
    match v with
    | VArray elems =>
        if is_string "_" (array_get elems 0)
        then Ok (st, VRaw (sentinel :: sentinel :: spread elems))
        else Ok (st, v)
    | VMap entries =>
        Ok (st, VRaw [sentinel; VString "Map";
                      VArray ((λ '(k, x), Some (VArray [Some k; Some x])) <$> entries)])
    | VSet elems =>
        Ok (st, VRaw [sentinel; VString "Set"; VArray (Some <$> elems)])
    | VRef l =>
        match st_heap st !! l with
        | Some HBlob | Some HFile =>
            Ok (push_verbatim st v, ref_to (length (st_verbatim st)))
        | Some (HError _ _ cause) => replace_error st v l cause
        | Some (HMessagePort _ _) | Some HReadableStream
        | Some HWritableStream | Some HArrayBuffer =>
            Ok (add_transferable (push_verbatim st v) l,
                ref_to (length (st_verbatim st)))
        | Some (HArrayBufferView buffer) =>
            Ok (add_transferable (push_verbatim st v) buffer,
                ref_to (length (st_verbatim st)))
        | None => Unmodelled
        end
    | VFunction _ | VProxy _ => replace_function st v
    | VInstance c _ =>
        let tag := fn_tag (functions c) in
        let hook := fn_serialize (functions c) in
        if truthy tag && truthy hook then
          payload ← call hook (VFunction c) v;
          Ok (st, VRaw [sentinel; VString "_custom"; tag; payload])
        else Ok (st, v)
    | _ => Ok (st, v)
    end
  end.
End serializer_replacer.

(** The reviver of lines 126-133: it undoes the [_ref] substitutions. *)
Definition serializer_reviver (verbatim : list value) (_ : unit) (v : value)
    : outcome (unit * value) :=
  match as_array v with
  | Some elems =>
      if is_string "_" (array_get elems 0) && is_string "_ref" (array_get elems 1)
      then x ← verbatim_get verbatim (array_get elems 2); Ok (tt, x)
      else Ok (tt, v)
  | None => Ok (tt, v)
  end.

(** [serializer(data)], lines 35-140.  [fuel] bounds the depth of the walk
    and the length of a chain of causes. *)
Fixpoint serializer (fuel : nat) (h : heap) (data_ : value)
    : outcome (heap * enc_result) :=
  match fuel with
  | O => OutOfFuel
  | S fuel' =>
      '(st, text) ← JSON_stringify (serializer_replacer (serializer fuel')) fuel
                      {| st_heap := h; st_verbatim := [];
                         st_transferables := []; st_revokables := [] |} data_;
      '(_, result) ← JSON_parse (serializer_reviver (st_verbatim st)) tt text;
      Ok (st_heap st,
          {| data := result;
             transferables := st_transferables st;
             revokables := st_revokables st |})
  end.

(** ** The deserializer *)


(** The replacer of lines 151-158; its state is the verbatim table. *)
Definition deserializer_replacer (verbatim : list value) (v : value)
    : outcome (list value * value) :=
  match v with
  | VInstance _ _ | VMap _ | VSet _ | VRef _ =>
      Ok (verbatim ++ [v], ref_to (length verbatim))
  | _ => Ok (verbatim, v)
  end.

Section deserializer_reviver.
Variable table : registry.
(** The recursive use of [deserializer] on [Error.cause]. *)
Variable deserializer_rec : heap → value → outcome (heap * value).
Variable verbatim : list value.

(** [case '_err'], lines 185-193. *)
Definition revive_error (h : heap) (target carried : value)
    : outcome (heap * value) :=
  match target with
  | VRef l =>
      match h !! l, carried with
      | Some (HError n m c), VString n' =>
          let h1 := if negb (String.eqb n n') then <[l := HError n' m c]> h else h in
          if truthy c then
            '(h2, c') ← deserializer_rec h1 c;
            match h2 !! l with
            | Some (HError n2 m2 _) => Ok (<[l := HError n2 m2 c']> h2, target)
            | _ => Unmodelled
            end
          else Ok (h1, target)
      | _, _ => Unmodelled
      end
  | VUndefined =>
      Throw (TypeError "Cannot read properties of undefined (reading 'name')")
  | VNull =>
      Throw (TypeError "Cannot read properties of null (reading 'name')")
  | _ => Unmodelled
  end.

(** [case '_custom'], lines 176-181. *)
Definition revive_custom (h : heap) (tag payload : value)
    : outcome (heap * value) :=
  match tag with
  | VString t =>
      match table !! t with
      | Some hook => x ← hook payload; Ok (h, x)
      | None => Throw (PlainError ("Invalid or unknown tag: " +:+ t))
      end
  | _ => Unmodelled
  end.

(** The reviver of lines 158-216. *)
Definition deserializer_reviver (h : heap) (v : value)
    : outcome (heap * value) :=
  match as_array v with
  | Some elems =>
      if is_string "_" (array_get elems 0) then
        match array_get elems 1 with
        | VString kind =>
            if String.eqb kind "_" then
              if 3 <=? length elems then Ok (h, VArray (drop 2 elems))
              else Ok (h, VUndefined)
            else if String.eqb kind "Map" then
              m ← Map_from (array_get elems 2); Ok (h, m)
            else if String.eqb kind "Set" then
              s ← Set_from (array_get elems 2); Ok (h, s)
            else if String.eqb kind "_custom" then
              revive_custom h (array_get elems 2) (array_get elems 3)
            else if String.eqb kind "_ref" then
              x ← verbatim_get verbatim (array_get elems 2); Ok (h, x)
            else if String.eqb kind "_err" then
              revive_error h (array_get elems 2) (array_get elems 3)
            else if String.eqb kind "_fn" then
              Ok (h, VProxy (array_get elems 2))
            else Ok (h, v)
        | _ => Ok (h, v)
        end
      else Ok (h, v)
  | None => Ok (h, v)
  end.
End deserializer_reviver.

(** [deserializer(data)], lines 146-217. *)
Fixpoint deserializer (fuel : nat) (table : registry) (h : heap) (data_ : value)
    : outcome (heap * value) :=
  match fuel with
  | O => OutOfFuel
  | S fuel' =>
      '(verbatim, text) ← JSON_stringify deserializer_replacer fuel [] data_;
      JSON_parse (deserializer_reviver table (deserializer fuel' table) verbatim) h text
  end.

(** [ctor[serdesTagSymbol]] and [ctor[serdesDeserializeSymbol]]: only user
    functions carry the two symbol-keyed members. *)
Definition tag_member (ctor : value) : value :=
  match ctor with
  | VFunction f => fn_tag (functions f)
  | _ => VUndefined
  end.

Definition deserialize_member (ctor : value) : value :=
  match ctor with
  | VFunction f => fn_deserialize (functions f)
  | _ => VUndefined
  end.

(** [typeof v === 'string'] *)
Definition is_a_string (v : value) : bool :=
  match v with
  | VString _ => true
  | _ => false
  end.

(** [deserializer.register(ctor)], lines 221-225: the new state of the
    registry.  The bound function [hook.bind(ctor)] is the call of [hook]
    with [this] fixed to [ctor]. *)
Definition register (table : registry) (ctor : value) : registry :=
  if is_function ctor && is_a_string (tag_member ctor)
     && is_function (deserialize_member ctor)
  then
    match tag_member ctor with
    | VString tag => <[tag := call (deserialize_member ctor) ctor]> table
    | _ => table
    end
  else table.
End codec.

Arguments SerializeJSONProperty : simpl never.
Arguments InternalizeJSONProperty : simpl never.
Arguments serializer : simpl never.
Arguments deserializer : simpl never.

(** ** Recursion budget *)

(** [r1] is [r2] unless the budget ran out. *)
Definition refines {A : Type} (r1 r2 : outcome A) : Prop :=
  r1 = OutOfFuel ∨ r1 = r2.

(** A computation indexed by its budget returns [r] when every budget that is
    large enough gives [r]. *)
Definition returns {A : Type} (run : nat → outcome A) (r : outcome A) : Prop :=
  ∃ n, ∀ fuel, n ≤ fuel → run fuel = r.

(** ** A concrete program

    The class [X] of the example at the end of the source: its tag is ["X"],
    its serialize hook returns [undefined] and its reconstruct hook returns
    [new this()].  Function 0 is the class, 1 and 2 are the two hooks, 3 is a
    second class that uses the same tag, and every other number is a function
    without static members that returns its argument. *)
Definition new_X (ctor : nat) : value := VInstance ctor [("__x", VString "11")].

Definition example_functions (f : nat) : fn_info :=
  match f with
  | 0 | 3 =>
      {| fn_call := λ _ _, Throw (TypeError "Class constructor cannot be invoked without 'new'");
         fn_tag := VString "X";
         fn_serialize := VFunction 1;
         fn_deserialize := VFunction 2 |}
  | 1 =>
      {| fn_call := λ _ _, Ok VUndefined;
         fn_tag := VUndefined; fn_serialize := VUndefined; fn_deserialize := VUndefined |}
  | 2 =>
      {| fn_call := λ this _,
           match this with
           | VFunction c => Ok (new_X c)
           | _ => Throw (TypeError "this is not a constructor")
           end;
         fn_tag := VUndefined; fn_serialize := VUndefined; fn_deserialize := VUndefined |}
  | _ =>
      {| fn_call := λ _ arg, Ok arg;
         fn_tag := VUndefined; fn_serialize := VUndefined; fn_deserialize := VUndefined |}
  end.

(** The registry after [deserializer.register(X)]. *)
Definition example_table : registry := register example_functions ∅ (VFunction 0).

(** An error whose cause is an empty [Map], alone in the heap. *)
Definition example_heap : heap := [HError "Error" "boom" (VMap [])].

(** ** Describing the values that round-trip

    A [shape] describes a value of the kinds the round-trip property is about,
    as a tree: the objects that live in the heap (errors) appear in the tree
    with their fields, and a custom object appears with the payload its
    serialize hook returns.  From a shape one reads off the value itself
    ([value_of], or [sparse_of] when the [undefined] items of arrays stand
    for holes), the heap cells it occupies ([cells]), and what each of the
    four passes of the codec makes of it. *)
Unset Elimination Schemes.
Inductive shape : Type :=
| SUndefined
  (* [undefined] *)
| SPrim (p : value)
  (* [null], a boolean, a string or a number *)
| SArray (items : list shape)
  (* an array; an item that is [undefined] is an element under [value_of]
     and a hole under [sparse_of] *)
| SObject (members : list (string * shape))
  (* a plain object *)
| SMap (entries : list shape)
  (* a [Map]; every entry is [SArray [key; value]], as [entries()] yields it *)
| SSet (items : list shape)
  (* a [Set] *)
| SCustom (c : nat) (tag : string) (props : list (string * value)) (payload : shape)
  (* an instance of the class [c], tagged [tag], whose serialize hook
     returns the value [payload] describes *)
| SError (l : loc) (name message : string) (cause : shape).
  (* the [Error] stored at [l] *)
Set Elimination Schemes.

(** A property of every member of a list, by recursion on the list. *)
Definition Forall_fold {A : Type} (P : A → Prop) : list A → Prop :=
  fix go (l : list A) : Prop :=
    match l with
    | [] => True
    | x :: rest => P x ∧ go rest
    end.

(** The primitives that JSON text represents exactly. *)
Definition json_exact (p : value) : bool :=
  match p with
  | VNull | VBool _ | VString _ => true
  | VNumber (S754_zero false) | VNumber (S754_finite _ _ _) => true
  | _ => false
  end.

(** [s] is the string ['_']. *)
Definition is_sentinel (s : shape) : bool :=
  match s with
  | SPrim p => is_string "_" p
  | _ => false
  end.

Definition starts_with_sentinel (items : list shape) : bool :=
  match items with
  | s :: _ => is_sentinel s
  | [] => false
  end.

(** The two slots the encoder prepends to an array that starts with ['_']. *)
Definition escape {A : Type} (mark : A) (items : list shape) : list A :=
  if starts_with_sentinel items then [mark; mark] else [].

(** The value a shape describes. *)
Fixpoint value_of (s : shape) : value :=
  match s with
  | SUndefined => VUndefined
  | SPrim p => p
  | SArray items => VArray ((λ x, Some (value_of x)) <$> items)
  | SObject members => VObject ((λ m, (m.1, value_of m.2)) <$> members)
  | SMap entries =>
      VMap ((λ e, match e with
                  | SArray [k; x] => (value_of k, value_of x)
                  | _ => (VUndefined, VUndefined)
                  end) <$> entries)
  | SSet items => VSet (value_of <$> items)
  | SCustom c _ props _ => VInstance c props
  | SError l _ _ _ => VRef l
  end.

(** The [data] that [serializer] returns for it. *)
Fixpoint enc_of (s : shape) : value :=
  match s with
  | SUndefined => VArray [Some sentinel; Some sentinel]
  | SPrim p => p
  | SArray items =>
      VArray (escape (Some sentinel) items ++ ((λ x, Some (enc_of x)) <$> items))
  | SObject members => VObject ((λ m, (m.1, enc_of m.2)) <$> members)
  | SMap entries =>
      VArray [Some sentinel; Some (VString "Map");
              Some (VArray (escape (Some sentinel) entries
                            ++ ((λ x, Some (enc_of x)) <$> entries)))]
  | SSet items =>
      VArray [Some sentinel; Some (VString "Set");
              Some (VArray (escape (Some sentinel) items
                            ++ ((λ x, Some (enc_of x)) <$> items)))]
  | SCustom _ tag _ payload =>
      VArray [Some sentinel; Some (VString "_custom"); Some (VString tag);
              Some (enc_of payload)]
  | SError l name _ _ =>
      VArray [Some sentinel; Some (VString "_err"); Some (VRef l); Some (VString name)]
  end.

(** The host objects a pass puts in its verbatim table, in order.  A cause is
    encoded by a nested call, with a table of its own. *)
Fixpoint refs_of (s : shape) : list value :=
  match s with
  | SUndefined | SPrim _ => []
  | SArray items | SMap items | SSet items => mjoin (refs_of <$> items)
  | SObject members => mjoin ((λ m, refs_of m.2) <$> members)
  | SCustom _ _ _ payload => refs_of payload
  | SError l _ _ _ => [VRef l]
  end.

(** Children are printed one after the other, each from the table position
    the previous one has reached. *)
Section thread.
Context {A : Type}.
Variable print : shape → nat → A.

Fixpoint thread (items : list shape) (pos : nat) : list A :=
  match items with
  | [] => []
  | x :: rest => print x pos :: thread rest (pos + length (refs_of x))
  end.

Fixpoint thread_members (members : list (string * shape)) (pos : nat)
    : list (string * A) :=
  match members with
  | [] => []
  | m :: rest => (m.1, print m.2 pos) :: thread_members rest (pos + length (refs_of m.2))
  end.
End thread.

(** The text between the two passes, of the encoder and of the decoder alike,
    when the verbatim table holds [pos] objects already. *)
Fixpoint json_of (s : shape) (pos : nat) : json :=
  match s with
  | SUndefined => JArray [JString "_"; JString "_"]
  | SPrim p =>
      match p with
      | VBool b => JBool b
      | VString x => JString x
      | VNumber n => JNumber n
      | _ => JNull
      end
  | SArray items => JArray (escape (JString "_") items ++ thread json_of items pos)
  | SObject members => JObject (thread_members json_of members pos)
  | SMap entries =>
      JArray [JString "_"; JString "Map";
              JArray (escape (JString "_") entries ++ thread json_of entries pos)]
  | SSet items =>
      JArray [JString "_"; JString "Set";
              JArray (escape (JString "_") items ++ thread json_of items pos)]
  | SCustom _ tag _ payload =>
      JArray [JString "_"; JString "_custom"; JString tag; json_of payload pos]
  | SError _ name _ _ =>
      JArray [JString "_"; JString "_err";
              JArray [JString "_"; JString "_ref"; json_of_number (number_of_nat pos)];
              JString name]
  end.

(** [new Map(entries)] and [new Set(values)] on the lists the decoder has. *)
Definition build_map (kvs : list (value * value)) : list (value * value) :=
  fold_left (λ m kv, map_set m (normalize_key kv.1) kv.2) kvs [].

Definition build_set (xs : list value) : list value :=
  fold_left (λ s x, set_add s (normalize_key x)) xs [].

(** A decoded entry array read as a key and a value. *)
Definition pair_of (e : value) : value * value :=
  match e with
  | VArray kv => (array_get kv 0, array_get kv 1)
  | _ => (VUndefined, VUndefined)
  end.

(** What [deserializer] returns for the encoded form.  An array element or an
    object member that decodes to [undefined] is deleted. *)
Fixpoint dec_of (s : shape) : value :=
  match s with
  | SUndefined => VUndefined
  | SPrim p => p
  | SArray items => VArray ((λ x, slot_of (dec_of x)) <$> items)
  | SObject members =>
      VObject (omap (λ m, match dec_of m.2 with
                          | VUndefined => None
                          | x => Some (m.1, x)
                          end) members)
  | SMap entries => VMap (build_map ((λ x, pair_of (dec_of x)) <$> entries))
  | SSet items => VSet (build_set (dec_of <$> items))
  | SCustom c _ props _ => VInstance c props
  | SError l _ _ _ => VRef l
  end.

(** The value a shape describes when the [undefined] items of its arrays
    stand for holes.  This is the reading under which arrays come back from
    the round trip: the encoder walks a hole like an [undefined] element, and
    the decoder leaves a hole where an element decodes to [undefined]. *)
Fixpoint sparse_of (s : shape) : value :=
  match s with
  | SUndefined => VUndefined
  | SPrim p => p
  | SArray items => VArray ((λ x, slot_of (sparse_of x)) <$> items)
  | SObject members => VObject ((λ m, (m.1, sparse_of m.2)) <$> members)
  | SMap entries =>
      VMap ((λ e, match e with
                  | SArray [k; x] => (sparse_of k, sparse_of x)
                  | _ => (VUndefined, VUndefined)
                  end) <$> entries)
  | SSet items => VSet (sparse_of <$> items)
  | SCustom c _ props _ => VInstance c props
  | SError l _ _ _ => VRef l
  end.

(** A value with the holes of its arrays filled with [undefined], as the
    spread of an array and the walk of [JSON.stringify] read them.  The
    members of a class instance are left alone: a serialize hook may look at
    them. *)
Fixpoint dense (v : value) : value :=
  match v with
  | VArray elems =>
      VArray ((λ o, Some (match o with
                          | Some x => dense x
                          | None => VUndefined
                          end)) <$> elems)
  | VRaw elems => VRaw (dense <$> elems)
  | VObject props => VObject ((λ kv, (kv.1, dense kv.2)) <$> props)
  | VMap entries => VMap ((λ kv, (dense kv.1, dense kv.2)) <$> entries)
  | VSet elems => VSet (dense <$> elems)
  | _ => v
  end.

(** The cause an error holds: a falsy cause is never touched. *)
Definition cause_of (view : shape → value) (cause : shape) : value :=
  if truthy (value_of cause) then view cause else value_of cause.

(** The heap cells of the errors of a shape, the errors of causes included,
    when every cause is seen through [view]: as it is ([value_of]), encoded
    ([enc_of]) or decoded ([dec_of]). *)
Fixpoint cells (view : shape → value) (s : shape) : list (loc * hobj) :=
  match s with
  | SUndefined | SPrim _ => []
  | SArray items | SMap items | SSet items => mjoin (cells view <$> items)
  | SObject members => mjoin ((λ m, cells view m.2) <$> members)
  | SCustom _ _ _ payload => cells view payload
  | SError l name message cause =>
      (l, HError name message (cause_of view cause)) :: cells view cause
  end.

(** The locations of these errors. *)
Definition locs (s : shape) : list loc := (cells value_of s).*1.

(** The heap holds the cells. *)
Definition stored (cs : list (loc * hobj)) (h : heap) : Prop :=
  ∀ l o, (l, o) ∈ cs → h !! l = Some o.

(** Two heaps differ at most at the locations of [ls]. *)
Definition agree_outside (ls : list loc) (h h' : heap) : Prop :=
  length h' = length h ∧ ∀ l, l ∉ ls → h' !! l = h !! l.

(** A bound on the depth of the walks over a shape and on the length of its
    chains of causes. *)
Fixpoint size (s : shape) : nat :=
  match s with
  | SUndefined => 2
  | SPrim _ => 1
  | SArray items => 2 + sum_list_with size items
  | SObject members => 1 + sum_list_with (λ m, size m.2) members
  | SMap items | SSet items => 3 + sum_list_with size items
  | SCustom _ _ _ payload => 1 + size payload
  | SError _ _ _ cause => 3 + size cause
  end.

(** Pairwise different under SameValueZero, and not [-0]: what the members of
    a [Set] and the keys of a [Map] are. *)
Fixpoint distinct (xs : list value) : Prop :=
  match xs with
  | [] => True
  | x :: rest =>
      normalize_key x = x
      ∧ Forall (λ y, same_value_zero x y = false) rest
      ∧ distinct rest
  end.

Section well_formed.
Variable functions : nat → fn_info.
Variable table : registry.

(** The shape describes a value the encoder handles: primitives are exact in
    JSON, the entries of a [Map] are pairs, a custom object has no [toJSON]
    method, its class has a non-empty string tag and a serialize hook that
    returns the payload, and a falsy cause is a primitive or [undefined]. *)
Fixpoint encodable (s : shape) : Prop :=
  match s with
  | SUndefined => True
  | SPrim p => json_exact p = true
  | SArray items | SSet items => Forall_fold encodable items
  | SObject members => Forall_fold (λ m, encodable m.2) members
  | SMap entries =>
      Forall_fold (λ e, match e with
                        | SArray [k; x] => encodable k ∧ encodable x
                        | _ => False
                        end) entries
  | SCustom c tag props payload =>
      is_function (get_prop props "toJSON") = false
      ∧ fn_tag (functions c) = VString tag
      ∧ tag ≠ EmptyString
      ∧ truthy (fn_serialize (functions c)) = true
      ∧ call functions (fn_serialize (functions c)) (VFunction c) (VInstance c props)
        = Ok (value_of payload)
      ∧ encodable payload
  | SError _ _ _ cause =>
      if truthy (value_of cause)
      then encodable cause
      else match cause with SUndefined | SPrim _ => True | _ => False end
  end.

(** The hooks the decoder needs are registered: the tag of every custom
    object has a reconstruct hook that rebuilds the object from the decoded
    payload. *)
Fixpoint decodable (s : shape) : Prop :=
  match s with
  | SUndefined | SPrim _ => True
  | SArray items | SMap items | SSet items => Forall_fold decodable items
  | SObject members => Forall_fold (λ m, decodable m.2) members
  | SCustom c tag props payload =>
      (∃ hook, table !! tag = Some hook
               ∧ hook (dec_of payload) = Ok (VInstance c props))
      ∧ decodable payload
  | SError _ _ _ cause => decodable cause
  end.

(** The decoder gives the value back, when the [undefined] items of arrays
    are read as holes ([sparse_of]): no object member is [undefined], and the
    keys of a [Map] and the members of a [Set] are distinct. *)
Fixpoint restorable (s : shape) : Prop :=
  match s with
  | SUndefined | SPrim _ => True
  | SArray items => Forall_fold restorable items
  | SObject members =>
      Forall_fold (λ m, value_of m.2 ≠ VUndefined ∧ restorable m.2) members
  | SMap entries =>
      Forall_fold (λ e, match e with
                        | SArray [k; x] => restorable k ∧ restorable x
                        | _ => False
                        end) entries
      ∧ distinct ((λ e, match e with
                        | SArray [k; _] => sparse_of k
                        | _ => VUndefined
                        end) <$> entries)
  | SSet items => Forall_fold restorable items ∧ distinct (sparse_of <$> items)
  | SCustom _ _ _ payload => restorable payload
  | SError _ _ _ cause => restorable cause
  end.
End well_formed.

(** ** A concrete shape

    The object of the repository's test, with two more members: an error whose
    cause is another error, and an instance of the class [X]. *)
Definition example_shape : shape :=
  SObject
    [("foo", SPrim (VString "123"));
     ("bar", SPrim (VNumber (number_of_nat 123)));
     ("qux", SPrim VNull);
     ("_", SArray [SPrim sentinel; SPrim sentinel]);
     ("arr", SArray [SSet [SPrim (VString "123"); SObject []];
                     SPrim (VNumber (number_of_nat 1));
                     SPrim VNull;
                     SMap [SArray [SPrim (VString "a"); SPrim (VString "b")]]]);
     ("err", SError 1 "RangeError" "outer" (SError 0 "Error" "inner" SUndefined));
     ("x", SCustom 0 "X" [("__x", VString "11")] SUndefined)].

Definition example_shape_heap : heap :=
  [HError "Error" "inner" VUndefined; HError "RangeError" "outer" (VRef 0)].

(** A value in which errors occur more than once and arrays have holes: the
    error at 1, whose cause is a [Set] that holds the error at 0, is the
    value of two properties, and the error at 0, whose cause is an array
    that starts with ['_'] and has a hole at index 1, occurs once more on its
    own; the array [list] has a hole at index 1. *)
Definition inner_error : shape :=
  SError 0 "Error" "inner"
    (SArray [SPrim sentinel; SUndefined; SPrim (VNumber (number_of_nat 1))]).

Definition shared_error : shape :=
  SError 1 "RangeError" "outer" (SSet [inner_error; SPrim (VString "x")]).

Definition shared_shape : shape :=
  SObject
    [("first", shared_error);
     ("again", shared_error);
     ("inner", inner_error);
     ("list", SArray [SPrim (VNumber (number_of_nat 1)); SUndefined;
                      SPrim (VString "x")]);
     ("m", SMap [SArray [SPrim (VString "a");
                         SCustom 0 "X" [("__x", VString "11")] SUndefined]])].

Definition shared_shape_heap : heap :=
  [HError "Error" "inner"
     (VArray [Some sentinel; None; Some (VNumber (number_of_nat 1))]);
   HError "RangeError" "outer" (VSet [VRef 0; VString "x"])].

(** A place inside a shape: the path from the root to a hole. *)
Inductive context : Type :=
| Top
| Item (before : list shape) (inner : context) (after : list shape)
| Member (before : list (string * shape)) (key : string) (inner : context)
  (after : list (string * shape))
| MapValue (before : list shape) (key : shape) (inner : context) (after : list shape)
| SetMember (before : list shape) (inner : context) (after : list shape)
| Payload (c : nat) (tag : string) (props : list (string * value)) (inner : context)
| Cause (l : loc) (name message : string) (inner : context).

(** The shape that has [t] at the place. *)
Fixpoint fill (c : context) (t : shape) : shape :=
  match c with
  | Top => t
  | Item before inner after => SArray (before ++ fill inner t :: after)
  | Member before key inner after => SObject (before ++ (key, fill inner t) :: after)
  | MapValue before key inner after =>
      SMap (before ++ SArray [key; fill inner t] :: after)
  | SetMember before inner after => SSet (before ++ fill inner t :: after)
  | Payload c tag props inner => SCustom c tag props (fill inner t)
  | Cause l name message inner => SError l name message (fill inner t)
  end.

(** ** JSON-plain values and positions in them *)

(** A value built from [null], booleans, strings, finite numbers other than
    [-0], arrays without holes that do not start with ['_'], and plain
    objects. *)
Fixpoint json_plain (v : value) : bool :=
  match v with
  | VNull | VBool _ | VString _ => true
  | VNumber n => json_exact (VNumber n)
  | VArray elems =>
      forallb (λ o, match o with Some x => json_plain x | None => false end) elems
      && negb (is_string "_" (array_get elems 0))
  | VObject props => forallb (λ kv, json_plain kv.2) props
  | _ => false
  end.

(** Its JSON text. *)
Fixpoint plain_json (v : value) : json :=
  match v with
  | VBool b => JBool b
  | VNumber n => JNumber n
  | VString s => JString s
  | VArray elems =>
      JArray ((λ o, match o with Some x => plain_json x | None => JNull end) <$> elems)
  | VObject props => JObject ((λ kv, (kv.1, plain_json kv.2)) <$> props)
  | _ => JNull
  end.

(** A bound on the depth of a walk over it. *)
Fixpoint weight (v : value) : nat :=
  match v with
  | VArray elems =>
      1 + sum_list_with (λ o, match o with Some x => weight x | None => 1 end) elems
  | VObject props => 1 + sum_list_with (λ kv, weight kv.2) props
  | _ => 1
  end.

(** A position inside nested arrays and plain objects: the path from the
    root to a hole, with the siblings met on the way. *)
Inductive position : Type :=
| Here
| InArray (before : list value) (inner : position) (after : list value)
| InObject (before : list (string * value)) (key : string) (inner : position)
  (after : list (string * value)).

(** The value that has [v] at the position. *)
Fixpoint place (p : position) (v : value) : value :=
  match p with
  | Here => v
  | InArray before inner after =>
      VArray (Some <$> (before ++ place inner v :: after))
  | InObject before key inner after =>
      VObject (before ++ (key, place inner v) :: after)
  end.

(** Every sibling on the way is JSON-plain, and no array on the way starts
    with ['_']. *)
Fixpoint plain_position (p : position) : bool :=
  match p with
  | Here => true
  | InArray before inner after =>
      forallb json_plain before && forallb json_plain after
      && negb (is_string "_" (default VNull (head before)))
      && plain_position inner
  | InObject before _ inner after =>
      forallb (λ kv, json_plain kv.2) before && forallb (λ kv, json_plain kv.2) after
      && plain_position inner
  end.

(** The hole of the position is the member [toJSON] of a plain object: a
    function placed there is the [toJSON] method of that object. *)
Fixpoint names_toJSON (p : position) : bool :=
  match p with
  | Here => false
  | InArray _ inner _ => names_toJSON inner
  | InObject _ key inner _ =>
      match inner with
      | Here => String.eqb key "toJSON"
      | _ => names_toJSON inner
      end
  end.

(** A bound on the depth of a walk to the position and over the siblings. *)
Fixpoint position_weight (p : position) : nat :=
  match p with
  | Here => 3
  | InArray before inner after =>
      1 + sum_list_with weight before + position_weight inner + sum_list_with weight after
  | InObject before _ inner after =>
      1 + sum_list_with (λ kv, weight kv.2) before + position_weight inner
        + sum_list_with (λ kv, weight kv.2) after
  end.

(** The JSON text that has [j] at the position. *)
Fixpoint place_json (p : position) (j : json) : json :=
  match p with
  | Here => j
  | InArray before inner after =>
      JArray ((plain_json <$> before) ++ place_json inner j :: (plain_json <$> after))
  | InObject before key inner after =>
      JObject (((λ kv, (kv.1, plain_json kv.2)) <$> before)
               ++ (key, place_json inner j) :: ((λ kv, (kv.1, plain_json kv.2)) <$> after))
  end.

(** The two ports of the channel that encoding a function creates in the heap
    [h]: [port1] keeps the handler that calls [f], [port2] is its peer. *)
Definition channel_of (h : heap) (f : value) : list hobj :=
  [HMessagePort (S (length h)) (Some f); HMessagePort (length h) None].

(** The state of the encoder after it has met the function [f]. *)
Definition after_channel (st : enc_state) (f : value) : enc_state :=
  {| st_heap := st_heap st ++ channel_of (st_heap st) f;
     st_verbatim := st_verbatim st ++ [VRef (S (length (st_heap st)))];
     st_transferables := add_object (S (length (st_heap st))) (st_transferables st);
     st_revokables := add_object (length (st_heap st)) (st_revokables st) |}.

(** The text of [['_', '_fn', ['_', '_ref', pos]]]. *)
Definition fn_json (pos : nat) : json :=
  JArray [JString "_"; JString "_fn";
          JArray [JString "_"; JString "_ref"; json_of_number (number_of_nat pos)]].

(** * What each pass does on a shape *)

Section passes.
Variable functions : nat → fn_info.
Variable table : registry.

(** The decoder's first pass prints the encoded form of [s] as [json_of s],
    and adds the errors of [s] to the verbatim table. *)
Definition decoder_prints (s : shape) : Prop :=
  ∀ fuel vb, size s ≤ fuel → encodable functions s →
    SerializeJSONProperty deserializer_replacer fuel vb (enc_of s)
      = Ok (vb ++ refs_of s, Some (json_of s (length vb))).

(** The verbatim table [verbatim] holds the errors of [s] from [pos] on. *)
Definition holds_refs (verbatim : list value) (pos : nat) (refs : list value) : Prop :=
  ∀ i v, refs !! i = Some v → verbatim !! (pos + i) = Some v.

(** The encoder's second pass turns [json_of s] into [enc_of s]. *)
Definition encoder_revives (s : shape) : Prop :=
  ∀ pos verbatim, holds_refs verbatim pos (refs_of s) → encodable functions s →
    InternalizeJSONProperty (serializer_reviver verbatim) tt (json_of s pos)
      = Ok (tt, enc_of s).

(** The decoder's second pass turns [json_of s] into [dec_of s]; the errors
    of [s], which held their encoded causes, now hold the decoded ones. *)
Definition decoder_revives (s : shape) : Prop :=
  ∀ fr pos verbatim h,
    size s ≤ fr →
    holds_refs verbatim pos (refs_of s) →
    encodable functions s → decodable table s →
    NoDup (locs s) →
    stored (cells enc_of s) h →
    ∃ h',
      InternalizeJSONProperty
          (deserializer_reviver table (deserializer fr table) verbatim) h (json_of s pos)
        = Ok (h', dec_of s)
      ∧ stored (cells dec_of s) h'
      ∧ agree_outside (locs s) h h'.

(** The encoder's first pass prints [value_of s] as [json_of s], adds the
    errors of [s] to the verbatim table, and leaves every error of [s] with
    its cause encoded. *)
Definition encoder_prints (s : shape) : Prop :=
  ∀ fuel fr st,
    size s ≤ fuel → size s ≤ fr →
    encodable functions s →
    NoDup (locs s) →
    stored (cells value_of s) (st_heap st) →
    ∃ h',
      SerializeJSONProperty (serializer_replacer functions (serializer functions fr))
          fuel st (value_of s)
        = Ok ({| st_heap := h';
                 st_verbatim := st_verbatim st ++ refs_of s;
                 st_transferables := st_transferables st;
                 st_revokables := st_revokables st |},
              Some (json_of s (length (st_verbatim st))))
      ∧ stored (cells enc_of s) h'
      ∧ agree_outside (locs s) (st_heap st) h'.
End passes.

(** ** Errors that occur more than once

    The same [Error] object may occur at several places of a value.  The
    encoder meets it once for every occurrence, and every time it replaces
    the cause the error holds by then with its encoded form; the decoder
    undoes one encoding for every [_err] array it meets. *)

(** The shape of the data the encoder returns for [s]: the value of
    [reshape s] is [enc_of s]. *)
Fixpoint reshape (s : shape) : shape :=
  match s with
  | SUndefined => SArray [SPrim sentinel; SPrim sentinel]
  | SPrim p => SPrim p
  | SArray items => SArray (escape (SPrim sentinel) items ++ (reshape <$> items))
  | SObject members => SObject ((λ m, (m.1, reshape m.2)) <$> members)
  | SMap entries =>
      SArray [SPrim sentinel; SPrim (VString "Map");
              SArray (escape (SPrim sentinel) entries ++ (reshape <$> entries))]
  | SSet items =>
      SArray [SPrim sentinel; SPrim (VString "Set");
              SArray (escape (SPrim sentinel) items ++ (reshape <$> items))]
  | SCustom _ tag _ payload =>
      SArray [SPrim sentinel; SPrim (VString "_custom"); SPrim (VString tag);
              reshape payload]
  | SError l name message cause =>
      SArray [SPrim sentinel; SPrim (VString "_err"); SError l name message cause;
              SPrim (VString name)]
  end.

(** [s] encoded [i] times over. *)
Definition raise (i : nat) (s : shape) : shape := Nat.iter i reshape s.

(** What [s] is after [i] encodings: the value itself, with the holes it
    has, and from then on the data of the encoder. *)
Definition at_stage (i : nat) (s : shape) : value :=
  match i with
  | 0 => sparse_of s
  | S _ => value_of (raise i s)
  end.

(** The cause an error holds once the encoder has met it [i] times. *)
Definition cause_at (i : nat) (cause : shape) : value :=
  cause_of (at_stage i) cause.

(** The errors of a shape with their names, messages and causes, the errors
    of causes included, one entry for every occurrence. *)
Fixpoint errors_of (s : shape) : list (loc * (string * string * shape)) :=
  match s with
  | SUndefined | SPrim _ => []
  | SArray items | SMap items | SSet items => mjoin (errors_of <$> items)
  | SObject members => mjoin ((λ m, errors_of m.2) <$> members)
  | SCustom _ _ _ payload => errors_of payload
  | SError l name message cause => (l, (name, message, cause)) :: errors_of cause
  end.

(** Every occurrence of an error is described in the same way. *)
Definition coherent (s : shape) : Prop :=
  ∀ l d d', (l, d) ∈ errors_of s → (l, d') ∈ errors_of s → d = d'.

(** How many times the error at [l] is met in a walk over [s], the nested
    walks over causes included. *)
Definition visits (s : shape) (l : loc) : nat :=
  length (filter (λ e, e.1 = l) (errors_of s)).

(** The depth to which errors are nested in causes. *)
Fixpoint error_depth (s : shape) : nat :=
  match s with
  | SUndefined | SPrim _ => 0
  | SArray items | SMap items | SSet items => max_list_with error_depth items
  | SObject members => max_list_with (λ m, error_depth m.2) members
  | SCustom _ _ _ payload => error_depth payload
  | SError _ _ _ cause => S (error_depth cause)
  end.

(** The heap holds every error of [s0], with the cause it has after the
    encoder has met it [lev l] times more often than the decoder. *)
Definition at_level (s0 : shape) (lev : loc → nat) (h : heap) : Prop :=
  ∀ l n m c, (l, (n, m, c)) ∈ errors_of s0 →
    h !! l = Some (HError n m (cause_at (lev l) c)).

Section shared_passes.
Variable functions : nat → fn_info.
Variable table : registry.
Variable s0 : shape.

(** The encoder's first pass on a part [t] of a value whose errors are those
    of [s0]: every error of [t] is met, and its level rises by one for every
    visit. *)
Definition encoder_prints_shared (t : shape) : Prop :=
  ∀ lev, ∃ k, ∀ fuel fr st,
    k ≤ fuel → k ≤ fr →
    encodable functions t →
    errors_of t ⊆ errors_of s0 →
    at_level s0 lev (st_heap st) →
    ∃ h',
      SerializeJSONProperty (serializer_replacer functions (serializer functions fr))
          fuel st (value_of t)
        = Ok ({| st_heap := h';
                 st_verbatim := st_verbatim st ++ refs_of t;
                 st_transferables := st_transferables st;
                 st_revokables := st_revokables st |},
              Some (json_of t (length (st_verbatim st))))
      ∧ at_level s0 (λ l, lev l + visits t l) h'
      ∧ agree_outside (locs s0) (st_heap st) h'.

(** The decoder's second pass: the level of every error of [t] falls by one
    for every visit. *)
Definition decoder_revives_shared (t : shape) : Prop :=
  ∀ lev', ∃ k, ∀ fr pos verbatim h lev,
    k ≤ fr →
    holds_refs verbatim pos (refs_of t) →
    encodable functions t → decodable table t →
    errors_of t ⊆ errors_of s0 →
    (∀ l, lev l = lev' l + visits t l) →
    at_level s0 lev h →
    ∃ h',
      InternalizeJSONProperty
          (deserializer_reviver table (deserializer fr table) verbatim) h (json_of t pos)
        = Ok (h', dec_of t)
      ∧ at_level s0 lev' h'
      ∧ agree_outside (locs s0) h h'.
End shared_passes.

(** ** Paths through arrays and plain objects *)

(** One step from an array to the element at an index, or from a plain
    object to the value of a property. *)
Inductive step : Type :=
| AtIndex (i : nat)
| AtKey (k : string).

(** The own property [k] of a plain object, when it has one. *)
Fixpoint own_prop (props : list (string * value)) (k : string) : option value :=
  match props with
  | [] => None
  | (k', v) :: rest => if String.eqb k' k then Some v else own_prop rest k
  end.

(** What a value has at the end of a path, whatever else it holds. *)
Fixpoint value_at (path : list step) (v : value) : option value :=
  match path with
  | [] => Some v
  | AtIndex i :: rest =>
      match v with
      | VArray elems =>
          match elems !! i with
          | Some (Some x) => value_at rest x
          | _ => None
          end
      | _ => None
      end
  | AtKey k :: rest =>
      match v with
      | VObject props =>
          match own_prop props k with
          | Some x => value_at rest x
          | None => None
          end
      | _ => None
      end
  end.

(** The same along objects without a [toJSON] method only: these are the
    objects [JSON.stringify] prints member by member, where of another it
    prints what the method returns. *)
Fixpoint member_at (path : list step) (v : value) : option value :=
  match path with
  | [] => Some v
  | AtIndex i :: rest =>
      match v with
      | VArray elems =>
          match elems !! i with
          | Some (Some x) => member_at rest x
          | _ => None
          end
      | _ => None
      end
  | AtKey k :: rest =>
      match v with
      | VObject props =>
          if is_function (get_prop props "toJSON") then None
          else match own_prop props k with
               | Some x => member_at rest x
               | None => None
               end
      | _ => None
      end
  end.

(** The member [k] of a JSON object. *)
Fixpoint json_member (members : list (string * json)) (k : string) : option json :=
  match members with
  | [] => None
  | (k', j) :: rest => if String.eqb k' k then Some j else json_member rest k
  end.

(** The text ["_"]. *)
Definition is_sentinel_text (j : json) : bool :=
  match j with
  | JString s => String.eqb s "_"
  | _ => false
  end.

(** The encoded data has the escaped pair [['_', '_', '_', '_']] at the end
    of the path: every array on the way either was escaped, and then the
    path continues two slots further, or does not start with ['_']. *)
Fixpoint escaped_in (path : list step) (d : value) : Prop :=
  match path with
  | [] => d = VArray [Some sentinel; Some sentinel; Some sentinel; Some sentinel]
  | AtIndex i :: rest =>
      ∃ elems x,
        d = VArray elems ∧ escaped_in rest x
        ∧ ((∃ tail, elems = Some sentinel :: Some sentinel :: tail
                    ∧ tail !! i = Some (Some x))
           ∨ (is_string "_" (array_get elems 0) = false ∧ elems !! i = Some (Some x)))
  | AtKey k :: rest =>
      ∃ props x, d = VObject props ∧ own_prop props k = Some x ∧ escaped_in rest x
  end.

(** The same of the text between the two passes. *)
Fixpoint escaped_at (path : list step) (j : json) : Prop :=
  match path with
  | [] => j = JArray [JString "_"; JString "_"; JString "_"; JString "_"]
  | AtIndex i :: rest =>
      ∃ items x,
        j = JArray items ∧ escaped_at rest x
        ∧ ((∃ tail, items = JString "_" :: JString "_" :: tail ∧ tail !! i = Some x)
           ∨ (is_sentinel_text (default JNull (head items)) = false
              ∧ items !! i = Some x))
  | AtKey k :: rest =>
      ∃ members x, j = JObject members ∧ json_member members k = Some x ∧ escaped_at rest x
  end.

(** No reconstruct hook of the registry returns the string ['_']. *)
Definition hooks_keep_sentinel (table : registry) : Prop :=
  ∀ tag hook payload x,
    table !! tag = Some hook → hook payload = Ok x → is_string "_" x = false.

(** A class tagged ['S'] whose serialize hook returns [null] and whose
    reconstruct hook returns the string ['_']. *)
Definition sentinel_class (f : nat) : fn_info :=
  match f with
  | 0 =>
      {| fn_call := λ _ _, Throw (TypeError "Class constructor cannot be invoked without 'new'");
         fn_tag := VString "S";
         fn_serialize := VFunction 1;
         fn_deserialize := VFunction 2 |}
  | 1 =>
      {| fn_call := λ _ _, Ok VNull;
         fn_tag := VUndefined; fn_serialize := VUndefined; fn_deserialize := VUndefined |}
  | _ =>
      {| fn_call := λ _ _, Ok sentinel;
         fn_tag := VUndefined; fn_serialize := VUndefined; fn_deserialize := VUndefined |}
  end.

(** * More of what the codec does *)

(** ** Host objects among plain data *)

(** What the encoder adds to the transferable set when it meets the host
    object [o] at the location [l]: the object itself for a port, a stream or
    a buffer, the underlying buffer for a view, and nothing for a [Blob] or a
    [File]. *)
Definition transfer_of (l : loc) (o : hobj) : list loc :=
  match o with
  | HBlob | HFile | HError _ _ _ => []
  | HArrayBufferView buffer => [buffer]
  | HMessagePort _ _ | HReadableStream | HWritableStream | HArrayBuffer => [l]
  end.

Definition is_error (o : hobj) : bool :=
  match o with
  | HError _ _ _ => true
  | _ => false
  end.

(** ** What a call may do to the heap *)

(** [o'] is [o], or the same error with another cause. *)
Definition same_but_cause (o o' : hobj) : Prop :=
  match o, o' with
  | HError n m _, HError n' m' _ => n = n' ∧ m = m'
  | _, _ => o = o'
  end.

Definition is_port (o : option hobj) : Prop :=
  match o with
  | Some (HMessagePort _ _) => True
  | _ => False
  end.

(** From [h] to [h'], no object has gone, every object is what it was except
    for the causes of errors, and the new objects are ports. *)
Definition heap_evolves (h h' : heap) : Prop :=
  length h ≤ length h'
  ∧ (∀ l o, h !! l = Some o → ∃ o', h' !! l = Some o' ∧ same_but_cause o o')
  ∧ (∀ l, length h ≤ l → l < length h' → is_port (h' !! l)).

(** [o'] is [o], or an error with the same message. *)
Definition same_but_name_and_cause (o o' : hobj) : Prop :=
  match o, o' with
  | HError _ m _, HError _ m' _ => m = m'
  | _, _ => o = o'
  end.

(** From [h] to [h'], the objects are the same ones, each what it was except
    for the names and the causes of errors. *)
Definition heap_revived (h h' : heap) : Prop :=
  length h' = length h
  ∧ ∀ l o, h !! l = Some o → ∃ o', h' !! l = Some o' ∧ same_but_name_and_cause o o'.

(** The two ports of a channel that bridges to a function sit at [l] and
    [S l]: the first keeps the handler that calls the function, the second is
    its peer. *)
Definition channel_at (h : heap) (l : loc) : Prop :=
  ∃ f, is_function f = true
       ∧ h !! l = Some (HMessagePort (S l) (Some f))
       ∧ h !! S l = Some (HMessagePort l None).

(** What the encoder's walk keeps true of the two sets it collects, from one
    state [st] to a later one [st']: they stay free of repetitions, the
    transferables only grow, and every new revokable is the first port of a
    channel made since [st], whose second port is a transferable. *)
Definition sets_kept (st st' : enc_state) : Prop :=
  heap_evolves (st_heap st) (st_heap st')
  ∧ (NoDup (st_transferables st) → NoDup (st_transferables st'))
  ∧ (NoDup (st_revokables st) → NoDup (st_revokables st'))
  ∧ st_transferables st ⊆ st_transferables st'
  ∧ ∀ l, l ∈ st_revokables st' →
      l ∈ st_revokables st
      ∨ (length (st_heap st) ≤ l
         ∧ channel_at (st_heap st') l
         ∧ S l ∈ st_transferables st').

(** ** Data the decoder has nothing to do on *)

(** Plain data in which [Map]s, [Set]s, class instances without a [toJSON]
    method and host objects may occur: what is left of a message once it has
    been decoded, or what the host's copy hands over when nothing in it was
    encoded. *)
Fixpoint passes_through (v : value) : bool :=
  match v with
  | VNull | VBool _ | VString _ => true
  | VNumber n => json_exact (VNumber n)
  | VArray elems =>
      forallb (λ o, match o with Some x => passes_through x | None => false end) elems
      && negb (is_string "_" (array_get elems 0))
  | VObject props => forallb (λ kv, passes_through kv.2) props
  | VInstance _ props => negb (is_function (get_prop props "toJSON"))
  | VMap _ | VSet _ | VRef _ => true
  | _ => false
  end.

(** ** Data the host can copy *)

(** The values the structured clone of the host accepts, among those of the
    model: [null], booleans, numbers, strings, arrays without holes, plain
    objects and host objects. *)
Fixpoint cloneable (v : value) : bool :=
  match v with
  | VNull | VBool _ | VNumber _ | VString _ | VRef _ => true
  | VArray elems =>
      forallb (λ o, match o with Some x => cloneable x | None => false end) elems
  | VObject props => forallb (λ kv, cloneable kv.2) props
  | _ => false
  end.

(** No array in the value is marked as the work of the current call.  This
    is so of everything a caller or a hook can hand to the codec, since every
    call marks arrays in a set of its own. *)
Fixpoint raw_free (v : value) : bool :=
  match v with
  | VRaw _ => false
  | VArray elems =>
      forallb (λ o, match o with Some x => raw_free x | None => true end) elems
  | VObject props | VInstance _ props => forallb (λ kv, raw_free kv.2) props
  | VMap entries => forallb (λ kv, raw_free kv.1 && raw_free kv.2) entries
  | VSet elems => forallb raw_free elems
  | _ => true
  end.

(** The tags of the classes are such values, and so is what a user function
    returns when it is given one. *)
Definition hooks_raw_free (functions : nat → fn_info) : Prop :=
  ∀ c, raw_free (fn_tag (functions c)) = true
       ∧ ∀ this arg x, raw_free arg = true →
           fn_call (functions c) this arg = Ok x → raw_free x = true.

Definition is_ref (v : value) : bool :=
  match v with
  | VRef _ => true
  | _ => false
  end.

(** The array text starts like a reference to the verbatim table. *)
Definition names_ref (items : list json) : bool :=
  match items with
  | JString a :: JString b :: _ => String.eqb a "_" && String.eqb b "_ref"
  | _ => false
  end.

(** Every array of the text that starts like a reference carries the index
    of one of the first [n] slots of the table. *)
Fixpoint refs_within (n : nat) (j : json) : bool :=
  match j with
  | JArray items =>
      forallb (refs_within n) items
      && (negb (names_ref items)
          || match items with
             | _ :: _ :: JNumber x :: _ =>
                 match index_of_number x with
                 | Some i => i <? n
                 | None => false
                 end
             | _ => false
             end)
  | JObject members => forallb (λ m, refs_within n m.2) members
  | _ => true
  end.

(** What the first pass of the encoder may be asked to walk: a value without
    marked arrays, or a reference to one of the first [n] slots that the pass
    has written itself. *)
Definition walkable (n : nat) (v : value) : Prop :=
  raw_free v = true ∨ ∃ pos, v = ref_to pos ∧ pos < n.

(** A second example program: two classes with the tags ["A"] and ["B"],
    whose hooks are the functions 2 and 3. *)
Definition two_classes (f : nat) : fn_info :=
  match f with
  | 0 =>
      {| fn_call := λ _ _, Throw (TypeError "Class constructor cannot be invoked without 'new'");
         fn_tag := VString "A";
         fn_serialize := VFunction 2;
         fn_deserialize := VFunction 3 |}
  | 1 =>
      {| fn_call := λ _ _, Throw (TypeError "Class constructor cannot be invoked without 'new'");
         fn_tag := VString "B";
         fn_serialize := VFunction 2;
         fn_deserialize := VFunction 3 |}
  | _ =>
      {| fn_call := λ _ arg, Ok arg;
         fn_tag := VUndefined; fn_serialize := VUndefined; fn_deserialize := VUndefined |}
  end.

(** A third example program: the class 0 carries the tag ["T"], and its
    reconstruct hook, the function 1, refuses every payload. *)
Definition strict_class (f : nat) : fn_info :=
  match f with
  | 0 =>
      {| fn_call := λ _ _, Throw (TypeError "Class constructor cannot be invoked without 'new'");
         fn_tag := VString "T";
         fn_serialize := VUndefined;
         fn_deserialize := VFunction 1 |}
  | _ =>
      {| fn_call := λ _ _, Throw (PlainError "unexpected payload");
         fn_tag := VUndefined; fn_serialize := VUndefined; fn_deserialize := VUndefined |}
  end.

(** What the replacer of the encoder hands to [JSON.stringify] when the
    verbatim table has [n] slots: a reference to one of the slots, an array
    of its own whose members can be walked and which does not start like a
    reference, or a value of the caller that is not an array starting with
    ['_']. *)
Definition printable (n : nat) (v : value) : Prop :=
  match v with
  | VArray elems => raw_free v = true ∧ is_string "_" (array_get elems 0) = false
  | VRaw l =>
      (∃ pos, v = ref_to pos ∧ pos < n)
      ∨ (Forall (walkable n) l ∧ ∀ rest, l ≠ sentinel :: VString "_ref" :: rest)
  | VObject props | VInstance _ props => forallb (λ kv, raw_free kv.2) props = true
  | _ => True
  end.

(** The verbatim table holds host objects and only grows. *)
Definition table_grows (st st' : enc_state) : Prop :=
  (Forall (λ x, is_ref x = true) (st_verbatim st)
   → Forall (λ x, is_ref x = true) (st_verbatim st'))
  ∧ length (st_verbatim st) ≤ length (st_verbatim st').

(** The kinds of tagged arrays the decoder knows. *)
Definition known_kinds : list string :=
  ["_"; "Map"; "Set"; "_custom"; "_ref"; "_err"; "_fn"]%string.

(** The host objects that occur in data the host can copy, not counting what
    is inside those objects. *)
Fixpoint refs_in (v : value) : list loc :=
  match v with
  | VRef l => [l]
  | VArray elems =>
      mjoin ((λ o, match o with Some x => refs_in x | None => [] end) <$> elems)
  | VObject props => mjoin ((λ kv, refs_in kv.2) <$> props)
  | _ => []
  end.

(** Every object of the verbatim table is in the heap, and what has to be
    transferred for it is in the transferable set. *)
Definition table_covered (st : enc_state) : Prop :=
  ∀ l, VRef l ∈ st_verbatim st →
    ∃ o, st_heap st !! l = Some o ∧ transfer_of l o ⊆ st_transferables st.

(** Induction on JSON trees, with the hypothesis for every child. *)
Lemma json_ind (P : json → Prop) :
  P JNull →
  (∀ b, P (JBool b)) →
  (∀ n, P (JNumber n)) →
  (∀ s, P (JString s)) →
  (∀ items, Forall P items → P (JArray items)) →
  (∀ members, Forall (λ m, P m.2) members → P (JObject members)) →
  ∀ j, P j.
Proof.
  intros Hnull Hbool Hnum Hstr Harr Hobj.
  fix IH 1. intros [| b | n | s | items | members].
  - exact Hnull.
  - apply Hbool.
  - apply Hnum.
  - apply Hstr.
  - apply Harr. induction items as [| j items IHitems]; constructor.
    + apply IH.
    + exact IHitems.
  - apply Hobj. induction members as [| [k j] members IHm]; constructor.
    + apply IH.
    + exact IHm.
Qed.

Lemma refines_refl {A} (r : outcome A) : refines r r.
Proof. by right. Qed.

Lemma refines_Ok {A} (a : A) (r : outcome A) : refines (Ok a) r → r = Ok a.
Proof. by intros [|]. Qed.

Lemma refines_Throw {A} (e : exn) (r : outcome A) : refines (Throw e) r → r = Throw e.
Proof. by intros [|]. Qed.

Lemma refines_bind {A B} (m1 m2 : outcome A) (k1 k2 : A → outcome B) :
  refines m1 m2 → (∀ a, refines (k1 a) (k2 a)) →
  refines (m1 ≫= k1) (m2 ≫= k2).
Proof.
  intros [-> | ->] Hk; [by left |].
  destruct m2; simpl; auto using refines_refl.
Qed.

(** A member of plain data is not callable. *)
Lemma get_prop_plain props k :
  forallb (λ kv, json_plain kv.2) props = true →
  is_function (get_prop props k) = false.
Proof.
  induction props as [| [k' x] props IH]; simpl; [done |].
  intros [Hx Hrest]%andb_prop. destruct (String.eqb k' k); [| by apply IH].
  by destruct x.
Qed.

Lemma toJSON_of_plain v : json_plain v = true → is_function (toJSON_of v) = false.
Proof. destruct v; try done. simpl. apply get_prop_plain. Qed.

(** The walks unfold one level at a time. *)
Lemma SerializeJSONProperty_S {St} (rep : St → value → outcome (St * value)) f st v :
  SerializeJSONProperty rep (S f) st v =
    if is_function (toJSON_of v) then Unmodelled else
    '(st1, v1) ← rep st v; serialize_value (SerializeJSONProperty rep f) st1 v1.
Proof. reflexivity. Qed.

Lemma SerializeJSONProperty_step {St} (rep : St → value → outcome (St * value)) f st v :
  is_function (toJSON_of v) = false →
  SerializeJSONProperty rep (S f) st v =
    '(st1, v1) ← rep st v; serialize_value (SerializeJSONProperty rep f) st1 v1.
Proof. intros H. by rewrite SerializeJSONProperty_S, H. Qed.

Lemma toJSON_of_function (f : value) :
  is_function f = true → is_function (toJSON_of f) = false.
Proof. by destruct f. Qed.

Lemma InternalizeJSONProperty_array {St} (rev : St → value → outcome (St * value)) st items :
  InternalizeJSONProperty rev st (JArray items) =
    '(st1, elems) ← internalize_elements (InternalizeJSONProperty rev) st items;
    rev st1 (VArray elems).
Proof. reflexivity. Qed.

Lemma InternalizeJSONProperty_object {St} (rev : St → value → outcome (St * value)) st members :
  InternalizeJSONProperty rev st (JObject members) =
    '(st1, props) ← internalize_members (InternalizeJSONProperty rev) st members;
    rev st1 (VObject props).
Proof. reflexivity. Qed.

Section monotone.
Context {St : Type}.

Lemma serialize_elements_mono (ser1 ser2 : St → value → outcome (St * option json)) :
  (∀ st v, refines (ser1 st v) (ser2 st v)) →
  ∀ l st, refines (serialize_elements ser1 st l) (serialize_elements ser2 st l).
Proof.
  intros Hser. induction l as [| v l IH]; intros st; simpl; [apply refines_refl |].
  apply refines_bind; [apply Hser |]. intros [st1 j].
  apply refines_bind; [apply IH |]. intros [st2 js]. apply refines_refl.
Qed.

Lemma serialize_members_mono (ser1 ser2 : St → value → outcome (St * option json)) :
  (∀ st v, refines (ser1 st v) (ser2 st v)) →
  ∀ l st, refines (serialize_members ser1 st l) (serialize_members ser2 st l).
Proof.
  intros Hser. induction l as [| [k v] l IH]; intros st; simpl; [apply refines_refl |].
  apply refines_bind; [apply Hser |]. intros [st1 j].
  apply refines_bind; [apply IH |]. intros [st2 js]. apply refines_refl.
Qed.

Lemma SerializeJSONProperty_mono (rep1 rep2 : St → value → outcome (St * value)) :
  (∀ st v, refines (rep1 st v) (rep2 st v)) →
  ∀ f1 f2 st v, f1 ≤ f2 →
    refines (SerializeJSONProperty rep1 f1 st v) (SerializeJSONProperty rep2 f2 st v).
Proof.
  intros Hrep. induction f1 as [| f1 IH]; intros f2 st v Hle; [by left |].
  destruct f2 as [| f2]; [lia |]. rewrite !SerializeJSONProperty_S.
  destruct (is_function (toJSON_of v)); [apply refines_refl |].
  apply refines_bind; [apply Hrep |]. intros [st1 v1].
  assert (Hsub : ∀ st v, refines (SerializeJSONProperty rep1 f1 st v)
                                 (SerializeJSONProperty rep2 f2 st v))
    by (intros; apply IH; lia).
  unfold serialize_value. destruct v1; try apply refines_refl.
  - apply refines_bind; [by apply serialize_elements_mono |].
    intros [? ?]; apply refines_refl.
  - apply refines_bind; [by apply serialize_elements_mono |].
    intros [? ?]; apply refines_refl.
  - apply refines_bind; [by apply serialize_members_mono |].
    intros [? ?]; apply refines_refl.
  - apply refines_bind; [by apply serialize_members_mono |].
    intros [? ?]; apply refines_refl.
Qed.

Lemma InternalizeJSONProperty_mono (rev1 rev2 : St → value → outcome (St * value)) :
  (∀ st v, refines (rev1 st v) (rev2 st v)) →
  ∀ j st, refines (InternalizeJSONProperty rev1 st j) (InternalizeJSONProperty rev2 st j).
Proof.
  intros Hrev. induction j as [| b | n | s | items IH | members IH] using json_ind;
    intros st; try exact (Hrev _ _).
  - rewrite !InternalizeJSONProperty_array.
    apply refines_bind; [| intros [? ?]; apply Hrev].
    revert st. induction IH as [| j items Hj _ IHitems]; intros st; [apply refines_refl |].
    simpl.
    apply refines_bind; [apply Hj |]. intros [st1 v].
    apply refines_bind; [apply IHitems |]. intros [? ?]. apply refines_refl.
  - rewrite !InternalizeJSONProperty_object.
    apply refines_bind; [| intros [? ?]; apply Hrev].
    revert st. induction IH as [| [k j] members Hj _ IHm]; intros st; [apply refines_refl |].
    simpl.
    apply refines_bind; [apply Hj |]. intros [st1 v].
    apply refines_bind; [apply IHm |]. intros [? ?]. apply refines_refl.
Qed.
End monotone.

Section codec_monotone.
Variable functions : nat → fn_info.

Lemma serializer_replacer_mono (rec1 rec2 : heap → value → outcome (heap * enc_result)) :
  (∀ h v, refines (rec1 h v) (rec2 h v)) →
  ∀ st v, refines (serializer_replacer functions rec1 st v)
                  (serializer_replacer functions rec2 st v).
Proof.
  intros Hrec st v. unfold serializer_replacer.
  destruct v; try apply refines_refl.
  destruct (negb (truthy (VRef l))); [apply refines_refl |].
  destruct (st_heap st !! l) as [[]|]; try apply refines_refl.
  unfold replace_error. apply refines_bind; [| intros; apply refines_refl].
  destruct (truthy cause); [| apply refines_refl].
  apply refines_bind; [apply Hrec |]. intros [? ?]. apply refines_refl.
Qed.

Lemma serializer_S f h v :
  serializer functions (S f) h v =
    '(st, text) ← JSON_stringify (serializer_replacer functions (serializer functions f)) (S f)
                    {| st_heap := h; st_verbatim := [];
                       st_transferables := []; st_revokables := [] |} v;
    '(_, result) ← JSON_parse (serializer_reviver (st_verbatim st)) tt text;
    Ok (st_heap st,
        {| data := result;
           transferables := st_transferables st;
           revokables := st_revokables st |}).
Proof. reflexivity. Qed.

Lemma deserializer_S (table : registry) f h v :
  deserializer (S f) table h v =
    '(verbatim, text) ← JSON_stringify deserializer_replacer (S f) [] v;
    JSON_parse (deserializer_reviver table (deserializer f table) verbatim) h text.
Proof. reflexivity. Qed.

Lemma serializer_mono f1 f2 h v :
  f1 ≤ f2 → refines (serializer functions f1 h v) (serializer functions f2 h v).
Proof.
  revert f2 h v. induction f1 as [| f1 IH]; intros f2 h v Hle; [by left |].
  destruct f2 as [| f2]; [lia |]. rewrite !serializer_S. unfold JSON_stringify.
  apply refines_bind; [| intros [? ?]; apply refines_refl].
  apply SerializeJSONProperty_mono; [| lia].
  apply serializer_replacer_mono. intros; apply IH; lia.
Qed.

Lemma deserializer_reviver_mono (table : registry)
    (rec1 rec2 : heap → value → outcome (heap * value)) verbatim :
  (∀ h v, refines (rec1 h v) (rec2 h v)) →
  ∀ h v, refines (deserializer_reviver table rec1 verbatim h v)
                 (deserializer_reviver table rec2 verbatim h v).
Proof.
  intros Hrec h v. unfold deserializer_reviver.
  destruct (as_array v) as [elems|]; [| apply refines_refl].
  destruct (is_string "_" (array_get elems 0)); [| apply refines_refl].
  destruct (array_get elems 1); try apply refines_refl.
  repeat (case_match; try apply refines_refl).
  unfold revive_error.
  repeat (case_match; try apply refines_refl).
  all: apply refines_bind; [apply Hrec |]; intros [? ?]; apply refines_refl.
Qed.

Lemma deserializer_mono (table : registry) f1 f2 h v :
  f1 ≤ f2 → refines (deserializer f1 table h v) (deserializer f2 table h v).
Proof.
  revert f2 h v. induction f1 as [| f1 IH]; intros f2 h v Hle; [by left |].
  destruct f2 as [| f2]; [lia |]. rewrite !deserializer_S. unfold JSON_stringify.
  apply refines_bind.
  - apply SerializeJSONProperty_mono; [intros; apply refines_refl | lia].
  - intros [verbatim text]. destruct text as [j|]; [| apply refines_refl].
    apply InternalizeJSONProperty_mono, deserializer_reviver_mono.
    intros; apply IH; lia.
Qed.

(** A result obtained with some budget is the result of every larger one. *)
Lemma serializer_returns f h v r :
  serializer functions f h v = r → r ≠ OutOfFuel →
  returns (λ fuel, serializer functions fuel h v) r.
Proof.
  intros Hr Hne. exists f. intros fuel Hle.
  destruct (serializer_mono f fuel h v Hle) as [H | H]; congruence.
Qed.

Lemma deserializer_returns (table : registry) f h v r :
  deserializer f table h v = r → r ≠ OutOfFuel →
  returns (λ fuel, deserializer fuel table h v) r.
Proof.
  intros Hr Hne. exists f. intros fuel Hle.
  destruct (deserializer_mono table f fuel h v Hle) as [H | H]; congruence.
Qed.
End codec_monotone.

(** ** Steps of the encoder's walk *)

Section encoder_steps.
Variable functions : nat → fn_info.
Variable rec : heap → value → outcome (heap * enc_result).

Lemma serializer_replacer_string st s :
  serializer_replacer functions rec st (VString s) = Ok (st, VString s).
Proof. unfold serializer_replacer. by destruct (negb (truthy (VString s))). Qed.

Lemma serializer_replacer_number st n :
  serializer_replacer functions rec st (VNumber n) = Ok (st, VNumber n).
Proof. unfold serializer_replacer. by destruct (negb (truthy (VNumber n))). Qed.

Lemma serializer_replacer_bool st b :
  serializer_replacer functions rec st (VBool b) = Ok (st, VBool b).
Proof. unfold serializer_replacer. by destruct (negb (truthy (VBool b))). Qed.

Lemma stringify_string f st s :
  SerializeJSONProperty (serializer_replacer functions rec) (S f) st (VString s)
    = Ok (st, Some (JString s)).
Proof. by rewrite SerializeJSONProperty_S, serializer_replacer_string. Qed.

Lemma stringify_number f st n :
  SerializeJSONProperty (serializer_replacer functions rec) (S f) st (VNumber n)
    = Ok (st, Some (json_of_number n)).
Proof. by rewrite SerializeJSONProperty_S, serializer_replacer_number. Qed.

Lemma stringify_ref_to f st pos :
  SerializeJSONProperty (serializer_replacer functions rec) (S (S f)) st (ref_to pos)
    = Ok (st, Some (JArray [JString "_"; JString "_ref";
                            json_of_number (number_of_nat pos)])).
Proof.
  rewrite SerializeJSONProperty_S. simpl.
  by rewrite ?stringify_string, ?stringify_number.
Qed.
End encoder_steps.

(** ** The encoder on an error *)

(** The walk of an [Error] whose cause is truthy: the cause is replaced by
    what the nested call returns, and the node prints as an [_err] array
    around a reference to the new verbatim slot. *)
Lemma stringify_error (functions : nat → fn_info)
    (rec : heap → value → outcome (heap * enc_result))
    (f : nat) (st : enc_state) (l : loc) (n m : string) (c : value)
    (hc : heap) (rc : enc_result) :
  st_heap st !! l = Some (HError n m c) →
  truthy c = true →
  rec (st_heap st) c = Ok (hc, rc) →
  hc !! l = Some (HError n m c) →
  SerializeJSONProperty (serializer_replacer functions rec) (S (S (S f))) st (VRef l)
    = Ok ({| st_heap := <[l := HError n m (data rc)]> hc;
             st_verbatim := st_verbatim st ++ [VRef l];
             st_transferables := st_transferables st;
             st_revokables := st_revokables st |},
          Some (JArray [JString "_"; JString "_err";
                        JArray [JString "_"; JString "_ref";
                                json_of_number (number_of_nat (length (st_verbatim st)))];
                        JString n])).
Proof.
  intros Hl Hc Hrec Hhc.
  rewrite SerializeJSONProperty_S. simpl. rewrite Hl. unfold replace_error.
  rewrite Hc. simpl. rewrite Hrec. simpl. rewrite Hhc. simpl.
  assert (Hlt : l < length hc) by (eapply lookup_lt_Some; eauto).
  rewrite list_lookup_insert_eq by done. simpl.
  rewrite ?stringify_string, ?stringify_ref_to; simpl.
  by rewrite ?stringify_string, ?stringify_ref_to.
Qed.

(** ** The decoder on an [_err] array *)

(** Assigning the carried name when it differs is assigning it. *)
Lemma restore_name (h : heap) (l : loc) (n n' m : string) (c : value) :
  h !! l = Some (HError n m c) →
  (if negb (String.eqb n n') then <[l := HError n' m c]> h else h)
    = <[l := HError n' m c]> h.
Proof.
  intros Hl. destruct (String.eqb_spec n n') as [-> | Hne]; simpl; [| done].
  symmetry. by apply list_insert_id.
Qed.

(** The first pass of the decoder on an [_err] array around a host object. *)
Lemma deserializer_stringify_err (f : nat) (l : loc) (n' : string) :
  JSON_stringify deserializer_replacer (S (S (S f))) []
      (VArray [Some sentinel; Some (VString "_err"); Some (VRef l); Some (VString n')])
    = Ok ([VRef l],
          Some (JArray [JString "_"; JString "_err";
                        JArray [JString "_"; JString "_ref"; JNumber (S754_zero false)];
                        JString n'])).
Proof.
  unfold JSON_stringify. repeat (rewrite SerializeJSONProperty_S; simpl). reflexivity.
Qed.

(** The second pass hands the error and the carried name to the [_err]
    case. *)
Lemma deserializer_parse_err (table : registry)
    (rec : heap → value → outcome (heap * value)) (h : heap) (l : loc) (n' : string) :
  JSON_parse (deserializer_reviver table rec [VRef l]) h
      (Some (JArray [JString "_"; JString "_err";
                     JArray [JString "_"; JString "_ref"; JNumber (S754_zero false)];
                     JString n']))
    = revive_error rec h (VRef l) (VString n').
Proof.
  reflexivity.
Qed.

(** The walk of an [Error] whose cause is falsy leaves the heap alone. *)
Lemma stringify_error_leaf (functions : nat → fn_info)
    (rec : heap → value → outcome (heap * enc_result))
    (f : nat) (st : enc_state) (l : loc) (n m : string) (c : value) :
  st_heap st !! l = Some (HError n m c) →
  truthy c = false →
  SerializeJSONProperty (serializer_replacer functions rec) (S (S (S f))) st (VRef l)
    = Ok (push_verbatim st (VRef l),
          Some (JArray [JString "_"; JString "_err";
                        JArray [JString "_"; JString "_ref";
                                json_of_number (number_of_nat (length (st_verbatim st)))];
                        JString n])).
Proof.
  intros Hl Hc.
  rewrite SerializeJSONProperty_S. simpl. rewrite Hl. unfold replace_error.
  rewrite Hc. simpl. rewrite Hl. simpl.
  rewrite ?stringify_string, ?stringify_ref_to; simpl.
  by rewrite ?stringify_string, ?stringify_ref_to.
Qed.

(** [deserializer] on an [_err] array, in terms of the [_err] case. *)
Lemma deserializer_err (table : registry) (f : nat) (h : heap) (l : loc) (n' : string) :
  deserializer (S (S (S f))) table h
      (VArray [Some sentinel; Some (VString "_err"); Some (VRef l); Some (VString n')])
    = revive_error (deserializer (S (S f)) table) h (VRef l) (VString n').
Proof.
  rewrite (deserializer_S table), deserializer_stringify_err.
  exact (deserializer_parse_err table (deserializer (S (S f)) table) h l n').
Qed.

(** ** The decoder on a [_custom] array *)

Lemma default_slot_of (v : value) : default VUndefined (slot_of v) = v.
Proof. by destruct v. Qed.

Lemma array_get_slot_of (before : list (option value)) (v : value) :
  array_get (before ++ [slot_of v]) (length before) = v.
Proof.
  unfold array_get. rewrite lookup_app_r by lia.
  rewrite Nat.sub_diag. simpl. apply default_slot_of.
Qed.

(** Decoding [['_', '_custom', tag, p]] is decoding [p] and then taking the
    [_custom] case on the result. *)
Lemma deserializer_custom (table : registry) (h h' : heap) (tag : string) (p p' : value) :
  returns (λ fuel, deserializer fuel table h p) (Ok (h', p')) →
  returns (λ fuel, deserializer fuel table h
             (VArray [Some sentinel; Some (VString "_custom"); Some (VString tag); Some p]))
    (revive_custom table h' (VString tag) p').
Proof.
  intros [k Hk]. specialize (Hk (S k) ltac:(lia)).
  rewrite deserializer_S in Hk. unfold JSON_stringify in Hk.
  destruct (SerializeJSONProperty deserializer_replacer (S k) [] p)
    as [[verbatim text] | | |] eqn:Hser; try discriminate.
  simpl in Hk. destruct text as [jp |]; [| discriminate]. simpl in Hk.
  exists (S (S (S k))). intros fuel Hle.
  destruct fuel as [| [| f]]; try lia.
  assert (HserF : SerializeJSONProperty deserializer_replacer (S f) [] p
                  = Ok (verbatim, Some jp)).
  { destruct (SerializeJSONProperty_mono deserializer_replacer deserializer_replacer
                (λ _ _, refines_refl _) (S k) (S f) [] p ltac:(lia)) as [H | H];
      congruence. }
  assert (HintF : InternalizeJSONProperty
                    (deserializer_reviver table (deserializer (S f) table) verbatim) h jp
                  = Ok (h', p')).
  { destruct (InternalizeJSONProperty_mono
                (deserializer_reviver table (deserializer k table) verbatim)
                (deserializer_reviver table (deserializer (S f) table) verbatim)
                (deserializer_reviver_mono table _ _ verbatim
                   (λ h v, deserializer_mono table k (S f) h v ltac:(lia)))
                jp h) as [H | H]; congruence. }
  rewrite deserializer_S. unfold JSON_stringify.
  rewrite SerializeJSONProperty_S. simpl. rewrite HserF. simpl.
  rewrite InternalizeJSONProperty_array. simpl. rewrite HintF. simpl.
  unfold deserializer_reviver, revive_custom, array_get. simpl.
  by rewrite default_slot_of.
Qed.

(** * The four passes on a shape *)

(** Induction on shapes, with the hypothesis for every child. *)
Lemma shape_ind (P : shape → Prop) :
  P SUndefined →
  (∀ p, P (SPrim p)) →
  (∀ items, Forall P items → P (SArray items)) →
  (∀ members, Forall (λ m, P m.2) members → P (SObject members)) →
  (∀ entries, Forall P entries → P (SMap entries)) →
  (∀ items, Forall P items → P (SSet items)) →
  (∀ c tag props payload, P payload → P (SCustom c tag props payload)) →
  (∀ l name message cause, P cause → P (SError l name message cause)) →
  ∀ s, P s.
Proof.
  intros Hundef Hprim Harr Hobj Hmap Hset Hcustom Herr.
  fix IH 1. intros [| p | items | members | entries | items | c tag props payload
                    | l name message cause].
  - exact Hundef.
  - apply Hprim.
  - apply Harr. induction items as [| x items IHitems]; constructor.
    + apply IH.
    + exact IHitems.
  - apply Hobj. induction members as [| [k x] members IHm]; constructor.
    + apply IH.
    + exact IHm.
  - apply Hmap. induction entries as [| x entries IHe]; constructor.
    + apply IH.
    + exact IHe.
  - apply Hset. induction items as [| x items IHitems]; constructor.
    + apply IH.
    + exact IHitems.
  - apply Hcustom, IH.
  - apply Herr, IH.
Qed.

(** ** Facts about shapes *)

Lemma is_string_value_of (s : shape) : is_string "_" (value_of s) = is_sentinel s.
Proof. by destruct s. Qed.

Lemma is_string_enc_of (s : shape) : is_string "_" (enc_of s) = is_sentinel s.
Proof. by destruct s. Qed.

Lemma is_string_dec_of (s : shape) : is_string "_" (dec_of s) = is_sentinel s.
Proof. by destruct s. Qed.

Lemma spread_Some (l : list value) : spread (Some <$> l) = l.
Proof. unfold spread. rewrite <- list_fmap_compose. apply list_fmap_id. Qed.

Lemma spread_fmap_Some {A} (f : A → value) (l : list A) :
  spread ((λ x, Some (f x)) <$> l) = f <$> l.
Proof. unfold spread. by rewrite <- list_fmap_compose. Qed.

Lemma json_of_number_exact (n : spec_float) :
  json_exact (VNumber n) = true → json_of_number n = JNumber n.
Proof. by destruct n as [[] | | |]. Qed.

Lemma Forall_fold_Forall {A} (P : A → Prop) (l : list A) :
  Forall_fold P l ↔ Forall P l.
Proof.
  induction l as [| x l IH]; simpl; [by split |].
  rewrite Forall_cons. by rewrite IH.
Qed.

Lemma size_pos (s : shape) : 1 ≤ size s.
Proof. destruct s; simpl; lia. Qed.

Lemma sum_list_with_le {A} (f : A → nat) (l : list A) (x : A) :
  x ∈ l → f x ≤ sum_list_with f l.
Proof.
  induction 1 as [| y z l _ IH]; simpl; lia.
Qed.

(** No member of an object that a shape describes is callable, so the object
    has no [toJSON] method. *)
Lemma get_prop_not_function props k :
  Forall (λ kv : string * value, is_function kv.2 = false) props →
  is_function (get_prop props k) = false.
Proof.
  induction 1 as [| [k' x] props Hx _ IH]; simpl; [done |].
  by destruct (String.eqb k' k).
Qed.

Lemma value_of_not_function functions (s : shape) :
  encodable functions s → is_function (value_of s) = false.
Proof. destruct s as [| p | | | | | |]; try done. by destruct p. Qed.

Lemma enc_of_not_function functions (s : shape) :
  encodable functions s → is_function (enc_of s) = false.
Proof. destruct s as [| p | | | | | |]; try done. by destruct p. Qed.

Lemma members_not_function functions (view : shape → value) members k :
  (∀ s, encodable functions s → is_function (view s) = false) →
  Forall_fold (λ m, encodable functions m.2) members →
  is_function (get_prop ((λ m, (m.1, view m.2)) <$> members) k) = false.
Proof.
  intros Hview Henc. apply get_prop_not_function.
  apply Forall_fold_Forall in Henc. apply Forall_fmap.
  eapply Forall_impl; [exact Henc |]. intros [k' x] Hx. simpl. by apply Hview.
Qed.

(** ** Third pass: the decoder's [JSON.stringify] on encoded data *)

Section decoder_stringify.
Variable functions : nat → fn_info.

Lemma deserializer_stringify_string f vb s :
  SerializeJSONProperty deserializer_replacer (S f) vb (VString s)
    = Ok (vb, Some (JString s)).
Proof. reflexivity. Qed.

Lemma deserializer_stringify_string_ge f vb s :
  1 ≤ f →
  SerializeJSONProperty deserializer_replacer f vb (VString s)
    = Ok (vb, Some (JString s)).
Proof. intros Hf. destruct f; [lia | reflexivity]. Qed.

Lemma decoder_prints_elements (items : list shape) :
  Forall (decoder_prints functions) items →
  ∀ fuel vb, sum_list_with size items ≤ fuel → Forall_fold (encodable functions) items →
    serialize_elements (SerializeJSONProperty deserializer_replacer fuel) vb
        (enc_of <$> items)
      = Ok (vb ++ mjoin (refs_of <$> items), thread json_of items (length vb)).
Proof.
  induction 1 as [| x items Hx _ IH]; intros fuel vb Hfuel Henc; simpl.
  - by rewrite app_nil_r.
  - simpl in Hfuel. destruct Henc as [Hencx Henc].
    rewrite Hx by (done || lia). simpl.
    rewrite IH by (done || lia). simpl.
    by rewrite length_app, app_assoc.
Qed.

Lemma decoder_prints_members (members : list (string * shape)) :
  Forall (λ m, decoder_prints functions m.2) members →
  ∀ fuel vb, sum_list_with (λ m, size m.2) members ≤ fuel →
    Forall_fold (λ m, encodable functions m.2) members →
    serialize_members (SerializeJSONProperty deserializer_replacer fuel) vb
        ((λ m, (m.1, enc_of m.2)) <$> members)
      = Ok (vb ++ mjoin ((λ m, refs_of m.2) <$> members),
            thread_members json_of members (length vb)).
Proof.
  induction 1 as [| [k x] members Hx _ IH]; intros fuel vb Hfuel Henc; simpl.
  - by rewrite app_nil_r.
  - simpl in *. destruct Henc as [Hencx Henc].
    rewrite Hx by (done || lia). simpl.
    rewrite IH by (done || lia). simpl.
    by rewrite length_app, app_assoc.
Qed.

(** An encoded array, with the two slots of the escape when it has them. *)
Lemma decoder_prints_array (items : list shape) :
  Forall (decoder_prints functions) items →
  ∀ fuel vb, 2 + sum_list_with size items ≤ fuel →
    Forall_fold (encodable functions) items →
    SerializeJSONProperty deserializer_replacer fuel vb
        (VArray (escape (Some sentinel) items ++ ((λ x, Some (enc_of x)) <$> items)))
      = Ok (vb ++ mjoin (refs_of <$> items),
            Some (JArray (escape (JString "_") items
                          ++ thread json_of items (length vb)))).
Proof.
  intros Hitems fuel vb Hfuel Henc.
  destruct fuel as [| [| fuel]]; try lia.
  rewrite SerializeJSONProperty_S. simpl.
  unfold spread. rewrite fmap_app, <- list_fmap_compose. simpl.
  change (λ x, default VUndefined (Some (enc_of x))) with enc_of.
  unfold escape. destruct (starts_with_sentinel items); simpl.
  - rewrite (decoder_prints_elements items Hitems) by (done || lia). done.
  - rewrite (decoder_prints_elements items Hitems) by (done || lia). done.
Qed.

Lemma encodable_entries (entries : list shape) :
  encodable functions (SMap entries) → Forall_fold (encodable functions) entries.
Proof.
  simpl. induction entries as [| e entries IH]; simpl; [done |].
  intros [He Hrest]. split; [| by apply IH].
  destruct e as [| | [| k [| x [| ]]] | | | | |]; try done. simpl. tauto.
Qed.

Lemma decoder_prints_all (s : shape) : decoder_prints functions s.
Proof.
  induction s as [| p | items IH | members IH | entries IH | items IH
                  | c tag props payload IH | l name message cause IH]
    using shape_ind;
    intros fuel vb Hfuel Henc; simpl in Hfuel.
  - destruct fuel as [| [| fuel]]; try lia.
    simpl. by rewrite app_nil_r.
  - destruct fuel as [| fuel]; try lia. simpl in Henc. rewrite app_nil_r.
    destruct p as [| | | n | | | | | | | | | | |]; try done.
    by destruct n as [[] | | |].
  - by apply decoder_prints_array.
  - destruct fuel as [| fuel]; try lia.
    rewrite SerializeJSONProperty_S. simpl.
    rewrite (members_not_function functions enc_of)
      by (done || apply enc_of_not_function).
    rewrite (decoder_prints_members members IH) by (done || lia). done.
  - destruct fuel as [| fuel]; try lia.
    rewrite SerializeJSONProperty_S. simpl.
    repeat (rewrite deserializer_stringify_string_ge by lia; simpl).
    rewrite (decoder_prints_array entries IH) by (auto using encodable_entries || lia).
    done.
  - destruct fuel as [| fuel]; try lia.
    rewrite SerializeJSONProperty_S. simpl.
    repeat (rewrite deserializer_stringify_string_ge by lia; simpl).
    rewrite (decoder_prints_array items IH) by (done || lia).
    done.
  - destruct fuel as [| fuel]; try lia.
    rewrite SerializeJSONProperty_S. simpl.
    pose proof (size_pos payload).
    repeat (rewrite deserializer_stringify_string_ge by lia; simpl).
    destruct Henc as (_ & _ & _ & _ & _ & Hpayload).
    rewrite IH by (done || lia). done.
  - destruct fuel as [| [| [| fuel]]]; try lia. reflexivity.
Qed.
End decoder_stringify.

(** ** Second pass: the encoder's [JSON.parse] *)

Lemma index_of_number_of_nat (n : nat) : index_of_number (number_of_nat n) = Some n.
Proof.
  destruct n as [| n]; [done |]. unfold number_of_nat, index_of_number. simpl Z.leb.
  cbv iota. f_equal. rewrite Nat2Pos.id by done. simpl. lia.
Qed.

Lemma json_of_number_of_nat (n : nat) :
  json_of_number (number_of_nat n) = JNumber (number_of_nat n).
Proof. by destruct n. Qed.

Lemma verbatim_get_position (verbatim : list value) (pos : nat) (v : value) :
  verbatim !! pos = Some v →
  verbatim_get verbatim (VNumber (number_of_nat pos)) = Ok v.
Proof.
  intros Hv. unfold verbatim_get. by rewrite index_of_number_of_nat, Hv.
Qed.

Lemma holds_refs_app (verbatim : list value) (pos : nat) (r1 r2 : list value) :
  holds_refs verbatim pos (r1 ++ r2) →
  holds_refs verbatim pos r1 ∧ holds_refs verbatim (pos + length r1) r2.
Proof.
  intros H. split; intros i v Hi.
  - apply H. by apply lookup_app_l_Some.
  - replace (pos + length r1 + i) with (pos + (length r1 + i)) by lia.
    apply H. rewrite lookup_app_r by lia.
    by replace (length r1 + i - length r1) with i by lia.
Qed.

Lemma holds_refs_extend (verbatim : list value) (refs : list value) :
  holds_refs (verbatim ++ refs) (length verbatim) refs.
Proof.
  intros i v Hi. rewrite lookup_app_r by lia.
  by replace (length verbatim + i - length verbatim) with i by lia.
Qed.

Section encoder_parse.
Variable functions : nat → fn_info.

Lemma enc_of_defined (s : shape) : encodable functions s → slot_of (enc_of s) = Some (enc_of s).
Proof. destruct s as [| [] | | | | | |]; done. Qed.

(** The reviver leaves an array that is not a [_ref] array as it is. *)
Lemma serializer_reviver_array (verbatim : list value) (elems : list (option value)) :
  is_string "_" (array_get elems 0) && is_string "_ref" (array_get elems 1) = false →
  serializer_reviver verbatim tt (VArray elems) = Ok (tt, VArray elems).
Proof. intros H. unfold serializer_reviver. simpl. by rewrite H. Qed.

Lemma encoder_revives_elements (items : list shape) :
  Forall (encoder_revives functions) items →
  ∀ pos verbatim, holds_refs verbatim pos (mjoin (refs_of <$> items)) →
    Forall_fold (encodable functions) items →
    internalize_elements (InternalizeJSONProperty (serializer_reviver verbatim)) tt
        (thread json_of items pos)
      = Ok (tt, (λ x, Some (enc_of x)) <$> items).
Proof.
  induction 1 as [| x items Hx _ IH]; intros pos verbatim Hrefs Henc; simpl; [done |].
  simpl in Hrefs. apply holds_refs_app in Hrefs as [Hrx Hrest].
  destruct Henc as [Hencx Henc].
  rewrite Hx by done. simpl. rewrite IH by done. simpl.
  by rewrite (enc_of_defined x).
Qed.

Lemma encoder_revives_members (members : list (string * shape)) :
  Forall (λ m, encoder_revives functions m.2) members →
  ∀ pos verbatim, holds_refs verbatim pos (mjoin ((λ m, refs_of m.2) <$> members)) →
    Forall_fold (λ m, encodable functions m.2) members →
    internalize_members (InternalizeJSONProperty (serializer_reviver verbatim)) tt
        (thread_members json_of members pos)
      = Ok (tt, (λ m, (m.1, enc_of m.2)) <$> members).
Proof.
  induction 1 as [| [k x] members Hx _ IH]; intros pos verbatim Hrefs Henc; simpl; [done |].
  simpl in *. apply holds_refs_app in Hrefs as [Hrx Hrest].
  destruct Henc as [Hencx Henc].
  rewrite Hx by done. simpl. rewrite IH by done. simpl.
  pose proof (enc_of_defined x Hencx) as Hdef.
  by destruct (enc_of x).
Qed.

Lemma internalize_elements_app {St} (int : St → json → outcome (St * value))
    (st : St) (js1 js2 : list json) :
  internalize_elements int st (js1 ++ js2)
    = '(st1, vs1) ← internalize_elements int st js1;
      '(st2, vs2) ← internalize_elements int st1 js2;
      Ok (st2, vs1 ++ vs2).
Proof.
  revert st. induction js1 as [| j js1 IH]; intros st; simpl.
  - by destruct (internalize_elements int st js2) as [[? ?] | | |].
  - destruct (int st j) as [[st1 v] | | |]; simpl; try done.
    rewrite IH. destruct (internalize_elements int st1 js1) as [[st2 vs1] | | |]; simpl; try done.
    by destruct (internalize_elements int st2 js2) as [[? ?] | | |].
Qed.

Lemma encoder_revives_array (items : list shape) :
  Forall (encoder_revives functions) items →
  ∀ pos verbatim, holds_refs verbatim pos (mjoin (refs_of <$> items)) →
    Forall_fold (encodable functions) items →
    InternalizeJSONProperty (serializer_reviver verbatim) tt
        (JArray (escape (JString "_") items ++ thread json_of items pos))
      = Ok (tt, VArray (escape (Some sentinel) items
                        ++ ((λ x, Some (enc_of x)) <$> items))).
Proof.
  intros Hitems pos verbatim Hrefs Henc.
  rewrite InternalizeJSONProperty_array.
  unfold escape. destruct (starts_with_sentinel items) eqn:Hesc; simpl.
  - rewrite (encoder_revives_elements items Hitems) by done. simpl.
    by apply serializer_reviver_array.
  - rewrite (encoder_revives_elements items Hitems) by done. simpl.
    apply serializer_reviver_array.
    destruct items as [| x items]; [done |]. simpl in *.
    unfold array_get. simpl. by rewrite is_string_enc_of, Hesc.
Qed.

Lemma encoder_revives_all (s : shape) : encoder_revives functions s.
Proof.
  induction s as [| p | items IH | members IH | entries IH | items IH
                  | c tag props payload IH | l name message cause IH]
    using shape_ind;
    intros pos verbatim Hrefs Henc.
  - reflexivity.
  - simpl in Henc. destruct p as [| | | n | | | | | | | | | | |]; try done.
  - by apply encoder_revives_array.
  - simpl. rewrite InternalizeJSONProperty_object.
    rewrite (encoder_revives_members members IH) by done. done.
  - simpl. rewrite InternalizeJSONProperty_array. simpl.
    rewrite (encoder_revives_array entries IH) by eauto using encodable_entries.
    done.
  - simpl. rewrite InternalizeJSONProperty_array. simpl.
    rewrite (encoder_revives_array items IH) by done.
    done.
  - simpl. rewrite InternalizeJSONProperty_array. simpl.
    destruct Henc as (_ & _ & _ & _ & _ & Hpayload).
    rewrite IH by done. simpl. by rewrite (enc_of_defined payload).
  - simpl. rewrite InternalizeJSONProperty_array. simpl.
    rewrite json_of_number_of_nat, InternalizeJSONProperty_array. simpl.
    specialize (Hrefs 0 (VRef l) eq_refl). rewrite Nat.add_0_r in Hrefs.
    by rewrite index_of_number_of_nat, Hrefs.
Qed.
End encoder_parse.

(** ** Heaps and cells *)

Lemma stored_nil (h : heap) : stored [] h.
Proof. intros l o H. by apply elem_of_nil in H. Qed.

Lemma stored_app (cs1 cs2 : list (loc * hobj)) (h : heap) :
  stored (cs1 ++ cs2) h ↔ stored cs1 h ∧ stored cs2 h.
Proof.
  unfold stored. split.
  - intros H. split; intros l o Hin; apply H, elem_of_app; auto.
  - intros [H1 H2] l o Hin. apply elem_of_app in Hin as [Hin | Hin]; auto.
Qed.

Lemma stored_cons (l : loc) (o : hobj) (cs : list (loc * hobj)) (h : heap) :
  stored ((l, o) :: cs) h ↔ h !! l = Some o ∧ stored cs h.
Proof.
  unfold stored. split.
  - intros H. split; [apply H; left | intros l' o' Hin; apply H; by right].
  - intros [H1 H2] l' o' Hin. apply elem_of_cons in Hin as [Heq | Hin]; [| auto].
    by injection Heq as -> ->.
Qed.

(** Cells away from the locations that changed are still stored. *)
Lemma stored_frame (cs : list (loc * hobj)) (ls : list loc) (h h' : heap) :
  stored cs h → agree_outside ls h h' →
  (∀ l, l ∈ cs.*1 → l ∉ ls) →
  stored cs h'.
Proof.
  intros Hst [_ Hag] Hdisj l o Hin. rewrite Hag; [by apply Hst |].
  apply Hdisj. apply list_elem_of_fmap. by exists (l, o).
Qed.

Lemma agree_outside_refl (ls : list loc) (h : heap) : agree_outside ls h h.
Proof. by split. Qed.

Lemma agree_outside_app (ls1 ls2 : list loc) (h h1 h2 : heap) :
  agree_outside ls1 h h1 → agree_outside ls2 h1 h2 →
  agree_outside (ls1 ++ ls2) h h2.
Proof.
  intros [Hlen1 H1] [Hlen2 H2]. split; [congruence |].
  intros l Hl. rewrite not_elem_of_app in Hl. destruct Hl.
  rewrite H2, H1; done.
Qed.

Lemma agree_outside_insert (l : loc) (o : hobj) (ls : list loc) (h h' : heap) :
  agree_outside ls h h' → agree_outside (l :: ls) h (<[l := o]> h').
Proof.
  intros [Hlen H]. split; [by rewrite length_insert |].
  intros l' Hl'. rewrite not_elem_of_cons in Hl'. destruct Hl' as [Hne Hl'].
  rewrite list_lookup_insert_ne by done. by apply H.
Qed.

(** The locations of the cells do not depend on how causes are seen. *)
Lemma cells_locs (view : shape → value) (s : shape) : (cells view s).*1 = locs s.
Proof.
  unfold locs.
  induction s as [| p | items IH | members IH | entries IH | items IH
                  | c tag props payload IH | l name message cause IH]
    using shape_ind; simpl; try done.
  - induction IH as [| x items Hx _ IHitems]; csimpl; [done |].
    rewrite !fmap_app. by f_equal.
  - induction IH as [| [k x] members Hx _ IHm]; csimpl; [done |].
    rewrite !fmap_app. by f_equal.
  - induction IH as [| x items Hx _ IHitems]; csimpl; [done |].
    rewrite !fmap_app. by f_equal.
  - induction IH as [| x items Hx _ IHitems]; csimpl; [done |].
    rewrite !fmap_app. by f_equal.
  - by f_equal.
Qed.

Lemma locs_cons (x : shape) (items : list shape) :
  locs (SArray (x :: items)) = locs x ++ locs (SArray items).
Proof. unfold locs. simpl. by rewrite fmap_app. Qed.

Lemma locs_members_cons (k : string) (x : shape) (members : list (string * shape)) :
  locs (SObject ((k, x) :: members)) = locs x ++ locs (SObject members).
Proof. unfold locs. simpl. by rewrite fmap_app. Qed.

Lemma locs_error (l : loc) (name message : string) (cause : shape) :
  locs (SError l name message cause) = l :: locs cause.
Proof. done. Qed.

(** A cause that is not encoded has no errors in it. *)
Lemma falsy_cause_leaf (functions : nat → fn_info) (view : shape → value)
    (l : loc) (name message : string) (cause : shape) :
  encodable functions (SError l name message cause) →
  truthy (value_of cause) = false →
  cells view cause = [].
Proof. simpl. intros H Hf. rewrite Hf in H. by destruct cause. Qed.

Lemma truthy_enc_of (s : shape) :
  truthy (value_of s) = true → truthy (enc_of s) = true.
Proof. by destruct s. Qed.

(** ** Fourth pass: the decoder's [JSON.parse] *)

Lemma cells_cons (view : shape → value) (x : shape) (items : list shape) :
  cells view (SArray (x :: items)) = cells view x ++ cells view (SArray items).
Proof. done. Qed.

Lemma cells_members_cons (view : shape → value) (k : string) (x : shape)
    (members : list (string * shape)) :
  cells view (SObject ((k, x) :: members)) = cells view x ++ cells view (SObject members).
Proof. done. Qed.

Lemma refs_of_cons (x : shape) (items : list shape) :
  refs_of (SArray (x :: items)) = refs_of x ++ refs_of (SArray items).
Proof. done. Qed.

Lemma refs_of_members_cons (k : string) (x : shape) (members : list (string * shape)) :
  refs_of (SObject ((k, x) :: members)) = refs_of x ++ refs_of (SObject members).
Proof. done. Qed.

(** Cells of one part stay stored while another part, whose locations are
    different, is processed. *)
Lemma stored_disjoint (view : shape → value) (s : shape) (ls : list loc) (h h' : heap) :
  stored (cells view s) h → agree_outside ls h h' →
  (∀ l, l ∈ locs s → l ∉ ls) →
  stored (cells view s) h'.
Proof.
  intros Hst Hag Hdisj. apply (stored_frame _ ls h h' Hst Hag).
  by rewrite cells_locs.
Qed.

Section decoder_parse.
Variable functions : nat → fn_info.
Variable table : registry.

(** The reviver leaves alone what is not an array, and an array that does
    not start with the sentinel. *)
Lemma deserializer_reviver_array rec verbatim (h : heap) (elems : list (option value)) :
  is_string "_" (array_get elems 0) = false →
  deserializer_reviver table rec verbatim h (VArray elems) = Ok (h, VArray elems).
Proof. intros H. unfold deserializer_reviver. simpl. by rewrite H. Qed.

(** An array that was escaped loses its first two slots. *)
Lemma deserializer_reviver_escaped rec verbatim (h : heap) (elems : list (option value)) :
  elems ≠ [] →
  deserializer_reviver table rec verbatim h (VArray (Some sentinel :: Some sentinel :: elems))
    = Ok (h, VArray elems).
Proof. intros H. unfold deserializer_reviver. simpl. by destruct elems. Qed.

Lemma decoder_revives_elements (items : list shape) :
  Forall (decoder_revives functions table) items →
  ∀ fr pos verbatim h,
    sum_list_with size items ≤ fr →
    holds_refs verbatim pos (refs_of (SArray items)) →
    Forall_fold (encodable functions) items → Forall_fold (decodable table) items →
    NoDup (locs (SArray items)) →
    stored (cells enc_of (SArray items)) h →
    ∃ h',
      internalize_elements
          (InternalizeJSONProperty
             (deserializer_reviver table (deserializer fr table) verbatim))
          h (thread json_of items pos)
        = Ok (h', (λ x, slot_of (dec_of x)) <$> items)
      ∧ stored (cells dec_of (SArray items)) h'
      ∧ agree_outside (locs (SArray items)) h h'.
Proof.
  induction 1 as [| x items Hx _ IH];
    intros fr pos verbatim h Hsize Hrefs Henc Hdec Hnd Hst.
  - exists h. split; [done |]. split; [apply stored_nil | apply agree_outside_refl].
  - simpl in Hsize. rewrite refs_of_cons in Hrefs.
    apply holds_refs_app in Hrefs as [Hrx Hrr].
    destruct Henc as [Hencx Henc]. destruct Hdec as [Hdecx Hdec].
    rewrite locs_cons in Hnd. apply NoDup_app in Hnd as (Hndx & Hdisj & Hndr).
    rewrite cells_cons in Hst. apply stored_app in Hst as [Hsx Hsr].
    destruct (Hx fr pos verbatim h) as (h1 & Hrun1 & Hst1 & Hag1); try done; [lia |].
    assert (Hsr1 : stored (cells enc_of (SArray items)) h1).
    { apply (stored_disjoint _ _ (locs x) h h1 Hsr Hag1).
      intros l Hl Hlx. by apply (Hdisj l). }
    destruct (IH fr (pos + length (refs_of x)) verbatim h1)
      as (h2 & Hrun2 & Hst2 & Hag2); try done; [lia |].
    exists h2. split; [| split].
    + simpl. rewrite Hrun1. simpl. rewrite Hrun2. done.
    + rewrite cells_cons. apply stored_app. split; [| done].
      apply (stored_disjoint _ _ (locs (SArray items)) h1 h2 Hst1 Hag2).
      intros l Hl. by apply Hdisj.
    + rewrite locs_cons. by apply (agree_outside_app _ _ h h1 h2).
Qed.

Lemma decoder_revives_members (members : list (string * shape)) :
  Forall (λ m, decoder_revives functions table m.2) members →
  ∀ fr pos verbatim h,
    sum_list_with (λ m, size m.2) members ≤ fr →
    holds_refs verbatim pos (refs_of (SObject members)) →
    Forall_fold (λ m, encodable functions m.2) members →
    Forall_fold (λ m, decodable table m.2) members →
    NoDup (locs (SObject members)) →
    stored (cells enc_of (SObject members)) h →
    ∃ h',
      internalize_members
          (InternalizeJSONProperty
             (deserializer_reviver table (deserializer fr table) verbatim))
          h (thread_members json_of members pos)
        = Ok (h', omap (λ m, match dec_of m.2 with
                             | VUndefined => None
                             | x => Some (m.1, x)
                             end) members)
      ∧ stored (cells dec_of (SObject members)) h'
      ∧ agree_outside (locs (SObject members)) h h'.
Proof.
  induction 1 as [| [k x] members Hx _ IH];
    intros fr pos verbatim h Hsize Hrefs Henc Hdec Hnd Hst.
  - exists h. split; [done |]. split; [apply stored_nil | apply agree_outside_refl].
  - simpl in Hsize, Hx. rewrite refs_of_members_cons in Hrefs.
    apply holds_refs_app in Hrefs as [Hrx Hrr].
    destruct Henc as [Hencx Henc]. destruct Hdec as [Hdecx Hdec].
    rewrite locs_members_cons in Hnd. apply NoDup_app in Hnd as (Hndx & Hdisj & Hndr).
    rewrite cells_members_cons in Hst. apply stored_app in Hst as [Hsx Hsr].
    destruct (Hx fr pos verbatim h) as (h1 & Hrun1 & Hst1 & Hag1); try done; [lia |].
    assert (Hsr1 : stored (cells enc_of (SObject members)) h1).
    { apply (stored_disjoint _ _ (locs x) h h1 Hsr Hag1).
      intros l Hl Hlx. by apply (Hdisj l). }
    destruct (IH fr (pos + length (refs_of x)) verbatim h1)
      as (h2 & Hrun2 & Hst2 & Hag2); try done; [lia |].
    exists h2. split; [| split].
    + simpl. rewrite Hrun1. simpl. rewrite Hrun2. simpl. by destruct (dec_of x).
    + rewrite cells_members_cons. apply stored_app. split; [| done].
      apply (stored_disjoint _ _ (locs (SObject members)) h1 h2 Hst1 Hag2).
      intros l Hl. by apply Hdisj.
    + rewrite locs_members_cons. by apply (agree_outside_app _ _ h h1 h2).
Qed.

(** The array part of an array, a [Map] or a [Set]. *)
Lemma decoder_revives_array (items : list shape) :
  Forall (decoder_revives functions table) items →
  ∀ fr pos verbatim h,
    sum_list_with size items ≤ fr →
    holds_refs verbatim pos (refs_of (SArray items)) →
    Forall_fold (encodable functions) items → Forall_fold (decodable table) items →
    NoDup (locs (SArray items)) →
    stored (cells enc_of (SArray items)) h →
    ∃ h',
      InternalizeJSONProperty
          (deserializer_reviver table (deserializer fr table) verbatim) h
          (JArray (escape (JString "_") items ++ thread json_of items pos))
        = Ok (h', VArray ((λ x, slot_of (dec_of x)) <$> items))
      ∧ stored (cells dec_of (SArray items)) h'
      ∧ agree_outside (locs (SArray items)) h h'.
Proof.
  intros Hitems fr pos verbatim h Hsize Hrefs Henc Hdec Hnd Hst.
  destruct (decoder_revives_elements items Hitems fr pos verbatim h)
    as (h' & Hrun & Hst' & Hag); try done.
  exists h'. split; [| done].
  rewrite InternalizeJSONProperty_array.
  unfold escape. destruct (starts_with_sentinel items) eqn:Hesc; simpl.
  - rewrite Hrun. simpl. apply deserializer_reviver_escaped.
    by destruct items.
  - rewrite Hrun. simpl. apply deserializer_reviver_array.
    destruct items as [| x items]; [done |]. simpl in *.
    unfold array_get. simpl. by rewrite default_slot_of, is_string_dec_of.
Qed.

Lemma spread_slot_of (l : list value) : spread (slot_of <$> l) = l.
Proof.
  unfold spread. rewrite <- list_fmap_compose.
  rewrite <- (list_fmap_id l) at 2. apply list_fmap_ext.
  intros _ v _. apply default_slot_of.
Qed.

Lemma spread_slot_of_fmap {A} (f : A → value) (l : list A) :
  spread ((λ x, slot_of (f x)) <$> l) = f <$> l.
Proof.
  unfold spread. rewrite <- list_fmap_compose. apply list_fmap_ext.
  intros _ v _. apply default_slot_of.
Qed.

(** The entries of an encodable [Map] decode to arrays, which the [Map]
    constructor reads as pairs. *)
Lemma entries_of_decoded (entries : list shape) :
  encodable functions (SMap entries) →
  entries_of (dec_of <$> entries) = Ok ((λ x, pair_of (dec_of x)) <$> entries).
Proof.
  simpl. induction entries as [| e entries IH]; [done |].
  intros [He Hrest]. csimpl. rewrite IH by done.
  by destruct e as [| | [| k [| x [| ]]] | | | | |].
Qed.

Lemma decoder_revives_all (s : shape) : decoder_revives functions table s.
Proof.
  induction s as [| p | items IH | members IH | entries IH | items IH
                  | c tag props payload IH | l name message cause IH]
    using shape_ind;
    intros fr pos verbatim h Hsize Hrefs Henc Hdec Hnd Hst.
  - exists h. split; [done |]. split; [apply stored_nil | apply agree_outside_refl].
  - exists h. split; [| split; [apply stored_nil | apply agree_outside_refl]].
    simpl in Henc. destruct p as [| | | n | | | | | | | | | | |]; try done.
  - simpl in Hsize.
    destruct (decoder_revives_array items IH fr pos verbatim h)
      as (h' & Hrun & Hst' & Hag); try done; [lia |].
    by exists h'.
  - simpl in Hsize.
    destruct (decoder_revives_members members IH fr pos verbatim h)
      as (h' & Hrun & Hst' & Hag); try done; [lia |].
    exists h'. split; [| done].
    simpl. rewrite InternalizeJSONProperty_object, Hrun. done.
  - simpl in Hsize.
    destruct (decoder_revives_array entries IH fr pos verbatim h)
      as (h' & Hrun & Hst' & Hag); try done;
      [lia | by apply encodable_entries |].
    exists h'. split; [| done].
    simpl. rewrite InternalizeJSONProperty_array. simpl.
    rewrite Hrun. simpl. unfold deserializer_reviver. simpl.
    unfold array_get. simpl.
    rewrite spread_slot_of_fmap, (entries_of_decoded entries Henc). done.
  - simpl in Hsize.
    destruct (decoder_revives_array items IH fr pos verbatim h)
      as (h' & Hrun & Hst' & Hag); try done; [lia |].
    exists h'. split; [| done].
    simpl. rewrite InternalizeJSONProperty_array. simpl.
    rewrite Hrun. simpl. unfold deserializer_reviver. simpl.
    unfold array_get. simpl.
    by rewrite spread_slot_of_fmap.
  - simpl in Hsize. destruct Henc as (_ & _ & _ & _ & _ & Hpayload).
    destruct Hdec as [(hook & Hhook & Hcall) Hdec].
    destruct (IH fr pos verbatim h) as (h' & Hrun & Hst' & Hag); try done; [lia |].
    exists h'. split; [| done].
    simpl. rewrite InternalizeJSONProperty_array. simpl.
    rewrite Hrun. simpl. unfold deserializer_reviver, revive_custom. simpl.
    unfold array_get. simpl. rewrite default_slot_of, Hhook, Hcall. done.
  - simpl in Hsize. rewrite locs_error in Hnd. apply NoDup_cons in Hnd as [Hl Hnd].
    simpl in Hst. apply stored_cons in Hst as [Hcell Hst].
    specialize (Hrefs 0 (VRef l) eq_refl). rewrite Nat.add_0_r in Hrefs.
    assert (Hrun : InternalizeJSONProperty
                     (deserializer_reviver table (deserializer fr table) verbatim) h
                     (json_of (SError l name message cause) pos)
                   = revive_error (deserializer fr table) h (VRef l) (VString name)).
    { simpl. rewrite InternalizeJSONProperty_array. simpl.
      rewrite json_of_number_of_nat, InternalizeJSONProperty_array. simpl.
      rewrite index_of_number_of_nat, Hrefs. done. }
    rewrite Hrun. unfold revive_error. rewrite Hcell.
    rewrite (restore_name h l name name message _ Hcell).
    rewrite (list_insert_id h l _ Hcell).
    unfold cause_of in *. simpl in Henc.
    destruct (truthy (value_of cause)) eqn:Htruthy.
    + rewrite (truthy_enc_of cause Htruthy).
      destruct fr as [| fr]; [lia |].
      rewrite deserializer_S. unfold JSON_stringify.
      rewrite (decoder_prints_all functions cause) by (done || lia). simpl.
      destruct (IH fr 0 (refs_of cause) h) as (h2 & Hrun2 & Hst2 & Hag2);
        try done; [lia | apply (holds_refs_extend []) |].
      rewrite Hrun2. simpl.
      assert (Hl2 : h2 !! l = Some (HError name message (enc_of cause))).
      { destruct Hag2 as [_ Hag2]. by rewrite Hag2. }
      rewrite Hl2.
      exists (<[l := HError name message (dec_of cause)]> h2). split; [done |].
      split.
      * simpl. apply stored_cons. unfold cause_of. rewrite Htruthy. split.
        -- apply list_lookup_insert_eq. by eapply lookup_lt_Some.
        -- intros l' o Hin. rewrite list_lookup_insert_ne; [by apply Hst2 |].
           intros ->. apply Hl. rewrite <- (cells_locs dec_of).
           apply list_elem_of_fmap. by exists (l', o).
      * rewrite locs_error. by apply agree_outside_insert.
    + assert (Hfalsy : truthy (value_of cause) = false) by done.
      exists h. split; [by rewrite Hfalsy |]. split.
      * simpl. unfold cause_of. rewrite Htruthy.
        rewrite (falsy_cause_leaf functions dec_of l name message cause); try done.
        -- apply stored_cons. split; [done | apply stored_nil].
        -- simpl. by rewrite Htruthy.
      * apply agree_outside_refl.
Qed.
End decoder_parse.

(** ** First pass: the encoder's [JSON.stringify] *)

Section encoder_stringify.
Variable functions : nat → fn_info.

Lemma stringify_string_ge rec f st s :
  1 ≤ f →
  SerializeJSONProperty (serializer_replacer functions rec) f st (VString s)
    = Ok (st, Some (JString s)).
Proof. intros Hf. destruct f; [lia | apply stringify_string]. Qed.

Lemma starts_with_sentinel_value_of (items : list shape) :
  is_string "_" (array_get ((λ x, Some (value_of x)) <$> items) 0)
    = starts_with_sentinel items.
Proof. destruct items as [| x items]; [done |]. apply is_string_value_of. Qed.

(** The array [Array.from(map.entries())] is the array of the entries. *)
Lemma entries_array (entries : list shape) :
  encodable functions (SMap entries) →
  (λ '(k, x), Some (VArray [Some k; Some x]))
      <$> ((λ e, match e with
                 | SArray [k; x] => (value_of k, value_of x)
                 | _ => (VUndefined, VUndefined)
                 end) <$> entries)
    = (λ x, Some (value_of x)) <$> entries.
Proof.
  simpl. induction entries as [| e entries IH]; [done |].
  intros [He Hrest]. csimpl. rewrite IH by done.
  by destruct e as [| | [| k [| x [| ]]] | | | | |].
Qed.

Lemma encoder_prints_elements (items : list shape) :
  Forall (encoder_prints functions) items →
  ∀ fuel fr st,
    sum_list_with size items ≤ fuel → sum_list_with size items ≤ fr →
    Forall_fold (encodable functions) items →
    NoDup (locs (SArray items)) →
    stored (cells value_of (SArray items)) (st_heap st) →
    ∃ h',
      serialize_elements
          (SerializeJSONProperty (serializer_replacer functions (serializer functions fr)) fuel)
          st (value_of <$> items)
        = Ok ({| st_heap := h';
                 st_verbatim := st_verbatim st ++ refs_of (SArray items);
                 st_transferables := st_transferables st;
                 st_revokables := st_revokables st |},
              thread json_of items (length (st_verbatim st)))
      ∧ stored (cells enc_of (SArray items)) h'
      ∧ agree_outside (locs (SArray items)) (st_heap st) h'.
Proof.
  induction 1 as [| x items Hx _ IH]; intros fuel fr st Hfuel Hfr Henc Hnd Hst.
  - exists (st_heap st). split; [| split; [apply stored_nil | apply agree_outside_refl]].
    simpl. rewrite app_nil_r. by destruct st.
  - simpl in Hfuel, Hfr. destruct Henc as [Hencx Henc].
    rewrite locs_cons in Hnd. apply NoDup_app in Hnd as (Hndx & Hdisj & Hndr).
    rewrite cells_cons in Hst. apply stored_app in Hst as [Hsx Hsr].
    destruct (Hx fuel fr st) as (h1 & Hrun1 & Hst1 & Hag1); try done; try lia.
    set (st1 := {| st_heap := h1;
                   st_verbatim := st_verbatim st ++ refs_of x;
                   st_transferables := st_transferables st;
                   st_revokables := st_revokables st |}) in *.
    assert (Hsr1 : stored (cells value_of (SArray items)) (st_heap st1)).
    { apply (stored_disjoint _ _ (locs x) (st_heap st) h1 Hsr Hag1).
      intros l Hl Hlx. by apply (Hdisj l). }
    destruct (IH fuel fr st1) as (h2 & Hrun2 & Hst2 & Hag2); try done; try lia.
    exists h2. split; [| split].
    + csimpl. rewrite Hrun1. simpl. rewrite Hrun2. simpl.
      rewrite length_app, <- app_assoc. done.
    + rewrite cells_cons. apply stored_app. split; [| done].
      apply (stored_disjoint _ _ (locs (SArray items)) h1 h2 Hst1 Hag2).
      intros l Hl. by apply Hdisj.
    + rewrite locs_cons. by apply (agree_outside_app _ _ (st_heap st) h1 h2).
Qed.

Lemma encoder_prints_members (members : list (string * shape)) :
  Forall (λ m, encoder_prints functions m.2) members →
  ∀ fuel fr st,
    sum_list_with (λ m, size m.2) members ≤ fuel →
    sum_list_with (λ m, size m.2) members ≤ fr →
    Forall_fold (λ m, encodable functions m.2) members →
    NoDup (locs (SObject members)) →
    stored (cells value_of (SObject members)) (st_heap st) →
    ∃ h',
      serialize_members
          (SerializeJSONProperty (serializer_replacer functions (serializer functions fr)) fuel)
          st ((λ m, (m.1, value_of m.2)) <$> members)
        = Ok ({| st_heap := h';
                 st_verbatim := st_verbatim st ++ refs_of (SObject members);
                 st_transferables := st_transferables st;
                 st_revokables := st_revokables st |},
              thread_members json_of members (length (st_verbatim st)))
      ∧ stored (cells enc_of (SObject members)) h'
      ∧ agree_outside (locs (SObject members)) (st_heap st) h'.
Proof.
  induction 1 as [| [k x] members Hx _ IH]; intros fuel fr st Hfuel Hfr Henc Hnd Hst.
  - exists (st_heap st). split; [| split; [apply stored_nil | apply agree_outside_refl]].
    simpl. rewrite app_nil_r. by destruct st.
  - simpl in Hfuel, Hfr, Hx. destruct Henc as [Hencx Henc].
    rewrite locs_members_cons in Hnd. apply NoDup_app in Hnd as (Hndx & Hdisj & Hndr).
    rewrite cells_members_cons in Hst. apply stored_app in Hst as [Hsx Hsr].
    destruct (Hx fuel fr st) as (h1 & Hrun1 & Hst1 & Hag1); try done; try lia.
    set (st1 := {| st_heap := h1;
                   st_verbatim := st_verbatim st ++ refs_of x;
                   st_transferables := st_transferables st;
                   st_revokables := st_revokables st |}) in *.
    assert (Hsr1 : stored (cells value_of (SObject members)) (st_heap st1)).
    { apply (stored_disjoint _ _ (locs x) (st_heap st) h1 Hsr Hag1).
      intros l Hl Hlx. by apply (Hdisj l). }
    destruct (IH fuel fr st1) as (h2 & Hrun2 & Hst2 & Hag2); try done; try lia.
    exists h2. split; [| split].
    + csimpl. rewrite Hrun1. simpl. rewrite Hrun2. simpl.
      rewrite length_app, <- app_assoc. done.
    + rewrite cells_members_cons. apply stored_app. split; [| done].
      apply (stored_disjoint _ _ (locs (SObject members)) h1 h2 Hst1 Hag2).
      intros l Hl. by apply Hdisj.
    + rewrite locs_members_cons. by apply (agree_outside_app _ _ (st_heap st) h1 h2).
Qed.

(** An array, escaped when it starts with the sentinel. *)
Lemma encoder_prints_array (items : list shape) :
  Forall (encoder_prints functions) items →
  ∀ fuel fr st,
    2 + sum_list_with size items ≤ fuel → sum_list_with size items ≤ fr →
    Forall_fold (encodable functions) items →
    NoDup (locs (SArray items)) →
    stored (cells value_of (SArray items)) (st_heap st) →
    ∃ h',
      SerializeJSONProperty (serializer_replacer functions (serializer functions fr))
          fuel st (VArray ((λ x, Some (value_of x)) <$> items))
        = Ok ({| st_heap := h';
                 st_verbatim := st_verbatim st ++ refs_of (SArray items);
                 st_transferables := st_transferables st;
                 st_revokables := st_revokables st |},
              Some (JArray (escape (JString "_") items
                            ++ thread json_of items (length (st_verbatim st)))))
      ∧ stored (cells enc_of (SArray items)) h'
      ∧ agree_outside (locs (SArray items)) (st_heap st) h'.
Proof.
  intros Hitems fuel fr st Hfuel Hfr Henc Hnd Hst.
  destruct fuel as [| [| fuel]]; try lia.
  destruct (encoder_prints_elements items Hitems (S fuel) fr st)
    as (h' & Hrun & Hst' & Hag); try done; try lia.
  exists h'. split; [| done].
  rewrite SerializeJSONProperty_S. simpl.
  rewrite starts_with_sentinel_value_of. unfold escape.
  destruct (starts_with_sentinel items); simpl.
  - rewrite spread_fmap_Some.
    repeat (rewrite stringify_string; simpl).
    rewrite Hrun. done.
  - rewrite spread_fmap_Some, Hrun. done.
Qed.

(** The replacer on the primitives JSON represents. *)
Lemma serializer_replacer_exact rec st (p : value) :
  json_exact p = true →
  serializer_replacer functions rec st p = Ok (st, p).
Proof.
  intros Hp. unfold serializer_replacer.
  destruct p; try done; by destruct (negb (truthy _)).
Qed.

Lemma encoder_prints_all (s : shape) : encoder_prints functions s.
Proof.
  induction s as [| p | items IH | members IH | entries IH | items IH
                  | c tag props payload IH | l name message cause IH]
    using shape_ind;
    intros fuel fr st Hfuel Hfr Henc Hnd Hst; simpl in Hfuel, Hfr.
  - exists (st_heap st). split; [| split; [apply stored_nil | apply agree_outside_refl]].
    destruct fuel as [| [| fuel]]; try lia.
    rewrite SerializeJSONProperty_S. simpl.
    repeat (rewrite stringify_string; simpl).
    rewrite app_nil_r. by destruct st.
  - exists (st_heap st). split; [| split; [apply stored_nil | apply agree_outside_refl]].
    destruct fuel as [| fuel]; try lia.
    rewrite SerializeJSONProperty_S, serializer_replacer_exact by done. simpl.
    rewrite app_nil_r. simpl in Henc.
    destruct p as [| | | n | | | | | | | | | | |]; try done; try by destruct st.
    unfold serialize_value. rewrite json_of_number_exact by done. by destruct st.
  - apply encoder_prints_array; try done; lia.
  - destruct fuel as [| fuel]; try lia.
    destruct (encoder_prints_members members IH fuel fr st)
      as (h' & Hrun & Hst' & Hag); try done; try lia.
    exists h'. split; [| done].
    rewrite SerializeJSONProperty_S. simpl.
    rewrite (members_not_function functions value_of)
      by (done || apply value_of_not_function).
    rewrite Hrun. done.
  - destruct fuel as [| fuel]; try lia.
    destruct (encoder_prints_array entries IH fuel fr st)
      as (h' & Hrun & Hst' & Hag); try done; try lia.
    { by apply encodable_entries. }
    exists h'. split; [| done].
    rewrite SerializeJSONProperty_S. simpl.
    repeat (rewrite stringify_string_ge by lia; simpl).
    rewrite (entries_array entries Henc), Hrun. done.
  - destruct fuel as [| fuel]; try lia.
    destruct (encoder_prints_array items IH fuel fr st)
      as (h' & Hrun & Hst' & Hag); try done; try lia.
    exists h'. split; [| done].
    rewrite SerializeJSONProperty_S. simpl.
    repeat (rewrite stringify_string_ge by lia; simpl).
    rewrite <- list_fmap_compose. unfold compose. rewrite Hrun. done.
  - destruct fuel as [| fuel]; try lia.
    destruct Henc as (HtoJSON & Htag & Hne & Hhook & Hcall & Hpayload).
    destruct (IH fuel fr st) as (h' & Hrun & Hst' & Hag); try done; try lia.
    exists h'. split; [| done].
    pose proof (size_pos payload).
    rewrite SerializeJSONProperty_S. simpl. rewrite HtoJSON, Htag, Hhook. simpl.
    destruct (String.eqb_spec tag EmptyString) as [-> | _]; [done |]. simpl.
    rewrite Hcall. simpl.
    repeat (rewrite stringify_string_ge by lia; simpl).
    rewrite Hrun. done.
  - rewrite locs_error in Hnd. apply NoDup_cons in Hnd as [Hl Hnd].
    simpl in Hst. apply stored_cons in Hst as [Hcell Hst].
    unfold cause_of in Hcell. simpl in Henc.
    destruct fuel as [| [| [| fuel]]]; try lia.
    destruct (truthy (value_of cause)) eqn:Htruthy.
    + destruct fr as [| fr]; [lia |].
      destruct (IH (S fr) fr {| st_heap := st_heap st; st_verbatim := [];
                                st_transferables := []; st_revokables := [] |})
        as (h1 & Hrun1 & Hst1 & Hag1); try done; try lia.
      assert (Hrec : serializer functions (S fr) (st_heap st) (value_of cause)
                     = Ok (h1, {| data := enc_of cause;
                                  transferables := []; revokables := [] |})).
      { rewrite serializer_S. unfold JSON_stringify. rewrite Hrun1. simpl.
        rewrite (encoder_revives_all functions cause 0 (refs_of cause)); try done.
        apply (holds_refs_extend []). }
      assert (Hl1 : h1 !! l = Some (HError name message (value_of cause))).
      { destruct Hag1 as [_ Hag1]. by rewrite Hag1. }
      exists (<[l := HError name message (enc_of cause)]> h1). split; [| split].
      * cbn [value_of refs_of json_of].
        by rewrite (stringify_error functions _ fuel st l name message
                      (value_of cause) h1 _ Hcell Htruthy Hrec Hl1).
      * simpl. apply stored_cons. unfold cause_of. rewrite Htruthy. split.
        -- apply list_lookup_insert_eq. by eapply lookup_lt_Some.
        -- intros l' o Hin. rewrite list_lookup_insert_ne; [by apply Hst1 |].
           intros ->. apply Hl. rewrite <- (cells_locs enc_of).
           apply list_elem_of_fmap. by exists (l', o).
      * rewrite locs_error. by apply agree_outside_insert.
    + exists (st_heap st). split; [| split].
      * cbn [value_of refs_of json_of].
        by rewrite (stringify_error_leaf functions _ fuel st l name message
                      (value_of cause) Hcell Htruthy).
      * simpl. unfold cause_of. rewrite Htruthy.
        rewrite (falsy_cause_leaf functions enc_of l name message cause); try done.
        -- apply stored_cons. split; [done | apply stored_nil].
        -- simpl. by rewrite Htruthy.
      * apply agree_outside_refl.
Qed.
End encoder_stringify.

(** * The round trip on a shape *)

(** Induction on the size of a shape. *)
Lemma shape_size_ind (P : shape → Prop) :
  (∀ s, (∀ s', size s' < size s → P s') → P s) → ∀ s, P s.
Proof.
  intros IH s. remember (size s) as n eqn:Hn. revert s Hn.
  induction n as [n IHn] using lt_wf_ind. intros s ->.
  apply IH. intros s' Hlt. by apply (IHn (size s')).
Qed.

Section round_trip.
Variable functions : nat → fn_info.
Variable table : registry.

(** [serializer] on the value of a shape. *)
Lemma serializer_on_shape (s : shape) (h : heap) (fuel : nat) :
  size s < fuel →
  encodable functions s → NoDup (locs s) → stored (cells value_of s) h →
  ∃ h1,
    serializer functions fuel h (value_of s)
      = Ok (h1, {| data := enc_of s; transferables := []; revokables := [] |})
    ∧ stored (cells enc_of s) h1
    ∧ agree_outside (locs s) h h1.
Proof.
  intros Hfuel Henc Hnd Hst. destruct fuel as [| fuel]; [lia |].
  destruct (encoder_prints_all functions s (S fuel) fuel
              {| st_heap := h; st_verbatim := [];
                 st_transferables := []; st_revokables := [] |})
    as (h1 & Hrun & Hst1 & Hag); try done; try lia.
  exists h1. split; [| done].
  rewrite serializer_S. unfold JSON_stringify. rewrite Hrun. simpl.
  rewrite (encoder_revives_all functions s 0 (refs_of s)); try done.
  apply (holds_refs_extend []).
Qed.

(** [deserializer] on the encoded form of a shape. *)
Lemma deserializer_on_shape (s : shape) (h : heap) (fuel : nat) :
  size s < fuel →
  encodable functions s → decodable table s →
  NoDup (locs s) → stored (cells enc_of s) h →
  ∃ h2,
    deserializer fuel table h (enc_of s) = Ok (h2, dec_of s)
    ∧ stored (cells dec_of s) h2
    ∧ agree_outside (locs s) h h2.
Proof.
  intros Hfuel Henc Hdec Hnd Hst. destruct fuel as [| fuel]; [lia |].
  destruct (decoder_revives_all functions table s fuel 0 (refs_of s) h)
    as (h2 & Hrun & Hst2 & Hag); try done; try lia.
  { apply (holds_refs_extend []). }
  exists h2. split; [| done].
  rewrite deserializer_S. unfold JSON_stringify.
  rewrite (decoder_prints_all functions s) by (done || lia). done.
Qed.
End round_trip.

(** ** When the decoded value is the value *)

Lemma set_add_fresh (acc : list value) (x : value) :
  Forall (λ a, same_value_zero a x = false) acc → set_add acc x = acc ++ [x].
Proof.
  induction 1 as [| a acc Ha _ IH]; simpl; [done |].
  by rewrite Ha, IH.
Qed.

Lemma map_set_fresh (acc : list (value * value)) (k v : value) :
  Forall (λ a, same_value_zero a.1 k = false) acc → map_set acc k v = acc ++ [(k, v)].
Proof.
  induction 1 as [| [k' v'] acc Ha _ IH]; simpl; [done |].
  simpl in Ha. by rewrite Ha, IH.
Qed.

Lemma build_set_distinct_from (acc xs : list value) :
  distinct xs →
  Forall (λ a, Forall (λ x, same_value_zero a x = false) xs) acc →
  fold_left (λ s x, set_add s (normalize_key x)) xs acc = acc ++ xs.
Proof.
  revert acc. induction xs as [| x xs IH]; intros acc Hd Hacc; simpl.
  - by rewrite app_nil_r.
  - destruct Hd as (Hnorm & Hx & Hd). rewrite Hnorm.
    rewrite set_add_fresh.
    + rewrite IH; [by rewrite <- app_assoc | done |].
      apply Forall_app. split.
      * eapply Forall_impl; [exact Hacc |]. intros a Ha. by inversion Ha.
      * by constructor.
    + eapply Forall_impl; [exact Hacc |]. intros a Ha. by inversion Ha.
Qed.

Lemma build_set_distinct (xs : list value) : distinct xs → build_set xs = xs.
Proof. intros Hd. unfold build_set. by rewrite build_set_distinct_from. Qed.

Lemma build_map_distinct_from (acc kvs : list (value * value)) :
  distinct kvs.*1 →
  Forall (λ a, Forall (λ kv, same_value_zero a.1 kv.1 = false) kvs) acc →
  fold_left (λ m kv, map_set m (normalize_key kv.1) kv.2) kvs acc = acc ++ kvs.
Proof.
  revert acc. induction kvs as [| [k v] kvs IH]; intros acc Hd Hacc; simpl.
  - by rewrite app_nil_r.
  - csimpl in Hd. destruct Hd as (Hnorm & Hk & Hd). rewrite Hnorm.
    rewrite map_set_fresh.
    + rewrite IH; [by rewrite <- app_assoc | done |].
      apply Forall_app. split.
      * eapply Forall_impl; [exact Hacc |]. intros a Ha. by inversion Ha.
      * constructor; [| done]. by apply Forall_fmap in Hk.
    + eapply Forall_impl; [exact Hacc |]. intros a Ha. by inversion Ha.
Qed.

Lemma build_map_distinct (kvs : list (value * value)) :
  distinct kvs.*1 → build_map kvs = kvs.
Proof. intros Hd. unfold build_map. by rewrite build_map_distinct_from. Qed.

Lemma slot_of_defined (v : value) : v ≠ VUndefined → slot_of v = Some v.
Proof. by destruct v. Qed.

Lemma dec_of_members (members : list (string * shape)) :
  Forall (λ m, dec_of m.2 = sparse_of m.2 ∧ sparse_of m.2 ≠ VUndefined) members →
  omap (λ m, match dec_of m.2 with
             | VUndefined => None
             | x => Some (m.1, x)
             end) members
    = (λ m, (m.1, sparse_of m.2)) <$> members.
Proof.
  induction 1 as [| [k x] members [Hx Hdef] _ IH]; [done |].
  csimpl. simpl in Hx, Hdef. rewrite Hx, IH. by destruct (sparse_of x).
Qed.

(** ** Arrays with holes *)

(** Filling the holes leaves the kind of a value as it is. *)
Lemma truthy_dense (v : value) : truthy (dense v) = truthy v.
Proof. by destruct v. Qed.

Lemma is_string_dense (s : string) (v : value) : is_string s (dense v) = is_string s v.
Proof. by destruct v. Qed.

Lemma is_function_dense (v : value) : is_function (dense v) = is_function v.
Proof. by destruct v. Qed.

Lemma dense_same_kind (v v' : value) :
  dense v = dense v' →
  truthy v = truthy v' ∧ (∀ s, is_string s v = is_string s v')
  ∧ is_function v = is_function v'.
Proof.
  intros H. rewrite <- (truthy_dense v), <- (truthy_dense v'), H.
  split; [done |]. split.
  - intros s. by rewrite <- (is_string_dense s v), <- (is_string_dense s v'), H.
  - by rewrite <- (is_function_dense v), <- (is_function_dense v'), H.
Qed.

Lemma dense_get_prop (props props' : list (string * value)) (k : string) :
  (λ kv : string * value, (kv.1, dense kv.2)) <$> props
    = (λ kv : string * value, (kv.1, dense kv.2)) <$> props' →
  dense (get_prop props k) = dense (get_prop props' k).
Proof.
  revert props'. induction props as [| [k1 x1] props IH]; intros [| [k2 x2] props'] H;
    try discriminate; [done |].
  csimpl in H. injection H as -> Hx H. simpl.
  destruct (String.eqb k2 k); [done | by apply IH].
Qed.

Lemma dense_array_get (elems elems' : list (option value)) (i : nat) :
  dense (VArray elems) = dense (VArray elems') →
  dense (array_get elems i) = dense (array_get elems' i).
Proof.
  simpl. intros [= H]. unfold array_get.
  apply (f_equal (λ l, l !! i)) in H. rewrite !list_lookup_fmap in H.
  destruct (elems !! i) as [[x |] |], (elems' !! i) as [[x' |] |]; simpl in *;
    try discriminate; try done; by injection H.
Qed.

Lemma dense_spread (elems elems' : list (option value)) :
  dense (VArray elems) = dense (VArray elems') →
  dense <$> spread elems = dense <$> spread elems'.
Proof.
  simpl. intros [= H]. unfold spread. rewrite <- !list_fmap_compose.
  revert elems' H. induction elems as [| o elems IH]; intros [| o' elems'] H;
    try discriminate; [done |].
  csimpl in H. injection H as Ho H. csimpl. f_equal; [| by apply IH].
  by destruct o, o'.
Qed.

Section blind.
Context {St : Type}.
Variable ser : St → value → outcome (St * option json).
Hypothesis ser_blind : ∀ st x y, dense x = dense y → ser st x = ser st y.

Lemma serialize_elements_blind (l l' : list value) :
  dense <$> l = dense <$> l' →
  ∀ st, serialize_elements ser st l = serialize_elements ser st l'.
Proof.
  revert l'. induction l as [| x l IH]; intros [| x' l'] H st; try discriminate; [done |].
  csimpl in H. injection H as Hx H. simpl.
  rewrite (ser_blind st x x' Hx).
  destruct (ser st x') as [[st1 j] | | |]; simpl; try done.
  by rewrite (IH l' H).
Qed.

Lemma serialize_members_blind (l l' : list (string * value)) :
  (λ kv : string * value, (kv.1, dense kv.2)) <$> l
    = (λ kv : string * value, (kv.1, dense kv.2)) <$> l' →
  ∀ st, serialize_members ser st l = serialize_members ser st l'.
Proof.
  revert l'. induction l as [| [k x] l IH]; intros [| [k' x'] l'] H st;
    try discriminate; [done |].
  csimpl in H. injection H as -> Hx H. simpl.
  rewrite (ser_blind st x x' Hx).
  destruct (ser st x') as [[st1 j] | | |]; simpl; try done.
  by rewrite (IH l' H).
Qed.
End blind.

(** The encoder does not tell a hole from an [undefined] element: two values
    that differ in this only are walked alike. *)
Lemma encoder_blind (functions : nat → fn_info)
    (rec : heap → value → outcome (heap * enc_result)) (f : nat) :
  ∀ st v v',
    dense v = dense v' →
    SerializeJSONProperty (serializer_replacer functions rec) f st v
      = SerializeJSONProperty (serializer_replacer functions rec) f st v'.
Proof.
  induction f as [| f IH]; intros st v v' H; [done |].
  rewrite !SerializeJSONProperty_S.
  destruct v, v'; try discriminate H; try (by injection H as <-);
    try (injection H as <- <-; done); try done.
  - (* arrays *)
    simpl.
    destruct (dense_same_kind _ _ (dense_array_get elems elems0 0 H)) as (_ & Hs & _).
    rewrite (Hs "_").
    destruct (is_string "_" (array_get elems0 0)); simpl.
    + destruct (SerializeJSONProperty _ f st sentinel) as [[st1 j1] | | |]; simpl; try done.
      destruct (SerializeJSONProperty _ f st1 sentinel) as [[st2 j2] | | |]; simpl; try done.
      by rewrite (serialize_elements_blind _ (IH) _ _ (dense_spread _ _ H)).
    + by rewrite (serialize_elements_blind _ (IH) _ _ (dense_spread _ _ H)).
  - (* arrays of the current call *)
    simpl in H. injection H as H. simpl.
    by rewrite (serialize_elements_blind _ (IH) _ _ H).
  - (* plain objects *)
    simpl in H. injection H as H. simpl.
    destruct (dense_same_kind _ _ (dense_get_prop props props0 "toJSON" H)) as (_ & _ & Hf).
    rewrite Hf. destruct (is_function (get_prop props0 "toJSON")); [done |]. simpl.
    by rewrite (serialize_members_blind _ (IH) _ _ H).
  - (* Maps *)
    simpl in H. injection H as H. simpl.
    destruct (SerializeJSONProperty _ f st sentinel) as [[st1 j1] | | |]; simpl; try done.
    destruct (SerializeJSONProperty _ f st1 (VString "Map")) as [[st2 j2] | | |]; simpl;
      try done.
    rewrite (IH st2 _ (VArray ((λ '(k, x), Some (VArray [Some k; Some x])) <$> entries0)));
      [done |].
    simpl. f_equal. rewrite <- !list_fmap_compose.
    clear -H. revert entries0 H.
    induction entries as [| [k x] entries IHe]; intros [| [k' x'] entries0] H;
      try discriminate; [done |].
    csimpl in H. injection H as Hk Hx H. csimpl. rewrite Hk, Hx. f_equal. by apply IHe.
  - (* Sets *)
    simpl in H. injection H as H. simpl.
    destruct (SerializeJSONProperty _ f st sentinel) as [[st1 j1] | | |]; simpl; try done.
    destruct (SerializeJSONProperty _ f st1 (VString "Set")) as [[st2 j2] | | |]; simpl;
      try done.
    rewrite (IH st2 _ (VArray (Some <$> elems0))); [done |].
    simpl. f_equal. rewrite <- !list_fmap_compose.
    clear -H. revert elems0 H.
    induction elems as [| x elems IHe]; intros [| x' elems0] H;
      try discriminate; [done |].
    csimpl in H. injection H as Hx H. csimpl. rewrite Hx. f_equal. by apply IHe.
Qed.

Lemma serializer_blind (functions : nat → fn_info) (fuel : nat) (h : heap) (v v' : value) :
  dense v = dense v' →
  serializer functions fuel h v = serializer functions fuel h v'.
Proof.
  intros H. destruct fuel as [| fuel]; [done |]. rewrite !serializer_S.
  unfold JSON_stringify. by rewrite (encoder_blind functions _ _ _ v v' H).
Qed.

Section restorable.
Variable functions : nat → fn_info.

Lemma size_item (x : shape) (items : list shape) :
  x ∈ items → size x ≤ sum_list_with size items.
Proof. apply sum_list_with_le. Qed.

Lemma size_member (m : string * shape) (members : list (string * shape)) :
  m ∈ members → size m.2 ≤ sum_list_with (λ m, size m.2) members.
Proof. apply (sum_list_with_le (λ m, size m.2)). Qed.

(** [undefined] is [undefined] under both readings. *)
Lemma sparse_of_undefined (s : shape) : sparse_of s = VUndefined ↔ value_of s = VUndefined.
Proof. by destruct s. Qed.

(** For a restorable shape, what the decoder returns is the value, with a
    hole for every [undefined] in an array. *)
Lemma dec_of_restorable (s : shape) :
  encodable functions s → restorable s → dec_of s = sparse_of s.
Proof.
  induction s as [s IH] using shape_size_ind.
  destruct s as [| p | items | members | entries | items | c tag props payload
                 | l name message cause]; intros Henc Hres; try done.
  - simpl in Henc, Hres. apply Forall_fold_Forall in Henc, Hres.
    rewrite Forall_forall in Henc, Hres.
    simpl. f_equal. apply Forall_fmap_ext_1, Forall_forall. intros x Hx.
    rewrite IH; [done | | by apply Henc | by apply Hres].
    pose proof (size_item x items Hx). simpl. lia.
  - simpl in Henc, Hres. apply Forall_fold_Forall in Henc, Hres.
    rewrite Forall_forall in Henc, Hres.
    simpl. f_equal. apply dec_of_members, Forall_forall. intros m Hm.
    destruct (Hres m Hm) as [Hdef Hresx]. split; [| by rewrite sparse_of_undefined].
    apply IH; [| by apply Henc | done].
    pose proof (size_member m members Hm). simpl. lia.
  - simpl in Henc, Hres. destruct Hres as [Hres Hdist].
    apply Forall_fold_Forall in Henc, Hres.
    rewrite Forall_forall in Henc, Hres.
    simpl. f_equal.
    assert (Hpairs : (λ x, pair_of (dec_of x)) <$> entries
                     = (λ e, match e with
                             | SArray [k; x] => (sparse_of k, sparse_of x)
                             | _ => (VUndefined, VUndefined)
                             end) <$> entries).
    { apply Forall_fmap_ext_1, Forall_forall. intros e He.
      specialize (Henc e He). specialize (Hres e He).
      pose proof (size_item e entries He) as Hsize.
      destruct e as [| | [| k [| x [| ]]] | | | | |]; try done.
      destruct Henc, Hres. simpl in Hsize.
      simpl. unfold array_get. simpl. rewrite !default_slot_of.
      rewrite (IH k), (IH x); try done; simpl; lia. }
    rewrite Hpairs. apply build_map_distinct.
    rewrite <- list_fmap_compose.
    erewrite list_fmap_ext; [exact Hdist |].
    intros _ e _. simpl. by destruct e as [| | [| k [| x [| ]]] | | | | |].
  - simpl in Henc, Hres. destruct Hres as [Hres Hdist].
    apply Forall_fold_Forall in Henc, Hres.
    rewrite Forall_forall in Henc, Hres.
    simpl. f_equal.
    assert (Hvals : dec_of <$> items = sparse_of <$> items).
    { apply Forall_fmap_ext_1, Forall_forall. intros x Hx.
      apply IH; [| by apply Henc | by apply Hres].
      pose proof (size_item x items Hx). simpl. lia. }
    rewrite Hvals. by apply build_set_distinct.
Qed.
End restorable.

(** * Errors that occur more than once *)

(** ** The shape of encoded data *)

Lemma escape_fmap {A B} (f : A → B) (mark : A) (items : list shape) :
  f <$> escape mark items = escape (f mark) items.
Proof. unfold escape. by destruct (starts_with_sentinel items). Qed.

Lemma value_of_reshape (s : shape) : value_of (reshape s) = enc_of s.
Proof.
  induction s as [| p | items IH | members IH | entries IH | items IH
                  | c tag props payload IH | l name message cause IH]
    using shape_ind; simpl; try done.
  - f_equal. rewrite fmap_app, (escape_fmap (λ x, Some (value_of x))). f_equal.
    rewrite <- list_fmap_compose. apply Forall_fmap_ext_1.
    eapply Forall_impl; [exact IH |]. intros x Hx. simpl. by rewrite Hx.
  - f_equal. rewrite <- list_fmap_compose. apply Forall_fmap_ext_1.
    eapply Forall_impl; [exact IH |]. intros [k x] Hx. simpl in *. by rewrite Hx.
  - do 6 f_equal. rewrite fmap_app, (escape_fmap (λ x, Some (value_of x))).
    apply (f_equal (app _)).
    rewrite <- list_fmap_compose. apply Forall_fmap_ext_1.
    eapply Forall_impl; [exact IH |]. intros x Hx. simpl. by rewrite Hx.
  - do 6 f_equal. rewrite fmap_app, (escape_fmap (λ x, Some (value_of x))).
    apply (f_equal (app _)).
    rewrite <- list_fmap_compose. apply Forall_fmap_ext_1.
    eapply Forall_impl; [exact IH |]. intros x Hx. simpl. by rewrite Hx.
  - by rewrite IH.
Qed.

Lemma errors_of_escape (items : list shape) :
  mjoin (errors_of <$> escape (SPrim sentinel) items) = [].
Proof. unfold escape. by destruct (starts_with_sentinel items). Qed.

Lemma errors_of_reshape (s : shape) : errors_of (reshape s) = errors_of s.
Proof.
  assert (Hlist : ∀ items, Forall (λ x, errors_of (reshape x) = errors_of x) items →
            mjoin (errors_of <$> (escape (SPrim sentinel) items ++ (reshape <$> items)))
            = mjoin (errors_of <$> items)).
  { intros items IH. rewrite fmap_app, join_app, errors_of_escape. simpl. f_equal.
    rewrite <- list_fmap_compose. by apply Forall_fmap_ext_1. }
  induction s as [| p | items IH | members IH | entries IH | items IH
                  | c tag props payload IH | l name message cause IH]
    using shape_ind; simpl; try done.
  - by apply Hlist.
  - f_equal. rewrite <- list_fmap_compose. apply Forall_fmap_ext_1.
    eapply Forall_impl; [exact IH |]. by intros [k x] Hx.
  - rewrite app_nil_r. by apply Hlist.
  - rewrite app_nil_r. by apply Hlist.
  - by rewrite app_nil_r.
  - by rewrite app_nil_r.
Qed.

Lemma error_depth_escape (items : list shape) :
  max_list_with error_depth (escape (SPrim sentinel) items) = 0.
Proof. unfold escape. by destruct (starts_with_sentinel items). Qed.

Lemma max_list_with_app {A} (f : A → nat) (l1 l2 : list A) :
  max_list_with f (l1 ++ l2) = max_list_with f l1 `max` max_list_with f l2.
Proof. induction l1 as [| x l1 IH]; simpl; [done |]. rewrite IH. lia. Qed.

Lemma max_list_with_fmap {A B} (f : B → nat) (g : A → B) (l : list A) :
  max_list_with f (g <$> l) = max_list_with (λ x, f (g x)) l.
Proof. induction l as [| x l IH]; csimpl; [done |]. by rewrite IH. Qed.

Lemma max_list_with_ext {A} (f g : A → nat) (l : list A) :
  Forall (λ x, f x = g x) l → max_list_with f l = max_list_with g l.
Proof. induction 1 as [| x l Hx _ IH]; simpl; [done |]. by rewrite Hx, IH. Qed.

Lemma max_list_with_le {A} (f : A → nat) (l : list A) (x : A) :
  x ∈ l → f x ≤ max_list_with f l.
Proof. induction 1 as [| y z l _ IH]; simpl; lia. Qed.

Lemma error_depth_reshape (s : shape) : error_depth (reshape s) = error_depth s.
Proof.
  assert (Hlist : ∀ items, Forall (λ x, error_depth (reshape x) = error_depth x) items →
            max_list_with error_depth (escape (SPrim sentinel) items ++ (reshape <$> items))
            = max_list_with error_depth items).
  { intros items IH. rewrite max_list_with_app, error_depth_escape. simpl.
    rewrite max_list_with_fmap. by apply max_list_with_ext. }
  induction s as [| p | items IH | members IH | entries IH | items IH
                  | c tag props payload IH | l name message cause IH]
    using shape_ind; simpl; try done.
  - by apply Hlist.
  - rewrite max_list_with_fmap. apply max_list_with_ext.
    eapply Forall_impl; [exact IH |]. by intros [k x] Hx.
  - rewrite Hlist by done. lia.
  - rewrite Hlist by done. lia.
  - rewrite IH. lia.
Qed.

Lemma raise_S (i : nat) (s : shape) : raise (S i) s = reshape (raise i s).
Proof. done. Qed.

Lemma errors_of_raise (i : nat) (s : shape) : errors_of (raise i s) = errors_of s.
Proof. induction i as [| i IH]; [done |]. by rewrite raise_S, errors_of_reshape. Qed.

Lemma error_depth_raise (i : nat) (s : shape) : error_depth (raise i s) = error_depth s.
Proof. induction i as [| i IH]; [done |]. by rewrite raise_S, error_depth_reshape. Qed.

Lemma enc_of_raise (i : nat) (s : shape) : enc_of (raise i s) = value_of (raise (S i) s).
Proof. by rewrite raise_S, value_of_reshape. Qed.

Lemma truthy_raise (i : nat) (s : shape) :
  truthy (value_of s) = true → truthy (value_of (raise i s)) = true.
Proof.
  intros H. induction i as [| i IH]; [done |].
  rewrite raise_S, value_of_reshape. by apply truthy_enc_of.
Qed.

Lemma cause_at_truthy (i : nat) (c : shape) :
  truthy (value_of c) = true → cause_at i c = at_stage i c.
Proof. intros H. unfold cause_at, cause_of. by rewrite H. Qed.

Lemma cause_at_falsy (i : nat) (c : shape) :
  truthy (value_of c) = false → cause_at i c = value_of c.
Proof. intros H. unfold cause_at, cause_of. by rewrite H. Qed.

Lemma dense_slot_of (v : value) :
  match slot_of v with Some x => dense x | None => VUndefined end = dense v.
Proof. by destruct v. Qed.

(** The two readings of a shape differ in the holes only. *)
Lemma dense_sparse_of (s : shape) : dense (sparse_of s) = dense (value_of s).
Proof.
  induction s as [| p | items IH | members IH | entries IH | items IH
                  | c tag props payload IH | l name message cause IH]
    using shape_ind; simpl; try done.
  - f_equal. rewrite <- !list_fmap_compose. apply Forall_fmap_ext_1.
    eapply Forall_impl; [exact IH |]. intros x Hx. simpl.
    by rewrite dense_slot_of, Hx.
  - f_equal. rewrite <- !list_fmap_compose. apply Forall_fmap_ext_1.
    eapply Forall_impl; [exact IH |]. intros [k x] Hx. simpl in *. by rewrite Hx.
  - f_equal. rewrite <- !list_fmap_compose. apply Forall_fmap_ext_1.
    eapply Forall_impl; [exact IH |]. intros e He. simpl.
    destruct e as [| | [| k [| x [| ]]] | | | | |]; try done.
    simpl in He. rewrite !dense_slot_of in He. injection He as Hk Hx.
    simpl. by rewrite Hk, Hx.
  - f_equal. rewrite <- !list_fmap_compose. apply Forall_fmap_ext_1.
    eapply Forall_impl; [exact IH |]. by intros x Hx.
Qed.

Lemma truthy_sparse_of (s : shape) : truthy (sparse_of s) = truthy (value_of s).
Proof. by rewrite <- truthy_dense, dense_sparse_of, truthy_dense. Qed.

Lemma dense_at_stage (i : nat) (s : shape) :
  dense (at_stage i s) = dense (value_of (raise i s)).
Proof. destruct i; [apply dense_sparse_of | done]. Qed.

Lemma truthy_at_stage (i : nat) (s : shape) :
  truthy (value_of s) = true → truthy (at_stage i s) = true.
Proof.
  intros H. rewrite <- truthy_dense, dense_at_stage, truthy_dense. by apply truthy_raise.
Qed.

Lemma Forall_mp {A} (P Q : A → Prop) (l : list A) :
  Forall (λ x, P x → Q x) l → Forall P l → Forall Q l.
Proof. induction 1 as [| x l Hx _ IH]; inversion 1; constructor; auto. Qed.

Section reshape_well_formed.
Variable functions : nat → fn_info.
Variable table : registry.

Lemma enc_of_not_undefined (s : shape) :
  encodable functions s → enc_of s ≠ VUndefined.
Proof. destruct s as [| p | | | | | |]; try done. by destruct p. Qed.

Lemma encodable_escape (items : list shape) :
  Forall (encodable functions) (escape (SPrim sentinel) items).
Proof. unfold escape. destruct (starts_with_sentinel items); by repeat constructor. Qed.

Lemma encodable_reshape (s : shape) :
  encodable functions s → encodable functions (reshape s).
Proof.
  assert (Hlist : ∀ items,
            Forall (λ x, encodable functions x → encodable functions (reshape x)) items →
            Forall_fold (encodable functions) items →
            Forall_fold (encodable functions)
              (escape (SPrim sentinel) items ++ (reshape <$> items))).
  { intros items IH Henc. apply Forall_fold_Forall in Henc.
    apply Forall_fold_Forall, Forall_app. split; [apply encodable_escape |].
    apply Forall_fmap. by apply (Forall_mp _ _ _ IH). }
  induction s as [| p | items IH | members IH | entries IH | items IH
                  | c tag props payload IH | l name message cause IH]
    using shape_ind; intros Henc; try done.
  - by apply Hlist.
  - simpl in *. apply Forall_fold_Forall in Henc. apply Forall_fold_Forall, Forall_fmap.
    by apply (Forall_mp _ _ _ IH).
  - simpl. repeat split; try done.
    apply Hlist; [done |]. by apply encodable_entries.
  - simpl. repeat split; try done. by apply Hlist.
  - simpl in *. destruct Henc as (_ & _ & _ & _ & _ & Hpayload).
    repeat split; try done. by apply IH.
Qed.

Lemma encodable_raise (i : nat) (s : shape) :
  encodable functions s → encodable functions (raise i s).
Proof.
  intros H. induction i as [| i IH]; [done |]. rewrite raise_S. by apply encodable_reshape.
Qed.

Lemma decodable_escape (items : list shape) :
  Forall (decodable table) (escape (SPrim sentinel) items).
Proof. unfold escape. destruct (starts_with_sentinel items); by repeat constructor. Qed.

Lemma decodable_reshape (s : shape) :
  decodable table s → decodable table (reshape s).
Proof.
  assert (Hlist : ∀ items,
            Forall (λ x, decodable table x → decodable table (reshape x)) items →
            Forall_fold (decodable table) items →
            Forall_fold (decodable table)
              (escape (SPrim sentinel) items ++ (reshape <$> items))).
  { intros items IH Hdec. apply Forall_fold_Forall in Hdec.
    apply Forall_fold_Forall, Forall_app. split; [apply decodable_escape |].
    apply Forall_fmap. by apply (Forall_mp _ _ _ IH). }
  induction s as [| p | items IH | members IH | entries IH | items IH
                  | c tag props payload IH | l name message cause IH]
    using shape_ind; intros Hdec; try done.
  - by apply Hlist.
  - simpl in *. apply Forall_fold_Forall in Hdec. apply Forall_fold_Forall, Forall_fmap.
    by apply (Forall_mp _ _ _ IH).
  - simpl. repeat split; try done. by apply Hlist.
  - simpl. repeat split; try done. by apply Hlist.
  - simpl in *. destruct Hdec as [_ Hpayload]. repeat split; try done. by apply IH.
Qed.

Lemma decodable_raise (i : nat) (s : shape) :
  decodable table s → decodable table (raise i s).
Proof.
  intros H. induction i as [| i IH]; [done |]. rewrite raise_S. by apply decodable_reshape.
Qed.

Lemma restorable_escape (items : list shape) :
  Forall restorable (escape (SPrim sentinel) items).
Proof. unfold escape. destruct (starts_with_sentinel items); by repeat constructor. Qed.

Lemma restorable_reshaped_list (items : list shape) :
  (∀ x, x ∈ items → restorable (reshape x)) →
  Forall_fold restorable (escape (SPrim sentinel) items ++ (reshape <$> items)).
Proof.
  intros H. apply Forall_fold_Forall, Forall_app. split; [apply restorable_escape |].
  by apply Forall_fmap, Forall_forall.
Qed.

Lemma restorable_reshape (s : shape) :
  encodable functions s → restorable s → restorable (reshape s).
Proof.
  induction s as [s IH] using shape_size_ind.
  destruct s as [| p | items | members | entries | items | c tag props payload
                 | l name message cause]; intros Henc Hres; try done.
  - simpl in Henc, Hres. apply Forall_fold_Forall in Henc, Hres.
    rewrite Forall_forall in Henc, Hres.
    apply restorable_reshaped_list. intros x Hx.
    apply IH; [| by apply Henc | by apply Hres].
    pose proof (size_item x items Hx). simpl. lia.
  - simpl in Henc, Hres. apply Forall_fold_Forall in Henc, Hres.
    rewrite Forall_forall in Henc, Hres.
    simpl. apply Forall_fold_Forall, Forall_fmap, Forall_forall. intros m Hm.
    simpl. split.
    + rewrite value_of_reshape. by apply enc_of_not_undefined, Henc.
    + apply IH; [| by apply Henc | by apply Hres].
      pose proof (size_member m members Hm). simpl. lia.
  - pose proof (encodable_entries functions entries Henc) as Hence.
    simpl in Henc, Hres. destruct Hres as [Hres _].
    apply Forall_fold_Forall in Henc, Hres, Hence.
    rewrite Forall_forall in Henc, Hres, Hence.
    simpl. repeat split; try discriminate.
    apply restorable_reshaped_list. intros e He.
    specialize (Henc e He). specialize (Hres e He).
    pose proof (size_item e entries He) as Hsize.
    destruct e as [| | [| k [| x [| ]]] | | | | |]; try done.
    destruct Henc as [Henck Hencx]. destruct Hres as [Hresk Hresx]. simpl in Hsize.
    apply restorable_reshaped_list. intros y Hy.
    apply elem_of_cons in Hy as [-> | Hy]; [apply IH; simpl; try done; lia |].
    apply elem_of_cons in Hy as [-> | Hy]; [apply IH; simpl; try done; lia |].
    by apply elem_of_nil in Hy.
  - simpl in Henc, Hres. destruct Hres as [Hres _].
    apply Forall_fold_Forall in Henc, Hres.
    rewrite Forall_forall in Henc, Hres.
    simpl. repeat split; try discriminate.
    apply restorable_reshaped_list. intros x Hx.
    apply IH; [| by apply Henc | by apply Hres].
    pose proof (size_item x items Hx). simpl. lia.
  - simpl in Henc, Hres. destruct Henc as (_ & _ & _ & _ & _ & Hpayload).
    simpl. repeat split; try discriminate.
    apply IH; [simpl; lia | done | done].
Qed.

Lemma restorable_raise (i : nat) (s : shape) :
  encodable functions s → restorable s → restorable (raise i s).
Proof.
  intros Henc Hres. induction i as [| i IH]; [done |]. rewrite raise_S.
  apply restorable_reshape; [by apply encodable_raise | done].
Qed.

(** Encoded data has no [undefined] in its arrays: it has no holes. *)
Lemma sparse_of_reshaped_list (items : list shape) :
  (∀ x, x ∈ items → encodable functions x
                    ∧ sparse_of (reshape x) = value_of (reshape x)) →
  (λ x, slot_of (sparse_of x)) <$> (escape (SPrim sentinel) items ++ (reshape <$> items))
  = (λ x, Some (value_of x)) <$> (escape (SPrim sentinel) items ++ (reshape <$> items)).
Proof.
  intros H. rewrite !fmap_app. f_equal.
  - unfold escape. by destruct (starts_with_sentinel items).
  - rewrite <- !list_fmap_compose. apply Forall_fmap_ext_1, Forall_forall.
    intros x Hx. destruct (H x Hx) as [Henc Heq]. simpl. rewrite Heq.
    apply slot_of_defined. rewrite value_of_reshape. by apply enc_of_not_undefined.
Qed.

Lemma sparse_of_reshape (s : shape) :
  encodable functions s → sparse_of (reshape s) = value_of (reshape s).
Proof.
  induction s as [s IH] using shape_size_ind.
  destruct s as [| p | items | members | entries | items | c tag props payload
                 | l name message cause]; intros Henc; try done.
  - simpl in Henc. apply Forall_fold_Forall in Henc. rewrite Forall_forall in Henc.
    simpl. f_equal. apply sparse_of_reshaped_list. intros x Hx.
    split; [by apply Henc |]. apply IH; [| by apply Henc].
    pose proof (size_item x items Hx). simpl. lia.
  - simpl in Henc. apply Forall_fold_Forall in Henc. rewrite Forall_forall in Henc.
    simpl. f_equal. rewrite <- !list_fmap_compose.
    apply Forall_fmap_ext_1, Forall_forall. intros m Hm. simpl. f_equal.
    apply IH; [| by apply Henc].
    pose proof (size_member m members Hm). simpl. lia.
  - pose proof (encodable_entries functions entries Henc) as Hence.
    apply Forall_fold_Forall in Hence. rewrite Forall_forall in Hence.
    simpl. do 6 f_equal. apply sparse_of_reshaped_list. intros e He.
    split; [by apply Hence |]. apply IH; [| by apply Hence].
    pose proof (size_item e entries He). simpl. lia.
  - simpl in Henc. apply Forall_fold_Forall in Henc. rewrite Forall_forall in Henc.
    simpl. do 6 f_equal. apply sparse_of_reshaped_list. intros x Hx.
    split; [by apply Henc |]. apply IH; [| by apply Henc].
    pose proof (size_item x items Hx). simpl. lia.
  - simpl in Henc. destruct Henc as (_ & _ & _ & _ & _ & Hpayload).
    simpl. rewrite IH; [| simpl; lia | done].
    rewrite slot_of_defined; [done |].
    rewrite value_of_reshape. by apply enc_of_not_undefined.
Qed.

(** Decoding what [s] is after [S i] encodings gives what it is after [i]. *)
Lemma dec_of_raise (i : nat) (s : shape) :
  encodable functions s → restorable s → dec_of (raise i s) = at_stage i s.
Proof.
  intros Henc Hres.
  rewrite (dec_of_restorable functions)
    by (by apply encodable_raise || by apply restorable_raise).
  destruct i as [| i]; [done |]. unfold at_stage. rewrite raise_S.
  apply sparse_of_reshape. by apply encodable_raise.
Qed.
End reshape_well_formed.

(** ** The errors of a shape *)

Lemma elem_of_errors_items (e : loc * (string * string * shape)) (items : list shape) :
  e ∈ mjoin (errors_of <$> items) ↔ ∃ x, x ∈ items ∧ e ∈ errors_of x.
Proof.
  rewrite list_elem_of_join. split.
  - intros (es & He & Hes). apply list_elem_of_fmap in Hes as (x & -> & Hx). eauto.
  - intros (x & Hx & He). exists (errors_of x). split; [done |].
    apply list_elem_of_fmap. eauto.
Qed.

Lemma elem_of_errors_members (e : loc * (string * string * shape))
    (members : list (string * shape)) :
  e ∈ mjoin ((λ m, errors_of m.2) <$> members) ↔ ∃ m, m ∈ members ∧ e ∈ errors_of m.2.
Proof.
  rewrite list_elem_of_join. split.
  - intros (es & He & Hes). apply list_elem_of_fmap in Hes as (x & -> & Hx). eauto.
  - intros (x & Hx & He). exists (errors_of x.2). split; [done |].
    apply list_elem_of_fmap. eauto.
Qed.

(** The cause of an error of [t] is a proper part of [t]. *)
Lemma errors_of_size (t : shape) (e : loc * (string * string * shape)) :
  e ∈ errors_of t → size e.2.2 < size t.
Proof.
  revert e.
  induction t as [| p | items IH | members IH | entries IH | items IH
                  | c tag props payload IH | l name message cause IH]
    using shape_ind; intros e He; simpl in He.
  - by apply elem_of_nil in He.
  - by apply elem_of_nil in He.
  - apply elem_of_errors_items in He as (x & Hx & He).
    rewrite Forall_forall in IH. specialize (IH x Hx e He).
    pose proof (size_item x items Hx). simpl. lia.
  - apply elem_of_errors_members in He as (m & Hm & He).
    rewrite Forall_forall in IH. specialize (IH m Hm e He).
    pose proof (size_member m members Hm). simpl. lia.
  - apply elem_of_errors_items in He as (x & Hx & He).
    rewrite Forall_forall in IH. specialize (IH x Hx e He).
    pose proof (size_item x entries Hx). simpl. lia.
  - apply elem_of_errors_items in He as (x & Hx & He).
    rewrite Forall_forall in IH. specialize (IH x Hx e He).
    pose proof (size_item x items Hx). simpl. lia.
  - specialize (IH e He). simpl. lia.
  - apply elem_of_cons in He as [-> | He]; [simpl; lia |].
    specialize (IH e He). simpl. lia.
Qed.

(** The errors of the cause of an error of [t] are errors of [t]. *)
Lemma errors_of_closed (t : shape) (l : loc) (n m : string) (c : shape) :
  (l, (n, m, c)) ∈ errors_of t → errors_of c ⊆ errors_of t.
Proof.
  induction t as [| p | items IH | members IH | entries IH | items IH
                  | c0 tag props payload IH | l0 name message cause IH]
    using shape_ind; intros He; simpl in He.
  - by apply elem_of_nil in He.
  - by apply elem_of_nil in He.
  - apply elem_of_errors_items in He as (x & Hx & He).
    rewrite Forall_forall in IH. intros e Hin. simpl.
    apply elem_of_errors_items. exists x. split; [done |]. by apply (IH x Hx He).
  - apply elem_of_errors_members in He as (x & Hx & He).
    rewrite Forall_forall in IH. intros e Hin. simpl.
    apply elem_of_errors_members. exists x. split; [done |]. by apply (IH x Hx He).
  - apply elem_of_errors_items in He as (x & Hx & He).
    rewrite Forall_forall in IH. intros e Hin. simpl.
    apply elem_of_errors_items. exists x. split; [done |]. by apply (IH x Hx He).
  - apply elem_of_errors_items in He as (x & Hx & He).
    rewrite Forall_forall in IH. intros e Hin. simpl.
    apply elem_of_errors_items. exists x. split; [done |]. by apply (IH x Hx He).
  - by apply IH.
  - intros e Hin. simpl. apply elem_of_cons in He as [[= -> -> -> ->] | He].
    + by right.
    + right. by apply (IH He).
Qed.

Lemma errors_locs (s : shape) : (errors_of s).*1 = locs s.
Proof.
  unfold locs.
  induction s as [| p | items IH | members IH | entries IH | items IH
                  | c tag props payload IH | l name message cause IH]
    using shape_ind; simpl; try done.
  - induction IH as [| x items Hx _ IHitems]; csimpl; [done |].
    rewrite !fmap_app. by f_equal.
  - induction IH as [| [k x] members Hx _ IHm]; csimpl; [done |].
    rewrite !fmap_app. by f_equal.
  - induction IH as [| x items Hx _ IHitems]; csimpl; [done |].
    rewrite !fmap_app. by f_equal.
  - induction IH as [| x items Hx _ IHitems]; csimpl; [done |].
    rewrite !fmap_app. by f_equal.
  - by f_equal.
Qed.

Lemma errors_in_locs (s : shape) (l : loc) (d : string * string * shape) :
  (l, d) ∈ errors_of s → l ∈ locs s.
Proof.
  intros H. rewrite <- errors_locs. apply list_elem_of_fmap. by exists (l, d).
Qed.

(** ** Counting visits *)

Lemma visits_cons (x : shape) (items : list shape) (l : loc) :
  visits (SArray (x :: items)) l = visits x l + visits (SArray items) l.
Proof. unfold visits. simpl. by rewrite filter_app, length_app. Qed.

Lemma visits_members_cons (k : string) (x : shape) (members : list (string * shape))
    (l : loc) :
  visits (SObject ((k, x) :: members)) l = visits x l + visits (SObject members) l.
Proof. unfold visits. simpl. by rewrite filter_app, length_app. Qed.

Lemma visits_error (l' : loc) (n m : string) (c : shape) (l : loc) :
  visits (SError l' n m c) l = (if decide (l' = l) then 1 else 0) + visits c l.
Proof.
  unfold visits. simpl. rewrite filter_cons. simpl. by destruct (decide (l' = l)).
Qed.

Lemma visits_raise (i : nat) (s : shape) (l : loc) : visits (raise i s) l = visits s l.
Proof. unfold visits. by rewrite errors_of_raise. Qed.

Lemma visits_none (t : shape) (l : loc) :
  (∀ d, (l, d) ∉ errors_of t) → visits t l = 0.
Proof.
  unfold visits. intros H. induction (errors_of t) as [| [l' d] es IH]; [done |].
  rewrite filter_cons. simpl. destruct (decide (l' = l)) as [-> | Hne].
  - destruct (H d). by left.
  - apply IH. intros d' Hd'. apply (H d'). by right.
Qed.

(** An error does not occur in its own cause. *)
Lemma visits_own_cause (s0 : shape) (l : loc) (n m : string) (c : shape) :
  coherent s0 → (l, (n, m, c)) ∈ errors_of s0 → visits c l = 0.
Proof.
  intros Hco Hin. apply visits_none. intros d Hd.
  assert (Hd0 : (l, d) ∈ errors_of s0) by (by apply (errors_of_closed s0 l n m c)).
  rewrite (Hco l d (n, m, c) Hd0 Hin) in Hd.
  apply errors_of_size in Hd. simpl in Hd. lia.
Qed.

Lemma visits_leaf (functions : nat → fn_info) (l0 : loc) (n m : string) (c : shape)
    (l : loc) :
  encodable functions (SError l0 n m c) → truthy (value_of c) = false → visits c l = 0.
Proof. simpl. intros H Hf. rewrite Hf in H. by destruct c. Qed.

(** ** Heaps at a level *)

Lemma at_level_ext (s0 : shape) (lev lev' : loc → nat) (h : heap) :
  (∀ l, lev l = lev' l) → at_level s0 lev h → at_level s0 lev' h.
Proof. intros Heq H l n m c Hin. rewrite <- Heq. by apply H. Qed.

Lemma agree_outside_trans (ls : list loc) (h h1 h2 : heap) :
  agree_outside ls h h1 → agree_outside ls h1 h2 → agree_outside ls h h2.
Proof.
  intros [Hlen1 H1] [Hlen2 H2]. split; [congruence |].
  intros l Hl. by rewrite H2, H1.
Qed.

Lemma agree_outside_insert_in (l : loc) (o : hobj) (ls : list loc) (h h' : heap) :
  l ∈ ls → agree_outside ls h h' → agree_outside ls h (<[l := o]> h').
Proof.
  intros Hl [Hlen H]. split; [by rewrite length_insert |].
  intros l' Hl'. rewrite list_lookup_insert_ne; [by apply H |]. by intros ->.
Qed.

(** Two heaps at the same level that agree elsewhere are the same heap. *)
Lemma at_level_unique (s0 : shape) (lev : loc → nat) (h h' : heap) :
  at_level s0 lev h → at_level s0 lev h' → agree_outside (locs s0) h h' → h' = h.
Proof.
  intros H H' [Hlen Hag]. apply list_eq. intros l.
  destruct (decide (l ∈ locs s0)) as [Hin | Hnin]; [| by apply Hag].
  rewrite <- errors_locs in Hin. apply list_elem_of_fmap in Hin as ([l' [[n m] c]] & -> & Hin).
  simpl. by rewrite (H _ _ _ _ Hin), (H' _ _ _ _ Hin).
Qed.

(** The heap that holds the errors as the shape describes them is at level
    zero. *)
Lemma at_level_stored (s0 : shape) (h : heap) :
  stored (cells sparse_of s0) h → at_level s0 (λ _, 0) h.
Proof.
  intros Hst l n m c Hin. apply Hst.
  assert (Hcell : ∀ t, (l, (n, m, c)) ∈ errors_of t →
            (l, HError n m (cause_at 0 c)) ∈ cells sparse_of t).
  { clear. intros t.
    induction t as [| p | items IH | members IH | entries IH | items IH
                    | c0 tag props payload IH | l0 name message cause IH]
      using shape_ind; intros He; simpl in He.
    - by apply elem_of_nil in He.
    - by apply elem_of_nil in He.
    - apply elem_of_errors_items in He as (x & Hx & He).
      rewrite Forall_forall in IH. simpl. apply list_elem_of_join.
      exists (cells sparse_of x). split; [by apply IH |].
      apply list_elem_of_fmap. eauto.
    - apply elem_of_errors_members in He as (x & Hx & He).
      rewrite Forall_forall in IH. simpl. apply list_elem_of_join.
      exists (cells sparse_of x.2). split; [by apply IH |].
      apply list_elem_of_fmap. eauto.
    - apply elem_of_errors_items in He as (x & Hx & He).
      rewrite Forall_forall in IH. simpl. apply list_elem_of_join.
      exists (cells sparse_of x). split; [by apply IH |].
      apply list_elem_of_fmap. eauto.
    - apply elem_of_errors_items in He as (x & Hx & He).
      rewrite Forall_forall in IH. simpl. apply list_elem_of_join.
      exists (cells sparse_of x). split; [by apply IH |].
      apply list_elem_of_fmap. eauto.
    - by apply IH.
    - simpl. apply elem_of_cons in He as [[= -> -> -> ->] | He]; [by left |].
      right. by apply IH. }
  by apply Hcell.
Qed.

(** ** First pass of the encoder, with errors that occur more than once *)

Lemma errors_sub_cons (s0 x : shape) (items : list shape) :
  errors_of (SArray (x :: items)) ⊆ errors_of s0 →
  errors_of x ⊆ errors_of s0 ∧ errors_of (SArray items) ⊆ errors_of s0.
Proof.
  simpl. intros H. split; intros e He; apply H, elem_of_app; auto.
Qed.

Lemma errors_sub_members_cons (s0 : shape) (k : string) (x : shape)
    (members : list (string * shape)) :
  errors_of (SObject ((k, x) :: members)) ⊆ errors_of s0 →
  errors_of x ⊆ errors_of s0 ∧ errors_of (SObject members) ⊆ errors_of s0.
Proof.
  simpl. intros H. split; intros e He; apply H, elem_of_app; auto.
Qed.

Section shared_encoder.
Variable functions : nat → fn_info.
Variable s0 : shape.
Hypothesis s0_coherent : coherent s0.

Lemma encoder_shared_elements (items : list shape) :
  Forall (encoder_prints_shared functions s0) items →
  ∀ lev, ∃ k, ∀ fuel fr st,
    k ≤ fuel → k ≤ fr →
    Forall_fold (encodable functions) items →
    errors_of (SArray items) ⊆ errors_of s0 →
    at_level s0 lev (st_heap st) →
    ∃ h',
      serialize_elements
          (SerializeJSONProperty (serializer_replacer functions (serializer functions fr)) fuel)
          st (value_of <$> items)
        = Ok ({| st_heap := h';
                 st_verbatim := st_verbatim st ++ refs_of (SArray items);
                 st_transferables := st_transferables st;
                 st_revokables := st_revokables st |},
              thread json_of items (length (st_verbatim st)))
      ∧ at_level s0 (λ l, lev l + visits (SArray items) l) h'
      ∧ agree_outside (locs s0) (st_heap st) h'.
Proof.
  induction 1 as [| x items Hx _ IH]; intros lev.
  - exists 0. intros fuel fr st _ _ _ _ Hlev. exists (st_heap st).
    split; [| split; [| apply agree_outside_refl]].
    + simpl. rewrite app_nil_r. by destruct st.
    + eapply at_level_ext; [| exact Hlev]. intros l. unfold visits. simpl. lia.
  - destruct (Hx lev) as [k1 H1].
    destruct (IH (λ l, lev l + visits x l)) as [k2 H2].
    exists (k1 `max` k2). intros fuel fr st Hfuel Hfr [Hencx Henc] Hsub Hlev.
    apply errors_sub_cons in Hsub as [Hsubx Hsub].
    destruct (H1 fuel fr st) as (h1 & Hrun1 & Hlev1 & Hag1); try done; try lia.
    set (st1 := {| st_heap := h1;
                   st_verbatim := st_verbatim st ++ refs_of x;
                   st_transferables := st_transferables st;
                   st_revokables := st_revokables st |}) in *.
    destruct (H2 fuel fr st1) as (h2 & Hrun2 & Hlev2 & Hag2); try done; try lia.
    exists h2. split; [| split].
    + csimpl. rewrite Hrun1. simpl. rewrite Hrun2. simpl.
      rewrite length_app, <- app_assoc. done.
    + eapply at_level_ext; [| exact Hlev2]. intros l. simpl.
      rewrite visits_cons. lia.
    + by apply (agree_outside_trans _ _ h1).
Qed.

Lemma encoder_shared_members (members : list (string * shape)) :
  Forall (λ m, encoder_prints_shared functions s0 m.2) members →
  ∀ lev, ∃ k, ∀ fuel fr st,
    k ≤ fuel → k ≤ fr →
    Forall_fold (λ m, encodable functions m.2) members →
    errors_of (SObject members) ⊆ errors_of s0 →
    at_level s0 lev (st_heap st) →
    ∃ h',
      serialize_members
          (SerializeJSONProperty (serializer_replacer functions (serializer functions fr)) fuel)
          st ((λ m, (m.1, value_of m.2)) <$> members)
        = Ok ({| st_heap := h';
                 st_verbatim := st_verbatim st ++ refs_of (SObject members);
                 st_transferables := st_transferables st;
                 st_revokables := st_revokables st |},
              thread_members json_of members (length (st_verbatim st)))
      ∧ at_level s0 (λ l, lev l + visits (SObject members) l) h'
      ∧ agree_outside (locs s0) (st_heap st) h'.
Proof.
  induction 1 as [| [key x] members Hx _ IH]; intros lev.
  - exists 0. intros fuel fr st _ _ _ _ Hlev. exists (st_heap st).
    split; [| split; [| apply agree_outside_refl]].
    + simpl. rewrite app_nil_r. by destruct st.
    + eapply at_level_ext; [| exact Hlev]. intros l. unfold visits. simpl. lia.
  - simpl in Hx. destruct (Hx lev) as [k1 H1].
    destruct (IH (λ l, lev l + visits x l)) as [k2 H2].
    exists (k1 `max` k2). intros fuel fr st Hfuel Hfr [Hencx Henc] Hsub Hlev.
    apply errors_sub_members_cons in Hsub as [Hsubx Hsub].
    destruct (H1 fuel fr st) as (h1 & Hrun1 & Hlev1 & Hag1); try done; try lia.
    set (st1 := {| st_heap := h1;
                   st_verbatim := st_verbatim st ++ refs_of x;
                   st_transferables := st_transferables st;
                   st_revokables := st_revokables st |}) in *.
    destruct (H2 fuel fr st1) as (h2 & Hrun2 & Hlev2 & Hag2); try done; try lia.
    exists h2. split; [| split].
    + csimpl. rewrite Hrun1. simpl. rewrite Hrun2. simpl.
      rewrite length_app, <- app_assoc. done.
    + eapply at_level_ext; [| exact Hlev2]. intros l. simpl.
      rewrite visits_members_cons. lia.
    + by apply (agree_outside_trans _ _ h1).
Qed.

(** An array, escaped when it starts with the sentinel. *)
Lemma encoder_shared_array (items : list shape) :
  Forall (encoder_prints_shared functions s0) items →
  ∀ lev, ∃ k, ∀ fuel fr st,
    k ≤ fuel → k ≤ fr →
    Forall_fold (encodable functions) items →
    errors_of (SArray items) ⊆ errors_of s0 →
    at_level s0 lev (st_heap st) →
    ∃ h',
      SerializeJSONProperty (serializer_replacer functions (serializer functions fr))
          fuel st (VArray ((λ x, Some (value_of x)) <$> items))
        = Ok ({| st_heap := h';
                 st_verbatim := st_verbatim st ++ refs_of (SArray items);
                 st_transferables := st_transferables st;
                 st_revokables := st_revokables st |},
              Some (JArray (escape (JString "_") items
                            ++ thread json_of items (length (st_verbatim st)))))
      ∧ at_level s0 (λ l, lev l + visits (SArray items) l) h'
      ∧ agree_outside (locs s0) (st_heap st) h'.
Proof.
  intros Hitems lev. destruct (encoder_shared_elements items Hitems lev) as [k Hk].
  exists (S (S k)). intros fuel fr st Hfuel Hfr Henc Hsub Hlev.
  destruct fuel as [| [| fuel]]; try lia.
  destruct (Hk (S fuel) fr st) as (h' & Hrun & Hlev' & Hag); try done; try lia.
  exists h'. split; [| done].
  rewrite SerializeJSONProperty_S. simpl.
  rewrite starts_with_sentinel_value_of. unfold escape.
  destruct (starts_with_sentinel items); simpl.
  - rewrite spread_fmap_Some.
    repeat (rewrite stringify_string; simpl).
    rewrite Hrun. done.
  - rewrite spread_fmap_Some, Hrun. done.
Qed.

Lemma error_depth_item (x : shape) (items : list shape) :
  x ∈ items → error_depth x ≤ max_list_with error_depth items.
Proof. apply max_list_with_le. Qed.

Lemma encoder_shared_below (d : nat) (items : list shape) :
  Forall (λ x, error_depth x ≤ d → encoder_prints_shared functions s0 x) items →
  max_list_with error_depth items ≤ d →
  Forall (encoder_prints_shared functions s0) items.
Proof.
  intros IH Hd. rewrite Forall_forall in *. intros x Hx. apply (IH x Hx).
  pose proof (error_depth_item x items Hx). lia.
Qed.

(** [serializer] on a value whose errors are at the level [lev]. *)
Lemma serializer_at_level (t : shape) :
  encoder_prints_shared functions s0 t →
  ∀ lev, ∃ k, ∀ fuel h,
    k ≤ fuel →
    encodable functions t →
    errors_of t ⊆ errors_of s0 →
    at_level s0 lev h →
    ∃ h1,
      serializer functions fuel h (value_of t)
        = Ok (h1, {| data := enc_of t; transferables := []; revokables := [] |})
      ∧ at_level s0 (λ l, lev l + visits t l) h1
      ∧ agree_outside (locs s0) h h1.
Proof.
  intros Ht lev. destruct (Ht lev) as [k Hk]. exists (S k).
  intros fuel h Hfuel Henc Hsub Hlev. destruct fuel as [| fuel]; [lia |].
  destruct (Hk (S fuel) fuel
              {| st_heap := h; st_verbatim := [];
                 st_transferables := []; st_revokables := [] |})
    as (h1 & Hrun & Hlev1 & Hag); try done; try lia.
  exists h1. split; [| done].
  rewrite serializer_S. unfold JSON_stringify. rewrite Hrun. simpl.
  rewrite (encoder_revives_all functions t 0 (refs_of t)); try done.
  apply (holds_refs_extend []).
Qed.

Lemma encoder_shared_depth (d : nat) :
  ∀ t, error_depth t ≤ d → encoder_prints_shared functions s0 t.
Proof.
  induction d as [d IHd] using lt_wf_ind. intros t.
  induction t as [| p | items IH | members IH | entries IH | items IH
                  | c tag props payload IH | l name message cause IH]
    using shape_ind; intros Hd lev; simpl in Hd.
  - exists 2. intros fuel fr st Hfuel _ _ _ Hlev. exists (st_heap st).
    split; [| split; [| apply agree_outside_refl]].
    + destruct fuel as [| [| fuel]]; try lia.
      rewrite SerializeJSONProperty_S. simpl.
      repeat (rewrite stringify_string; simpl).
      rewrite app_nil_r. by destruct st.
    + eapply at_level_ext; [| exact Hlev]. intros l. unfold visits. simpl. lia.
  - exists 1. intros fuel fr st Hfuel _ Henc _ Hlev. exists (st_heap st).
    split; [| split; [| apply agree_outside_refl]].
    + destruct fuel as [| fuel]; try lia.
      rewrite SerializeJSONProperty_step
        by (simpl in Henc; by destruct p).
      rewrite (serializer_replacer_exact functions) by done. simpl.
      rewrite app_nil_r. simpl in Henc.
      destruct p as [| | | n | | | | | | | | | | |]; try done; try by destruct st.
      unfold serialize_value. rewrite json_of_number_exact by done. by destruct st.
    + eapply at_level_ext; [| exact Hlev]. intros l. unfold visits. simpl. lia.
  - apply encoder_shared_array. by apply (encoder_shared_below d).
  - assert (Hmem : Forall (λ m, encoder_prints_shared functions s0 m.2) members).
    { rewrite Forall_forall in *. intros m Hm. apply (IH m Hm).
      pose proof (max_list_with_le (λ m, error_depth m.2) members m Hm). simpl in *. lia. }
    destruct (encoder_shared_members members Hmem lev) as [k Hk].
    exists (S k). intros fuel fr st Hfuel Hfr Henc Hsub Hlev.
    destruct fuel as [| fuel]; try lia.
    destruct (Hk fuel fr st) as (h' & Hrun & Hlev' & Hag); try done; try lia.
    exists h'. split; [| done].
    rewrite SerializeJSONProperty_S. simpl.
    rewrite (members_not_function functions value_of)
      by (done || apply value_of_not_function).
    rewrite Hrun. done.
  - destruct (encoder_shared_array entries (encoder_shared_below d _ IH Hd) lev) as [k Hk].
    exists (S (S k)). intros fuel fr st Hfuel Hfr Henc Hsub Hlev.
    destruct fuel as [| fuel]; try lia.
    destruct (Hk fuel fr st) as (h' & Hrun & Hlev' & Hag); try done; try lia.
    { by apply encodable_entries. }
    exists h'. split; [| done].
    rewrite SerializeJSONProperty_S. simpl.
    repeat (rewrite (stringify_string_ge functions) by lia; simpl).
    rewrite (entries_array functions entries Henc), Hrun. done.
  - destruct (encoder_shared_array items (encoder_shared_below d _ IH Hd) lev) as [k Hk].
    exists (S (S k)). intros fuel fr st Hfuel Hfr Henc Hsub Hlev.
    destruct fuel as [| fuel]; try lia.
    destruct (Hk fuel fr st) as (h' & Hrun & Hlev' & Hag); try done; try lia.
    exists h'. split; [| done].
    rewrite SerializeJSONProperty_S. simpl.
    repeat (rewrite (stringify_string_ge functions) by lia; simpl).
    rewrite <- list_fmap_compose. unfold compose. rewrite Hrun. done.
  - destruct (IH Hd lev) as [k Hk].
    exists (S (S k)). intros fuel fr st Hfuel Hfr Henc Hsub Hlev.
    destruct fuel as [| fuel]; try lia.
    destruct Henc as (HtoJSON & Htag & Hne & Hhook & Hcall & Hpayload).
    destruct (Hk fuel fr st) as (h' & Hrun & Hlev' & Hag); try done; try lia.
    exists h'. split; [| done].
    rewrite SerializeJSONProperty_S. simpl. rewrite HtoJSON, Htag, Hhook. simpl.
    destruct (String.eqb_spec tag EmptyString) as [-> | _]; [done |]. simpl.
    rewrite Hcall. simpl.
    repeat (rewrite (stringify_string_ge functions) by lia; simpl).
    rewrite Hrun. done.
  - clear IH.
    destruct (truthy (value_of cause)) eqn:Htruthy.
    + destruct (serializer_at_level (raise (lev l) cause)
                  (IHd (error_depth cause) ltac:(lia) _
                     ltac:(by rewrite error_depth_raise)) lev) as [k Hk].
      exists (S (S (S k))). intros fuel fr st Hfuel Hfr Henc Hsub Hlev.
      assert (Hin : (l, (name, message, cause)) ∈ errors_of s0)
        by (apply Hsub; by left).
      pose proof (Hlev _ _ _ _ Hin) as Hcell.
      rewrite cause_at_truthy in Hcell by done.
      simpl in Henc. rewrite Htruthy in Henc.
      destruct (Hk fr (st_heap st)) as (h1 & Hrec & Hlev1 & Hag1); try done; try lia.
      { by apply encodable_raise. }
      { rewrite errors_of_raise. intros e He. apply Hsub. by right. }
      rewrite <- (serializer_blind functions fr _ _ _ (dense_at_stage (lev l) cause))
        in Hrec.
      assert (Hown : visits cause l = 0) by (by apply (visits_own_cause s0 l name message)).
      assert (Hl1 : h1 !! l = Some (HError name message (at_stage (lev l) cause))).
      { rewrite (Hlev1 _ _ _ _ Hin), visits_raise, Hown, Nat.add_0_r.
        by rewrite cause_at_truthy. }
      destruct fuel as [| [| [| fuel]]]; try lia.
      exists (<[l := HError name message (enc_of (raise (lev l) cause))]> h1).
      split; [| split].
      * cbn [value_of refs_of json_of].
        by rewrite (stringify_error functions _ fuel st l name message
                      _ h1 _ Hcell (truthy_at_stage _ _ Htruthy) Hrec Hl1).
      * intros l' n' m' c' Hin'. destruct (decide (l' = l)) as [-> | Hne].
        -- pose proof (s0_coherent l _ _ Hin' Hin) as [= -> -> ->].
           rewrite list_lookup_insert_eq by (by eapply lookup_lt_Some).
           rewrite visits_error, decide_True, Hown by done.
           rewrite cause_at_truthy by done.
           replace (lev l + (1 + 0)) with (S (lev l)) by lia.
           unfold at_stage. by rewrite enc_of_raise.
        -- rewrite list_lookup_insert_ne by done.
           rewrite (Hlev1 _ _ _ _ Hin'), visits_raise, visits_error.
           by rewrite decide_False by done.
      * apply agree_outside_insert_in; [by eapply errors_in_locs | done].
    + exists 3. intros fuel fr st Hfuel Hfr Henc Hsub Hlev.
      assert (Hin : (l, (name, message, cause)) ∈ errors_of s0)
        by (apply Hsub; by left).
      pose proof (Hlev _ _ _ _ Hin) as Hcell.
      rewrite cause_at_falsy in Hcell by done.
      destruct fuel as [| [| [| fuel]]]; try lia.
      exists (st_heap st). split; [| split; [| apply agree_outside_refl]].
      * cbn [value_of refs_of json_of].
        by rewrite (stringify_error_leaf functions _ fuel st l name message
                      (value_of cause) Hcell Htruthy).
      * intros l' n' m' c' Hin'. rewrite (Hlev _ _ _ _ Hin').
        destruct (decide (l' = l)) as [-> | Hne].
        -- pose proof (s0_coherent l _ _ Hin' Hin) as [= -> -> ->].
           by rewrite !cause_at_falsy.
        -- rewrite visits_error, decide_False by done.
           by rewrite (visits_leaf functions l name message cause), Nat.add_0_r.
Qed.
End shared_encoder.

(** ** Second pass of the decoder, with errors that occur more than once *)

Section shared_decoder.
Variable functions : nat → fn_info.
Variable table : registry.
Variable s0 : shape.
Hypothesis s0_coherent : coherent s0.
Hypothesis s0_restorable :
  ∀ l n m c, (l, (n, m, c)) ∈ errors_of s0 → restorable c.

Lemma decoder_shared_elements (items : list shape) :
  Forall (decoder_revives_shared functions table s0) items →
  ∀ lev', ∃ k, ∀ fr pos verbatim h lev,
    k ≤ fr →
    holds_refs verbatim pos (refs_of (SArray items)) →
    Forall_fold (encodable functions) items → Forall_fold (decodable table) items →
    errors_of (SArray items) ⊆ errors_of s0 →
    (∀ l, lev l = lev' l + visits (SArray items) l) →
    at_level s0 lev h →
    ∃ h',
      internalize_elements
          (InternalizeJSONProperty
             (deserializer_reviver table (deserializer fr table) verbatim))
          h (thread json_of items pos)
        = Ok (h', (λ x, slot_of (dec_of x)) <$> items)
      ∧ at_level s0 lev' h'
      ∧ agree_outside (locs s0) h h'.
Proof.
  induction 1 as [| x items Hx _ IH]; intros lev'.
  - exists 0. intros fr pos verbatim h lev _ _ _ _ _ Heq Hlev. exists h.
    split; [done |]. split; [| apply agree_outside_refl].
    eapply at_level_ext; [| exact Hlev]. intros l. rewrite Heq. unfold visits. simpl. lia.
  - destruct (Hx (λ l, lev' l + visits (SArray items) l)) as [k1 H1].
    destruct (IH lev') as [k2 H2].
    exists (k1 `max` k2).
    intros fr pos verbatim h lev Hfr Hrefs [Hencx Henc] [Hdecx Hdec] Hsub Heq Hlev.
    rewrite refs_of_cons in Hrefs. apply holds_refs_app in Hrefs as [Hrx Hrr].
    apply errors_sub_cons in Hsub as [Hsubx Hsub].
    destruct (H1 fr pos verbatim h lev) as (h1 & Hrun1 & Hlev1 & Hag1); try done; [lia | |].
    { intros l. rewrite Heq, visits_cons. lia. }
    destruct (H2 fr (pos + length (refs_of x)) verbatim h1
                (λ l, lev' l + visits (SArray items) l))
      as (h2 & Hrun2 & Hlev2 & Hag2); try done; [lia |].
    exists h2. split; [| split].
    + simpl. rewrite Hrun1. simpl. rewrite Hrun2. done.
    + done.
    + by apply (agree_outside_trans _ _ h1).
Qed.

Lemma decoder_shared_members (members : list (string * shape)) :
  Forall (λ m, decoder_revives_shared functions table s0 m.2) members →
  ∀ lev', ∃ k, ∀ fr pos verbatim h lev,
    k ≤ fr →
    holds_refs verbatim pos (refs_of (SObject members)) →
    Forall_fold (λ m, encodable functions m.2) members →
    Forall_fold (λ m, decodable table m.2) members →
    errors_of (SObject members) ⊆ errors_of s0 →
    (∀ l, lev l = lev' l + visits (SObject members) l) →
    at_level s0 lev h →
    ∃ h',
      internalize_members
          (InternalizeJSONProperty
             (deserializer_reviver table (deserializer fr table) verbatim))
          h (thread_members json_of members pos)
        = Ok (h', omap (λ m, match dec_of m.2 with
                             | VUndefined => None
                             | x => Some (m.1, x)
                             end) members)
      ∧ at_level s0 lev' h'
      ∧ agree_outside (locs s0) h h'.
Proof.
  induction 1 as [| [key x] members Hx _ IH]; intros lev'.
  - exists 0. intros fr pos verbatim h lev _ _ _ _ _ Heq Hlev. exists h.
    split; [done |]. split; [| apply agree_outside_refl].
    eapply at_level_ext; [| exact Hlev]. intros l. rewrite Heq. unfold visits. simpl. lia.
  - simpl in Hx. destruct (Hx (λ l, lev' l + visits (SObject members) l)) as [k1 H1].
    destruct (IH lev') as [k2 H2].
    exists (k1 `max` k2).
    intros fr pos verbatim h lev Hfr Hrefs [Hencx Henc] [Hdecx Hdec] Hsub Heq Hlev.
    rewrite refs_of_members_cons in Hrefs. apply holds_refs_app in Hrefs as [Hrx Hrr].
    apply errors_sub_members_cons in Hsub as [Hsubx Hsub].
    destruct (H1 fr pos verbatim h lev) as (h1 & Hrun1 & Hlev1 & Hag1); try done; [lia | |].
    { intros l. rewrite Heq, visits_members_cons. lia. }
    destruct (H2 fr (pos + length (refs_of x)) verbatim h1
                (λ l, lev' l + visits (SObject members) l))
      as (h2 & Hrun2 & Hlev2 & Hag2); try done; [lia |].
    exists h2. split; [| split].
    + simpl. rewrite Hrun1. simpl. rewrite Hrun2. simpl. by destruct (dec_of x).
    + done.
    + by apply (agree_outside_trans _ _ h1).
Qed.

(** The array part of an array, a [Map] or a [Set]. *)
Lemma decoder_shared_array (items : list shape) :
  Forall (decoder_revives_shared functions table s0) items →
  ∀ lev', ∃ k, ∀ fr pos verbatim h lev,
    k ≤ fr →
    holds_refs verbatim pos (refs_of (SArray items)) →
    Forall_fold (encodable functions) items → Forall_fold (decodable table) items →
    errors_of (SArray items) ⊆ errors_of s0 →
    (∀ l, lev l = lev' l + visits (SArray items) l) →
    at_level s0 lev h →
    ∃ h',
      InternalizeJSONProperty
          (deserializer_reviver table (deserializer fr table) verbatim) h
          (JArray (escape (JString "_") items ++ thread json_of items pos))
        = Ok (h', VArray ((λ x, slot_of (dec_of x)) <$> items))
      ∧ at_level s0 lev' h'
      ∧ agree_outside (locs s0) h h'.
Proof.
  intros Hitems lev'. destruct (decoder_shared_elements items Hitems lev') as [k Hk].
  exists k. intros fr pos verbatim h lev Hfr Hrefs Henc Hdec Hsub Heq Hlev.
  destruct (Hk fr pos verbatim h lev) as (h' & Hrun & Hlev' & Hag); try done.
  exists h'. split; [| done].
  rewrite InternalizeJSONProperty_array.
  unfold escape. destruct (starts_with_sentinel items) eqn:Hesc; simpl.
  - rewrite Hrun. simpl. apply deserializer_reviver_escaped.
    by destruct items.
  - rewrite Hrun. simpl. apply deserializer_reviver_array.
    destruct items as [| x items]; [done |]. simpl in *.
    unfold array_get. simpl. by rewrite default_slot_of, is_string_dec_of.
Qed.

Lemma decoder_shared_below (d : nat) (items : list shape) :
  Forall (λ x, error_depth x ≤ d → decoder_revives_shared functions table s0 x) items →
  max_list_with error_depth items ≤ d →
  Forall (decoder_revives_shared functions table s0) items.
Proof.
  intros IH Hd. rewrite Forall_forall in *. intros x Hx. apply (IH x Hx).
  pose proof (max_list_with_le error_depth items x Hx). lia.
Qed.

(** [deserializer] on encoded data whose errors are at the level [lev]. *)
Lemma deserializer_at_level (t : shape) :
  decoder_revives_shared functions table s0 t →
  ∀ lev', ∃ k, ∀ fuel h lev,
    k ≤ fuel →
    encodable functions t → decodable table t →
    errors_of t ⊆ errors_of s0 →
    (∀ l, lev l = lev' l + visits t l) →
    at_level s0 lev h →
    ∃ h2,
      deserializer fuel table h (enc_of t) = Ok (h2, dec_of t)
      ∧ at_level s0 lev' h2
      ∧ agree_outside (locs s0) h h2.
Proof.
  intros Ht lev'. destruct (Ht lev') as [k Hk]. exists (S (k `max` size t)).
  intros fuel h lev Hfuel Henc Hdec Hsub Heq Hlev. destruct fuel as [| fuel]; [lia |].
  destruct (Hk fuel 0 (refs_of t) h lev) as (h2 & Hrun & Hlev2 & Hag); try done; try lia.
  { apply (holds_refs_extend []). }
  exists h2. split; [| done].
  rewrite deserializer_S. unfold JSON_stringify.
  rewrite (decoder_prints_all functions t) by (done || lia). done.
Qed.

Lemma decoder_shared_depth (d : nat) :
  ∀ t, error_depth t ≤ d → decoder_revives_shared functions table s0 t.
Proof.
  induction d as [d IHd] using lt_wf_ind. intros t.
  induction t as [| p | items IH | members IH | entries IH | items IH
                  | c tag props payload IH | l name message cause IH]
    using shape_ind; intros Hd lev'; simpl in Hd.
  - exists 0. intros fr pos verbatim h lev _ _ _ _ _ Heq Hlev. exists h.
    split; [done |]. split; [| apply agree_outside_refl].
    eapply at_level_ext; [| exact Hlev]. intros l. rewrite Heq. unfold visits. simpl. lia.
  - exists 0. intros fr pos verbatim h lev _ _ Henc _ _ Heq Hlev. exists h.
    split; [| split; [| apply agree_outside_refl]].
    + simpl in Henc. destruct p as [| | | n | | | | | | | | | | |]; try done.
    + eapply at_level_ext; [| exact Hlev]. intros l. rewrite Heq. unfold visits. simpl. lia.
  - apply decoder_shared_array. by apply (decoder_shared_below d).
  - assert (Hmem : Forall (λ m, decoder_revives_shared functions table s0 m.2) members).
    { rewrite Forall_forall in *. intros m Hm. apply (IH m Hm).
      pose proof (max_list_with_le (λ m, error_depth m.2) members m Hm). simpl in *. lia. }
    destruct (decoder_shared_members members Hmem lev') as [k Hk].
    exists k. intros fr pos verbatim h lev Hfr Hrefs Henc Hdec Hsub Heq Hlev.
    destruct (Hk fr pos verbatim h lev) as (h' & Hrun & Hlev' & Hag); try done.
    exists h'. split; [| done].
    simpl. rewrite InternalizeJSONProperty_object, Hrun. done.
  - destruct (decoder_shared_array entries (decoder_shared_below d _ IH Hd) lev') as [k Hk].
    exists k. intros fr pos verbatim h lev Hfr Hrefs Henc Hdec Hsub Heq Hlev.
    destruct (Hk fr pos verbatim h lev) as (h' & Hrun & Hlev' & Hag); try done.
    { by apply encodable_entries. }
    exists h'. split; [| done].
    simpl. rewrite InternalizeJSONProperty_array. simpl.
    rewrite Hrun. simpl. unfold deserializer_reviver. simpl.
    unfold array_get. simpl.
    rewrite spread_slot_of_fmap, (entries_of_decoded functions entries Henc). done.
  - destruct (decoder_shared_array items (decoder_shared_below d _ IH Hd) lev') as [k Hk].
    exists k. intros fr pos verbatim h lev Hfr Hrefs Henc Hdec Hsub Heq Hlev.
    destruct (Hk fr pos verbatim h lev) as (h' & Hrun & Hlev' & Hag); try done.
    exists h'. split; [| done].
    simpl. rewrite InternalizeJSONProperty_array. simpl.
    rewrite Hrun. simpl. unfold deserializer_reviver. simpl.
    unfold array_get. simpl.
    by rewrite spread_slot_of_fmap.
  - destruct (IH Hd lev') as [k Hk].
    exists k. intros fr pos verbatim h lev Hfr Hrefs Henc Hdec Hsub Heq Hlev.
    destruct Henc as (_ & _ & _ & _ & _ & Hpayload).
    destruct Hdec as [(hook & Hhook & Hcall) Hdec].
    destruct (Hk fr pos verbatim h lev) as (h' & Hrun & Hlev' & Hag); try done.
    exists h'. split; [| done].
    simpl. rewrite InternalizeJSONProperty_array. simpl.
    rewrite Hrun. simpl. unfold deserializer_reviver, revive_custom. simpl.
    unfold array_get. simpl. rewrite default_slot_of, Hhook, Hcall. done.
  - clear IH.
    assert (Hrun : ∀ fr pos verbatim h,
              holds_refs verbatim pos (refs_of (SError l name message cause)) →
              InternalizeJSONProperty
                (deserializer_reviver table (deserializer fr table) verbatim) h
                (json_of (SError l name message cause) pos)
              = revive_error (deserializer fr table) h (VRef l) (VString name)).
    { intros fr pos verbatim h Hrefs.
      specialize (Hrefs 0 (VRef l) eq_refl). rewrite Nat.add_0_r in Hrefs.
      simpl. rewrite InternalizeJSONProperty_array. simpl.
      rewrite json_of_number_of_nat, InternalizeJSONProperty_array. simpl.
      rewrite index_of_number_of_nat, Hrefs. done. }
    destruct (truthy (value_of cause)) eqn:Htruthy.
    + set (mid := λ l0, lev' l0 + (if decide (l = l0) then 1 else 0)).
      destruct (deserializer_at_level (raise (lev' l) cause)
                  (IHd (error_depth cause) ltac:(lia) _
                     ltac:(by rewrite error_depth_raise)) mid) as [k Hk].
      exists k. intros fr pos verbatim h lev Hfr Hrefs Henc Hdec Hsub Heq Hlev.
      assert (Hin : (l, (name, message, cause)) ∈ errors_of s0)
        by (apply Hsub; by left).
      assert (Hown : visits cause l = 0) by (by apply (visits_own_cause s0 l name message)).
      pose proof (Hlev _ _ _ _ Hin) as Hcell.
      rewrite cause_at_truthy in Hcell by done.
      rewrite Heq, visits_error, decide_True, Hown in Hcell by done.
      replace (lev' l + (1 + 0)) with (S (lev' l)) in Hcell by lia.
      unfold at_stage in Hcell. rewrite <- enc_of_raise in Hcell.
      simpl in Henc. rewrite Htruthy in Henc. simpl in Hdec.
      rewrite Hrun by done. unfold revive_error. rewrite Hcell.
      rewrite (restore_name h l name name message _ Hcell).
      rewrite (list_insert_id h l _ Hcell).
      rewrite (truthy_enc_of _ (truthy_raise (lev' l) _ Htruthy)).
      destruct (Hk fr h lev) as (h2 & Hrec & Hlev2 & Hag2); try done.
      { by apply encodable_raise. }
      { by apply decodable_raise. }
      { rewrite errors_of_raise. intros e He. apply Hsub. by right. }
      { intros l0. rewrite Heq, visits_raise, visits_error. unfold mid. lia. }
      rewrite Hrec. simpl.
      rewrite (Hlev2 _ _ _ _ Hin).
      rewrite (dec_of_raise functions) by (done || by eapply s0_restorable).
      exists (<[l := HError name message (at_stage (lev' l) cause)]> h2).
      split; [done |]. split.
      * intros l' n' m' c' Hin'. destruct (decide (l' = l)) as [-> | Hne].
        -- pose proof (s0_coherent l _ _ Hin' Hin) as [= -> -> ->].
           rewrite list_lookup_insert_eq.
           ++ by rewrite cause_at_truthy.
           ++ eapply lookup_lt_Some. by apply (Hlev2 _ _ _ _ Hin).
        -- rewrite list_lookup_insert_ne by done.
           rewrite (Hlev2 _ _ _ _ Hin'). unfold mid.
           by rewrite decide_False, Nat.add_0_r by done.
      * apply agree_outside_insert_in; [by eapply errors_in_locs | done].
    + exists 0. intros fr pos verbatim h lev Hfr Hrefs Henc Hdec Hsub Heq Hlev.
      assert (Hin : (l, (name, message, cause)) ∈ errors_of s0)
        by (apply Hsub; by left).
      pose proof (Hlev _ _ _ _ Hin) as Hcell.
      rewrite cause_at_falsy in Hcell by done.
      rewrite Hrun by done. unfold revive_error. rewrite Hcell.
      rewrite (restore_name h l name name message _ Hcell).
      rewrite (list_insert_id h l _ Hcell), Htruthy.
      exists h. split; [done |]. split; [| apply agree_outside_refl].
      intros l' n' m' c' Hin'. rewrite (Hlev _ _ _ _ Hin').
      destruct (decide (l' = l)) as [-> | Hne].
      * pose proof (s0_coherent l _ _ Hin' Hin) as [= -> -> ->].
        by rewrite !cause_at_falsy.
      * rewrite Heq, visits_error, decide_False by done.
        by rewrite (visits_leaf functions l name message cause), Nat.add_0_r.
Qed.
End shared_decoder.

(** ** The round trip, with errors that occur more than once *)

(** The causes of the errors of a restorable shape are restorable. *)
Lemma restorable_causes (s : shape) :
  restorable s → ∀ l n m c, (l, (n, m, c)) ∈ errors_of s → restorable c.
Proof.
  induction s as [s IH] using shape_size_ind.
  destruct s as [| p | items | members | entries | items | c0 tag props payload
                 | l0 name message cause]; intros Hres l n m c Hin; simpl in Hin.
  - by apply elem_of_nil in Hin.
  - by apply elem_of_nil in Hin.
  - apply elem_of_errors_items in Hin as (x & Hx & Hin).
    simpl in Hres. apply Forall_fold_Forall in Hres. rewrite Forall_forall in Hres.
    apply (IH x) with l n m; [| by apply Hres | done].
    pose proof (size_item x items Hx). simpl. lia.
  - apply elem_of_errors_members in Hin as (x & Hx & Hin).
    simpl in Hres. apply Forall_fold_Forall in Hres. rewrite Forall_forall in Hres.
    apply (IH x.2) with l n m; [| by apply Hres | done].
    pose proof (size_member x members Hx). simpl. lia.
  - apply elem_of_errors_items in Hin as (e & He & Hin).
    simpl in Hres. destruct Hres as [Hres _].
    apply Forall_fold_Forall in Hres. rewrite Forall_forall in Hres.
    specialize (Hres e He). pose proof (size_item e entries He) as Hsize.
    destruct e as [| | [| k [| x [| ]]] | | | | |]; try done.
    destruct Hres as [Hresk Hresx]. simpl in Hin, Hsize.
    rewrite app_nil_r in Hin. apply elem_of_app in Hin as [Hin | Hin].
    + apply (IH k) with l n m; [simpl; lia | done | done].
    + apply (IH x) with l n m; [simpl; lia | done | done].
  - apply elem_of_errors_items in Hin as (x & Hx & Hin).
    simpl in Hres. destruct Hres as [Hres _].
    apply Forall_fold_Forall in Hres. rewrite Forall_forall in Hres.
    apply (IH x) with l n m; [| by apply Hres | done].
    pose proof (size_item x items Hx). simpl. lia.
  - apply (IH payload) with l n m; [simpl; lia | done | done].
  - simpl in Hres. apply elem_of_cons in Hin as [[= -> -> -> ->] | Hin]; [done |].
    apply (IH cause) with l n m; [simpl; lia | done | done].
Qed.

(** Errors that occur once are described in one way. *)
Lemma NoDup_coherent (s : shape) : NoDup (locs s) → coherent s.
Proof.
  rewrite <- errors_locs. unfold coherent.
  induction (errors_of s) as [| [l0 d0] es IH]; intros Hnd l d d' H1 H2.
  - by apply elem_of_nil in H1.
  - csimpl in Hnd. apply NoDup_cons in Hnd as [Hn Hnd].
    apply elem_of_cons in H1 as [H1 | H1]; apply elem_of_cons in H2 as [H2 | H2].
    + congruence.
    + injection H1 as -> ->. destruct Hn. apply list_elem_of_fmap. by exists (l0, d').
    + injection H2 as -> ->. destruct Hn. apply list_elem_of_fmap. by exists (l0, d).
    + by apply (IH Hnd l).
Qed.

(** The round trip on a shape in which errors may occur more than once and
    arrays may have holes: with enough budget [serializer] returns, and
    [deserializer] on the data it returned gives the value back and leaves
    the heap as it was before the two calls. *)
Lemma shared_round_trip (functions : nat → fn_info) (table : registry)
    (s : shape) (h : heap) :
  encodable functions s →
  decodable table s →
  restorable s →
  coherent s →
  stored (cells sparse_of s) h →
  returns (λ fuel, '(h1, r) ← serializer functions fuel h (sparse_of s);
                   deserializer fuel table h1 (data r))
    (Ok (h, sparse_of s)).
Proof.
  intros Henc Hdec Hres Hco Hst.
  destruct (serializer_at_level functions s s
              (encoder_shared_depth functions s Hco (error_depth s) s (le_n _))
              (λ _, 0)) as [k1 H1].
  destruct (deserializer_at_level functions table s s
              (decoder_shared_depth functions table s Hco (restorable_causes s Hres)
                 (error_depth s) s (le_n _))
              (λ _, 0)) as [k2 H2].
  exists (k1 `max` k2). intros fuel Hfuel.
  pose proof (at_level_stored s h Hst) as Hlev.
  destruct (H1 fuel h) as (h1 & Hser & Hlev1 & Hag1); try done; [lia |].
  destruct (H2 fuel h1 (λ l, 0 + visits s l)) as (h2 & Hde & Hlev2 & Hag2);
    try done; [lia |].
  rewrite (serializer_blind functions fuel h _ _ (dense_sparse_of s)).
  rewrite Hser. simpl. rewrite Hde.
  rewrite (dec_of_restorable functions s) by done.
  do 2 f_equal.
  apply (at_level_unique s (λ _, 0)); [done | done |].
  by apply (agree_outside_trans _ _ h1).
Qed.

(** * JSON-plain values *)

(** Induction on values, with the hypothesis for the members of arrays and
    plain objects. *)
Lemma value_plain_ind (P : value → Prop) :
  (∀ elems, Forall (λ o, match o with Some x => P x | None => True end) elems →
            P (VArray elems)) →
  (∀ props, Forall (λ kv, P kv.2) props → P (VObject props)) →
  (∀ v, match v with VArray _ | VObject _ => False | _ => True end → P v) →
  ∀ v, P v.
Proof.
  intros Harr Hobj Hother. fix IH 1. intros v.
  destruct v as [| | b | n | z | s | elems | elems | props | c props | entries
                 | elems | l | f | mp]; try (by apply Hother).
  - apply Harr. induction elems as [| o elems IHelems]; constructor.
    + destruct o as [x |]; [apply IH | exact I].
    + exact IHelems.
  - apply Hobj. induction props as [| [k x] props IHprops]; constructor.
    + apply IH.
    + exact IHprops.
Qed.

Lemma weight_pos (v : value) : 1 ≤ weight v.
Proof. destruct v; simpl; lia. Qed.

Section plain_values.
Variable functions : nat → fn_info.
Variable table : registry.

(** *** The decoder on a plain value *)

Lemma decoder_prints_plain (v : value) :
  json_plain v = true →
  ∀ fuel vb, weight v ≤ fuel →
    SerializeJSONProperty deserializer_replacer fuel vb v = Ok (vb, Some (plain_json v)).
Proof.
  induction v as [elems IH | props IH | v Hv] using value_plain_ind;
    intros Hplain fuel vb Hfuel.
  - simpl in Hplain, Hfuel. apply andb_prop in Hplain as [Hall _].
    destruct fuel as [| fuel]; [lia |].
    rewrite SerializeJSONProperty_S. simpl.
    assert (Hrun : serialize_elements (SerializeJSONProperty deserializer_replacer fuel)
                     vb (spread elems)
                   = Ok (vb, (λ o, match o with
                                   | Some x => plain_json x
                                   | None => JNull
                                   end) <$> elems)).
    { assert (Hsum : sum_list_with (λ o, match o with Some x => weight x | None => 1 end)
                       elems ≤ fuel) by lia.
      clear Hfuel. induction IH as [| o elems Ho _ IHelems]; [done |].
      simpl in Hall, Hsum. apply andb_prop in Hall as [Hplo Hall].
      destruct o as [x |]; [| done]. csimpl.
      rewrite Ho by (done || lia). simpl. rewrite IHelems by (done || lia). done. }
    by rewrite Hrun.
  - simpl in Hplain, Hfuel. destruct fuel as [| fuel]; [lia |].
    rewrite SerializeJSONProperty_S. simpl. rewrite get_prop_plain by done.
    assert (Hrun : serialize_members (SerializeJSONProperty deserializer_replacer fuel)
                     vb props
                   = Ok (vb, (λ kv, (kv.1, plain_json kv.2)) <$> props)).
    { assert (Hsum : sum_list_with (λ kv, weight kv.2) props ≤ fuel) by lia.
      clear Hfuel. induction IH as [| [k x] props Hx _ IHprops]; [done |].
      simpl in Hplain, Hsum, Hx. apply andb_prop in Hplain as [Hplx Hall].
      csimpl. rewrite Hx by (done || lia). simpl.
      rewrite IHprops by (done || lia). done. }
    by rewrite Hrun.
  - destruct fuel as [| fuel]; [pose proof (weight_pos v); lia |].
    destruct v as [| | b | n | z | s | | | | | | | | |]; try done.
    by destruct n as [[] | | |].
Qed.

Lemma plain_not_undefined (v : value) : json_plain v = true → slot_of v = Some v.
Proof. by destruct v. Qed.

Lemma decoder_revives_plain rec verbatim (v : value) :
  json_plain v = true →
  ∀ h, InternalizeJSONProperty (deserializer_reviver table rec verbatim) h (plain_json v)
       = Ok (h, v).
Proof.
  induction v as [elems IH | props IH | v Hv] using value_plain_ind; intros Hplain h.
  - simpl in Hplain. apply andb_prop in Hplain as [Hall Hfirst].
    simpl. rewrite InternalizeJSONProperty_array.
    assert (Hrun : internalize_elements
                     (InternalizeJSONProperty (deserializer_reviver table rec verbatim)) h
                     ((λ o, match o with Some x => plain_json x | None => JNull end) <$> elems)
                   = Ok (h, elems)).
    { clear Hfirst. induction IH as [| o elems Ho _ IHelems]; [done |].
      simpl in Hall. apply andb_prop in Hall as [Hplo Hall].
      destruct o as [x |]; [| done]. csimpl.
      rewrite Ho by done. simpl. rewrite IHelems by done. simpl.
      by rewrite plain_not_undefined. }
    rewrite Hrun. simpl. apply deserializer_reviver_array.
    by apply negb_true_iff.
  - simpl in Hplain. simpl. rewrite InternalizeJSONProperty_object.
    assert (Hrun : internalize_members
                     (InternalizeJSONProperty (deserializer_reviver table rec verbatim)) h
                     ((λ kv, (kv.1, plain_json kv.2)) <$> props)
                   = Ok (h, props)).
    { induction IH as [| [k x] props Hx _ IHprops]; [done |].
      simpl in Hplain, Hx. apply andb_prop in Hplain as [Hplx Hall].
      csimpl. rewrite Hx by done. simpl. rewrite IHprops by done. simpl.
      pose proof (plain_not_undefined x Hplx). by destruct x. }
    by rewrite Hrun.
  - destruct v as [| | b | n | z | s | | | | | | | | |]; try done.
Qed.

(** [deserializer] is the identity on a plain value. *)
Lemma deserializer_plain (v : value) (h : heap) (fuel : nat) :
  json_plain v = true → weight v ≤ fuel →
  deserializer (S fuel) table h v = Ok (h, v).
Proof.
  intros Hplain Hfuel. rewrite deserializer_S. unfold JSON_stringify.
  rewrite decoder_prints_plain by (done || lia). simpl.
  by apply decoder_revives_plain.
Qed.
End plain_values.

(** * A function among plain values *)

Lemma serialize_elements_app {St} (ser : St → value → outcome (St * option json))
    (st : St) (l1 l2 : list value) :
  serialize_elements ser st (l1 ++ l2)
    = '(st1, js1) ← serialize_elements ser st l1;
      '(st2, js2) ← serialize_elements ser st1 l2;
      Ok (st2, js1 ++ js2).
Proof.
  revert st. induction l1 as [| v l1 IH]; intros st; simpl.
  - by destruct (serialize_elements ser st l2) as [[? ?] | | |].
  - destruct (ser st v) as [[st1 j] | | |]; simpl; try done.
    rewrite IH. destruct (serialize_elements ser st1 l1) as [[st2 js1] | | |]; simpl; try done.
    by destruct (serialize_elements ser st2 l2) as [[? ?] | | |].
Qed.

Lemma serialize_members_app {St} (ser : St → value → outcome (St * option json))
    (st : St) (l1 l2 : list (string * value)) :
  serialize_members ser st (l1 ++ l2)
    = '(st1, ms1) ← serialize_members ser st l1;
      '(st2, ms2) ← serialize_members ser st1 l2;
      Ok (st2, ms1 ++ ms2).
Proof.
  revert st. induction l1 as [| [k v] l1 IH]; intros st; simpl.
  - by destruct (serialize_members ser st l2) as [[? ?] | | |].
  - destruct (ser st v) as [[st1 j] | | |]; simpl; try done.
    rewrite IH. destruct (serialize_members ser st1 l1) as [[st2 ms1] | | |]; simpl; try done.
    destruct (serialize_members ser st2 l2) as [[? ?] | | |]; simpl; try done.
    by destruct j.
Qed.

Lemma internalize_members_app {St} (int : St → json → outcome (St * value))
    (st : St) (ms1 ms2 : list (string * json)) :
  internalize_members int st (ms1 ++ ms2)
    = '(st1, ps1) ← internalize_members int st ms1;
      '(st2, ps2) ← internalize_members int st1 ms2;
      Ok (st2, ps1 ++ ps2).
Proof.
  revert st. induction ms1 as [| [k j] ms1 IH]; intros st; simpl.
  - by destruct (internalize_members int st ms2) as [[? ?] | | |].
  - destruct (int st j) as [[st1 v] | | |]; simpl; try done.
    rewrite IH. destruct (internalize_members int st1 ms1) as [[st2 ps1] | | |]; simpl; try done.
    destruct (internalize_members int st2 ms2) as [[? ?] | | |]; simpl; try done.
    by destruct v.
Qed.

Section function_in_plain.
Variable functions : nat → fn_info.
Variable rec : heap → value → outcome (heap * enc_result).

(** *** The encoder on a plain value *)

Lemma encoder_prints_plain (v : value) :
  json_plain v = true →
  ∀ fuel st, weight v ≤ fuel →
    SerializeJSONProperty (serializer_replacer functions rec) fuel st v
      = Ok (st, Some (plain_json v)).
Proof.
  induction v as [elems IH | props IH | v Hv] using value_plain_ind;
    intros Hplain fuel st Hfuel.
  - simpl in Hplain, Hfuel. apply andb_prop in Hplain as [Hall Hfirst].
    apply negb_true_iff in Hfirst.
    destruct fuel as [| fuel]; [lia |].
    rewrite SerializeJSONProperty_S. simpl. rewrite Hfirst. simpl.
    assert (Hrun : serialize_elements
                     (SerializeJSONProperty (serializer_replacer functions rec) fuel)
                     st (spread elems)
                   = Ok (st, (λ o, match o with
                                   | Some x => plain_json x
                                   | None => JNull
                                   end) <$> elems)).
    { assert (Hsum : sum_list_with (λ o, match o with Some x => weight x | None => 1 end)
                       elems ≤ fuel) by lia.
      clear Hfuel Hfirst. induction IH as [| o elems Ho _ IHelems]; [done |].
      simpl in Hall, Hsum. apply andb_prop in Hall as [Hplo Hall].
      destruct o as [x |]; [| done]. csimpl.
      rewrite Ho by (done || lia). simpl. rewrite IHelems by (done || lia). done. }
    by rewrite Hrun.
  - simpl in Hplain, Hfuel. destruct fuel as [| fuel]; [lia |].
    rewrite SerializeJSONProperty_S. simpl. rewrite get_prop_plain by done.
    assert (Hrun : serialize_members
                     (SerializeJSONProperty (serializer_replacer functions rec) fuel)
                     st props
                   = Ok (st, (λ kv, (kv.1, plain_json kv.2)) <$> props)).
    { assert (Hsum : sum_list_with (λ kv, weight kv.2) props ≤ fuel) by lia.
      clear Hfuel. induction IH as [| [k x] props Hx _ IHprops]; [done |].
      simpl in Hplain, Hsum, Hx. apply andb_prop in Hplain as [Hplx Hall].
      csimpl. rewrite Hx by (done || lia). simpl.
      rewrite IHprops by (done || lia). done. }
    by rewrite Hrun.
  - destruct fuel as [| fuel]; [pose proof (weight_pos v); lia |].
    destruct v as [| | b | n | z | s | | | | | | | | |]; try done.
    + by rewrite SerializeJSONProperty_S, serializer_replacer_bool.
    + rewrite stringify_number. simpl in Hplain. by rewrite json_of_number_exact.
    + by rewrite stringify_string.
Qed.

Lemma encoder_prints_plain_list (l : list value) :
  forallb json_plain l = true →
  ∀ fuel st, sum_list_with weight l ≤ fuel →
    serialize_elements (SerializeJSONProperty (serializer_replacer functions rec) fuel) st l
      = Ok (st, plain_json <$> l).
Proof.
  induction l as [| v l IH]; intros Hall fuel st Hfuel; [done |].
  simpl in Hall, Hfuel. apply andb_prop in Hall as [Hv Hall]. csimpl.
  rewrite encoder_prints_plain by (done || lia). simpl.
  rewrite IH by (done || lia). done.
Qed.

Lemma encoder_prints_plain_members (l : list (string * value)) :
  forallb (λ kv, json_plain kv.2) l = true →
  ∀ fuel st, sum_list_with (λ kv, weight kv.2) l ≤ fuel →
    serialize_members (SerializeJSONProperty (serializer_replacer functions rec) fuel) st l
      = Ok (st, (λ kv, (kv.1, plain_json kv.2)) <$> l).
Proof.
  induction l as [| [k v] l IH]; intros Hall fuel st Hfuel; [done |].
  simpl in Hall, Hfuel. apply andb_prop in Hall as [Hv Hall]. csimpl.
  rewrite encoder_prints_plain by (done || lia). simpl.
  rewrite IH by (done || lia). done.
Qed.

Lemma encoder_revives_plain verbatim (v : value) :
  json_plain v = true →
  InternalizeJSONProperty (serializer_reviver verbatim) tt (plain_json v) = Ok (tt, v).
Proof.
  induction v as [elems IH | props IH | v Hv] using value_plain_ind; intros Hplain.
  - simpl in Hplain. apply andb_prop in Hplain as [Hall Hfirst].
    apply negb_true_iff in Hfirst.
    simpl. rewrite InternalizeJSONProperty_array.
    assert (Hrun : internalize_elements
                     (InternalizeJSONProperty (serializer_reviver verbatim)) tt
                     ((λ o, match o with Some x => plain_json x | None => JNull end) <$> elems)
                   = Ok (tt, elems)).
    { clear Hfirst. induction IH as [| o elems Ho _ IHelems]; [done |].
      simpl in Hall. apply andb_prop in Hall as [Hplo Hall].
      destruct o as [x |]; [| done]. csimpl.
      rewrite Ho by done. simpl. rewrite IHelems by done. simpl.
      by rewrite plain_not_undefined. }
    rewrite Hrun. simpl. apply serializer_reviver_array. by rewrite Hfirst.
  - simpl in Hplain. simpl. rewrite InternalizeJSONProperty_object.
    assert (Hrun : internalize_members
                     (InternalizeJSONProperty (serializer_reviver verbatim)) tt
                     ((λ kv, (kv.1, plain_json kv.2)) <$> props)
                   = Ok (tt, props)).
    { induction IH as [| [k x] props Hx _ IHprops]; [done |].
      simpl in Hplain, Hx. apply andb_prop in Hplain as [Hplx Hall].
      csimpl. rewrite Hx by done. simpl. rewrite IHprops by done. simpl.
      pose proof (plain_not_undefined x Hplx). by destruct x. }
    by rewrite Hrun.
  - destruct v as [| | b | n | z | s | | | | | | | | |]; try done.
Qed.

Lemma encoder_revives_plain_list verbatim (l : list value) :
  forallb json_plain l = true →
  internalize_elements (InternalizeJSONProperty (serializer_reviver verbatim)) tt
      (plain_json <$> l)
    = Ok (tt, Some <$> l).
Proof.
  induction l as [| v l IH]; intros Hall; [done |].
  simpl in Hall. apply andb_prop in Hall as [Hv Hall]. csimpl.
  rewrite encoder_revives_plain by done. simpl. rewrite IH by done. simpl.
  by rewrite plain_not_undefined.
Qed.

Lemma encoder_revives_plain_members verbatim (l : list (string * value)) :
  forallb (λ kv, json_plain kv.2) l = true →
  internalize_members (InternalizeJSONProperty (serializer_reviver verbatim)) tt
      ((λ kv, (kv.1, plain_json kv.2)) <$> l)
    = Ok (tt, l).
Proof.
  induction l as [| [k v] l IH]; intros Hall; [done |].
  simpl in Hall. apply andb_prop in Hall as [Hv Hall]. csimpl.
  rewrite encoder_revives_plain by done. simpl. rewrite IH by done. simpl.
  pose proof (plain_not_undefined v Hv). by destruct v.
Qed.
End function_in_plain.

Lemma add_object_elem (l : loc) (s : list loc) : l ∈ add_object l s.
Proof.
  unfold add_object. case_bool_decide; [done |].
  apply elem_of_app. right. by left.
Qed.

Lemma add_object_idem (l : loc) (s : list loc) :
  add_object l (add_object l s) = add_object l s.
Proof.
  unfold add_object at 1. by rewrite bool_decide_eq_true_2 by apply add_object_elem.
Qed.

Lemma is_string_place (p : position) (v : value) :
  is_string "_" v = false → is_string "_" (place p v) = false.
Proof. by destruct p. Qed.

Lemma array_get_first (l : list value) :
  array_get (Some <$> l) 0 = default VUndefined (head l).
Proof. by destruct l. Qed.

(** The first element of an array on the way to the position is not the
    sentinel. *)
Lemma first_not_sentinel (before after : list value) (x : value) :
  negb (is_string "_" (default VNull (head before))) = true →
  is_string "_" x = false →
  is_string "_" (array_get (Some <$> (before ++ x :: after)) 0) = false.
Proof.
  intros Hb Hx. rewrite array_get_first. destruct before as [| b before]; [done |].
  simpl in *. by apply negb_true_iff.
Qed.

(** A plain object on the way to a position has no [toJSON] method, unless
    the hole is its member of that name and holds a function. *)
Lemma names_toJSON_inner before key inner after :
  inner ≠ Here →
  names_toJSON (InObject before key inner after) = names_toJSON inner.
Proof. by destruct inner. Qed.

Lemma toJSON_at_position before key inner after (x : value) :
  forallb (λ kv, json_plain kv.2) before = true →
  forallb (λ kv, json_plain kv.2) after = true →
  names_toJSON (InObject before key inner after) = false ∨ is_function x = false →
  is_function (get_prop (before ++ (key, place inner x) :: after) "toJSON") = false.
Proof.
  intros Hbefore Hafter Hsafe.
  induction before as [| [k' y] before IH]; simpl.
  - destruct (String.eqb key "toJSON") eqn:Hkey; [| by apply get_prop_plain].
    destruct inner; try done. simpl in Hsafe. rewrite Hkey in Hsafe.
    by destruct Hsafe.
  - simpl in Hbefore. apply andb_prop in Hbefore as [Hy Hbefore].
    destruct (String.eqb k' "toJSON"); [by destruct y |]. by apply IH.
Qed.

Lemma names_toJSON_step_array before inner after (x : value) :
  names_toJSON (InArray before inner after) = false ∨ is_function x = false →
  names_toJSON inner = false ∨ is_function x = false.
Proof. done. Qed.

Lemma names_toJSON_step_object before key inner after (x : value) :
  names_toJSON (InObject before key inner after) = false ∨ is_function x = false →
  names_toJSON inner = false ∨ is_function x = false.
Proof. intros [H | H]; [left | by right]. by destruct inner. Qed.

Section function_at_position.
Variable functions : nat → fn_info.
Variable rec : heap → value → outcome (heap * enc_result).

Lemma encoder_prints_function_here (f : value) (fuel : nat) (st : enc_state) :
  is_function f = true →
  SerializeJSONProperty (serializer_replacer functions rec) (S (S (S fuel))) st f
    = Ok (after_channel st f, Some (fn_json (length (st_verbatim st)))).
Proof.
  intros Hf.
  assert (Hport : (st_heap st ++ channel_of (st_heap st) f) !! S (length (st_heap st))
                  = Some (HMessagePort (length (st_heap st)) None)).
  { rewrite lookup_app_r by lia.
    by replace (S (length (st_heap st)) - length (st_heap st)) with 1 by lia. }
  assert (Hrun : serializer_replacer functions rec st f
                 = Ok ({| st_heap := st_heap st ++ channel_of (st_heap st) f;
                          st_verbatim := st_verbatim st;
                          st_transferables :=
                            add_object (S (length (st_heap st))) (st_transferables st);
                          st_revokables :=
                            add_object (length (st_heap st)) (st_revokables st) |},
                       VRaw [sentinel; VString "_fn"; VRef (S (length (st_heap st)))])).
  { by destruct f. }
  rewrite SerializeJSONProperty_step, Hrun by (by apply toJSON_of_function). simpl.
  repeat (rewrite stringify_string; simpl).
  rewrite SerializeJSONProperty_S. simpl.
  rewrite Hport. simpl.
  repeat (rewrite ?stringify_string, ?stringify_number; simpl).
  unfold after_channel, add_transferable, push_verbatim, fn_json. simpl.
  by rewrite add_object_idem.
Qed.

Lemma encoder_prints_function (p : position) (f : value) :
  is_function f = true →
  plain_position p = true →
  names_toJSON p = false →
  ∀ fuel st, position_weight p ≤ fuel →
    SerializeJSONProperty (serializer_replacer functions rec) fuel st (place p f)
      = Ok (after_channel st f,
            Some (place_json p (fn_json (length (st_verbatim st))))).
Proof.
  intros Hf. induction p as [| before inner IH after | before key inner IH after];
    intros Hplain Hsafe fuel st Hfuel; simpl in Hplain, Hfuel.
  - destruct fuel as [| [| [| fuel]]]; try lia.
    by apply encoder_prints_function_here.
  - apply andb_prop in Hplain as [Hplain Hinner].
    apply andb_prop in Hplain as [Hplain Hfirst].
    apply andb_prop in Hplain as [Hbefore Hafter].
    destruct fuel as [| fuel]; [lia |].
    rewrite SerializeJSONProperty_S. simpl.
    rewrite first_not_sentinel; [| done | apply is_string_place; by destruct f].
    simpl. rewrite spread_Some, serialize_elements_app.
    rewrite encoder_prints_plain_list by (done || lia). simpl.
    rewrite IH by (done || lia). simpl.
    rewrite encoder_prints_plain_list by (done || lia). simpl.
    done.
  - apply andb_prop in Hplain as [Hplain Hinner].
    apply andb_prop in Hplain as [Hbefore Hafter].
    destruct fuel as [| fuel]; [lia |].
    rewrite SerializeJSONProperty_S. simpl.
    rewrite toJSON_at_position by (done || by left).
    assert (Hsafe' : names_toJSON inner = false).
    { destruct inner; try done. }
    rewrite serialize_members_app.
    rewrite encoder_prints_plain_members by (done || lia). simpl.
    rewrite IH by (done || lia). simpl.
    rewrite encoder_prints_plain_members by (done || lia). simpl.
    done.
Qed.

Lemma encoder_revives_function (p : position) (verbatim : list value) (pos : nat) (l : loc) :
  verbatim !! pos = Some (VRef l) →
  plain_position p = true →
  InternalizeJSONProperty (serializer_reviver verbatim) tt (place_json p (fn_json pos))
    = Ok (tt, place p (VArray [Some sentinel; Some (VString "_fn"); Some (VRef l)])).
Proof.
  intros Hl. induction p as [| before inner IH after | before key inner IH after];
    intros Hplain; simpl in Hplain.
  - simpl. unfold fn_json. rewrite InternalizeJSONProperty_array. simpl.
    rewrite json_of_number_of_nat, InternalizeJSONProperty_array. simpl.
    by rewrite index_of_number_of_nat, Hl.
  - apply andb_prop in Hplain as [Hplain Hinner].
    apply andb_prop in Hplain as [Hplain Hfirst].
    apply andb_prop in Hplain as [Hbefore Hafter].
    simpl. rewrite InternalizeJSONProperty_array, internalize_elements_app.
    rewrite encoder_revives_plain_list by done. simpl.
    rewrite IH by done. simpl.
    rewrite encoder_revives_plain_list by done. simpl.
    assert (Hdef : slot_of (place inner (VArray [Some sentinel; Some (VString "_fn");
                                                Some (VRef l)]))
                   = Some (place inner (VArray [Some sentinel; Some (VString "_fn");
                                                Some (VRef l)]))).
    { by destruct inner. }
    rewrite Hdef.
    replace (_ ++ _ :: _) with
      (Some <$> (before ++ place inner (VArray [Some sentinel; Some (VString "_fn");
                                                Some (VRef l)]) :: after))
      by (by rewrite fmap_app).
    apply serializer_reviver_array.
    rewrite first_not_sentinel; [done | done | by apply is_string_place].
  - apply andb_prop in Hplain as [Hplain Hinner].
    apply andb_prop in Hplain as [Hbefore Hafter].
    simpl. rewrite InternalizeJSONProperty_object, internalize_members_app.
    rewrite encoder_revives_plain_members by done. simpl.
    rewrite IH by done. simpl.
    rewrite encoder_revives_plain_members by done. simpl.
    by destruct inner.
Qed.
End function_at_position.

(** [serializer] on a value that has a function at a position among plain
    data: one channel is allocated, and its two ports are the transferable
    and the revokable. *)
Lemma serializer_function_at (functions : nat → fn_info)
    (p : position) (f : value) (h : heap) (fuel : nat) :
  is_function f = true →
  plain_position p = true →
  names_toJSON p = false →
  position_weight p < fuel →
  serializer functions fuel h (place p f)
    = Ok (h ++ channel_of h f,
          {| data := place p (VArray [Some sentinel; Some (VString "_fn");
                                      Some (VRef (S (length h)))]);
             transferables := [S (length h)];
             revokables := [length h] |}).
Proof.
  intros Hf Hplain Hsafe Hfuel.
  destruct fuel as [| fuel]; [lia |].
  rewrite serializer_S. unfold JSON_stringify.
  rewrite encoder_prints_function by (done || lia). simpl.
  rewrite (encoder_revives_function p _ 0 (S (length h))) by done.
  reflexivity.
Qed.

(** * A value at a position among plain data *)

(** The two walks reach a position among plain data without touching the
    state, for every replacer and reviver that lets plain data through. *)
Section walk_to_position.
Context {St : Type}.
Variable replacer : St → value → outcome (St * value).
Hypothesis plain_prints : ∀ v, json_plain v = true →
  ∀ fuel st, weight v ≤ fuel →
    SerializeJSONProperty replacer fuel st v = Ok (st, Some (plain_json v)).
Hypothesis array_through : ∀ st elems,
  is_string "_" (array_get elems 0) = false →
  replacer st (VArray elems) = Ok (st, VArray elems).
Hypothesis object_through : ∀ st props,
  replacer st (VObject props) = Ok (st, VObject props).

Lemma plain_prints_list (l : list value) :
  forallb json_plain l = true →
  ∀ fuel st, sum_list_with weight l ≤ fuel →
    serialize_elements (SerializeJSONProperty replacer fuel) st l
      = Ok (st, plain_json <$> l).
Proof.
  induction l as [| v l IH]; intros Hall fuel st Hfuel; [done |].
  simpl in Hall, Hfuel. apply andb_prop in Hall as [Hv Hall]. csimpl.
  rewrite plain_prints by (done || lia). simpl.
  rewrite IH by (done || lia). done.
Qed.

Lemma plain_prints_members (l : list (string * value)) :
  forallb (λ kv, json_plain kv.2) l = true →
  ∀ fuel st, sum_list_with (λ kv, weight kv.2) l ≤ fuel →
    serialize_members (SerializeJSONProperty replacer fuel) st l
      = Ok (st, (λ kv, (kv.1, plain_json kv.2)) <$> l).
Proof.
  induction l as [| [k v] l IH]; intros Hall fuel st Hfuel; [done |].
  simpl in Hall, Hfuel. apply andb_prop in Hall as [Hv Hall]. csimpl.
  rewrite plain_prints by (done || lia). simpl.
  rewrite IH by (done || lia). done.
Qed.

(** The walk prints the value at the position in the state it started from. *)
Lemma prints_at_position (p : position) (x : value) (st st' : St) (j : json) (k : nat) :
  is_string "_" x = false →
  (∀ fuel, k ≤ fuel → SerializeJSONProperty replacer fuel st x = Ok (st', Some j)) →
  plain_position p = true →
  names_toJSON p = false ∨ is_function x = false →
  ∀ fuel, position_weight p + k ≤ fuel →
    SerializeJSONProperty replacer fuel st (place p x) = Ok (st', Some (place_json p j)).
Proof.
  intros Hx Hleaf. induction p as [| before inner IH after | before key inner IH after];
    intros Hplain Hsafe fuel Hfuel; simpl in Hplain, Hfuel.
  - apply Hleaf. lia.
  - apply andb_prop in Hplain as [Hplain Hinner].
    apply andb_prop in Hplain as [Hplain Hfirst].
    apply andb_prop in Hplain as [Hbefore Hafter].
    destruct fuel as [| fuel]; [lia |].
    rewrite SerializeJSONProperty_S. simpl.
    rewrite array_through by (apply first_not_sentinel; [done | by apply is_string_place]).
    simpl. rewrite spread_Some, serialize_elements_app.
    rewrite plain_prints_list by (done || lia). simpl.
    rewrite IH by (done || lia). simpl.
    rewrite plain_prints_list by (done || lia). simpl.
    done.
  - apply andb_prop in Hplain as [Hplain Hinner].
    apply andb_prop in Hplain as [Hbefore Hafter].
    destruct fuel as [| fuel]; [lia |].
    rewrite SerializeJSONProperty_S. simpl.
    rewrite toJSON_at_position by done.
    apply names_toJSON_step_object in Hsafe.
    rewrite object_through. simpl.
    rewrite serialize_members_app.
    rewrite plain_prints_members by (done || lia). simpl.
    rewrite IH by (done || lia). simpl.
    rewrite plain_prints_members by (done || lia). simpl.
    done.
Qed.

(** When the walk of the value at the position throws, the whole walk
    throws. *)
Lemma throws_at_position (p : position) (x : value) (st : St) (e : exn) (k : nat) :
  is_string "_" x = false →
  (∀ fuel, k ≤ fuel → SerializeJSONProperty replacer fuel st x = Throw e) →
  plain_position p = true →
  names_toJSON p = false ∨ is_function x = false →
  ∀ fuel, position_weight p + k ≤ fuel →
    SerializeJSONProperty replacer fuel st (place p x) = Throw e.
Proof.
  intros Hx Hleaf. induction p as [| before inner IH after | before key inner IH after];
    intros Hplain Hsafe fuel Hfuel; simpl in Hplain, Hfuel.
  - apply Hleaf. lia.
  - apply andb_prop in Hplain as [Hplain Hinner].
    apply andb_prop in Hplain as [Hplain Hfirst].
    apply andb_prop in Hplain as [Hbefore Hafter].
    destruct fuel as [| fuel]; [lia |].
    rewrite SerializeJSONProperty_S. simpl.
    rewrite array_through by (apply first_not_sentinel; [done | by apply is_string_place]).
    simpl. rewrite spread_Some, serialize_elements_app.
    rewrite plain_prints_list by (done || lia). simpl.
    rewrite IH by (done || lia). done.
  - apply andb_prop in Hplain as [Hplain Hinner].
    apply andb_prop in Hplain as [Hbefore Hafter].
    destruct fuel as [| fuel]; [lia |].
    rewrite SerializeJSONProperty_S. simpl.
    rewrite toJSON_at_position by done.
    apply names_toJSON_step_object in Hsafe.
    rewrite object_through. simpl.
    rewrite serialize_members_app.
    rewrite plain_prints_members by (done || lia). simpl.
    rewrite IH by (done || lia). done.
Qed.
End walk_to_position.

Section parse_to_position.
Context {St : Type}.
Variable reviver : St → value → outcome (St * value).
Hypothesis plain_revives : ∀ v, json_plain v = true →
  ∀ st, InternalizeJSONProperty reviver st (plain_json v) = Ok (st, v).
Hypothesis array_kept : ∀ st elems,
  is_string "_" (array_get elems 0) = false →
  reviver st (VArray elems) = Ok (st, VArray elems).
Hypothesis object_kept : ∀ st props,
  reviver st (VObject props) = Ok (st, VObject props).

Lemma plain_revives_list (l : list value) :
  forallb json_plain l = true →
  ∀ st, internalize_elements (InternalizeJSONProperty reviver) st (plain_json <$> l)
        = Ok (st, Some <$> l).
Proof.
  induction l as [| v l IH]; intros Hall st; [done |].
  simpl in Hall. apply andb_prop in Hall as [Hv Hall]. csimpl.
  rewrite plain_revives by done. simpl. rewrite IH by done. simpl.
  by rewrite plain_not_undefined.
Qed.

Lemma plain_revives_members (l : list (string * value)) :
  forallb (λ kv, json_plain kv.2) l = true →
  ∀ st, internalize_members (InternalizeJSONProperty reviver) st
          ((λ kv, (kv.1, plain_json kv.2)) <$> l)
        = Ok (st, l).
Proof.
  induction l as [| [k v] l IH]; intros Hall st; [done |].
  simpl in Hall. apply andb_prop in Hall as [Hv Hall]. csimpl.
  rewrite plain_revives by done. simpl. rewrite IH by done. simpl.
  pose proof (plain_not_undefined v Hv). by destruct v.
Qed.

Lemma revives_at_position (p : position) (j : json) (x : value) (st st' : St) :
  InternalizeJSONProperty reviver st j = Ok (st', x) →
  x ≠ VUndefined →
  is_string "_" x = false →
  plain_position p = true →
  InternalizeJSONProperty reviver st (place_json p j) = Ok (st', place p x).
Proof.
  intros Hleaf Hdef Hx.
  induction p as [| before inner IH after | before key inner IH after];
    intros Hplain; simpl in Hplain.
  - exact Hleaf.
  - apply andb_prop in Hplain as [Hplain Hinner].
    apply andb_prop in Hplain as [Hplain Hfirst].
    apply andb_prop in Hplain as [Hbefore Hafter].
    simpl. rewrite InternalizeJSONProperty_array, internalize_elements_app.
    rewrite plain_revives_list by done. simpl.
    rewrite IH by done. simpl.
    rewrite plain_revives_list by done. simpl.
    assert (Hslot : slot_of (place inner x) = Some (place inner x)).
    { destruct inner; [by destruct x | done | done]. }
    rewrite Hslot.
    replace (_ ++ _ :: _) with (Some <$> (before ++ place inner x :: after))
      by (by rewrite fmap_app).
    apply array_kept.
    apply first_not_sentinel; [done | by apply is_string_place].
  - apply andb_prop in Hplain as [Hplain Hinner].
    apply andb_prop in Hplain as [Hbefore Hafter].
    simpl. rewrite InternalizeJSONProperty_object, internalize_members_app.
    rewrite plain_revives_members by done. simpl.
    rewrite IH by done. simpl.
    rewrite plain_revives_members by done. simpl.
    assert (Hkeep : match place inner x with
                    | VUndefined => after
                    | _ => (key, place inner x) :: after
                    end = (key, place inner x) :: after).
    { destruct inner; [by destruct x | done | done]. }
    rewrite Hkeep. apply object_kept.
Qed.
(** When the value at the position cannot be revived, the whole text
    cannot, with the same outcome. *)
Lemma fails_at_position (p : position) (j : json) (st : St)
    (r : outcome (St * value)) :
  InternalizeJSONProperty reviver st j = r →
  (∀ a, r ≠ Ok a) →
  plain_position p = true →
  InternalizeJSONProperty reviver st (place_json p j) = r.
Proof.
  intros Hleaf Hfail.
  induction p as [| before inner IH after | before key inner IH after];
    intros Hplain; simpl in Hplain.
  - exact Hleaf.
  - apply andb_prop in Hplain as [Hplain Hinner].
    apply andb_prop in Hplain as [Hplain Hfirst].
    apply andb_prop in Hplain as [Hbefore Hafter].
    simpl. rewrite InternalizeJSONProperty_array, internalize_elements_app.
    rewrite plain_revives_list by done. simpl.
    rewrite IH by done. destruct r as [a | | |]; [by destruct (Hfail a) | done..].
  - apply andb_prop in Hplain as [Hplain Hinner].
    apply andb_prop in Hplain as [Hbefore Hafter].
    simpl. rewrite InternalizeJSONProperty_object, internalize_members_app.
    rewrite plain_revives_members by done. simpl.
    rewrite IH by done. destruct r as [a | | |]; [by destruct (Hfail a) | done..].
Qed.
End parse_to_position.

(** ** The two entry points on a value at a position *)

Lemma serializer_replacer_array (functions : nat → fn_info)
    (rec : heap → value → outcome (heap * enc_result)) (st : enc_state)
    (elems : list (option value)) :
  is_string "_" (array_get elems 0) = false →
  serializer_replacer functions rec st (VArray elems) = Ok (st, VArray elems).
Proof. intros H. unfold serializer_replacer. simpl. by rewrite H. Qed.

Lemma add_object_nil (l : loc) : add_object l [] = [l].
Proof. unfold add_object. by rewrite bool_decide_eq_false_2 by apply not_elem_of_nil. Qed.

(** [serializer] on a value that has [x] at a position among plain data, when
    the first pass on [x] alone gives the text [j] and the second pass turns
    [j] into [x']. *)
Lemma serializer_at (functions : nat → fn_info) (p : position) (x x' : value)
    (st' : enc_state) (j : json) (k : nat) (h : heap) (fuel : nat) :
  is_string "_" x = false →
  x' ≠ VUndefined →
  is_string "_" x' = false →
  (∀ rec fuel, k ≤ fuel →
     SerializeJSONProperty (serializer_replacer functions rec) fuel
         {| st_heap := h; st_verbatim := []; st_transferables := []; st_revokables := [] |} x
       = Ok (st', Some j)) →
  InternalizeJSONProperty (serializer_reviver (st_verbatim st')) tt j = Ok (tt, x') →
  plain_position p = true →
  names_toJSON p = false ∨ is_function x = false →
  position_weight p + k < fuel →
  serializer functions fuel h (place p x)
    = Ok (st_heap st',
          {| data := place p x';
             transferables := st_transferables st';
             revokables := st_revokables st' |}).
Proof.
  intros Hx Hdef Hx' Hleaf Hrevive Hplain Hsafe Hfuel.
  destruct fuel as [| fuel]; [lia |].
  rewrite serializer_S. unfold JSON_stringify.
  rewrite (prints_at_position _ (encoder_prints_plain functions _)
             (serializer_replacer_array functions _) (λ _ _, eq_refl)
             p x _ st' j k) by (done || (intros; by apply Hleaf) || lia).
  simpl.
  rewrite (revives_at_position (serializer_reviver (st_verbatim st'))
             (λ v Hv st, match st with tt => encoder_revives_plain _ v Hv end)
             (λ st elems H, match st with
                            | tt => serializer_reviver_array _ elems
                                      (proj2 (andb_false_iff _ _) (or_introl H))
                            end)
             (λ st _, match st with tt => eq_refl end)
             p j x' tt tt) by done.
  reflexivity.
Qed.

(** [serializer] throws what the first pass throws on [x]. *)
Lemma serializer_throws_at (functions : nat → fn_info) (p : position) (x : value)
    (e : exn) (k : nat) (h : heap) (fuel : nat) :
  is_string "_" x = false →
  (∀ rec fuel, k ≤ fuel →
     SerializeJSONProperty (serializer_replacer functions rec) fuel
         {| st_heap := h; st_verbatim := []; st_transferables := []; st_revokables := [] |} x
       = Throw e) →
  plain_position p = true →
  names_toJSON p = false ∨ is_function x = false →
  position_weight p + k < fuel →
  serializer functions fuel h (place p x) = Throw e.
Proof.
  intros Hx Hleaf Hplain Hsafe Hfuel.
  destruct fuel as [| fuel]; [lia |].
  rewrite serializer_S. unfold JSON_stringify.
  rewrite (throws_at_position _ (encoder_prints_plain functions _)
             (serializer_replacer_array functions _) (λ _ _, eq_refl)
             p x _ e k) by (done || (intros; by apply Hleaf) || lia).
  reflexivity.
Qed.

Lemma deserializer_replacer_array (vb : list value) (elems : list (option value)) :
  is_string "_" (array_get elems 0) = false →
  deserializer_replacer vb (VArray elems) = Ok (vb, VArray elems).
Proof. done. Qed.

(** [deserializer] on a value that has [x] at a position among plain data. *)
Lemma deserializer_at (table : registry) (p : position)
    (x x' : value) (vb : list value) (j : json) (k : nat) (h h' : heap) (fuel : nat) :
  is_string "_" x = false →
  x' ≠ VUndefined →
  is_string "_" x' = false →
  (∀ fuel, k ≤ fuel →
     SerializeJSONProperty deserializer_replacer fuel [] x = Ok (vb, Some j)) →
  (∀ rec, InternalizeJSONProperty (deserializer_reviver table rec vb) h j = Ok (h', x')) →
  plain_position p = true →
  names_toJSON p = false ∨ is_function x = false →
  position_weight p + k < fuel →
  deserializer fuel table h (place p x) = Ok (h', place p x').
Proof.
  intros Hx Hdef Hx' Hleaf Hrevive Hplain Hsafe Hfuel.
  destruct fuel as [| fuel]; [lia |].
  rewrite deserializer_S. unfold JSON_stringify.
  rewrite (prints_at_position _ (decoder_prints_plain)
             deserializer_replacer_array (λ _ _, eq_refl)
             p x _ vb j k) by (done || (intros; by apply Hleaf) || lia).
  simpl.
  apply (revives_at_position _ (decoder_revives_plain table _ vb)
           (deserializer_reviver_array table _ vb) (λ _ _, eq_refl)); try done.
Qed.

Lemma deserializer_throws_at (table : registry) (p : position) (x : value)
    (e : exn) (k : nat) (h : heap) (fuel : nat) :
  is_string "_" x = false →
  (∀ fuel, k ≤ fuel → SerializeJSONProperty deserializer_replacer fuel [] x = Throw e) →
  plain_position p = true →
  names_toJSON p = false ∨ is_function x = false →
  position_weight p + k < fuel →
  deserializer fuel table h (place p x) = Throw e.
Proof.
  intros Hx Hleaf Hplain Hsafe Hfuel.
  destruct fuel as [| fuel]; [lia |].
  rewrite deserializer_S. unfold JSON_stringify.
  rewrite (throws_at_position _ (decoder_prints_plain)
             deserializer_replacer_array (λ _ _, eq_refl)
             p x _ e k) by (done || (intros; by apply Hleaf) || lia).
  reflexivity.
Qed.

(** A [_custom] array at a position among plain data: its payload is decoded,
    the [_custom] case is taken on the result, and what the case returns
    takes the place of the array.  An outcome of the case that is not a value
    is the outcome of the whole call. *)
Lemma deserializer_custom_at (table : registry) (pos : position) (h h' : heap)
    (tag : string) (p p' : value) :
  plain_position pos = true →
  returns (λ fuel, deserializer fuel table h p) (Ok (h', p')) →
  (∀ h'' x, revive_custom table h' (VString tag) p' = Ok (h'', x) →
     pos = Here ∨ (x ≠ VUndefined ∧ is_string "_" x = false)) →
  returns (λ fuel, deserializer fuel table h
             (place pos (VArray [Some sentinel; Some (VString "_custom");
                                 Some (VString tag); Some p])))
    ('(h'', x) ← revive_custom table h' (VString tag) p'; Ok (h'', place pos x)).
Proof.
  intros Hplain [k Hk] Hx. specialize (Hk (S k) ltac:(lia)).
  rewrite deserializer_S in Hk. unfold JSON_stringify in Hk.
  destruct (SerializeJSONProperty deserializer_replacer (S k) [] p)
    as [[verbatim text] | | |] eqn:Hser; try discriminate.
  simpl in Hk. destruct text as [jp |]; [| discriminate]. simpl in Hk.
  exists (position_weight pos + S (S (S (S k)))). intros fuel Hle.
  destruct fuel as [| f]; [lia |].
  set (arr := VArray [Some sentinel; Some (VString "_custom"); Some (VString tag); Some p]).
  set (j := JArray [JString "_"; JString "_custom"; JString tag; jp]).
  assert (Hleaf : ∀ fuel, S (S k) ≤ fuel →
            SerializeJSONProperty deserializer_replacer fuel [] arr
              = Ok (verbatim, Some j)).
  { intros [| [| g]] Hg; try lia.
    assert (HserG : SerializeJSONProperty deserializer_replacer (S g) [] p
                    = Ok (verbatim, Some jp)).
    { destruct (SerializeJSONProperty_mono deserializer_replacer deserializer_replacer
                  (λ _ _, refines_refl _) (S k) (S g) [] p ltac:(lia)) as [H | H];
        congruence. }
    unfold arr. rewrite SerializeJSONProperty_S. simpl. by rewrite HserG. }
  assert (Hint : InternalizeJSONProperty
                   (deserializer_reviver table (deserializer f table) verbatim) h j
                 = revive_custom table h' (VString tag) p').
  { assert (HintF : InternalizeJSONProperty
                      (deserializer_reviver table (deserializer f table) verbatim) h jp
                    = Ok (h', p')).
    { destruct (InternalizeJSONProperty_mono
                  (deserializer_reviver table (deserializer k table) verbatim)
                  (deserializer_reviver table (deserializer f table) verbatim)
                  (deserializer_reviver_mono table _ _ verbatim
                     (λ h v, deserializer_mono table k f h v ltac:(lia)))
                  jp h) as [H | H]; congruence. }
    unfold j. rewrite InternalizeJSONProperty_array. simpl. rewrite HintF. simpl.
    unfold deserializer_reviver, revive_custom, array_get. simpl.
    by rewrite default_slot_of. }
  rewrite deserializer_S. unfold JSON_stringify.
  rewrite (prints_at_position _ decoder_prints_plain
             deserializer_replacer_array (λ _ _, eq_refl)
             pos arr _ verbatim j (S (S k)));
    [| done | exact Hleaf | done | by right | lia].
  destruct (revive_custom table h' (VString tag) p') as [[h'' x] | e | |] eqn:Hcase;
    simpl.
  - destruct (Hx h'' x eq_refl) as [-> | [Hdef Hstr]]; [exact Hint |].
    by apply (revives_at_position _ (decoder_revives_plain table _ verbatim)
                (deserializer_reviver_array table _ verbatim) (λ _ _, eq_refl)).
  - by apply (fails_at_position _ (decoder_revives_plain table _ verbatim)).
  - by apply (fails_at_position _ (decoder_revives_plain table _ verbatim)).
  - by apply (fails_at_position _ (decoder_revives_plain table _ verbatim)).
Qed.

(** ** Composition of runs *)

Lemma returns_bind {A B : Type} (run1 : nat → outcome A) (run2 : nat → A → outcome B)
    (a : A) (r : outcome B) :
  returns run1 (Ok a) →
  returns (λ fuel, run2 fuel a) r →
  returns (λ fuel, x ← run1 fuel; run2 fuel x) r.
Proof.
  intros [n1 H1] [n2 H2]. exists (n1 `max` n2). intros fuel Hfuel.
  rewrite H1 by lia. simpl. apply H2. lia.
Qed.

(** * Properties of the codec *)

(** ** The registry *)

(** C8. When [ctor] is a function whose tag member is a string and whose
    reconstruct member is a function, [register] stores the reconstruct hook
    bound to [ctor] under the tag; registering a second constructor that
    carries the same tag replaces the entry, and the call has no other
    outcome than the new registry. *)
Theorem register_inserts_bound_hook (functions : nat → fn_info) (table : registry)
    (ctor : value) (tag : string) :
  is_function ctor = true →
  tag_member functions ctor = VString tag →
  is_function (deserialize_member functions ctor) = true →
  register functions table ctor
    = <[tag := call functions (deserialize_member functions ctor) ctor]> table
  ∧ ∀ ctor' : value,
      is_function ctor' = true →
      tag_member functions ctor' = VString tag →
      is_function (deserialize_member functions ctor') = true →
      register functions (register functions table ctor) ctor'
        = <[tag := call functions (deserialize_member functions ctor') ctor']> table.
Proof.
  intros Hfn Htag Hhook.
  assert (Hreg : ∀ t c, is_function c = true → tag_member functions c = VString tag →
                  is_function (deserialize_member functions c) = true →
                  register functions t c
                    = <[tag := call functions (deserialize_member functions c) c]> t).
  { intros t c H1 H2 H3. unfold register. by rewrite H1, H2, H3. }
  split; [by apply Hreg |].
  intros ctor' H1 H2 H3. rewrite (Hreg _ ctor') by done. rewrite Hreg by done.
  apply insert_insert_eq.
Qed.

Lemma register_inserts_bound_hook_witness :
  register example_functions ∅ (VFunction 0)
    = <[ "X" := call example_functions (VFunction 2) (VFunction 0) ]> ∅
  ∧ register example_functions (register example_functions ∅ (VFunction 0)) (VFunction 3)
    = <[ "X" := call example_functions (VFunction 2) (VFunction 3) ]> ∅.
Proof.
  destruct (register_inserts_bound_hook example_functions ∅ (VFunction 0) "X"
              eq_refl eq_refl eq_refl) as [Hfirst Hsecond].
  split; [exact Hfirst | exact (Hsecond (VFunction 3) eq_refl eq_refl eq_refl)].
Defined.

(** C9. When [ctor] fails one of the three checks (it is not a function, its
    tag member is not a string, or its reconstruct member is not a function)
    [register] leaves the registry as it was.  [register] is a total function
    of the registry: there is no outcome in which it throws. *)
Theorem register_ignores_invalid (functions : nat → fn_info) (table : registry)
    (ctor : value) :
  is_function ctor = false
  ∨ is_a_string (tag_member functions ctor) = false
  ∨ is_function (deserialize_member functions ctor) = false →
  register functions table ctor = table.
Proof.
  intros H. unfold register.
  destruct (is_function ctor); [| done].
  destruct (is_a_string (tag_member functions ctor)) eqn:Htag; [| done].
  destruct (is_function (deserialize_member functions ctor)); [| done].
  by destruct H as [? | [? | ?]].
Qed.

Lemma register_ignores_invalid_witness :
  register example_functions example_table (VFunction 1) = example_table.
Proof.
  apply (register_ignores_invalid example_functions example_table (VFunction 1)).
  right. left. reflexivity.
Defined.

(** ** Falsy values *)

(** C4, where it fails.  The replacer returns a falsy value as it is, but what
    [serializer] returns has been through JSON text: [NaN] comes back as
    [null], [-0] comes back as [0], and [0n] makes [JSON.stringify] throw. *)
Theorem serializer_falsy_through_json (functions : nat → fn_info) (fuel : nat) (h : heap) :
  serializer functions (S fuel) h (VNumber S754_nan)
    = Ok (h, {| data := VNull; transferables := []; revokables := [] |})
  ∧ serializer functions (S fuel) h (VNumber (S754_zero true))
    = Ok (h, {| data := VNumber (S754_zero false); transferables := []; revokables := [] |})
  ∧ serializer functions (S fuel) h (VBigInt 0)
    = Throw (TypeError "Do not know how to serialize a BigInt").
Proof. repeat split; reflexivity. Qed.

(** The other falsy values are returned unchanged. *)
Lemma serializer_falsy_preserved (functions : nat → fn_info) (fuel : nat) (h : heap) (v : value) :
  v = VNull ∨ v = VBool false ∨ v = VNumber (S754_zero false) ∨ v = VString EmptyString →
  serializer functions (S fuel) h v
    = Ok (h, {| data := v; transferables := []; revokables := [] |}).
Proof. intros [-> | [-> | [-> | ->]]]; reflexivity. Qed.

Lemma serializer_falsy_preserved_witness :
  serializer example_functions 1 example_heap (VString EmptyString)
    = Ok (example_heap,
          {| data := VString EmptyString; transferables := []; revokables := [] |}).
Proof.
  apply (serializer_falsy_preserved example_functions 0 example_heap (VString EmptyString)).
  right. right. right. reflexivity.
Defined.

(** ** Errors *)







(** ** Custom types *)

(** The tag ["Y"] was never registered: the array is refused.  After
    [register(X)] the array tagged ["X"] decodes to a new instance of [X]. *)
Lemma custom_tag_examples :
  deserializer 3 example_table []
    (VArray [Some sentinel; Some (VString "_custom"); Some (VString "Y"); Some VNull])
    = Throw (PlainError "Invalid or unknown tag: Y")
  ∧ deserializer 3 ∅ []
    (VArray [Some sentinel; Some (VString "_custom"); Some (VString "X");
             Some (VArray [Some sentinel; Some sentinel])])
    = Throw (PlainError "Invalid or unknown tag: X")
  ∧ deserializer 3 example_table []
    (VArray [Some sentinel; Some (VString "_custom"); Some (VString "X");
             Some (VArray [Some sentinel; Some sentinel])])
    = Ok ([], new_X 0).
Proof. repeat split; vm_compute; reflexivity. Qed.

(** ** The round trip *)




(** ** Plain data *)

(** C10 as stated fails at [-0], a finite number: it is printed as [0], so
    [deserializer(-0)] is [+0]. *)
Lemma deserializer_loses_negative_zero :
  deserializer 2 example_table [] (VNumber (S754_zero true))
    = Ok ([], VNumber (S754_zero false))
  ∧ VNumber (S754_zero false) ≠ VNumber (S754_zero true).
Proof. split; [reflexivity | discriminate]. Qed.

(** C10, amended.  On a value built from [null], booleans, strings, finite
    numbers other than [-0], arrays without holes whose first element is not
    ['_'], and plain objects, [deserializer] returns the value itself and
    leaves the heap alone; it does not throw. *)
Theorem deserializer_identity_on_plain (table : registry) (v : value) (h : heap) :
  json_plain v = true →
  returns (λ fuel, deserializer fuel table h v) (Ok (h, v)).
Proof.
  intros Hplain. exists (S (weight v)). intros fuel Hfuel.
  destruct fuel as [| fuel]; [lia |].
  apply deserializer_plain; [done | lia].
Qed.

Lemma deserializer_identity_on_plain_witness :
  returns (λ fuel, deserializer fuel example_table example_heap
             (VObject [("foo", VString "123");
                       ("bar", VNumber (number_of_nat 123));
                       ("qux", VNull);
                       ("arr", VArray [Some (VBool true); Some (VArray []);
                                       Some (VObject [("_", sentinel)])])]))
    (Ok (example_heap,
         VObject [("foo", VString "123");
                  ("bar", VNumber (number_of_nat 123));
                  ("qux", VNull);
                  ("arr", VArray [Some (VBool true); Some (VArray []);
                                  Some (VObject [("_", sentinel)])])])).
Proof.
  apply (deserializer_identity_on_plain example_table
           (VObject [("foo", VString "123");
                     ("bar", VNumber (number_of_nat 123));
                     ("qux", VNull);
                     ("arr", VArray [Some (VBool true); Some (VArray []);
                                     Some (VObject [("_", sentinel)])])])
           example_heap).
  reflexivity.
Defined.

(** ** Functions *)

(** C6 fails for a function that is the cause of an [Error].  The nested call
    of line 81 makes the channel and puts [['_', '_fn', port2]] in the cause,
    but only its [data] is read: what it collected to transfer and to revoke
    is dropped, so [serializer] returns no transferable and no revokable,
    although the data it returns reaches [port2] through the error. *)
Theorem serializer_drops_channel_of_cause (functions : nat → fn_info)
    (h : heap) (l : loc) (n m : string) (f : value) :
  h !! l = Some (HError n m f) →
  is_function f = true →
  returns (λ fuel, serializer functions fuel h (VRef l))
    (Ok (<[l := HError n m (VArray [Some sentinel; Some (VString "_fn");
                                     Some (VRef (S (length h)))])]>
           (h ++ [HMessagePort (S (length h)) (Some f); HMessagePort (length h) None]),
         {| data := VArray [Some sentinel; Some (VString "_err");
                            Some (VRef l); Some (VString n)];
            transferables := []; revokables := [] |})).
Proof.
  intros Hl Hf. exists 5. intros fuel Hle.
  destruct fuel as [| [| [| fuel]]]; try lia.
  rewrite serializer_S. unfold JSON_stringify.
  rewrite (stringify_error functions _ _ _ l n m f
             (h ++ [HMessagePort (S (length h)) (Some f); HMessagePort (length h) None])
             {| data := VArray [Some sentinel; Some (VString "_fn");
                                Some (VRef (S (length h)))];
                transferables := [S (length h)]; revokables := [length h] |}).
  - reflexivity.
  - exact Hl.
  - by destruct f.
  - apply (serializer_function_at functions Here f h); [done | done | done | simpl; lia].
  - rewrite lookup_app_l by (eapply lookup_lt_Some; eauto). exact Hl.
Qed.

Lemma serializer_drops_channel_of_cause_witness :
  returns (λ fuel, serializer example_functions fuel
             [HError "Error" "x" (VFunction 7)] (VRef 0))
    (Ok ([HError "Error" "x" (VArray [Some sentinel; Some (VString "_fn"); Some (VRef 2)]);
          HMessagePort 2 (Some (VFunction 7)); HMessagePort 1 None],
         {| data := VArray [Some sentinel; Some (VString "_err");
                            Some (VRef 0); Some (VString "Error")];
            transferables := []; revokables := [] |})).
Proof.
  apply (serializer_drops_channel_of_cause example_functions
           [HError "Error" "x" (VFunction 7)] 0 "Error" "x" (VFunction 7));
    reflexivity.
Defined.

(** The channel of a function that is reached through arrays and plain
    objects.  Let the input have the function [f] at the position [p], inside arrays
    and plain objects whose other members are plain data, and not as the
    member [toJSON] of an object (which would make it the object's [toJSON]
    method).  Then [serializer]
    allocates one channel, two new ports at the end of the heap: [port1],
    which keeps the handler that calls [f], is the one revokable, and its
    peer [port2] is the one transferable; in the data, the position of [f]
    holds [['_', '_fn', port2]] and everything else is as it was. *)
Theorem function_becomes_channel (functions : nat → fn_info)
    (p : position) (f : value) (h : heap) :
  is_function f = true →
  plain_position p = true →
  names_toJSON p = false →
  returns (λ fuel, serializer functions fuel h (place p f))
    (Ok (h ++ [HMessagePort (S (length h)) (Some f); HMessagePort (length h) None],
         {| data := place p (VArray [Some sentinel; Some (VString "_fn");
                                     Some (VRef (S (length h)))]);
            transferables := [S (length h)];
            revokables := [length h] |})).
Proof.
  intros Hf Hplain Hsafe. exists (S (position_weight p)). intros fuel Hfuel.
  apply serializer_function_at; [done | done | done | lia].
Qed.

Lemma function_becomes_channel_witness :
  returns (λ fuel, serializer example_functions fuel example_heap
             (place (InObject [("n", VNumber (number_of_nat 1))] "callbacks"
                       (InArray [VString "first"] Here [VNull]) [])
                    (VFunction 7)))
    (Ok (example_heap ++ [HMessagePort (S (length example_heap)) (Some (VFunction 7));
                          HMessagePort (length example_heap) None],
         {| data := place (InObject [("n", VNumber (number_of_nat 1))] "callbacks"
                             (InArray [VString "first"] Here [VNull]) [])
                          (VArray [Some sentinel; Some (VString "_fn");
                                   Some (VRef (S (length example_heap)))]);
            transferables := [S (length example_heap)];
            revokables := [length example_heap] |})).
Proof.
  apply (function_becomes_channel example_functions
           (InObject [("n", VNumber (number_of_nat 1))] "callbacks"
              (InArray [VString "first"] Here [VNull]) [])
           (VFunction 7) example_heap); reflexivity.
Defined.

(** * What the walks keep *)

(** A relation between states that every call of the replacer respects is
    respected by the whole walk. *)
Section walk_relation.
Context {St : Type}.
Variable replacer : St → value → outcome (St * value).
Variable R : St → St → Prop.
Hypothesis R_refl : ∀ st, R st st.
Hypothesis R_trans : ∀ a b c, R a b → R b c → R a c.
Hypothesis R_step : ∀ st v st' v', replacer st v = Ok (st', v') → R st st'.

Lemma serialize_elements_related (ser : St → value → outcome (St * option json)) :
  (∀ st v st' j, ser st v = Ok (st', j) → R st st') →
  ∀ l st st' js, serialize_elements ser st l = Ok (st', js) → R st st'.
Proof.
  intros Hser. induction l as [| v l IH]; intros st st' js H; simpl in H.
  - injection H as <- <-. apply R_refl.
  - destruct (ser st v) as [[st1 j] | | |] eqn:E1; simpl in H; try discriminate.
    destruct (serialize_elements ser st1 l) as [[st2 js2] | | |] eqn:E2;
      simpl in H; try discriminate.
    injection H as <- <-. eauto.
Qed.

Lemma serialize_members_related (ser : St → value → outcome (St * option json)) :
  (∀ st v st' j, ser st v = Ok (st', j) → R st st') →
  ∀ l st st' ms, serialize_members ser st l = Ok (st', ms) → R st st'.
Proof.
  intros Hser. induction l as [| [k v] l IH]; intros st st' ms H; simpl in H.
  - injection H as <- <-. apply R_refl.
  - destruct (ser st v) as [[st1 j] | | |] eqn:E1; simpl in H; try discriminate.
    destruct (serialize_members ser st1 l) as [[st2 ms2] | | |] eqn:E2;
      simpl in H; try discriminate.
    injection H as <- <-. eauto.
Qed.

Lemma serialize_value_related (ser : St → value → outcome (St * option json)) :
  (∀ st v st' j, ser st v = Ok (st', j) → R st st') →
  ∀ st v st' j, serialize_value ser st v = Ok (st', j) → R st st'.
Proof.
  intros Hser st v st' j H.
  destruct v; simpl in H; try discriminate;
    try (injection H as <- <-; apply R_refl).
  - destruct (serialize_elements ser st (spread elems)) as [[st1 js] | | |] eqn:E;
      simpl in H; try discriminate.
    injection H as <- <-. by eapply serialize_elements_related.
  - destruct (serialize_elements ser st elems) as [[st1 js] | | |] eqn:E;
      simpl in H; try discriminate.
    injection H as <- <-. by eapply serialize_elements_related.
  - destruct (serialize_members ser st props) as [[st1 ms] | | |] eqn:E;
      simpl in H; try discriminate.
    injection H as <- <-. by eapply serialize_members_related.
  - destruct (serialize_members ser st props) as [[st1 ms] | | |] eqn:E;
      simpl in H; try discriminate.
    injection H as <- <-. by eapply serialize_members_related.
Qed.

Lemma SerializeJSONProperty_related (fuel : nat) :
  ∀ st v st' j, SerializeJSONProperty replacer fuel st v = Ok (st', j) → R st st'.
Proof.
  induction fuel as [| fuel IH]; intros st v st' j H; [done |].
  rewrite SerializeJSONProperty_S in H.
  destruct (is_function (toJSON_of v)); [discriminate |].
  destruct (replacer st v) as [[st1 v1] | | |] eqn:E; simpl in H; try discriminate.
  apply R_trans with st1; [by eapply R_step |].
  by eapply serialize_value_related.
Qed.
End walk_relation.

Section parse_relation.
Context {St : Type}.
Variable reviver : St → value → outcome (St * value).
Variable R : St → St → Prop.
Hypothesis R_refl : ∀ st, R st st.
Hypothesis R_trans : ∀ a b c, R a b → R b c → R a c.
Hypothesis R_step : ∀ st v st' v', reviver st v = Ok (st', v') → R st st'.

Lemma InternalizeJSONProperty_related (j : json) :
  ∀ st st' v, InternalizeJSONProperty reviver st j = Ok (st', v) → R st st'.
Proof.
  induction j as [| b | n | s | items IH | members IH] using json_ind;
    intros st st' v H; try (by eapply R_step).
  - rewrite InternalizeJSONProperty_array in H.
    destruct (internalize_elements (InternalizeJSONProperty reviver) st items)
      as [[st1 elems] | | |] eqn:E; simpl in H; try discriminate.
    apply R_trans with st1; [| by eapply R_step].
    clear H. revert st st1 elems E.
    induction IH as [| j items Hj _ IHitems]; intros st st1 elems E; simpl in E.
    + injection E as <- <-. apply R_refl.
    + destruct (InternalizeJSONProperty reviver st j) as [[st2 x] | | |] eqn:E1;
        simpl in E; try discriminate.
      destruct (internalize_elements (InternalizeJSONProperty reviver) st2 items)
        as [[st3 xs] | | |] eqn:E2; simpl in E; try discriminate.
      injection E as <- <-. eauto.
  - rewrite InternalizeJSONProperty_object in H.
    destruct (internalize_members (InternalizeJSONProperty reviver) st members)
      as [[st1 props] | | |] eqn:E; simpl in H; try discriminate.
    apply R_trans with st1; [| by eapply R_step].
    clear H. revert st st1 props E.
    induction IH as [| [k j] members Hj _ IHmembers]; intros st st1 props E; simpl in E.
    + injection E as <- <-. apply R_refl.
    + destruct (InternalizeJSONProperty reviver st j) as [[st2 x] | | |] eqn:E1;
        simpl in E; try discriminate.
      destruct (internalize_members (InternalizeJSONProperty reviver) st2 members)
        as [[st3 xs] | | |] eqn:E2; simpl in E; try discriminate.
      injection E as <- <-. eauto.
Qed.
End parse_relation.

(** ** The heap during an encoding *)

Lemma same_but_cause_refl (o : hobj) : same_but_cause o o.
Proof. by destruct o. Qed.

Lemma same_but_cause_trans (a b c : hobj) :
  same_but_cause a b → same_but_cause b c → same_but_cause a c.
Proof.
  destruct a, b; simpl; try done; try (by intros <-); try (by intros ->);
    destruct c; simpl; try done.
  intros [-> ->] [-> ->]. done.
Qed.

Lemma heap_evolves_refl (h : heap) : heap_evolves h h.
Proof.
  split; [done |]. split.
  - intros l o Hl. exists o. split; [done | apply same_but_cause_refl].
  - intros l H1 H2. lia.
Qed.

Lemma heap_evolves_trans (a b c : heap) :
  heap_evolves a b → heap_evolves b c → heap_evolves a c.
Proof.
  intros (Hlen1 & Hold1 & Hnew1) (Hlen2 & Hold2 & Hnew2). split; [lia |]. split.
  - intros l o Hl. destruct (Hold1 l o Hl) as (o1 & Hl1 & Hs1).
    destruct (Hold2 l o1 Hl1) as (o2 & Hl2 & Hs2).
    exists o2. split; [done |]. by eapply same_but_cause_trans.
  - intros l H1 H2. destruct (decide (l < length b)) as [Hlt | Hge].
    + specialize (Hnew1 l H1 Hlt).
      destruct (b !! l) as [o |] eqn:Hb; [| done].
      destruct (Hold2 l o Hb) as (o2 & Hl2 & Hs2). rewrite Hl2.
      destruct o; try done. simpl in Hs2. by subst o2.
    + apply Hnew2; lia.
Qed.

Lemma heap_evolves_cause (h : heap) (l : loc) (n m : string) (c c' : value) :
  h !! l = Some (HError n m c) → heap_evolves h (<[l := HError n m c']> h).
Proof.
  intros Hl. split; [by rewrite length_insert |]. split.
  - intros l' o Hl'. destruct (decide (l' = l)) as [-> | Hne].
    + rewrite list_lookup_insert_eq by (by eapply lookup_lt_Some).
      eexists. split; [done |]. rewrite Hl in Hl'. by injection Hl' as <-.
    + rewrite list_lookup_insert_ne by done.
      exists o. split; [done | apply same_but_cause_refl].
  - intros l'. rewrite length_insert. lia.
Qed.

Lemma heap_evolves_channel (h : heap) (f : value) : heap_evolves h (h ++ channel_of h f).
Proof.
  split; [rewrite length_app; lia |]. split.
  - intros l o Hl. exists o. split; [| apply same_but_cause_refl].
    by apply lookup_app_l_Some.
  - intros l H1 H2. rewrite length_app in H2. simpl in H2.
    rewrite lookup_app_r by done.
    destruct (l - length h) as [| [| k]] eqn:Hk; simpl; try done. lia.
Qed.

Section encoder_heap.
Variable functions : nat → fn_info.

Lemma serializer_replacer_evolves (rec : heap → value → outcome (heap * enc_result)) :
  (∀ h v h' r, rec h v = Ok (h', r) → heap_evolves h h') →
  ∀ st v st' v', serializer_replacer functions rec st v = Ok (st', v') →
    heap_evolves (st_heap st) (st_heap st').
Proof.
  intros Hrec st v st' v' H. unfold serializer_replacer in H.
  destruct v; try (injection H as <- <-; apply heap_evolves_refl);
    destruct (negb (truthy _)); try (injection H as <- <-; apply heap_evolves_refl);
    try discriminate.
  - destruct (is_string "_" (array_get elems 0)); injection H as <- <-;
      apply heap_evolves_refl.
  - destruct (truthy (fn_tag (functions ctor)) && truthy (fn_serialize (functions ctor))).
    + destruct (call functions _ _ _) as [payload | | |]; simpl in H; try discriminate.
      injection H as <- <-. apply heap_evolves_refl.
    + injection H as <- <-. apply heap_evolves_refl.
  - destruct (st_heap st !! l) as [o |] eqn:Hl; [| discriminate].
    destruct o; try (injection H as <- <-; apply heap_evolves_refl).
    unfold replace_error in H. simpl in H.
    destruct (truthy cause).
    + destruct (rec (st_heap st) cause) as [[hc rc] | | |] eqn:Hc; simpl in H;
        try discriminate.
      destruct (hc !! l) as [[| | n m c | | | | |] |] eqn:Hhc; simpl in H;
        try discriminate.
      rewrite list_lookup_insert_eq in H by (by eapply lookup_lt_Some).
      injection H as <- <-. simpl.
      eapply heap_evolves_trans; [by eapply Hrec |].
      by eapply heap_evolves_cause.
    + simpl in H. rewrite Hl in H. injection H as <- <-. apply heap_evolves_refl.
  - injection H as <- <-. apply heap_evolves_channel.
  - injection H as <- <-. apply heap_evolves_channel.
Qed.

Lemma serializer_evolves (fuel : nat) :
  ∀ h v h' r, serializer functions fuel h v = Ok (h', r) → heap_evolves h h'.
Proof.
  induction fuel as [| fuel IH]; intros h v h' r H; [done |].
  rewrite serializer_S in H. unfold JSON_stringify in H.
  destruct (SerializeJSONProperty _ _ _ _) as [[st text] | | |] eqn:E; simpl in H;
    try discriminate.
  destruct (JSON_parse _ _ _) as [[u result] | | |]; simpl in H; try discriminate.
  injection H as <- <-.
  apply (SerializeJSONProperty_related _
           (λ st st', heap_evolves (st_heap st) (st_heap st'))
           (λ st, heap_evolves_refl _)
           (λ a b c, heap_evolves_trans _ _ _)
           (serializer_replacer_evolves _ IH)) in E.
  exact E.
Qed.
End encoder_heap.

(** ** The heap during a decoding *)

Lemma same_but_name_and_cause_refl (o : hobj) : same_but_name_and_cause o o.
Proof. by destruct o. Qed.

Lemma same_but_name_and_cause_trans (a b c : hobj) :
  same_but_name_and_cause a b → same_but_name_and_cause b c →
  same_but_name_and_cause a c.
Proof.
  destruct a, b; simpl; try done; try (by intros <-); try (by intros ->);
    destruct c; simpl; try done.
  congruence.
Qed.

Lemma heap_revived_refl (h : heap) : heap_revived h h.
Proof.
  split; [done |]. intros l o Hl. exists o.
  split; [done | apply same_but_name_and_cause_refl].
Qed.

Lemma heap_revived_trans (a b c : heap) :
  heap_revived a b → heap_revived b c → heap_revived a c.
Proof.
  intros [Hlen1 Hold1] [Hlen2 Hold2]. split; [congruence |].
  intros l o Hl. destruct (Hold1 l o Hl) as (o1 & Hl1 & Hs1).
  destruct (Hold2 l o1 Hl1) as (o2 & Hl2 & Hs2).
  exists o2. split; [done |]. by eapply same_but_name_and_cause_trans.
Qed.

Lemma heap_revived_error (h : heap) (l : loc) (n n' m : string) (c c' : value) :
  h !! l = Some (HError n m c) → heap_revived h (<[l := HError n' m c']> h).
Proof.
  intros Hl. split; [by rewrite length_insert |].
  intros l' o Hl'. destruct (decide (l' = l)) as [-> | Hne].
  - rewrite list_lookup_insert_eq by (by eapply lookup_lt_Some).
    eexists. split; [done |]. rewrite Hl in Hl'. by injection Hl' as <-.
  - rewrite list_lookup_insert_ne by done.
    exists o. split; [done | apply same_but_name_and_cause_refl].
Qed.

Section decoder_heap.
Variable table : registry.

Lemma revive_error_revived (rec : heap → value → outcome (heap * value)) :
  (∀ h v h' v', rec h v = Ok (h', v') → heap_revived h h') →
  ∀ h target carried h' v', revive_error rec h target carried = Ok (h', v') →
    heap_revived h h'.
Proof.
  intros Hrec h target carried h' v' H. unfold revive_error in H.
  destruct target; try discriminate.
  destruct (h !! l) as [[| | n m c | | | | |] |] eqn:Hl; try discriminate;
    try (by destruct carried).
  destruct carried; try discriminate.
  assert (H1 : heap_revived h (if negb (String.eqb n s) then <[l := HError s m c]> h else h)).
  { destruct (negb (String.eqb n s)); [by eapply heap_revived_error | apply heap_revived_refl]. }
  destruct (truthy c).
  - destruct (rec _ c) as [[h2 c'] | | |] eqn:Hc; simpl in H; try discriminate.
    destruct (h2 !! l) as [[| | n2 m2 c2 | | | | |] |] eqn:Hl2; try discriminate.
    injection H as <- <-.
    eapply heap_revived_trans; [exact H1 |].
    eapply heap_revived_trans; [by eapply Hrec |].
    by eapply heap_revived_error.
  - by injection H as <- <-.
Qed.

Lemma deserializer_reviver_revived (rec : heap → value → outcome (heap * value))
    (verbatim : list value) :
  (∀ h v h' v', rec h v = Ok (h', v') → heap_revived h h') →
  ∀ h v h' v', deserializer_reviver table rec verbatim h v = Ok (h', v') →
    heap_revived h h'.
Proof.
  intros Hrec h v h' v' H. unfold deserializer_reviver in H.
  destruct (as_array v) as [elems |]; [| injection H as <- <-; apply heap_revived_refl].
  destruct (is_string "_" (array_get elems 0));
    [| injection H as <- <-; apply heap_revived_refl].
  destruct (array_get elems 1); try (injection H as <- <-; apply heap_revived_refl).
  repeat (match type of H with
          | (if ?b then _ else _) = _ => destruct b
          end);
    try (injection H as <- <-; apply heap_revived_refl).
  - destruct (Map_from _) as [x | | |]; simpl in H; try discriminate.
    injection H as <- <-. apply heap_revived_refl.
  - destruct (Set_from _) as [x | | |]; simpl in H; try discriminate.
    injection H as <- <-. apply heap_revived_refl.
  - unfold revive_custom in H. destruct (array_get elems 2); try discriminate.
    destruct (table !! s0) as [hook |]; [| discriminate].
    destruct (hook _) as [x | | |]; simpl in H; try discriminate.
    injection H as <- <-. apply heap_revived_refl.
  - destruct (verbatim_get _ _) as [x | | |]; simpl in H; try discriminate.
    injection H as <- <-. apply heap_revived_refl.
  - by eapply revive_error_revived.
Qed.

Lemma deserializer_revived (fuel : nat) :
  ∀ h v h' v', deserializer fuel table h v = Ok (h', v') → heap_revived h h'.
Proof.
  induction fuel as [| fuel IH]; intros h v h' v' H; [done |].
  rewrite deserializer_S in H. unfold JSON_stringify in H.
  destruct (SerializeJSONProperty _ _ _ _) as [[verbatim text] | | |]; simpl in H;
    try discriminate.
  destruct text as [j |]; [| discriminate]. simpl in H.
  by apply (InternalizeJSONProperty_related _ heap_revived heap_revived_refl
              heap_revived_trans (deserializer_reviver_revived _ _ IH)) in H.
Qed.
End decoder_heap.

(** ** The transferables and the revokables *)

Lemma NoDup_add_object (l : loc) (s : list loc) : NoDup s → NoDup (add_object l s).
Proof.
  intros Hnd. unfold add_object. case_bool_decide as Hin; [done |].
  apply NoDup_app. split; [done |]. split; [| apply NoDup_singleton].
  intros x Hx Hx'. apply list_elem_of_singleton in Hx'. by subst x.
Qed.

Lemma add_object_subseteq (l : loc) (s : list loc) : s ⊆ add_object l s.
Proof.
  intros x Hx. unfold add_object. case_bool_decide; [done |].
  apply elem_of_app. by left.
Qed.

Lemma elem_of_add_object (x l : loc) (s : list loc) :
  x ∈ add_object l s → x ∈ s ∨ x = l.
Proof.
  unfold add_object. case_bool_decide; [by left |].
  rewrite elem_of_app, list_elem_of_singleton. tauto.
Qed.

Lemma channel_at_evolves (h h' : heap) (l : loc) :
  heap_evolves h h' → channel_at h l → channel_at h' l.
Proof.
  intros (_ & Hold & _) (f & Hf & H1 & H2). exists f. split; [done |].
  destruct (Hold _ _ H1) as (o1 & Hl1 & Hs1). simpl in Hs1. subst o1.
  destruct (Hold _ _ H2) as (o2 & Hl2 & Hs2). simpl in Hs2. subst o2.
  done.
Qed.

Lemma channel_at_new (h : heap) (f : value) :
  is_function f = true → channel_at (h ++ channel_of h f) (length h).
Proof.
  intros Hf. exists f. split; [done |]. split.
  - rewrite lookup_app_r by lia. by rewrite Nat.sub_diag.
  - rewrite lookup_app_r by lia.
    by replace (S (length h) - length h) with 1 by lia.
Qed.

Lemma sets_kept_refl (st : enc_state) : sets_kept st st.
Proof.
  split; [apply heap_evolves_refl |]. repeat split; try done. intros l Hl. by left.
Qed.

Lemma sets_kept_trans (a b c : enc_state) :
  sets_kept a b → sets_kept b c → sets_kept a c.
Proof.
  intros (Hh1 & Ht1 & Hr1 & Hs1 & Hn1) (Hh2 & Ht2 & Hr2 & Hs2 & Hn2).
  split; [by eapply heap_evolves_trans |].
  split; [tauto |]. split; [tauto |]. split; [set_solver |].
  intros l Hl. destruct (Hn2 l Hl) as [Hb | (Hlen & Hch & Hp)].
  - destruct (Hn1 l Hb) as [Ha | (Hlen & Hch & Hp)]; [by left | right].
    split; [done |]. split; [by eapply channel_at_evolves | by apply Hs2].
  - right. destruct Hh1 as (Hle & _). split; [lia | done].
Qed.

(** A step that leaves the two sets alone. *)
Lemma sets_kept_heap (st st' : enc_state) :
  heap_evolves (st_heap st) (st_heap st') →
  st_transferables st' = st_transferables st →
  st_revokables st' = st_revokables st →
  sets_kept st st'.
Proof.
  intros Hh Ht Hr. split; [done |]. rewrite Ht, Hr.
  repeat split; try done. intros l Hl. by left.
Qed.

(** A step that adds a transferable. *)
Lemma sets_kept_transferable (st : enc_state) (v : value) (l : loc) :
  sets_kept st (add_transferable (push_verbatim st v) l).
Proof.
  split; [apply heap_evolves_refl |]. simpl.
  split; [apply NoDup_add_object |]. split; [done |].
  split; [apply add_object_subseteq |]. intros x Hx. by left.
Qed.

Section encoder_sets.
Variable functions : nat → fn_info.

Lemma serializer_replacer_keeps (rec : heap → value → outcome (heap * enc_result)) :
  (∀ h v h' r, rec h v = Ok (h', r) → heap_evolves h h') →
  ∀ st v st' v', serializer_replacer functions rec st v = Ok (st', v') →
    sets_kept st st'.
Proof.
  intros Hrec st v st' v' H.
  pose proof (serializer_replacer_evolves functions rec Hrec st v st' v' H) as Hh.
  unfold serializer_replacer in H.
  destruct v; try (injection H as <- <-; apply sets_kept_refl);
    destruct (negb (truthy _)); try (injection H as <- <-; apply sets_kept_refl);
    try discriminate.
  - destruct (is_string "_" (array_get elems 0)); injection H as <- <-;
      apply sets_kept_refl.
  - destruct (truthy (fn_tag (functions ctor)) && truthy (fn_serialize (functions ctor))).
    + destruct (call functions _ _ _) as [payload | | |]; simpl in H; try discriminate.
      injection H as <- <-. apply sets_kept_refl.
    + injection H as <- <-. apply sets_kept_refl.
  - destruct (st_heap st !! l) as [o |] eqn:Hl; [| discriminate].
    destruct o; try (injection H as <- <-; by apply sets_kept_heap);
      try (injection H as <- <-; apply sets_kept_transferable).
    apply sets_kept_heap; [done | |];
      unfold replace_error in H; simpl in H;
      destruct (truthy cause);
      try (destruct (rec (st_heap st) cause) as [[hc rc] | | |]; simpl in H;
           try discriminate;
           destruct (hc !! l) as [[| | n m c | | | | |] |] eqn:Hhc; simpl in H;
           try discriminate;
           rewrite list_lookup_insert_eq in H by (by eapply lookup_lt_Some));
      try (simpl in H; rewrite Hl in H);
      by injection H as <- <-.
  - injection H as <- <-. split; [done |]. simpl.
    split; [apply NoDup_add_object |]. split; [apply NoDup_add_object |].
    split; [apply add_object_subseteq |].
    intros x Hx. apply elem_of_add_object in Hx as [Hx | ->]; [by left | right].
    split; [done |]. split; [by apply (channel_at_new _ (VFunction f)) |].
    apply add_object_elem.
  - injection H as <- <-. split; [done |]. simpl.
    split; [apply NoDup_add_object |]. split; [apply NoDup_add_object |].
    split; [apply add_object_subseteq |].
    intros x Hx. apply elem_of_add_object in Hx as [Hx | ->]; [by left | right].
    split; [done |]. split; [by apply (channel_at_new _ (VProxy v)) |].
    apply add_object_elem.
Qed.

Lemma serializer_keeps (fuel : nat) (h : heap) (v : value) (h' : heap) (r : enc_result) :
  serializer functions fuel h v = Ok (h', r) →
  sets_kept {| st_heap := h; st_verbatim := [];
               st_transferables := []; st_revokables := [] |}
            {| st_heap := h'; st_verbatim := [];
               st_transferables := transferables r; st_revokables := revokables r |}.
Proof.
  intros H. destruct fuel as [| fuel]; [done |].
  rewrite serializer_S in H. unfold JSON_stringify in H.
  destruct (SerializeJSONProperty _ _ _ _) as [[st text] | | |] eqn:E; simpl in H;
    try discriminate.
  destruct (JSON_parse _ _ _) as [[u result] | | |]; simpl in H; try discriminate.
  injection H as <- <-.
  apply (SerializeJSONProperty_related _ sets_kept sets_kept_refl sets_kept_trans
           (serializer_replacer_keeps _ (serializer_evolves functions fuel))) in E.
  exact E.
Qed.
End encoder_sets.

(** * Objects the decoder takes by reference *)

Lemma passes_through_defined (v : value) : passes_through v = true → slot_of v = Some v.
Proof. by destruct v. Qed.

Lemma get_prop_passes props k :
  forallb (λ kv, passes_through kv.2) props = true →
  is_function (get_prop props k) = false.
Proof.
  induction props as [| [k' x] props IH]; simpl; [done |].
  intros [Hx Hrest]%andb_prop. destruct (String.eqb k' k); [| by apply IH].
  by destruct x.
Qed.

(** The second pass of the decoder on the reference to the verbatim slot
    [pos]. *)
Lemma decoder_revives_ref (table : registry) rec (verbatim : list value) (h : heap)
    (pos : nat) (v : value) :
  verbatim !! pos = Some v →
  InternalizeJSONProperty (deserializer_reviver table rec verbatim) h
      (JArray [JString "_"; JString "_ref"; JNumber (number_of_nat pos)])
    = Ok (h, v).
Proof.
  intros Hv. rewrite InternalizeJSONProperty_array. simpl.
  unfold deserializer_reviver. simpl.
  by rewrite index_of_number_of_nat, Hv.
Qed.

(** The first pass of the decoder on an object that is not plain: it goes to
    the verbatim table. *)
Lemma decoder_prints_ref (v : value) (fuel : nat) (vb : list value) :
  match v with VInstance _ _ | VMap _ | VSet _ | VRef _ => True | _ => False end →
  is_function (toJSON_of v) = false →
  SerializeJSONProperty deserializer_replacer (S (S fuel)) vb v
    = Ok (vb ++ [v], Some (JArray [JString "_"; JString "_ref";
                                   JNumber (number_of_nat (length vb))])).
Proof.
  intros Hv HtoJSON. rewrite SerializeJSONProperty_step by done.
  assert (Hrep : deserializer_replacer vb v = Ok (vb ++ [v], ref_to (length vb)))
    by (by destruct v).
  rewrite Hrep. simpl. by rewrite json_of_number_of_nat.
Qed.

(** The two passes of the decoder on data it has nothing to do on, with the
    text between them left open: the first pass fills the verbatim table with
    the objects that are not plain, and the second pass gives the value
    back. *)
Lemma decoder_passes (v : value) :
  passes_through v = true →
  ∀ fuel vb, weight v < fuel →
    ∃ news j,
      SerializeJSONProperty deserializer_replacer fuel vb v = Ok (vb ++ news, Some j)
      ∧ ∀ table rec verbatim h,
          holds_refs verbatim (length vb) news →
          InternalizeJSONProperty (deserializer_reviver table rec verbatim) h j
            = Ok (h, v).
Proof.
  induction v as [elems IH | props IH | v Hv] using value_plain_ind;
    intros Hpass fuel vb Hfuel.
  - simpl in Hpass, Hfuel. apply andb_prop in Hpass as [Hall Hfirst].
    apply negb_true_iff in Hfirst.
    destruct fuel as [| fuel]; [lia |].
    assert (Hrun : ∃ news js,
              serialize_elements (SerializeJSONProperty deserializer_replacer fuel)
                  vb (spread elems)
                = Ok (vb ++ news, js)
              ∧ ∀ table rec verbatim h,
                  holds_refs verbatim (length vb) news →
                  internalize_elements
                      (InternalizeJSONProperty (deserializer_reviver table rec verbatim))
                      h js
                    = Ok (h, elems)).
    { assert (Hsum : sum_list_with (λ o, match o with Some x => weight x | None => 1 end)
                       elems < fuel) by lia.
      clear Hfuel Hfirst. revert vb.
      induction IH as [| o elems Ho _ IHelems]; intros vb.
      - exists [], []. rewrite app_nil_r. done.
      - simpl in Hall, Hsum. apply andb_prop in Hall as [Hpo Hall].
        destruct o as [x |]; [| done].
        destruct (Ho Hpo fuel vb) as (news1 & j1 & Hrun1 & Hrev1); [lia |].
        destruct (IHelems Hall ltac:(lia) (vb ++ news1)) as (news2 & js2 & Hrun2 & Hrev2).
        exists (news1 ++ news2), (j1 :: js2). split.
        + csimpl. rewrite Hrun1. simpl. rewrite Hrun2. simpl. by rewrite app_assoc.
        + intros table rec verbatim h Hrefs.
          apply holds_refs_app in Hrefs as [Hr1 Hr2].
          simpl. rewrite Hrev1 by done. simpl.
          rewrite Hrev2 by (by rewrite length_app). simpl.
          by rewrite passes_through_defined. }
    destruct Hrun as (news & js & Hrun & Hrev).
    exists news, (JArray js). split.
    + rewrite SerializeJSONProperty_S. simpl. by rewrite Hrun.
    + intros table rec verbatim h Hrefs.
      rewrite InternalizeJSONProperty_array, Hrev by done. simpl.
      by apply deserializer_reviver_array.
  - simpl in Hpass, Hfuel. destruct fuel as [| fuel]; [lia |].
    assert (Hrun : ∃ news ms,
              serialize_members (SerializeJSONProperty deserializer_replacer fuel) vb props
                = Ok (vb ++ news, ms)
              ∧ ∀ table rec verbatim h,
                  holds_refs verbatim (length vb) news →
                  internalize_members
                      (InternalizeJSONProperty (deserializer_reviver table rec verbatim))
                      h ms
                    = Ok (h, props)).
    { assert (Hsum : sum_list_with (λ kv, weight kv.2) props < fuel) by lia.
      clear Hfuel. revert vb.
      induction IH as [| [k x] props Hx _ IHprops]; intros vb.
      - exists [], []. rewrite app_nil_r. done.
      - simpl in Hpass, Hsum, Hx. apply andb_prop in Hpass as [Hpx Hall].
        destruct (Hx Hpx fuel vb) as (news1 & j1 & Hrun1 & Hrev1); [lia |].
        destruct (IHprops Hall ltac:(lia) (vb ++ news1)) as (news2 & ms2 & Hrun2 & Hrev2).
        exists (news1 ++ news2), ((k, j1) :: ms2). split.
        + csimpl. rewrite Hrun1. simpl. rewrite Hrun2. simpl. by rewrite app_assoc.
        + intros table rec verbatim h Hrefs.
          apply holds_refs_app in Hrefs as [Hr1 Hr2].
          simpl. rewrite Hrev1 by done. simpl.
          rewrite Hrev2 by (by rewrite length_app). simpl.
          pose proof (passes_through_defined x Hpx). by destruct x. }
    destruct Hrun as (news & ms & Hrun & Hrev).
    exists news, (JObject ms). split.
    + rewrite SerializeJSONProperty_S. simpl.
      rewrite get_prop_passes by done. by rewrite Hrun.
    + intros table rec verbatim h Hrefs.
      by rewrite InternalizeJSONProperty_object, Hrev by done.
  - destruct fuel as [| [| fuel]]; try (pose proof (weight_pos v); simpl in *; lia).
    destruct v as [| | b | n | z | s | | | | c props | entries | elems | l | f | mp];
      try done.
    + exists [], JNull. rewrite app_nil_r. done.
    + exists [], (JBool b). rewrite app_nil_r. done.
    + exists [], (JNumber n). rewrite app_nil_r. split; [| done].
      by destruct n as [[] | | |].
    + exists [], (JString s). rewrite app_nil_r. done.
    + eexists [_], _. split.
      { apply decoder_prints_ref; [done |]. simpl in *. by apply negb_true_iff. }
      intros table rec verbatim h Hrefs. apply decoder_revives_ref.
      rewrite <- (Nat.add_0_r (length vb)). by apply Hrefs.
    + eexists [_], _. split; [by apply decoder_prints_ref |].
      intros table rec verbatim h Hrefs. apply decoder_revives_ref.
      rewrite <- (Nat.add_0_r (length vb)). by apply Hrefs.
    + eexists [_], _. split; [by apply decoder_prints_ref |].
      intros table rec verbatim h Hrefs. apply decoder_revives_ref.
      rewrite <- (Nat.add_0_r (length vb)). by apply Hrefs.
    + eexists [_], _. split; [by apply decoder_prints_ref |].
      intros table rec verbatim h Hrefs. apply decoder_revives_ref.
      rewrite <- (Nat.add_0_r (length vb)). by apply Hrefs.
Qed.

(** [deserializer] on such data. *)
Lemma deserializer_passes (table : registry) (v : value) (h : heap) (fuel : nat) :
  passes_through v = true → weight v < fuel →
  deserializer fuel table h v = Ok (h, v).
Proof.
  intros Hpass Hfuel. destruct fuel as [| fuel]; [lia |].
  destruct (decoder_passes v Hpass (S fuel) []) as (news & j & Hrun & Hrev); [lia |].
  rewrite deserializer_S. unfold JSON_stringify. rewrite Hrun. simpl.
  apply Hrev. apply (holds_refs_extend []).
Qed.

(** * The data of the encoder *)

(** ** Second pass: a text whose references are within the table *)

Lemma cloneable_defined (v : value) : cloneable v = true → slot_of v = Some v.
Proof. by destruct v. Qed.

Lemma refs_within_mono (n n' : nat) (j : json) :
  n ≤ n' → refs_within n j = true → refs_within n' j = true.
Proof.
  intros Hle. induction j as [| b | x | s | items IH | members IH] using json_ind;
    try done; simpl.
  - intros H. apply andb_prop in H as [Hall Href]. apply andb_true_intro. split.
    + clear Href. induction IH as [| j items Hj _ IHitems]; [done |].
      simpl in *. apply andb_prop in Hall as [Hj1 Hall].
      by rewrite Hj, IHitems.
    + apply orb_true_iff in Href as [Href | Href]; apply orb_true_iff; [by left | right].
      destruct items as [| j0 [| j1 [| [] rest]]]; try done.
      destruct (index_of_number n0) as [i |]; [| done].
      apply Nat.ltb_lt in Href. apply Nat.ltb_lt. lia.
  - intros Hall. induction IH as [| m members Hm _ IHmembers]; [done |].
    simpl in *. apply andb_prop in Hall as [Hm1 Hall].
    by rewrite Hm, IHmembers.
Qed.

Section revive_cloneable.
Variable verbatim : list value.
Hypothesis verbatim_refs : Forall (λ x, is_ref x = true) verbatim.

(** What the second pass makes of such a text can be copied, and is a string
    only where the text is one. *)
Lemma encoder_revives_cloneable (j : json) :
  refs_within (length verbatim) j = true →
  ∃ v, InternalizeJSONProperty (serializer_reviver verbatim) tt j = Ok (tt, v)
       ∧ cloneable v = true
       ∧ (∀ s, is_string s v = true → j = JString s)
       ∧ (∀ x, j = JNumber x → v = VNumber x)
       ∧ (∀ l, l ∈ refs_in v → VRef l ∈ verbatim).
Proof.
  induction j as [| b | x | s | items IH | members IH] using json_ind; intros Hin.
  - exists VNull. repeat split; try done. intros l Hl. by apply elem_of_nil in Hl.
  - exists (VBool b). repeat split; try done. intros l Hl. by apply elem_of_nil in Hl.
  - exists (VNumber x). repeat split; try done; [by intros x' [= ->] |].
    intros l Hl. by apply elem_of_nil in Hl.
  - exists (VString s). repeat split; try done.
    + intros s' H. simpl in H. apply String.eqb_eq in H. by subst.
    + intros l Hl. by apply elem_of_nil in Hl.
  - simpl in Hin. apply andb_prop in Hin as [Hall Href].
    assert (Hrun : ∃ vs,
              internalize_elements (InternalizeJSONProperty (serializer_reviver verbatim))
                  tt items
                = Ok (tt, Some <$> vs)
              ∧ forallb cloneable vs = true
              ∧ Forall2 (λ v j, (∀ s, is_string s v = true → j = JString s)
                                ∧ (∀ x, j = JNumber x → v = VNumber x)) vs items
              ∧ (∀ l, l ∈ refs_in (VArray (Some <$> vs)) → VRef l ∈ verbatim)).
    { clear Href. induction IH as [| j items Hj _ IHitems].
      - exists []. repeat split; try done. intros l Hl. by apply elem_of_nil in Hl.
      - simpl in Hall. apply andb_prop in Hall as [Hj1 Hall].
        destruct (Hj Hj1) as (v & Hrun1 & Hc1 & Hs1 & Hn1 & Hr1).
        destruct (IHitems Hall) as (vs & Hrun2 & Hc2 & Hs2 & Hr2).
        exists (v :: vs). split; [| split; [| split]].
        + simpl. rewrite Hrun1. simpl. rewrite Hrun2. simpl.
          by rewrite cloneable_defined.
        + simpl. by rewrite Hc1, Hc2.
        + by constructor.
        + intros l Hl. simpl in Hl. apply elem_of_app in Hl as [Hl | Hl]; [by apply Hr1 |].
          by apply Hr2. }
    destruct Hrun as (vs & Hrun & Hcl & Hstr & Hrefs).
    rewrite InternalizeJSONProperty_array, Hrun. simpl.
    unfold serializer_reviver. simpl.
    destruct (is_string "_" (array_get (Some <$> vs) 0)
              && is_string "_ref" (array_get (Some <$> vs) 1)) eqn:Hpat.
    + apply andb_prop in Hpat as [H0 H1].
      destruct Hstr as [| v0 j0 vs0 items0 [Hs0 _] Hstr]; [done |].
      destruct Hstr as [| v1 j1 vs1 items1 [Hs1 _] Hstr]; [done |].
      unfold array_get in H0, H1. simpl in H0, H1.
      rewrite (Hs0 _ H0), (Hs1 _ H1) in Href. simpl in Href.
      destruct Hstr as [| v2 j2 vs2 items2 [_ Hn2] Hstr]; [done |].
      destruct j2 as [| | x | | |]; try done.
      destruct (index_of_number x) as [i |] eqn:Hi; [| done].
      apply Nat.ltb_lt in Href.
      rewrite (Hn2 x eq_refl). unfold array_get. simpl. rewrite Hi.
      destruct (lookup_lt_is_Some_2 verbatim i Href) as [x' Hx'].
      rewrite Hx'. simpl.
      rewrite Forall_forall in verbatim_refs.
      pose proof (list_elem_of_lookup_2 _ _ _ Hx') as Hx''.
      pose proof (verbatim_refs x' Hx'') as Hr.
      exists x'. destruct x'; try done. repeat split; try done.
      intros l' Hl'. simpl in Hl'. apply list_elem_of_singleton in Hl'. by subst l'.
    + assert (Hclone : cloneable (VArray (Some <$> vs)) = true).
      { clear -Hcl. induction vs as [| v vs IHvs]; [done |].
        simpl in Hcl. apply andb_prop in Hcl as [Hv Hcl].
        specialize (IHvs Hcl). simpl in *. by rewrite Hv. }
      exists (VArray (Some <$> vs)). by repeat split.
  - simpl in Hin.
    assert (Hrun : ∃ props,
              internalize_members (InternalizeJSONProperty (serializer_reviver verbatim))
                  tt members
                = Ok (tt, props)
              ∧ forallb (λ kv, cloneable kv.2) props = true
              ∧ (∀ l, l ∈ refs_in (VObject props) → VRef l ∈ verbatim)).
    { induction IH as [| [k j] members Hj _ IHmembers].
      - exists []. repeat split; try done. intros l Hl. by apply elem_of_nil in Hl.
      - simpl in Hin, Hj. apply andb_prop in Hin as [Hj1 Hall].
        destruct (Hj Hj1) as (v & Hrun1 & Hc1 & Hs1 & Hn1 & Hr1).
        destruct (IHmembers Hall) as (props & Hrun2 & Hc2 & Hr2).
        exists ((k, v) :: props). split; [| split].
        + simpl. rewrite Hrun1. simpl. rewrite Hrun2. simpl.
          by destruct v.
        + simpl. by rewrite Hc1, Hc2.
        + intros l Hl. simpl in Hl. apply elem_of_app in Hl as [Hl | Hl]; [by apply Hr1 |].
          by apply Hr2. }
    destruct Hrun as (props & Hrun & Hcl & Hrefs).
    rewrite InternalizeJSONProperty_object, Hrun. simpl.
    exists (VObject props). by repeat split.
Qed.
End revive_cloneable.

(** ** First pass: the references of the text are within the table *)

Lemma table_grows_refl (st : enc_state) : table_grows st st.
Proof. by split. Qed.

Lemma table_grows_trans (a b c : enc_state) :
  table_grows a b → table_grows b c → table_grows a c.
Proof. intros [H1 L1] [H2 L2]. split; [tauto | lia]. Qed.

Lemma table_grows_push (st st' : enc_state) (l : loc) :
  st_verbatim st' = st_verbatim st ++ [VRef l] → table_grows st st'.
Proof.
  intros Hvb. unfold table_grows. rewrite Hvb. split.
  - intros H. apply Forall_app. split; [done |]. by constructor.
  - rewrite length_app. lia.
Qed.

Lemma table_grows_same (st st' : enc_state) :
  st_verbatim st' = st_verbatim st → table_grows st st'.
Proof. intros Hvb. unfold table_grows. rewrite Hvb. by split. Qed.

Lemma walkable_mono (n n' : nat) (v : value) : n ≤ n' → walkable n v → walkable n' v.
Proof.
  intros Hle [Hraw | (pos & -> & Hpos)]; [by left | right].
  exists pos. split; [done | lia].
Qed.

Lemma raw_free_spread (elems : list (option value)) :
  raw_free (VArray elems) = true → Forall (λ x, raw_free x = true) (spread elems).
Proof.
  simpl. induction elems as [| o elems IH]; intros H; [constructor |].
  simpl in H. apply andb_prop in H as [Ho H]. constructor; [| by apply IH].
  by destruct o.
Qed.

Lemma raw_free_entries (entries : list (value * value)) :
  raw_free (VMap entries) = true →
  raw_free (VArray ((λ '(k, x), Some (VArray [Some k; Some x])) <$> entries)) = true.
Proof.
  induction entries as [| [k x] entries IH]; intros H; [done |].
  simpl in H. apply andb_prop in H as [Hkx H].
  apply andb_prop in Hkx as [Hk Hx]. specialize (IH H).
  simpl in IH |- *. rewrite Hk, Hx. simpl. exact IH.
Qed.

Lemma raw_free_members (elems : list value) :
  raw_free (VSet elems) = true → raw_free (VArray (Some <$> elems)) = true.
Proof.
  induction elems as [| x elems IH]; intros H; [done |].
  simpl in H. apply andb_prop in H as [Hx H]. specialize (IH H).
  simpl in IH |- *. rewrite Hx. simpl. exact IH.
Qed.

(** The result of [replace_error], when there is one. *)
Lemma replace_error_result (rec : heap → value → outcome (heap * enc_result))
    (st : enc_state) (v : value) (l : loc) (cause : value) (st' : enc_state) (v' : value) :
  replace_error rec st v l cause = Ok (st', v') →
  st_verbatim st' = st_verbatim st ++ [v]
  ∧ ∃ n, v' = VRaw [sentinel; VString "_err"; ref_to (length (st_verbatim st)); VString n].
Proof.
  unfold replace_error. intros H.
  destruct (truthy cause).
  - simpl in H.
    destruct (rec (st_heap st) cause) as [[hc rc] | | |]; simpl in H; try discriminate.
    destruct (hc !! l) as [[| | n m c | | | | |] |] eqn:Hhc; simpl in H; try discriminate.
    rewrite list_lookup_insert_eq in H by (by eapply lookup_lt_Some).
    injection H as <- <-. split; [done | by eexists].
  - simpl in H. destruct (st_heap st !! l) as [[| | n m c | | | | |] |]; try discriminate.
    injection H as <- <-. split; [done | by eexists].
Qed.

Section encoder_text.
Variable functions : nat → fn_info.
Hypothesis hooks : hooks_raw_free functions.
Variable rec : heap → value → outcome (heap * enc_result).

Lemma call_raw_free (callee this arg x : value) :
  raw_free arg = true →
  call functions callee this arg = Ok x → raw_free x = true.
Proof.
  intros Harg. destruct callee; try discriminate. simpl. by apply (hooks f).
Qed.

Lemma serializer_replacer_table (st : enc_state) (v : value) (st' : enc_state) (v' : value) :
  serializer_replacer functions rec st v = Ok (st', v') → table_grows st st'.
Proof.
  intros H. unfold serializer_replacer in H.
  destruct v; try (injection H as <- <-; apply table_grows_refl);
    destruct (negb (truthy _)); try (injection H as <- <-; apply table_grows_refl);
    try discriminate.
  - destruct (is_string "_" (array_get elems 0)); injection H as <- <-;
      apply table_grows_refl.
  - destruct (truthy (fn_tag (functions ctor)) && truthy (fn_serialize (functions ctor))).
    + destruct (call functions _ _ _) as [payload | | |]; simpl in H; try discriminate.
      injection H as <- <-. apply table_grows_refl.
    + injection H as <- <-. apply table_grows_refl.
  - destruct (st_heap st !! l) as [o |] eqn:Hl; [| discriminate].
    destruct o; try (injection H as <- <-; by apply (table_grows_push _ _ l)).
    apply replace_error_result in H as [Hvb _]. by apply (table_grows_push _ _ l).
  - injection H as <- <-. by apply table_grows_same.
  - injection H as <- <-. by apply table_grows_same.
Qed.

(** What the replacer returns can be printed. *)
Lemma serializer_replacer_printable (st : enc_state) (v : value)
    (st' : enc_state) (v' : value) :
  walkable (length (st_verbatim st)) v →
  serializer_replacer functions rec st v = Ok (st', v') →
  printable (length (st_verbatim st')) v' ∧ ∀ s, v' = VString s → v = VString s.
Proof.
  intros [Hraw | (pos & -> & Hpos)] H.
  2:{ injection H as <- <-. split; [| done]. left. by exists pos. }
  assert (Hstr : ∀ n (l : list value),
            Forall (λ x, raw_free x = true) l → Forall (walkable n) l).
  { intros n l Hl. eapply Forall_impl; [exact Hl |]. intros x Hx. by left. }
  unfold serializer_replacer in H.
  destruct v as [| | b | n | z | s | elems | elems | props | ctor props | entries
                 | elems | l | f | mp]; try discriminate.
  - injection H as <- <-. split; [| done].
    right. split; [by repeat constructor; left | discriminate].
  - destruct (negb (truthy _)); injection H as <- <-; (split; [exact I | done]).
  - destruct (negb (truthy _)); injection H as <- <-; (split; [exact I | done]).
  - destruct (negb (truthy _)); injection H as <- <-; (split; [exact I | done]).
  - destruct (negb (truthy _)); injection H as <- <-; (split; [exact I | done]).
  - destruct (negb (truthy _)); injection H as <- <-; (split; [exact I | done]).
  - change (negb (truthy _)) with false in H. cbv iota in H.
    destruct (is_string "_" (array_get elems 0)) eqn:Hfirst; injection H as <- <-;
      (split; [| done]); [| by split].
    right. split; [| discriminate].
    constructor; [by left |]. constructor; [by left |].
    apply Hstr. by apply raw_free_spread.
  - change (negb (truthy _)) with false in H. cbv iota in H.
    injection H as <- <-. split; [exact Hraw | done].
  - change (negb (truthy _)) with false in H. cbv iota in H.
    destruct (truthy (fn_tag (functions ctor)) && truthy (fn_serialize (functions ctor))).
    + destruct (call functions _ _ _) as [payload | | |] eqn:Hcall; simpl in H;
        try discriminate.
      injection H as <- <-. split; [| done]. right. split; [| discriminate].
      constructor; [by left |]. constructor; [by left |].
      constructor; [left; apply (hooks ctor) |].
      constructor; [left; by eapply (call_raw_free _ _ _ _ Hraw) | constructor].
    + injection H as <- <-. split; [exact Hraw | done].
  - change (negb (truthy _)) with false in H. cbv iota in H.
    injection H as <- <-. split; [| done]. right. split; [| discriminate].
    constructor; [by left |]. constructor; [by left |].
    constructor; [| constructor]. left. by apply raw_free_entries.
  - change (negb (truthy _)) with false in H. cbv iota in H.
    injection H as <- <-. split; [| done]. right. split; [| discriminate].
    constructor; [by left |]. constructor; [by left |].
    constructor; [| constructor]. left. by apply raw_free_members.
  - change (negb (truthy _)) with false in H. cbv iota in H.
    destruct (st_heap st !! l) as [o |] eqn:Hl; [| discriminate].
    destruct o;
      try (injection H as <- <-; split; [| done]; left;
           exists (length (st_verbatim st)); split; [done |];
           simpl; rewrite length_app; simpl; lia).
    apply replace_error_result in H as [Hvb [n ->]]. split; [| done].
    right. split; [| discriminate]. rewrite Hvb, length_app. simpl.
    constructor; [by left |]. constructor; [by left |].
    constructor; [right; eexists; split; [done | lia] |].
    constructor; [by left | constructor].
  - change (negb (truthy _)) with false in H. cbv iota in H.
    injection H as <- <-. split; [| done]. right. split; [| discriminate].
    by repeat constructor; left.
  - change (negb (truthy _)) with false in H. cbv iota in H.
    injection H as <- <-. split; [| done]. right. split; [| discriminate].
    by repeat constructor; left.
Qed.
End encoder_text.

Lemma names_ref_origin (l : list value) (js : list json) :
  Forall2 (λ v j, ∀ s, j = JString s → v = VString s) l js →
  names_ref js = true →
  ∃ rest, l = sentinel :: VString "_ref" :: rest.
Proof.
  intros Hall Hnames.
  destruct Hall as [| v0 j0 l0 js0 H0 Hall]; [done |].
  destruct Hall as [| v1 j1 l1 js1 H1 Hall]; [by destruct j0 |].
  destruct j0 as [| | | a | |]; try done. destruct j1 as [| | | b | |]; try done.
  simpl in Hnames. apply andb_prop in Hnames as [Ha Hb].
  apply String.eqb_eq in Ha, Hb. subst a b.
  rewrite (H0 _ eq_refl), (H1 _ eq_refl). by eexists.
Qed.

Lemma spread_head (elems : list (option value)) (rest : list value) (x : value) :
  spread elems = x :: rest → array_get elems 0 = x.
Proof. destruct elems as [| [y |] elems]; try done; by intros [= <- _]. Qed.

Section walk_lists.
Variable ser : enc_state → value → outcome (enc_state * option json).
Hypothesis ser_within : ∀ st v st' jo,
  Forall (λ x, is_ref x = true) (st_verbatim st) →
  walkable (length (st_verbatim st)) v →
  ser st v = Ok (st', jo) →
  table_grows st st'
  ∧ ∀ j, jo = Some j →
      refs_within (length (st_verbatim st')) j = true
      ∧ ∀ s, j = JString s → v = VString s.

Lemma elements_within (l : list value) :
  ∀ st st' js,
    Forall (λ x, is_ref x = true) (st_verbatim st) →
    Forall (walkable (length (st_verbatim st))) l →
    serialize_elements ser st l = Ok (st', js) →
    table_grows st st'
    ∧ forallb (refs_within (length (st_verbatim st'))) js = true
    ∧ Forall2 (λ v j, ∀ s, j = JString s → v = VString s) l js.
Proof.
  induction l as [| v l IH]; intros st st' js Hrefs Hwalk H; simpl in H.
  - injection H as <- <-. split; [apply table_grows_refl | by split].
  - apply Forall_cons in Hwalk as [Hv Hl].
    destruct (ser st v) as [[st1 jo] | | |] eqn:E1; simpl in H; try discriminate.
    destruct (serialize_elements ser st1 l) as [[st2 js2] | | |] eqn:E2;
      simpl in H; try discriminate.
    injection H as <- <-.
    destruct (ser_within _ _ _ _ Hrefs Hv E1) as [[Hr1 Hlen1] Hj].
    destruct (IH st1 st2 js2 (Hr1 Hrefs)) as ([Hr2 Hlen2] & Hall & Horigin); [| done |].
    { eapply Forall_impl; [exact Hl |]. intros x. by apply walkable_mono. }
    split; [split; [tauto | lia] |]. split.
    + simpl. rewrite Hall, andb_true_r.
      destruct jo as [j |]; [| done]. simpl.
      apply (refs_within_mono (length (st_verbatim st1))); [done |].
      by apply (Hj j).
    + constructor; [| done]. intros s Hs.
      destruct jo as [j |]; [| done]. simpl in Hs. subst j.
      by apply (Hj (JString s)).
Qed.

Lemma members_within (l : list (string * value)) :
  ∀ st st' ms,
    Forall (λ x, is_ref x = true) (st_verbatim st) →
    Forall (λ kv, walkable (length (st_verbatim st)) kv.2) l →
    serialize_members ser st l = Ok (st', ms) →
    table_grows st st'
    ∧ forallb (λ m, refs_within (length (st_verbatim st')) m.2) ms = true.
Proof.
  induction l as [| [k v] l IH]; intros st st' ms Hrefs Hwalk H; simpl in H.
  - injection H as <- <-. split; [apply table_grows_refl | done].
  - apply Forall_cons in Hwalk as [Hv Hl]. simpl in Hv.
    destruct (ser st v) as [[st1 jo] | | |] eqn:E1; simpl in H; try discriminate.
    destruct (serialize_members ser st1 l) as [[st2 ms2] | | |] eqn:E2;
      simpl in H; try discriminate.
    injection H as <- <-.
    destruct (ser_within _ _ _ _ Hrefs Hv E1) as [[Hr1 Hlen1] Hj].
    destruct (IH st1 st2 ms2 (Hr1 Hrefs)) as ([Hr2 Hlen2] & Hall); [| done |].
    { eapply Forall_impl; [exact Hl |]. intros x. by apply walkable_mono. }
    split; [split; [tauto | lia] |].
    destruct jo as [j |]; [| done]. simpl. rewrite Hall, andb_true_r.
    apply (refs_within_mono (length (st_verbatim st1))); [done |].
    by apply (Hj j).
Qed.
End walk_lists.

Section encoder_walk_text.
Variable functions : nat → fn_info.
Hypothesis hooks : hooks_raw_free functions.
Variable rec : heap → value → outcome (heap * enc_result).

Lemma raw_free_walkable_members (n : nat) (props : list (string * value)) :
  forallb (λ kv, raw_free kv.2) props = true →
  Forall (λ kv, walkable n kv.2) props.
Proof.
  induction props as [| [k x] props IH]; intros H; [constructor |].
  simpl in H. apply andb_prop in H as [Hx H]. constructor; [by left | by apply IH].
Qed.

(** The text the first pass writes has its references within the table the
    pass has filled, and is a string only for a string. *)
Lemma encoder_prints_within (fuel : nat) :
  ∀ st v st' jo,
    Forall (λ x, is_ref x = true) (st_verbatim st) →
    walkable (length (st_verbatim st)) v →
    SerializeJSONProperty (serializer_replacer functions rec) fuel st v = Ok (st', jo) →
    table_grows st st'
    ∧ ∀ j, jo = Some j →
        refs_within (length (st_verbatim st')) j = true
        ∧ ∀ s, j = JString s → v = VString s.
Proof.
  induction fuel as [| fuel IH]; intros st v st' jo Hrefs Hwalk H; [done |].
  rewrite SerializeJSONProperty_S in H.
  destruct (is_function (toJSON_of v)); [discriminate |].
  destruct (serializer_replacer functions rec st v) as [[st1 v1] | | |] eqn:Hrep;
    simpl in H; try discriminate.
  destruct (serializer_replacer_table functions rec _ _ _ _ Hrep) as [Hr1 Hlen1].
  destruct (serializer_replacer_printable functions hooks rec _ _ _ _ Hwalk Hrep)
    as [Hprint Horigin].
  specialize (Hr1 Hrefs).
  destruct v1 as [| | b | n | z | s | elems | elems | props | ctor props | entries
                  | elems | l | f | mp]; simpl in H; try discriminate;
    try (injection H as <- <-; split; [by split |]; intros j [= <-];
         split; [done |]; intros s' [= ->]; by apply Horigin);
    try (injection H as <- <-; split; [by split |]; by intros j [=]).
  - injection H as <- <-. split; [by split |]. intros j [= <-].
    split; by destruct n as [[] | | |].
  - destruct Hprint as [Hraw Hfirst].
    destruct (serialize_elements _ st1 (spread elems)) as [[st2 js] | | |] eqn:E;
      simpl in H; try discriminate.
    injection H as <- <-.
    destruct (elements_within _ IH (spread elems) st1 st2 js Hr1) as ([Hr2 Hlen2] & Hall & Hor);
      [| done |].
    { eapply Forall_impl; [by apply raw_free_spread |]. intros x Hx. by left. }
    split; [split; [tauto | lia] |]. intros j [= <-]. split; [| done].
    simpl. rewrite Hall. simpl.
    destruct (names_ref js) eqn:Hnames; [| done].
    destruct (names_ref_origin _ _ Hor Hnames) as [rest Hrest].
    apply spread_head in Hrest. by rewrite Hrest in Hfirst.
  - destruct Hprint as [(pos & [= ->] & Hpos) | [Hwalkl Hnot]].
    + simpl in H. destruct fuel as [| fuel]; [by vm_compute in H |].
      rewrite !stringify_string in H. simpl in H.
      rewrite stringify_number in H. simpl in H.
      injection H as <- <-. split; [by split |]. intros j [= <-]. split; [| done].
      rewrite json_of_number_of_nat. simpl. rewrite index_of_number_of_nat.
      by apply Nat.ltb_lt.
    + destruct (serialize_elements _ st1 elems) as [[st2 js] | | |] eqn:E;
        simpl in H; try discriminate.
      injection H as <- <-.
      destruct (elements_within _ IH elems st1 st2 js Hr1 Hwalkl E)
        as ([Hr2 Hlen2] & Hall & Hor).
      split; [split; [tauto | lia] |]. intros j [= <-]. split; [| done].
      simpl. rewrite Hall. simpl.
      destruct (names_ref js) eqn:Hnames; [| done].
      destruct (names_ref_origin _ _ Hor Hnames) as [rest Hrest].
      by destruct (Hnot rest).
  - destruct (serialize_members _ st1 props) as [[st2 ms] | | |] eqn:E;
      simpl in H; try discriminate.
    injection H as <- <-.
    destruct (members_within _ IH props st1 st2 ms Hr1
                (raw_free_walkable_members _ _ Hprint) E) as ([Hr2 Hlen2] & Hall).
    split; [split; [tauto | lia] |]. by intros j [= <-].
  - destruct (serialize_members _ st1 props) as [[st2 ms] | | |] eqn:E;
      simpl in H; try discriminate.
    injection H as <- <-.
    destruct (members_within _ IH props st1 st2 ms Hr1
                (raw_free_walkable_members _ _ Hprint) E) as ([Hr2 Hlen2] & Hall).
    split; [split; [tauto | lia] |]. by intros j [= <-].
Qed.

End encoder_walk_text.

(** The data [serializer] returns can be copied by the host. *)
Lemma serializer_data_cloneable (functions : nat → fn_info) (fuel : nat) (h : heap)
    (v : value) (h' : heap) (r : enc_result) :
  hooks_raw_free functions →
  raw_free v = true →
  serializer functions fuel h v = Ok (h', r) →
  cloneable (data r) = true.
Proof.
  intros hooks Hraw H. destruct fuel as [| fuel]; [done |].
  rewrite serializer_S in H. unfold JSON_stringify in H.
  destruct (SerializeJSONProperty _ _ _ _) as [[st text] | | |] eqn:E; simpl in H;
    try discriminate.
  destruct text as [j |]; [| done]. simpl in H.
  destruct (encoder_prints_within functions hooks _ (S fuel)
              {| st_heap := h; st_verbatim := [];
                 st_transferables := []; st_revokables := [] |}
              v st (Some j) (Forall_nil_2 _) (or_introl Hraw) E)
    as [[Hrefs _] Hj].
  destruct (Hj j eq_refl) as [Hin _].
  destruct (encoder_revives_cloneable (st_verbatim st) (Hrefs (Forall_nil_2 _)) j Hin)
    as (x & Hrun & Hcl & _).
  rewrite Hrun in H. simpl in H. by injection H as <- <-.
Qed.

(** * An array that starts with the sentinel, among plain data *)

(** [serializer] puts two more sentinels in front of it. *)
Lemma serializer_escapes (functions : nat → fn_info) (rest : list value) (h : heap)
    (fuel : nat) :
  forallb json_plain rest = true →
  sum_list_with weight rest + 1 < fuel →
  serializer functions fuel h (VArray (Some sentinel :: (Some <$> rest)))
    = Ok (h, {| data := VArray (Some sentinel :: Some sentinel :: Some sentinel
                                :: (Some <$> rest));
                transferables := []; revokables := [] |}).
Proof.
  intros Hplain Hfuel. destruct fuel as [| [| fuel]]; try lia.
  rewrite serializer_S. unfold JSON_stringify.
  rewrite SerializeJSONProperty_S. simpl.
  rewrite spread_Some.
  rewrite (encoder_prints_plain_list functions _ rest) by (done || lia). simpl.
  rewrite InternalizeJSONProperty_array. simpl.
  rewrite encoder_revives_plain_list by done. simpl.
  reflexivity.
Qed.

(** [deserializer] removes the two sentinels the encoder has put in front. *)
Lemma deserializer_unescapes (table : registry) (rest : list value) (h : heap)
    (fuel : nat) :
  forallb json_plain rest = true →
  rest ≠ [] →
  sum_list_with weight rest + 3 < fuel →
  deserializer fuel table h (VArray (Some sentinel :: Some sentinel :: (Some <$> rest)))
    = Ok (h, VArray (Some <$> rest)).
Proof.
  intros Hplain Hne Hfuel. destruct fuel as [| [| fuel]]; try lia.
  rewrite deserializer_S. unfold JSON_stringify.
  rewrite SerializeJSONProperty_S. simpl.
  rewrite spread_Some.
  rewrite (plain_prints_list deserializer_replacer decoder_prints_plain rest)
    by (done || lia).
  simpl. rewrite InternalizeJSONProperty_array. simpl.
  rewrite (plain_revives_list _ (decoder_revives_plain table _ []) rest) by done.
  simpl. apply deserializer_reviver_escaped.
  by destruct rest.
Qed.

(** * What is in the data is in the transfer list *)

Lemma transfer_of_same (l : loc) (o o' : hobj) :
  same_but_cause o o' → transfer_of l o' = transfer_of l o.
Proof. destruct o, o'; simpl; try done; by intros [= <-]. Qed.

Section encoder_covers.
Variable functions : nat → fn_info.

(** A call of the replacer adds at most one object to the verbatim table, an
    object of the heap, and then adds to the transferable set what has to be
    transferred for it. *)
Lemma serializer_replacer_pushes (rec : heap → value → outcome (heap * enc_result))
    (st : enc_state) (v : value) (st' : enc_state) (v' : value) :
  serializer_replacer functions rec st v = Ok (st', v') →
  st_verbatim st' = st_verbatim st
  ∨ ∃ l o, st_verbatim st' = st_verbatim st ++ [VRef l]
           ∧ st_heap st !! l = Some o
           ∧ transfer_of l o ⊆ st_transferables st'.
Proof.
  intros H. unfold serializer_replacer in H.
  destruct v; try (injection H as <- <-; by left);
    destruct (negb (truthy _)); try (injection H as <- <-; by left);
    try discriminate.
  - destruct (is_string "_" (array_get elems 0)); injection H as <- <-; by left.
  - destruct (truthy (fn_tag (functions ctor)) && truthy (fn_serialize (functions ctor))).
    + destruct (call functions _ _ _) as [payload | | |]; simpl in H; try discriminate.
      injection H as <- <-. by left.
    + injection H as <- <-. by left.
  - destruct (st_heap st !! l) as [o |] eqn:Hl; [| discriminate].
    right.
    destruct o;
      try (injection H as <- <-; eexists l, _; split; [done |]; split; [done |];
           simpl; try apply list_subseteq_nil;
           intros x Hx; apply list_elem_of_singleton in Hx; subst x;
           apply add_object_elem).
    apply replace_error_result in H as [Hvb _].
    eexists l, _. split; [done |]. split; [done |]. apply list_subseteq_nil.
Qed.

Lemma serializer_replacer_covers (rec : heap → value → outcome (heap * enc_result)) :
  (∀ h v h' r, rec h v = Ok (h', r) → heap_evolves h h') →
  ∀ st v st' v', serializer_replacer functions rec st v = Ok (st', v') →
    table_covered st → table_covered st'.
Proof.
  intros Hrec st v st' v' H Hcov.
  destruct (serializer_replacer_keeps functions rec Hrec st v st' v' H)
    as ((_ & Hold & _) & _ & _ & Hsub & _).
  assert (Hkeep : ∀ l o, st_heap st !! l = Some o →
            transfer_of l o ⊆ st_transferables st' →
            ∃ o', st_heap st' !! l = Some o' ∧ transfer_of l o' ⊆ st_transferables st').
  { intros l o Hl Ht. destruct (Hold l o Hl) as (o' & Hl' & Hsame).
    exists o'. split; [done |]. by rewrite (transfer_of_same l o o'). }
  intros l Hin.
  destruct (serializer_replacer_pushes rec st v st' v' H)
    as [Hvb | (l0 & o0 & Hvb & Hl0 & Ht0)]; rewrite Hvb in Hin.
  - destruct (Hcov l Hin) as (o & Hl & Ht). apply (Hkeep l o Hl). set_solver.
  - apply elem_of_app in Hin as [Hin | Hin].
    + destruct (Hcov l Hin) as (o & Hl & Ht). apply (Hkeep l o Hl). set_solver.
    + apply list_elem_of_singleton in Hin. injection Hin as ->.
      by apply (Hkeep l0 o0).
Qed.

(** The host objects of the data [serializer] returns are in the heap, with
    what has to be transferred for them in the list of transferables. *)
Lemma serializer_covers (fuel : nat) (h : heap) (v : value) (h' : heap) (r : enc_result) :
  hooks_raw_free functions →
  raw_free v = true →
  serializer functions fuel h v = Ok (h', r) →
  ∀ l, l ∈ refs_in (data r) →
    ∃ o, h' !! l = Some o ∧ transfer_of l o ⊆ transferables r.
Proof.
  intros hooks Hraw H. destruct fuel as [| fuel]; [done |].
  rewrite serializer_S in H. unfold JSON_stringify in H.
  destruct (SerializeJSONProperty _ _ _ _) as [[st text] | | |] eqn:E; simpl in H;
    try discriminate.
  destruct text as [j |]; [| done]. simpl in H.
  destruct (encoder_prints_within functions hooks _ (S fuel)
              {| st_heap := h; st_verbatim := [];
                 st_transferables := []; st_revokables := [] |}
              v st (Some j) (Forall_nil_2 _) (or_introl Hraw) E)
    as [[Hrefs _] Hj].
  destruct (Hj j eq_refl) as [Hin _].
  destruct (encoder_revives_cloneable (st_verbatim st) (Hrefs (Forall_nil_2 _)) j Hin)
    as (x & Hrun & _ & _ & _ & Hfrom).
  rewrite Hrun in H. simpl in H. injection H as <- <-. simpl.
  apply (SerializeJSONProperty_related _
           (λ st st', table_covered st → table_covered st')
           (λ st Hst, Hst) (λ a b c Hab Hbc Ha, Hbc (Hab Ha))
           (serializer_replacer_covers _ (serializer_evolves functions fuel))) in E.
  - intros l Hl. apply E. by apply Hfrom.
  - intros l' Hl'. by apply elem_of_nil in Hl'.
Qed.
End encoder_covers.

(** * The pair [['_', '_']] at the end of a path *)

(** ** The walks at one element of a list *)

Section lists_at.
Context {St : Type}.

Lemma serialize_elements_lookup (ser : St → value → outcome (St * option json))
    (l : list value) :
  ∀ st st' js i x,
    serialize_elements ser st l = Ok (st', js) → l !! i = Some x →
    ∃ st1 st2 jo, ser st1 x = Ok (st2, jo) ∧ js !! i = Some (default JNull jo).
Proof.
  induction l as [| v l IH]; intros st st' js i x H Hi; [done |].
  simpl in H.
  destruct (ser st v) as [[st1 jo] | | |] eqn:E1; simpl in H; try discriminate.
  destruct (serialize_elements ser st1 l) as [[st2 js2] | | |] eqn:E2;
    simpl in H; try discriminate.
  injection H as <- <-. destruct i as [| i].
  - injection Hi as ->. by exists st, st1, jo.
  - simpl in Hi. destruct (IH _ _ _ _ _ E2 Hi) as (sa & sb & jo' & Hser & Hjs).
    by exists sa, sb, jo'.
Qed.

Lemma serialize_members_lookup (ser : St → value → outcome (St * option json))
    (l : list (string * value)) :
  ∀ st st' ms k x,
    serialize_members ser st l = Ok (st', ms) → own_prop l k = Some x →
    ∃ st1 st2 jo, ser st1 x = Ok (st2, jo) ∧ ∀ j, jo = Some j → json_member ms k = Some j.
Proof.
  induction l as [| [k' v] l IH]; intros st st' ms k x H Hk; [done |].
  simpl in H, Hk.
  destruct (ser st v) as [[st1 jo] | | |] eqn:E1; simpl in H; try discriminate.
  destruct (serialize_members ser st1 l) as [[st2 ms2] | | |] eqn:E2;
    simpl in H; try discriminate.
  injection H as <- <-. destruct (String.eqb k' k) eqn:Hkk.
  - injection Hk as ->. exists st, st1, jo. split; [done |].
    intros j ->. simpl. by rewrite Hkk.
  - destruct (IH _ _ _ _ _ E2 Hk) as (sa & sb & jo' & Hser & Hms).
    exists sa, sb, jo'. split; [done |]. intros j Hj.
    destruct jo as [j0 |]; simpl; [rewrite Hkk |]; by apply Hms.
Qed.

Lemma internalize_elements_lookup (int : St → json → outcome (St * value))
    (items : list json) :
  ∀ st st' elems i j,
    internalize_elements int st items = Ok (st', elems) → items !! i = Some j →
    ∃ st1 st2 v, int st1 j = Ok (st2, v) ∧ elems !! i = Some (slot_of v).
Proof.
  induction items as [| j0 items IH]; intros st st' elems i j H Hi; [done |].
  simpl in H.
  destruct (int st j0) as [[st1 v] | | |] eqn:E1; simpl in H; try discriminate.
  destruct (internalize_elements int st1 items) as [[st2 vs] | | |] eqn:E2;
    simpl in H; try discriminate.
  injection H as <- <-. destruct i as [| i].
  - injection Hi as ->. by exists st, st1, v.
  - simpl in Hi. destruct (IH _ _ _ _ _ E2 Hi) as (sa & sb & v' & Hint & Hel).
    by exists sa, sb, v'.
Qed.

Lemma internalize_members_lookup (int : St → json → outcome (St * value))
    (members : list (string * json)) :
  ∀ st st' props k j,
    internalize_members int st members = Ok (st', props) → json_member members k = Some j →
    ∃ st1 st2 v, int st1 j = Ok (st2, v) ∧ (v ≠ VUndefined → own_prop props k = Some v).
Proof.
  induction members as [| [k' j0] members IH]; intros st st' props k j H Hk; [done |].
  simpl in H, Hk.
  destruct (int st j0) as [[st1 v] | | |] eqn:E1; simpl in H; try discriminate.
  destruct (internalize_members int st1 members) as [[st2 ps] | | |] eqn:E2;
    simpl in H; try discriminate.
  injection H as <- <-. destruct (String.eqb k' k) eqn:Hkk.
  - injection Hk as ->. exists st, st1, v. split; [done |].
    intros Hv. destruct v; try done; simpl; by rewrite Hkk.
  - destruct (IH _ _ _ _ _ E2 Hk) as (sa & sb & v' & Hint & Hps).
    exists sa, sb, v'. split; [done |]. intros Hv.
    destruct v; simpl; rewrite ?Hkk; by apply Hps.
Qed.
End lists_at.

Lemma spread_lookup (elems : list (option value)) (i : nat) (x : value) :
  elems !! i = Some (Some x) → spread elems !! i = Some x.
Proof. intros H. unfold spread. by rewrite list_lookup_fmap, H. Qed.

Lemma spread_first (elems : list (option value)) :
  head (spread elems) = (λ _, array_get elems 0) <$> head elems.
Proof. by destruct elems as [| [x |] elems]. Qed.

(** What has the pair somewhere in it is not [undefined]. *)
Lemma escaped_in_defined (path : list step) (d : value) :
  escaped_in path d → slot_of d = Some d.
Proof.
  destruct path as [| [i | k] rest]; simpl.
  - by intros ->.
  - by intros (elems & x & -> & _).
  - by intros (props & x & -> & _).
Qed.

Lemma member_at_value_at (path : list step) :
  ∀ v x, member_at path v = Some x → value_at path v = Some x.
Proof.
  induction path as [| [i | k] rest IH]; intros v x H; simpl in *; [done | |].
  - destruct v; try discriminate.
    destruct (elems !! i) as [[y |] |]; try discriminate. by apply IH.
  - destruct v; try discriminate.
    destruct (is_function (get_prop props "toJSON")); [discriminate |].
    destruct (own_prop props k) as [y |]; try discriminate. by apply IH.
Qed.

Lemma value_at_defined (path : list step) (v x : value) :
  value_at path v = Some x → x ≠ VUndefined → slot_of v = Some v.
Proof.
  destruct path as [| [i | k] rest]; simpl.
  - intros [= ->] Hx. by destruct x.
  - by destruct v.
  - by destruct v.
Qed.

(** ** Where a string in the text comes from *)

Lemma serialize_value_string {St} (ser : St → value → outcome (St * option json))
    (st st' : St) (v : value) (s : string) :
  serialize_value ser st v = Ok (st', Some (JString s)) → v = VString s.
Proof.
  destruct v; simpl; intros H; try discriminate.
  - by destruct n as [[] | | |].
  - by injection H as <- <-.
  - by destruct (serialize_elements ser st (spread elems)) as [[? ?] | | |].
  - by destruct (serialize_elements ser st elems) as [[? ?] | | |].
  - by destruct (serialize_members ser st props) as [[? ?] | | |].
  - by destruct (serialize_members ser st props) as [[? ?] | | |].
Qed.

Lemma serializer_replacer_string_origin (functions : nat → fn_info)
    (rec : heap → value → outcome (heap * enc_result))
    (st st' : enc_state) (v : value) (s : string) :
  serializer_replacer functions rec st v = Ok (st', VString s) → v = VString s.
Proof.
  intros H. unfold serializer_replacer in H.
  destruct v; try discriminate; try (by injection H as <- <-);
    destruct (negb (truthy _)); try discriminate; try (by injection H as <- <-).
  - by destruct (is_string "_" (array_get elems 0)).
  - destruct (truthy (fn_tag (functions ctor)) && truthy (fn_serialize (functions ctor))).
    + by destruct (call functions _ _ _) as [payload | | |].
    + discriminate.
  - destruct (st_heap st !! l) as [o |] eqn:Hl; [| discriminate].
    destruct o; try discriminate.
    by apply replace_error_result in H as [_ [n [=]]].
Qed.

Lemma encoder_prints_string (functions : nat → fn_info)
    (rec : heap → value → outcome (heap * enc_result))
    (f : nat) (st st' : enc_state) (v : value) (s : string) :
  SerializeJSONProperty (serializer_replacer functions rec) f st v
    = Ok (st', Some (JString s)) →
  v = VString s.
Proof.
  destruct f as [| f]; [done |]. rewrite SerializeJSONProperty_S.
  destruct (is_function (toJSON_of v)); [done |].
  destruct (serializer_replacer functions rec st v) as [[st1 v1] | | |] eqn:Hrep;
    simpl; try done.
  intros H. apply serialize_value_string in H as ->.
  by apply serializer_replacer_string_origin in Hrep.
Qed.

Lemma decoder_prints_string (f : nat) (vb vb' : list value) (v : value) (s : string) :
  SerializeJSONProperty deserializer_replacer f vb v = Ok (vb', Some (JString s)) →
  v = VString s.
Proof.
  destruct f as [| f]; [done |]. rewrite SerializeJSONProperty_S.
  destruct (is_function (toJSON_of v)); [done |].
  destruct (deserializer_replacer vb v) as [[vb1 v1] | | |] eqn:Hrep; simpl; try done.
  intros H. apply serialize_value_string in H as ->.
  destruct v; simpl in Hrep; injection Hrep as _ Hv; try discriminate.
  by rewrite Hv.
Qed.

(** The first text of an array comes from its first element. *)
Lemma first_text_not_sentinel {St} (ser : St → value → outcome (St * option json))
    (elems : list (option value)) (st st' : St) (js : list json) :
  (∀ st st' x s, ser st x = Ok (st', Some (JString s)) → x = VString s) →
  is_string "_" (array_get elems 0) = false →
  serialize_elements ser st (spread elems) = Ok (st', js) →
  is_sentinel_text (default JNull (head js)) = false.
Proof.
  intros Horigin Hfirst H. destruct elems as [| o elems].
  - simpl in H. by injection H as <- <-.
  - simpl in H.
    destruct (ser st (default VUndefined o)) as [[st1 jo] | | |] eqn:E1; simpl in H;
      try discriminate.
    destruct (serialize_elements ser st1 _) as [[st2 js2] | | |]; simpl in H;
      try discriminate.
    injection H as <- <-. simpl.
    destruct jo as [[| | | s | |] |]; try done. simpl.
    apply Horigin in E1.
    assert (Hget : array_get (o :: elems) 0 = default VUndefined o) by (by destruct o).
    rewrite Hget, E1 in Hfirst. exact Hfirst.
Qed.

Lemma InternalizeJSONProperty_null {St} (rev : St → value → outcome (St * value)) st :
  InternalizeJSONProperty rev st JNull = rev st VNull.
Proof. reflexivity. Qed.

Lemma InternalizeJSONProperty_bool {St} (rev : St → value → outcome (St * value)) st b :
  InternalizeJSONProperty rev st (JBool b) = rev st (VBool b).
Proof. reflexivity. Qed.

Lemma InternalizeJSONProperty_number {St} (rev : St → value → outcome (St * value)) st n :
  InternalizeJSONProperty rev st (JNumber n) = rev st (VNumber n).
Proof. reflexivity. Qed.

Lemma InternalizeJSONProperty_string {St} (rev : St → value → outcome (St * value)) st s :
  InternalizeJSONProperty rev st (JString s) = rev st (VString s).
Proof. reflexivity. Qed.

(** What a reference to the verbatim table stands for. *)
Lemma verbatim_get_result (verbatim : list value) (k x : value) :
  verbatim_get verbatim k = Ok x → x = VUndefined ∨ x ∈ verbatim.
Proof.
  destruct k; try discriminate. simpl. intros [= <-].
  destruct (index_of_number n) as [i |]; [| by left].
  destruct (verbatim !! i) as [y |] eqn:Hy; [| by left].
  right. by eapply list_elem_of_lookup_2.
Qed.

Lemma encoder_revives_string (verbatim : list value) (j : json) (s : string) :
  Forall (λ x, is_ref x = true) verbatim →
  InternalizeJSONProperty (serializer_reviver verbatim) tt j = Ok (tt, VString s) →
  j = JString s.
Proof.
  intros Hrefs H. destruct j as [| b | n | s' | items | members].
  - discriminate.
  - discriminate.
  - discriminate.
  - rewrite InternalizeJSONProperty_string in H. by injection H as ->.
  - rewrite InternalizeJSONProperty_array in H.
    destruct (internalize_elements _ _ _) as [[[] elems] | | |]; simpl in H;
      try discriminate.
    unfold serializer_reviver in H. simpl in H.
    destruct (is_string "_" (array_get elems 0) && is_string "_ref" (array_get elems 1));
      [| discriminate].
    destruct (verbatim_get verbatim (array_get elems 2)) as [x | | |] eqn:Hget;
      simpl in H; try discriminate.
    injection H as ->.
    apply verbatim_get_result in Hget as [? | Hin]; [done |].
    rewrite Forall_forall in Hrefs. by specialize (Hrefs _ Hin).
  - rewrite InternalizeJSONProperty_object in H.
    by destruct (internalize_members _ _ _) as [[[] props] | | |].
Qed.

Lemma Map_from_result (v m : value) : Map_from v = Ok m → ∃ entries, m = VMap entries.
Proof.
  unfold Map_from. intros H.
  destruct v; try (injection H as <-; by eexists);
    destruct (iterate _) as [items | | |]; simpl in H; try discriminate;
    destruct (entries_of items) as [kvs | | |]; simpl in H; try discriminate;
    injection H as <-; by eexists.
Qed.

Lemma Set_from_result (v s : value) : Set_from v = Ok s → ∃ elems, s = VSet elems.
Proof.
  unfold Set_from. intros H.
  destruct v; try (injection H as <-; by eexists);
    destruct (iterate _) as [items | | |]; simpl in H; try discriminate;
    injection H as <-; by eexists.
Qed.

Lemma revive_error_result (rec : heap → value → outcome (heap * value))
    (h h' : heap) (target carried x : value) :
  revive_error rec h target carried = Ok (h', x) → ∃ l, x = VRef l.
Proof.
  unfold revive_error. intros H. destruct target; try discriminate.
  destruct (h !! l) as [[| | n m c | | | | |] |]; try discriminate.
  destruct carried; try discriminate.
  destruct (truthy c).
  - destruct (rec _ c) as [[h2 c'] | | |]; simpl in H; try discriminate.
    destruct (h2 !! l) as [[| | n2 m2 c2 | | | | |] |]; try discriminate.
    injection H as <- <-. by eexists.
  - injection H as <- <-. by eexists.
Qed.

Section pair_at_path.
Variable functions : nat → fn_info.
Variable table : registry.

Lemma decoder_revives_sentinel (rec : heap → value → outcome (heap * value))
    (verbatim : list value) (h h' : heap) (j : json) :
  hooks_keep_sentinel table →
  Forall (λ x, is_string "_" x = false) verbatim →
  InternalizeJSONProperty (deserializer_reviver table rec verbatim) h j = Ok (h', sentinel) →
  j = JString "_".
Proof.
  intros Hhooks Hvb H. destruct j as [| b | n | s' | items | members].
  - discriminate.
  - discriminate.
  - discriminate.
  - rewrite InternalizeJSONProperty_string in H. by injection H as _ ->.
  - rewrite InternalizeJSONProperty_array in H.
    destruct (internalize_elements _ _ _) as [[h1 elems] | | |]; simpl in H;
      try discriminate.
    unfold deserializer_reviver in H. simpl in H.
    destruct (is_string "_" (array_get elems 0)); [| discriminate].
    destruct (array_get elems 1) as [| | | | | kind | | | | | | | | |]; try discriminate.
    destruct (String.eqb kind "_").
    { by destruct elems as [| ? [| ? [| ? ?]]]. }
    destruct (String.eqb kind "Map").
    { destruct (Map_from _) as [m | | |] eqn:Hm; simpl in H; try discriminate.
      apply Map_from_result in Hm as [entries ->]. discriminate. }
    destruct (String.eqb kind "Set").
    { destruct (Set_from _) as [m | | |] eqn:Hm; simpl in H; try discriminate.
      apply Set_from_result in Hm as [entries ->]. discriminate. }
    destruct (String.eqb kind "_custom").
    { unfold revive_custom in H.
      destruct (array_get elems 2) as [| | | | | tag | | | | | | | | |]; try discriminate.
      destruct (table !! tag) as [hook |] eqn:Htag; [| discriminate].
      destruct (hook (array_get elems 3)) as [x | | |] eqn:Hcall; simpl in H;
        try discriminate.
      injection H as _ ->. by specialize (Hhooks _ _ _ _ Htag Hcall). }
    destruct (String.eqb kind "_ref").
    { destruct (verbatim_get verbatim (array_get elems 2)) as [x | | |] eqn:Hget;
        simpl in H; try discriminate.
      injection H as _ ->.
      apply verbatim_get_result in Hget as [? | Hin]; [done |].
      rewrite Forall_forall in Hvb. by specialize (Hvb _ Hin). }
    destruct (String.eqb kind "_err").
    { apply revive_error_result in H as [l [=]]. }
    destruct (String.eqb kind "_fn"); discriminate.
  - rewrite InternalizeJSONProperty_object in H.
    by destruct (internalize_members _ _ _) as [[h1 props] | | |].
Qed.

(** The first pass of the encoder: the pair is printed escaped, at the end of
    the path through the text. *)
Lemma encoder_prints_at (rec : heap → value → outcome (heap * enc_result))
    (path : list step) :
  ∀ f st v st' jo,
    value_at path v = Some (VArray [Some sentinel; Some sentinel]) →
    SerializeJSONProperty (serializer_replacer functions rec) f st v = Ok (st', jo) →
    ∃ j, jo = Some j ∧ escaped_at path j.
Proof.
  induction path as [| [i | k] rest IH]; intros f st v st' jo Hat H.
  - injection Hat as ->. destruct f as [| [| f]]; [done | by vm_compute in H |].
    rewrite SerializeJSONProperty_S in H. simpl in H.
    rewrite ?stringify_string in H. simpl in H. injection H as <- <-. by eexists.
  - simpl in Hat. destruct v as [| | | | | | elems | | | | | | | |]; try discriminate.
    destruct (elems !! i) as [[x |] |] eqn:Hi; try discriminate.
    destruct f as [| f]; [done |]. rewrite SerializeJSONProperty_S in H. simpl in H.
    destruct (is_string "_" (array_get elems 0)) eqn:Hfirst; simpl in H.
    + destruct f as [| f]; [done |]. rewrite ?stringify_string in H. simpl in H.
      destruct (serialize_elements _ st (spread elems)) as [[st2 js] | | |] eqn:E;
        simpl in H; try discriminate.
      injection H as <- <-.
      destruct (serialize_elements_lookup _ _ _ _ _ _ _ E (spread_lookup _ _ _ Hi))
        as (sa & sb & jo' & Hser & Hjs).
      destruct (IH _ _ _ _ _ Hat Hser) as (j & -> & Hj).
      eexists. split; [done |]. simpl. eexists _, j. split; [done |]. split; [done |].
      left. by exists js.
    + destruct (serialize_elements _ st (spread elems)) as [[st2 js] | | |] eqn:E;
        simpl in H; try discriminate.
      injection H as <- <-.
      destruct (serialize_elements_lookup _ _ _ _ _ _ _ E (spread_lookup _ _ _ Hi))
        as (sa & sb & jo' & Hser & Hjs).
      destruct (IH _ _ _ _ _ Hat Hser) as (j & -> & Hj).
      eexists. split; [done |]. simpl. eexists _, j. split; [done |]. split; [done |].
      right. split; [| done].
      apply (first_text_not_sentinel _ _ _ _ _
               (λ st st' x s, encoder_prints_string functions rec f st st' x s) Hfirst E).
  - simpl in Hat. destruct v as [| | | | | | | | props | | | | | |]; try discriminate.
    destruct (own_prop props k) as [x |] eqn:Hk; try discriminate.
    destruct f as [| f]; [done |]. rewrite SerializeJSONProperty_S in H. simpl in H.
    destruct (is_function (get_prop props "toJSON")); [discriminate |]. simpl in H.
    destruct (serialize_members _ st props) as [[st2 ms] | | |] eqn:E;
      simpl in H; try discriminate.
    injection H as <- <-.
    destruct (serialize_members_lookup _ _ _ _ _ _ _ E Hk) as (sa & sb & jo' & Hser & Hms).
    destruct (IH _ _ _ _ _ Hat Hser) as (j & -> & Hj).
    eexists. split; [done |]. simpl. eexists _, j. split; [done |]. split; [| done].
    by apply Hms.
Qed.

(** The second pass of the encoder: the data has the escaped pair at the end
    of the path. *)
Lemma encoder_revives_at (verbatim : list value) (path : list step) :
  Forall (λ x, is_ref x = true) verbatim →
  ∀ j d,
    escaped_at path j →
    InternalizeJSONProperty (serializer_reviver verbatim) tt j = Ok (tt, d) →
    escaped_in path d.
Proof.
  intros Hrefs. induction path as [| [i | k] rest IH]; intros j d Hj H; simpl in Hj.
  - subst j. vm_compute in H. by injection H as <-.
  - destruct Hj as (items & x & -> & Hx & Hcase).
    rewrite InternalizeJSONProperty_array in H.
    destruct (internalize_elements _ _ items) as [[[] elems] | | |] eqn:E; simpl in H;
      try discriminate.
    destruct Hcase as [(tail & -> & Hi) | [Hfirst Hi]].
    + simpl in E. rewrite ?InternalizeJSONProperty_string in E. simpl in E.
      destruct (internalize_elements _ _ tail) as [[[] etail] | | |] eqn:E';
        simpl in E; try discriminate.
      injection E as <-.
      destruct (internalize_elements_lookup _ _ _ _ _ _ _ E' Hi)
        as ([] & [] & x' & Hint & Hel).
      specialize (IH _ _ Hx Hint). rewrite (escaped_in_defined _ _ IH) in Hel.
      unfold serializer_reviver in H. simpl in H. injection H as <-.
      simpl. eexists _, x'. split; [done |]. split; [done |]. left. by eexists.
    + destruct (internalize_elements_lookup _ _ _ _ _ _ _ E Hi)
        as ([] & [] & x' & Hint & Hel).
      specialize (IH _ _ Hx Hint). rewrite (escaped_in_defined _ _ IH) in Hel.
      assert (Hnot : is_string "_" (array_get elems 0) = false).
      { destruct items as [| j0 items]; [done |]. simpl in E, Hfirst.
        destruct (InternalizeJSONProperty _ tt j0) as [[[] x0] | | |] eqn:E0;
          simpl in E; try discriminate.
        destruct (internalize_elements _ _ items) as [[[] rest0] | | |];
          simpl in E; try discriminate.
        injection E as <-. unfold array_get. simpl. rewrite default_slot_of.
        destruct x0 as [| | | | | s0 | | | | | | | | |]; try done.
        apply encoder_revives_string in E0; [| done]. subst j0. exact Hfirst. }
      unfold serializer_reviver in H. simpl in H. rewrite Hnot in H. simpl in H.
      injection H as <-.
      simpl. eexists _, x'. split; [done |]. split; [done |]. by right.
  - destruct Hj as (members & x & -> & Hk & Hx).
    rewrite InternalizeJSONProperty_object in H.
    destruct (internalize_members _ _ members) as [[[] props] | | |] eqn:E; simpl in H;
      try discriminate.
    injection H as <-.
    destruct (internalize_members_lookup _ _ _ _ _ _ _ E Hk)
      as ([] & [] & x' & Hint & Hel).
    specialize (IH _ _ Hx Hint).
    simpl. eexists _, x'. split; [done |]. split; [| done].
    apply Hel. intros ->. by apply escaped_in_defined in IH.
Qed.

(** The first pass of the decoder. *)
Lemma decoder_prints_at (path : list step) :
  ∀ f vb d vb' jo,
    escaped_in path d →
    SerializeJSONProperty deserializer_replacer f vb d = Ok (vb', jo) →
    ∃ j, jo = Some j ∧ escaped_at path j.
Proof.
  induction path as [| [i | k] rest IH]; intros f vb d vb' jo Hd H; simpl in Hd.
  - subst d. destruct f as [| [| f]]; [done | by vm_compute in H |].
    rewrite SerializeJSONProperty_S in H. simpl in H.
    rewrite ?deserializer_stringify_string in H. simpl in H.
    injection H as <- <-. by eexists.
  - destruct Hd as (elems & x & -> & Hx & Hcase).
    destruct f as [| f]; [done |]. rewrite SerializeJSONProperty_S in H. simpl in H.
    destruct (serialize_elements _ vb (spread elems)) as [[vb2 js] | | |] eqn:E;
      simpl in H; try discriminate.
    injection H as <- <-.
    destruct Hcase as [(tail & -> & Hi) | [Hfirst Hi]].
    + simpl in E. destruct f as [| f]; [done |].
      rewrite ?deserializer_stringify_string in E. simpl in E.
      destruct (serialize_elements _ vb (spread tail)) as [[vb3 js3] | | |] eqn:E';
        simpl in E; try discriminate.
      injection E as <- <-.
      destruct (serialize_elements_lookup _ _ _ _ _ _ _ E' (spread_lookup _ _ _ Hi))
        as (sa & sb & jo' & Hser & Hjs).
      destruct (IH _ _ _ _ _ Hx Hser) as (j & -> & Hj).
      eexists. split; [done |]. simpl. eexists _, j. split; [done |]. split; [done |].
      left. by exists js3.
    + destruct (serialize_elements_lookup _ _ _ _ _ _ _ E (spread_lookup _ _ _ Hi))
        as (sa & sb & jo' & Hser & Hjs).
      destruct (IH _ _ _ _ _ Hx Hser) as (j & -> & Hj).
      eexists. split; [done |]. simpl. eexists _, j. split; [done |]. split; [done |].
      right. split; [| done].
      apply (first_text_not_sentinel _ _ _ _ _
               (λ st st' x s, decoder_prints_string f st st' x s) Hfirst E).
  - destruct Hd as (props & x & -> & Hk & Hx).
    destruct f as [| f]; [done |]. rewrite SerializeJSONProperty_S in H. simpl in H.
    destruct (is_function (get_prop props "toJSON")); [discriminate |]. simpl in H.
    destruct (serialize_members _ vb props) as [[vb2 ms] | | |] eqn:E;
      simpl in H; try discriminate.
    injection H as <- <-.
    destruct (serialize_members_lookup _ _ _ _ _ _ _ E Hk) as (sa & sb & jo' & Hser & Hms).
    destruct (IH _ _ _ _ _ Hx Hser) as (j & -> & Hj).
    eexists. split; [done |]. simpl. eexists _, j. split; [done |]. split; [| done].
    by apply Hms.
Qed.

(** The second pass of the decoder: the pair is back at the end of the
    path. *)
Lemma decoder_revives_at (rec : heap → value → outcome (heap * value))
    (verbatim : list value) (path : list step) :
  hooks_keep_sentinel table →
  Forall (λ x, is_string "_" x = false) verbatim →
  ∀ j h h' v',
    escaped_at path j →
    InternalizeJSONProperty (deserializer_reviver table rec verbatim) h j = Ok (h', v') →
    value_at path v' = Some (VArray [Some sentinel; Some sentinel]).
Proof.
  intros Hhooks Hvb.
  induction path as [| [i | k] rest IH]; intros j h h' v' Hj H; simpl in Hj.
  - subst j. vm_compute in H. by injection H as _ <-.
  - destruct Hj as (items & x & -> & Hx & Hcase).
    rewrite InternalizeJSONProperty_array in H.
    destruct (internalize_elements _ _ items) as [[h1 elems] | | |] eqn:E; simpl in H;
      try discriminate.
    destruct Hcase as [(tail & -> & Hi) | [Hfirst Hi]].
    + simpl in E. rewrite ?InternalizeJSONProperty_string in E. simpl in E.
      destruct (internalize_elements _ _ tail) as [[h2 etail] | | |] eqn:E';
        simpl in E; try discriminate.
      injection E as <- <-.
      destruct (internalize_elements_lookup _ _ _ _ _ _ _ E' Hi)
        as (ha & hb & x' & Hint & Hel).
      specialize (IH _ _ _ _ Hx Hint).
      rewrite (value_at_defined _ _ _ IH) in Hel by done.
      destruct etail as [| e etail]; [done |].
      unfold deserializer_reviver in H. simpl in H.
      injection H as _ <-. simpl. simpl in Hel. by rewrite Hel.
    + destruct (internalize_elements_lookup _ _ _ _ _ _ _ E Hi)
        as (ha & hb & x' & Hint & Hel).
      specialize (IH _ _ _ _ Hx Hint).
      rewrite (value_at_defined _ _ _ IH) in Hel by done.
      assert (Hnot : is_string "_" (array_get elems 0) = false).
      { destruct items as [| j0 items]; [done |]. simpl in E, Hfirst.
        destruct (InternalizeJSONProperty _ h j0) as [[h0 x0] | | |] eqn:E0;
          simpl in E; try discriminate.
        destruct (internalize_elements _ _ items) as [[h3 rest0] | | |];
          simpl in E; try discriminate.
        injection E as _ <-. unfold array_get. simpl. rewrite default_slot_of.
        destruct x0 as [| | | | | s0 | | | | | | | | |]; try done.
        simpl. destruct (String.eqb_spec s0 "_") as [-> | Hne]; [| done].
        apply decoder_revives_sentinel in E0; [| done | done]. by subst j0. }
      unfold deserializer_reviver in H. simpl in H. rewrite Hnot in H.
      injection H as _ <-. simpl. by rewrite Hel.
  - destruct Hj as (members & x & -> & Hk & Hx).
    rewrite InternalizeJSONProperty_object in H.
    destruct (internalize_members _ _ members) as [[h1 props] | | |] eqn:E; simpl in H;
      try discriminate.
    injection H as _ <-.
    destruct (internalize_members_lookup _ _ _ _ _ _ _ E Hk)
      as (ha & hb & x' & Hint & Hel).
    specialize (IH _ _ _ _ Hx Hint).
    simpl. rewrite Hel; [done |].
    intros ->. by apply value_at_defined in IH.
Qed.

(** The decoder's table holds objects, never the string ['_']. *)
Lemma decoder_table_objects (f : nat) (vb : list value) (v : value)
    (vb' : list value) (jo : option json) :
  SerializeJSONProperty deserializer_replacer f vb v = Ok (vb', jo) →
  Forall (λ x, is_string "_" x = false) vb →
  Forall (λ x, is_string "_" x = false) vb'.
Proof.
  apply (SerializeJSONProperty_related deserializer_replacer
           (λ vb vb', Forall (λ x, is_string "_" x = false) vb
                      → Forall (λ x, is_string "_" x = false) vb')).
  - done.
  - intros a b c Hab Hbc Ha. by apply Hbc, Hab.
  - intros st x st' x' Hrep Hst.
    destruct x; simpl in Hrep; injection Hrep as <- <-; try done;
      apply Forall_app; split; try done; by constructor.
Qed.

(** The pair [['_', '_']] at the end of a path through arrays and plain
    objects is there again after the round trip, whatever else the value
    holds, whenever the two calls return. *)
Lemma pair_survives_at (path : list step) (v : value) (h h1 h2 : heap)
    (r : enc_result) (v' : value) (f1 f2 : nat) :
  value_at path v = Some (VArray [Some sentinel; Some sentinel]) →
  hooks_keep_sentinel table →
  serializer functions f1 h v = Ok (h1, r) →
  deserializer f2 table h1 (data r) = Ok (h2, v') →
  value_at path v' = Some (VArray [Some sentinel; Some sentinel]).
Proof.
  intros Hat Hhooks Hser Hde.
  destruct f1 as [| f1]; [done |]. rewrite serializer_S in Hser.
  unfold JSON_stringify in Hser.
  destruct (SerializeJSONProperty _ _ _ v) as [[st text] | | |] eqn:E1; simpl in Hser;
    try discriminate.
  destruct (encoder_prints_at _ _ _ _ _ _ _ Hat E1) as (j & -> & Hj).
  simpl in Hser.
  destruct (InternalizeJSONProperty _ tt j) as [[[] d] | | |] eqn:E2; simpl in Hser;
    try discriminate.
  injection Hser as <- <-. simpl in Hde.
  assert (Hrefs : Forall (λ x, is_ref x = true) (st_verbatim st)).
  { apply (SerializeJSONProperty_related _ table_grows table_grows_refl table_grows_trans
             (serializer_replacer_table functions _)) in E1.
    by apply E1. }
  pose proof (encoder_revives_at _ _ Hrefs _ _ Hj E2) as Hd.
  destruct f2 as [| f2]; [done |]. rewrite deserializer_S in Hde.
  unfold JSON_stringify in Hde.
  destruct (SerializeJSONProperty _ _ _ d) as [[vb text] | | |] eqn:E3; simpl in Hde;
    try discriminate.
  destruct (decoder_prints_at _ _ _ _ _ _ Hd E3) as (j' & -> & Hj').
  simpl in Hde.
  apply (decoder_revives_at _ vb path Hhooks
           (decoder_table_objects _ _ _ _ _ E3 (Forall_nil_2 _)) _ _ _ _ Hj' Hde).
Qed.
End pair_at_path.

(** ** The array [['_', '_']] *)




(** * A [_custom] array at the end of a path *)

Section unknown_tag_at_path.
Variable table : registry.
Variable tag : string.
Hypothesis Hnone : table !! tag = None.

(** The reviver refuses the text of an array that carries the tag. *)
Lemma unknown_tag_text_refused (rec : heap → value → outcome (heap * value))
    (verbatim : list value) (h h' : heap) (v' : value) (js : list json) :
  InternalizeJSONProperty (deserializer_reviver table rec verbatim) h
      (JArray (JString "_" :: JString "_custom" :: JString tag :: js))
    ≠ Ok (h', v').
Proof.
  rewrite InternalizeJSONProperty_array. simpl.
  rewrite ?InternalizeJSONProperty_string. simpl.
  destruct (internalize_elements _ h js) as [[h1 rest] | | |]; simpl; try discriminate.
  unfold deserializer_reviver. simpl. by rewrite Hnone.
Qed.

(** The decoder's first pass prints the array with its first three slots as
    they are. *)
Lemma unknown_tag_printed (f : nat) (vb vb' : list value) (jo : option json)
    (rest : list (option value)) :
  SerializeJSONProperty deserializer_replacer f vb
      (VArray (Some sentinel :: Some (VString "_custom") :: Some (VString tag) :: rest))
    = Ok (vb', jo) →
  ∃ js, jo = Some (JArray (JString "_" :: JString "_custom" :: JString tag :: js)).
Proof.
  intros H. destruct f as [| [| f]]; [done | done |].
  rewrite SerializeJSONProperty_S in H. simpl in H.
  rewrite ?deserializer_stringify_string in H. simpl in H.
  destruct (serialize_elements _ vb (spread rest)) as [[vb2 js] | | |]; simpl in H;
    try discriminate.
  injection H as <- <-. by eexists.
Qed.

(** Wherever the array is, the text the first pass prints is one the second
    pass does not return on. *)
Lemma unknown_tag_refused_at (path : list step) :
  ∀ v rest f vb vb' jo,
    value_at path v
      = Some (VArray (Some sentinel :: Some (VString "_custom")
                      :: Some (VString tag) :: rest)) →
    SerializeJSONProperty deserializer_replacer f vb v = Ok (vb', jo) →
    ∃ j, jo = Some j
      ∧ ∀ rec verbatim h h' v',
          InternalizeJSONProperty (deserializer_reviver table rec verbatim) h j
            ≠ Ok (h', v').
Proof.
  induction path as [| [i | k] tail IH]; intros v rest f vb vb' jo Hat H.
  - injection Hat as ->. apply unknown_tag_printed in H as [js ->].
    eexists. split; [done |]. intros rec verbatim h h' v'.
    apply unknown_tag_text_refused.
  - simpl in Hat. destruct v as [| | | | | | elems | | | | | | | |]; try discriminate.
    destruct (elems !! i) as [[x |] |] eqn:Hi; try discriminate.
    destruct f as [| f]; [done |]. rewrite SerializeJSONProperty_S in H. simpl in H.
    destruct (serialize_elements _ vb (spread elems)) as [[vb2 js] | | |] eqn:E;
      simpl in H; try discriminate.
    injection H as <- <-.
    destruct (serialize_elements_lookup _ _ _ _ _ _ _ E (spread_lookup _ _ _ Hi))
      as (sa & sb & jo' & Hser & Hjs).
    destruct (IH _ _ _ _ _ _ Hat Hser) as (j & -> & Hj).
    eexists. split; [done |]. intros rec verbatim h h' v' Hint.
    rewrite InternalizeJSONProperty_array in Hint.
    destruct (internalize_elements _ h js) as [[h1 elems'] | | |] eqn:E';
      simpl in Hint; try discriminate.
    destruct (internalize_elements_lookup _ _ _ _ _ _ _ E' Hjs)
      as (ha & hb & x' & Hx' & _).
    by apply Hj in Hx'.
  - simpl in Hat. destruct v as [| | | | | | | | props | | | | | |]; try discriminate.
    destruct (own_prop props k) as [x |] eqn:Hk; try discriminate.
    destruct f as [| f]; [done |]. rewrite SerializeJSONProperty_S in H. simpl in H.
    destruct (is_function (get_prop props "toJSON")); [discriminate |]. simpl in H.
    destruct (serialize_members _ vb props) as [[vb2 ms] | | |] eqn:E;
      simpl in H; try discriminate.
    injection H as <- <-.
    destruct (serialize_members_lookup _ _ _ _ _ _ _ E Hk) as (sa & sb & jo' & Hser & Hms).
    destruct (IH _ _ _ _ _ _ Hat Hser) as (j & -> & Hj).
    eexists. split; [done |]. intros rec verbatim h h' v' Hint.
    rewrite InternalizeJSONProperty_object in Hint.
    destruct (internalize_members _ h ms) as [[h1 props'] | | |] eqn:E';
      simpl in Hint; try discriminate.
    destruct (internalize_members_lookup _ _ _ _ _ _ _ E' (Hms _ eq_refl))
      as (ha & hb & x' & Hx' & _).
    by apply Hj in Hx'.
Qed.

(** An input that has, at the end of a path through arrays and plain
    objects, a [_custom] array whose tag the registry does not know is never
    decoded. *)
Lemma unknown_tag_never_decodes (path : list step) (v : value)
    (rest : list (option value)) (fuel : nat) (h h' : heap) (v' : value) :
  member_at path v
    = Some (VArray (Some sentinel :: Some (VString "_custom")
                    :: Some (VString tag) :: rest)) →
  deserializer fuel table h v ≠ Ok (h', v').
Proof.
  intros Hat Hde. apply member_at_value_at in Hat.
  destruct fuel as [| fuel]; [done |].
  rewrite deserializer_S in Hde. unfold JSON_stringify in Hde.
  destruct (SerializeJSONProperty _ _ _ v) as [[vb text] | | |] eqn:E; simpl in Hde;
    try discriminate.
  destruct (unknown_tag_refused_at _ _ _ _ _ _ _ Hat E) as (j & -> & Hj).
  simpl in Hde. by apply Hj in Hde.
Qed.
End unknown_tag_at_path.

(** ** Custom tags *)

(** C2 as stated fails: an entry for the carried tag does not make the
    array decode.  With the class [T] registered, whose reconstruct hook
    refuses its payload, [deserializer] throws what the hook throws; and with
    [X] registered, an array tagged ["X"] whose payload holds an array with
    the unregistered tag ["Y"] is refused for that tag. *)
Lemma registered_tag_may_throw :
  register strict_class ∅ (VFunction 0) !! "T" ≠ None
  ∧ deserializer 4 (register strict_class ∅ (VFunction 0)) []
      (VArray [Some sentinel; Some (VString "_custom"); Some (VString "T"); Some VNull])
    = Throw (PlainError "unexpected payload")
  ∧ example_table !! "X" ≠ None
  ∧ deserializer 5 example_table []
      (VArray [Some sentinel; Some (VString "_custom"); Some (VString "X");
               Some (VArray [Some sentinel; Some (VString "_custom");
                             Some (VString "Y"); Some VNull])])
    = Throw (PlainError "Invalid or unknown tag: Y").
Proof. repeat split; (discriminate || reflexivity). Qed.

(** C2, amended.  An input that has, at the end of a path through arrays and
    plain objects without a [toJSON] method and whatever else it holds, a
    [_custom] array whose tag has no entry in the registry is never decoded:
    [deserializer] does not return a value on it.  Now take an input that has a [_custom] array at the
    position [pos] among plain data (or that is the array, when [pos] is
    [Here]), and whose payload [p] decodes to [p'].  If the registry has no
    entry for the carried tag, [deserializer] throws the unknown-tag error.
    If it has one,
    the decoder does not throw that error: it calls the registered hook on
    [p'], and the outcome of [deserializer] is the outcome of the hook; when
    the hook throws, [deserializer] throws the same, and when it returns,
    [deserializer] returns the input with what the hook returned in the place
    of the array.  In particular, when the registry is the one [register]
    leaves after it was given a constructor that carries this tag, the hook
    is the constructor's reconstruct hook bound to the constructor. *)
Theorem custom_tag_needs_registration (functions : nat → fn_info) (table : registry)
    (tag : string) :
  (table !! tag = None →
     ∀ (path : list step) (v : value) (rest : list (option value))
       (fuel : nat) (h h' : heap) (v' : value),
       member_at path v
         = Some (VArray (Some sentinel :: Some (VString "_custom")
                         :: Some (VString tag) :: rest)) →
       deserializer fuel table h v ≠ Ok (h', v'))
  ∧ (∀ (pos : position) (h h' : heap) (p p' : value),
       plain_position pos = true →
       returns (λ fuel, deserializer fuel table h p) (Ok (h', p')) →
       (table !! tag = None →
          returns (λ fuel, deserializer fuel table h
                     (place pos (VArray [Some sentinel; Some (VString "_custom");
                                         Some (VString tag); Some p])))
            (Throw (PlainError ("Invalid or unknown tag: " +:+ tag))))
       ∧ (∀ hook : value → outcome value,
            table !! tag = Some hook →
            (∀ x, hook p' = Ok x →
               pos = Here ∨ (x ≠ VUndefined ∧ is_string "_" x = false)) →
            returns (λ fuel, deserializer fuel table h
                       (place pos (VArray [Some sentinel; Some (VString "_custom");
                                           Some (VString tag); Some p])))
              (x ← hook p'; Ok (h', place pos x)))
       ∧ (∀ (table0 : registry) (ctor : value),
            table = register functions table0 ctor →
            is_function ctor = true →
            tag_member functions ctor = VString tag →
            is_function (deserialize_member functions ctor) = true →
            (∀ x, call functions (deserialize_member functions ctor) ctor p' = Ok x →
               pos = Here ∨ (x ≠ VUndefined ∧ is_string "_" x = false)) →
            returns (λ fuel, deserializer fuel table h
                       (place pos (VArray [Some sentinel; Some (VString "_custom");
                                           Some (VString tag); Some p])))
              (x ← call functions (deserialize_member functions ctor) ctor p';
               Ok (h', place pos x)))).
Proof.
  split.
  { intros Hnone path v rest fuel h h' v'. by apply unknown_tag_never_decodes. }
  intros pos h h' p p' Hplain Hp.
  pose proof (deserializer_custom_at table pos h h' tag p p' Hplain Hp) as Hrun.
  unfold revive_custom in Hrun.
  assert (Hhook : ∀ hook, table !! tag = Some hook →
            (∀ x, hook p' = Ok x → pos = Here ∨ (x ≠ VUndefined ∧ is_string "_" x = false)) →
            returns (λ fuel, deserializer fuel table h
                       (place pos (VArray [Some sentinel; Some (VString "_custom");
                                           Some (VString tag); Some p])))
              (x ← hook p'; Ok (h', place pos x))).
  { intros hook Hl Hx. rewrite Hl in Hrun.
    assert (Hsame : ('(h'', x) ← (x ← hook p'; Ok (h', x)); Ok (h'', place pos x))
                    = (x ← hook p'; Ok (h', place pos x)))
      by (by destruct (hook p')).
    rewrite <- Hsame. apply Hrun.
    intros h'' x Hcase. destruct (hook p') as [y | | |] eqn:Hy; try discriminate.
    simpl in Hcase. injection Hcase as <- <-. by apply Hx. }
  repeat split.
  - intros Hnone. rewrite Hnone in Hrun. by apply Hrun.
  - exact Hhook.
  - intros table0 ctor -> Hfn Htag Hd Hx. apply Hhook; [| done].
    unfold register. rewrite Hfn, Htag, Hd. simpl. apply lookup_insert_eq.
Qed.

Lemma custom_tag_needs_registration_witness :
  deserializer 6 ∅ []
      (VArray [Some (VMap []);
               Some (VObject
                       [("item",
                         VArray [Some sentinel; Some (VString "_custom");
                                 Some (VString "X"); Some VNull])])])
    ≠ Ok ([], VArray [Some (VMap []); Some (VObject [("item", new_X 0)])])
  ∧ returns (λ fuel, deserializer fuel ∅ []
             (place (InObject [("id", VNumber (number_of_nat 7))] "item" Here [])
                (VArray [Some sentinel; Some (VString "_custom"); Some (VString "X");
                         Some (VArray [Some sentinel; Some sentinel])])))
    (Throw (PlainError "Invalid or unknown tag: X"))
  ∧ returns (λ fuel, deserializer fuel example_table []
               (place (InObject [("id", VNumber (number_of_nat 7))] "item" Here [])
                  (VArray [Some sentinel; Some (VString "_custom"); Some (VString "X");
                           Some (VArray [Some sentinel; Some sentinel])])))
      (Ok ([], place (InObject [("id", VNumber (number_of_nat 7))] "item" Here [])
                 (new_X 0)))
  ∧ returns (λ fuel, deserializer fuel (register strict_class ∅ (VFunction 0)) []
               (VArray [Some sentinel; Some (VString "_custom"); Some (VString "T");
                        Some (VArray [Some sentinel; Some sentinel])]))
      (Throw (PlainError "unexpected payload")).
Proof.
  assert (Hpayload : ∀ table : registry,
            returns (λ fuel, deserializer fuel table []
                       (VArray [Some sentinel; Some sentinel]))
              (Ok ([], VUndefined))).
  { intros table. apply (deserializer_returns table 2); [reflexivity | discriminate]. }
  split; [| split; [| split]].
  - apply (proj1 (custom_tag_needs_registration example_functions ∅ "X"))
      with (path := [AtIndex 1; AtKey "item"]) (rest := [Some VNull]);
      reflexivity.
  - apply (proj1 (proj2 (custom_tag_needs_registration example_functions ∅ "X")
                    (InObject [("id", VNumber (number_of_nat 7))] "item" Here [])
                    [] [] (VArray [Some sentinel; Some sentinel]) VUndefined
                    eq_refl (Hpayload ∅))).
    reflexivity.
  - apply (proj2 (proj2 (proj2 (custom_tag_needs_registration example_functions
                                  example_table "X")
                           (InObject [("id", VNumber (number_of_nat 7))] "item" Here [])
                           [] [] (VArray [Some sentinel; Some sentinel]) VUndefined
                           eq_refl (Hpayload example_table)))
             ∅ (VFunction 0)); try reflexivity.
    intros x Hx. right. vm_compute in Hx. injection Hx as <-.
    split; [discriminate | reflexivity].
  - apply (proj2 (proj2 (proj2 (custom_tag_needs_registration strict_class
                                  (register strict_class ∅ (VFunction 0)) "T")
                           Here [] [] (VArray [Some sentinel; Some sentinel]) VUndefined
                           eq_refl (Hpayload _)))
             ∅ (VFunction 0)); try reflexivity.
    intros x Hx. by left.
Defined.

(** * More properties of the codec *)

(** ** Host objects *)



(** ** Values JSON has no text for *)

(** A [BigInt] among plain data makes both entry points throw the
    [TypeError] of [JSON.stringify]: neither replacer replaces it. *)
Theorem bigint_is_refused (functions : nat → fn_info) (table : registry)
    (p : position) (z : Z) (h : heap) :
  plain_position p = true →
  returns (λ fuel, serializer functions fuel h (place p (VBigInt z)))
    (Throw (TypeError "Do not know how to serialize a BigInt"))
  ∧ returns (λ fuel, deserializer fuel table h (place p (VBigInt z)))
      (Throw (TypeError "Do not know how to serialize a BigInt")).
Proof.
  intros Hplain. split; exists (position_weight p + 2); intros fuel Hfuel.
  - apply (serializer_throws_at functions p (VBigInt z) _ 1); try done; try lia;
      try (by right).
    intros rec f Hf. destruct f as [| f]; [lia |].
    rewrite SerializeJSONProperty_step by done. unfold serializer_replacer.
    by destruct (negb (truthy (VBigInt z))).
  - apply (deserializer_throws_at table p (VBigInt z) _ 1); try done; try lia;
      try (by right).
    intros f Hf. destruct f as [| f]; [lia |]. done.
Qed.

Lemma bigint_is_refused_witness :
  returns (λ fuel, serializer example_functions fuel example_heap
             (place (InArray [VString "first"] Here [VNull]) (VBigInt 7)))
    (Throw (TypeError "Do not know how to serialize a BigInt"))
  ∧ returns (λ fuel, deserializer fuel example_table example_heap
               (place (InArray [VString "first"] Here [VNull]) (VBigInt 7)))
      (Throw (TypeError "Do not know how to serialize a BigInt")).
Proof.
  apply (bigint_is_refused example_functions example_table
           (InArray [VString "first"] Here [VNull]) 7 example_heap).
  reflexivity.
Defined.

(** ** Instances of classes the codec does not know *)



(** ** Functions *)

(** The decoder on the [_fn] array of a port, among plain data: the array
    becomes a proxy around that very port. *)
Lemma deserializer_fn_at (table : registry) (p : position) (l : loc) (h : heap)
    (fuel : nat) :
  plain_position p = true →
  position_weight p + 4 < fuel →
  deserializer fuel table h
      (place p (VArray [Some sentinel; Some (VString "_fn"); Some (VRef l)]))
    = Ok (h, place p (VProxy (VRef l))).
Proof.
  intros Hplain Hfuel.
  apply (deserializer_at table p _ (VProxy (VRef l)) [VRef l] (fn_json 0) 4);
    try done; try (by right).
  intros f Hf. destruct f as [| [| [| f]]]; try lia. reflexivity.
Qed.

(** Encoding a function that sits among plain data, and is not the [toJSON]
    member of an object, and decoding the result gives, at the place of the
    function, a proxy around [port2], the peer of the port whose handler
    calls the function; the rest of the data is as it was, and the two ports
    are the only change to the heap. *)
Theorem function_comes_back_as_proxy (functions : nat → fn_info) (table : registry)
    (p : position) (f : value) (h : heap) :
  is_function f = true →
  plain_position p = true →
  names_toJSON p = false →
  returns (λ fuel, '(h1, r) ← serializer functions fuel h (place p f);
                   deserializer fuel table h1 (data r))
    (Ok (h ++ [HMessagePort (S (length h)) (Some f); HMessagePort (length h) None],
         place p (VProxy (VRef (S (length h)))))).
Proof.
  intros Hf Hplain Hsafe. exists (position_weight p + 5). intros fuel Hfuel.
  rewrite serializer_function_at by (done || lia). simpl.
  by rewrite deserializer_fn_at by (done || lia).
Qed.

Lemma function_comes_back_as_proxy_witness :
  returns (λ fuel, '(h1, r) ← serializer example_functions fuel example_heap
                                (place (InObject [] "callback" Here [("n", VNull)])
                                       (VFunction 7));
                   deserializer fuel example_table h1 (data r))
    (Ok (example_heap ++ [HMessagePort 2 (Some (VFunction 7)); HMessagePort 1 None],
         place (InObject [] "callback" Here [("n", VNull)]) (VProxy (VRef 2)))).
Proof.
  apply (function_comes_back_as_proxy example_functions example_table
           (InObject [] "callback" Here [("n", VNull)]) (VFunction 7) example_heap);
    reflexivity.
Defined.

(** ** The wire format *)





(** ** Chains of causes *)



(** ** What [serializer] does to the heap *)

(** Whatever it is given, [serializer] removes no object from the heap and
    changes none, except that it rewrites the causes of errors: a port, a
    buffer, a [Blob] stays what it was, an error keeps its name and its
    message, and the objects that are new in the heap are ports. *)
Theorem serializer_only_rewrites_causes (functions : nat → fn_info) (fuel : nat)
    (h : heap) (v : value) (h' : heap) (r : enc_result) :
  serializer functions fuel h v = Ok (h', r) →
  heap_evolves h h'.
Proof. apply serializer_evolves. Qed.

Lemma serializer_only_rewrites_causes_witness :
  heap_evolves
    [HArrayBuffer; HError "RangeError" "boom" (VSet [VNull])]
    [HArrayBuffer;
     HError "RangeError" "boom"
       (VArray [Some sentinel; Some (VString "Set"); Some (VArray [Some VNull])]);
     HMessagePort 3 (Some (VFunction 7)); HMessagePort 2 None].
Proof.
  apply (serializer_only_rewrites_causes example_functions 6
           [HArrayBuffer; HError "RangeError" "boom" (VSet [VNull])]
           (VArray [Some (VRef 0); Some (VRef 1); Some (VFunction 7)])
           _
           {| data := VArray [Some (VRef 0);
                              Some (VArray [Some sentinel; Some (VString "_err");
                                            Some (VRef 1); Some (VString "RangeError")]);
                              Some (VArray [Some sentinel; Some (VString "_fn");
                                            Some (VRef 3)])];
              transferables := [0; 3]; revokables := [2] |}).
  vm_compute. reflexivity.
Defined.

(** ** What [serializer] hands over for transfer *)

(** Neither of the two lists [serializer] returns names an object twice,
    however often the object occurs in the data. *)
Theorem transfer_lists_have_no_repetition (functions : nat → fn_info) (fuel : nat)
    (h : heap) (v : value) (h' : heap) (r : enc_result) :
  serializer functions fuel h v = Ok (h', r) →
  NoDup (transferables r) ∧ NoDup (revokables r).
Proof.
  intros H. destruct (serializer_keeps functions fuel h v h' r H)
    as (_ & Ht & Hr & _ & _).
  split; [apply Ht | apply Hr]; apply NoDup_nil_2.
Qed.

Lemma transfer_lists_have_no_repetition_witness :
  NoDup [0; 3] ∧ NoDup [2].
Proof.
  apply (transfer_lists_have_no_repetition example_functions 6
           [HArrayBuffer; HArrayBufferView 0]
           (VArray [Some (VRef 1); Some (VRef 0); Some (VFunction 7); Some (VRef 1)])
           [HArrayBuffer; HArrayBufferView 0;
            HMessagePort 3 (Some (VFunction 7)); HMessagePort 2 None]
           {| data := VArray [Some (VRef 1); Some (VRef 0);
                              Some (VArray [Some sentinel; Some (VString "_fn");
                                            Some (VRef 3)]);
                              Some (VRef 1)];
              transferables := [0; 3]; revokables := [2] |}).
  vm_compute. reflexivity.
Defined.

(** Every revokable [serializer] returns is a port it has created during the
    call: the first port of a channel, which keeps the handler that calls a
    function, and whose peer, the second port, is among the transferables. *)
Theorem revokables_are_new_channels (functions : nat → fn_info) (fuel : nat)
    (h : heap) (v : value) (h' : heap) (r : enc_result) :
  serializer functions fuel h v = Ok (h', r) →
  ∀ l, l ∈ revokables r →
    length h ≤ l ∧ channel_at h' l ∧ S l ∈ transferables r.
Proof.
  intros H l Hl. destruct (serializer_keeps functions fuel h v h' r H)
    as (_ & _ & _ & _ & Hnew).
  destruct (Hnew l Hl) as [Hin | Hfresh]; [| done].
  by apply elem_of_nil in Hin.
Qed.

Lemma revokables_are_new_channels_witness :
  2 ≤ 2
  ∧ channel_at [HArrayBuffer; HArrayBufferView 0;
                HMessagePort 3 (Some (VFunction 7)); HMessagePort 2 None] 2
  ∧ 3 ∈ [0; 3].
Proof.
  apply (revokables_are_new_channels example_functions 6
           [HArrayBuffer; HArrayBufferView 0]
           (VArray [Some (VRef 1); Some (VRef 0); Some (VFunction 7); Some (VRef 1)])
           [HArrayBuffer; HArrayBufferView 0;
            HMessagePort 3 (Some (VFunction 7)); HMessagePort 2 None]
           {| data := VArray [Some (VRef 1); Some (VRef 0);
                              Some (VArray [Some sentinel; Some (VString "_fn");
                                            Some (VRef 3)]);
                              Some (VRef 1)];
              transferables := [0; 3]; revokables := [2] |}).
  - vm_compute. reflexivity.
  - apply list_elem_of_singleton. reflexivity.
Defined.

(** ** What [deserializer] does to the heap *)

(** Whatever it is given, [deserializer] creates no object in the heap and
    removes none, and the only objects it changes are errors, of which it may
    set the name and the cause: the message of an error and every other
    object stay what they were. *)
Theorem deserializer_only_rewrites_errors (table : registry) (fuel : nat)
    (h : heap) (v : value) (h' : heap) (v' : value) :
  deserializer fuel table h v = Ok (h', v') →
  heap_revived h h'.
Proof. apply deserializer_revived. Qed.

Lemma deserializer_only_rewrites_errors_witness :
  heap_revived
    [HArrayBuffer;
     HError "Error" "boom"
       (VArray [Some sentinel; Some (VString "Set"); Some (VArray [Some VNull])])]
    [HArrayBuffer; HError "RangeError" "boom" (VSet [VNull])].
Proof.
  apply (deserializer_only_rewrites_errors example_table 6
           [HArrayBuffer;
            HError "Error" "boom"
              (VArray [Some sentinel; Some (VString "Set"); Some (VArray [Some VNull])])]
           (VArray [Some (VRef 0);
                    Some (VArray [Some sentinel; Some (VString "_err");
                                  Some (VRef 1); Some (VString "RangeError")])])
           _
           (VArray [Some (VRef 0); Some (VRef 1)])).
  vm_compute. reflexivity.
Defined.

(** ** Data the decoder has nothing to do on *)



(** ** Input that has no JSON text *)

(** [deserializer] throws a [SyntaxError] when it is given [undefined] or a
    function itself: [JSON.stringify] returns [undefined] for them, which
    [JSON.parse] does not read. *)
Theorem deserializer_needs_text (table : registry) (h : heap) (v : value) (fuel : nat) :
  v = VUndefined ∨ is_function v = true →
  ∃ msg, deserializer (S fuel) table h v = Throw (SyntaxError msg).
Proof.
  intros [-> | Hf]; eexists.
  - reflexivity.
  - destruct v; try discriminate; reflexivity.
Qed.

Lemma deserializer_needs_text_witness :
  ∃ msg, deserializer 1 example_table example_heap (VFunction 7) = Throw (SyntaxError msg).
Proof.
  apply (deserializer_needs_text example_table example_heap (VFunction 7) 0).
  right. reflexivity.
Defined.

(** ** Registering several classes *)

(** The order in which two classes with different tags are registered does
    not matter, whether or not each of them passes the checks. *)
Theorem register_commutes (functions : nat → fn_info) (table : registry)
    (ctor1 ctor2 : value) :
  tag_member functions ctor1 ≠ tag_member functions ctor2 →
  register functions (register functions table ctor1) ctor2
    = register functions (register functions table ctor2) ctor1.
Proof.
  intros Hne. unfold register.
  destruct (is_function ctor1 && is_a_string (tag_member functions ctor1)
            && is_function (deserialize_member functions ctor1)); [| done].
  destruct (is_function ctor2 && is_a_string (tag_member functions ctor2)
            && is_function (deserialize_member functions ctor2)); [| done].
  destruct (tag_member functions ctor1) as [| | | | | t1 | | | | | | | | |]; try done.
  destruct (tag_member functions ctor2) as [| | | | | t2 | | | | | | | | |]; try done.
  apply insert_insert_ne. congruence.
Qed.

Lemma register_commutes_witness :
  register two_classes (register two_classes ∅ (VFunction 0)) (VFunction 1)
    = register two_classes (register two_classes ∅ (VFunction 1)) (VFunction 0).
Proof.
  apply (register_commutes two_classes ∅ (VFunction 0) (VFunction 1)).
  discriminate.
Defined.

(** ** What [serializer] never returns *)

(** The data [serializer] returns is made of [null], booleans, numbers,
    strings, arrays without holes, plain objects and host objects only: it
    holds no [undefined], no function, no [BigInt], no [Map], no [Set] and no
    class instance, whatever the input was, so the host can copy it. *)
Theorem serializer_data_is_cloneable (functions : nat → fn_info) (fuel : nat)
    (h : heap) (v : value) (h' : heap) (r : enc_result) :
  hooks_raw_free functions →
  raw_free v = true →
  serializer functions fuel h v = Ok (h', r) →
  cloneable (data r) = true.
Proof. apply serializer_data_cloneable. Qed.

Lemma serializer_data_is_cloneable_witness :
  cloneable
    (VArray [Some (VArray [Some sentinel; Some sentinel]);
             Some (VArray [Some sentinel; Some (VString "_custom"); Some (VString "X");
                           Some (VArray [Some sentinel; Some sentinel])]);
             Some (VArray [Some sentinel; Some (VString "_fn"); Some (VRef 2)]);
             Some (VArray [Some sentinel; Some (VString "Map");
                           Some (VArray [Some (VArray [Some VNull; Some (VRef 0)])])]);
             Some (VObject [("__x", VString "11")])])
  = true.
Proof.
  apply (serializer_data_is_cloneable example_functions 8 [HBlob]
           (VArray [Some VUndefined; Some (new_X 0); Some (VFunction 7);
                    Some (VMap [(VNull, VRef 0)]); Some (new_X 5)])
           [HBlob; HMessagePort 2 (Some (VFunction 7)); HMessagePort 1 None]
           {| data := VArray [Some (VArray [Some sentinel; Some sentinel]);
                              Some (VArray [Some sentinel; Some (VString "_custom");
                                            Some (VString "X");
                                            Some (VArray [Some sentinel; Some sentinel])]);
                              Some (VArray [Some sentinel; Some (VString "_fn");
                                            Some (VRef 2)]);
                              Some (VArray [Some sentinel; Some (VString "Map");
                                            Some (VArray [Some (VArray [Some VNull;
                                                                        Some (VRef 0)])])]);
                              Some (VObject [("__x", VString "11")])];
              transferables := [2]; revokables := [1] |}).
  - intros [| [| [| [| c]]]]; (split; [reflexivity |]); intros this arg x Harg H;
      simpl in H; try discriminate; try (by injection H as <-).
    destruct this; try discriminate. by injection H as <-.
  - reflexivity.
  - vm_compute. reflexivity.
Defined.

(** ** Encoding the same error again *)



(** ** Tagged arrays of a kind the decoder does not know *)

(** An array of plain data that starts with ['_'] but whose second member is
    none of the seven kinds is not refused: the [switch] has no default case,
    and [deserializer] returns the array as it is. *)
Theorem deserializer_ignores_unknown_kind (table : registry) (x : value)
    (rest : list value) (h : heap) :
  json_plain x = true →
  (∀ kind, kind ∈ known_kinds → x ≠ VString kind) →
  forallb json_plain rest = true →
  returns (λ fuel, deserializer fuel table h
             (VArray (Some sentinel :: Some x :: (Some <$> rest))))
    (Ok (h, VArray (Some sentinel :: Some x :: (Some <$> rest)))).
Proof.
  intros Hx Hkind Hrest.
  exists (weight x + sum_list_with weight rest + 3). intros fuel Hfuel.
  destruct fuel as [| [| fuel]]; try lia.
  rewrite deserializer_S. unfold JSON_stringify.
  rewrite SerializeJSONProperty_S. simpl.
  rewrite (decoder_prints_plain x) by (done || lia). simpl.
  rewrite spread_Some.
  rewrite (plain_prints_list deserializer_replacer decoder_prints_plain rest)
    by (done || lia).
  simpl. rewrite InternalizeJSONProperty_array. simpl.
  rewrite (decoder_revives_plain table _ [] x) by done. simpl.
  rewrite (plain_revives_list _ (decoder_revives_plain table _ []) rest) by done.
  simpl. rewrite (plain_not_undefined x) by done.
  unfold deserializer_reviver, array_get. simpl.
  destruct x as [| | | | | kind | | | | | | | | |]; try done.
  assert (Hne : ∀ k, k ∈ known_kinds → String.eqb kind k = false).
  { intros k Hk. apply String.eqb_neq. intros ->. by apply (Hkind k). }
  rewrite !Hne; [done | | | | | | |]; unfold known_kinds;
    repeat (first [by left | right]).
Qed.

Lemma deserializer_ignores_unknown_kind_witness :
  returns (λ fuel, deserializer fuel example_table example_heap
             (VArray (Some sentinel :: Some (VString "Date")
                      :: (Some <$> [VNumber (number_of_nat 17)]))))
    (Ok (example_heap,
         VArray (Some sentinel :: Some (VString "Date")
                 :: (Some <$> [VNumber (number_of_nat 17)])))).
Proof.
  apply (deserializer_ignores_unknown_kind example_table (VString "Date")
           [VNumber (number_of_nat 17)] example_heap).
  - reflexivity.
  - intros kind Hkind Heq. injection Heq as <-. vm_compute in Hkind.
    repeat (apply elem_of_cons in Hkind as [Hkind | Hkind]; [discriminate |]).
    by apply elem_of_nil in Hkind.
  - reflexivity.
Defined.

(** ** What is in the data is in the transfer list *)

(** For every host object that occurs in the data [serializer] returns,
    outside of the causes of errors, [serializer] also returns what has to be
    transferred with it: the object itself when it is a port, a stream or a
    buffer, the underlying buffer when it is a view. *)
Theorem transferables_cover_data (functions : nat → fn_info) (fuel : nat)
    (h : heap) (v : value) (h' : heap) (r : enc_result) :
  hooks_raw_free functions →
  raw_free v = true →
  serializer functions fuel h v = Ok (h', r) →
  ∀ l, l ∈ refs_in (data r) →
    ∃ o, h' !! l = Some o ∧ transfer_of l o ⊆ transferables r.
Proof. apply serializer_covers. Qed.

Lemma transferables_cover_data_witness :
  ∃ o, [HArrayBuffer; HArrayBufferView 0;
        HMessagePort 3 (Some (VFunction 7)); HMessagePort 2 None] !! 3 = Some o
       ∧ transfer_of 3 o ⊆ [0; 3].
Proof.
  apply (transferables_cover_data example_functions 6
           [HArrayBuffer; HArrayBufferView 0]
           (VArray [Some (VRef 1); Some (VFunction 7)])
           [HArrayBuffer; HArrayBufferView 0;
            HMessagePort 3 (Some (VFunction 7)); HMessagePort 2 None]
           {| data := VArray [Some (VRef 1);
                              Some (VArray [Some sentinel; Some (VString "_fn");
                                            Some (VRef 3)])];
              transferables := [0; 3]; revokables := [2] |}).
  - intros [| [| [| [| c]]]]; (split; [reflexivity |]); intros this arg x Harg H;
      simpl in H; try discriminate; try (by injection H as <-).
    destruct this; try discriminate. by injection H as <-.
  - reflexivity.
  - vm_compute. reflexivity.
  - simpl. repeat (first [by left | right]).
Defined.
